(** * Droop: the Meek/Warren and WIGM single-transferable-vote counters

    A shallow embedding of [droop/rules/meek.py] and [droop/rules/wigm_prf.py]
    together with the properties of the counting engine that the
    specification states about them.

    Layout:
    - [Values]   : the arithmetic kernel (interface and the three kernels);
    - [Election] : candidates, ballots, rounds and the candidate-state
                   transitions;
    - [Batch]    : the sure-loser grouping shared by both counters;
    - [Meek]     : [meek.py];
    - [Wigm]     : [wigm_prf.py];
    - the theorems. *)

From Stdlib Require Import String Ascii.
From Stdlib Require Import ZArith List Bool Lia QArith Qcanon Psatz.
From Stdlib Require Import Permutation.
Import ListNotations.
Open Scope Z_scope.

Set Implicit Arguments.

(* ===================================================================== *)
(** * Errors and results                                                  *)
(* ===================================================================== *)

(** Python exceptions the counters can raise. *)
Inductive exn : Type :=
| ZeroDivisionError
| ValueError
| AttributeError
| IndexError.

(** The outcome of running a piece of the counter: a value, a raised
    exception, or [Timeout] when the fuel given to a [while] loop ran out
    ([Timeout] is a device of the embedding, the source has no such thing). *)
Inductive result (T : Type) : Type :=
| Ok (x : T)
| Raise (e : exn)
| Timeout.

Arguments Ok {T} x.
Arguments Raise {T} e.
Arguments Timeout {T}.

Definition bind {T U : Type} (m : result T) (f : T -> result U) : result U :=
  match m with
  | Ok x => f x
  | Raise e => Raise e
  | Timeout => Timeout
  end.

Notation "x <- m ;; k" := (bind m (fun x => k))
  (at level 61, m at next level, right associativity).

(** [for x in xs: acc = f(acc, x)] where the body may raise. *)
Fixpoint foldM {T S : Type} (f : S -> T -> result S) (xs : list T) (s : S)
  : result S :=
  match xs with
  | [] => Ok s
  | x :: xs' => s' <- f s x ;; foldM f xs' s'
  end.

(* ===================================================================== *)
(** * The arithmetic kernel                                               *)
(* ===================================================================== *)

Module Values.

Inductive rounding : Type := RoundUp | RoundDown | RoundNearest.

Inductive kernel_name : Type := Fixed | Guarded | Rational.

(** Modelled from the spec: the value classes of [droop.values] are not part
    of the sources at hand.  The interface is the one section 3 and 4.A of
    the specification give: constants [V0], [V1], [epsilon], construction
    from an integer, the four operations with an optional rounding mode,
    an order, and the [exact] flag.  [scale] is the exact product of a value
    and a Python [int] ([b.weight * b.multiplier]).  [quot] is the quotient
    for a divisor that is not zero; [div] below raises on a zero divisor. *)
Class Arith : Type := {
  V : Type;
  name : kernel_name;
  precision : Z;
  exact : bool;
  V0 : V;
  V1 : V;
  epsilon : V;
  of_int : Z -> V;
  add : V -> V -> V;
  sub : V -> V -> V;
  scale : V -> Z -> V;
  prod : V -> V -> option rounding -> V;
  quot : V -> V -> option rounding -> V;
  is_zero : V -> bool;
  eqb : V -> V -> bool;
  ltb : V -> V -> bool;
  leb : V -> V -> bool
}.

Section Derived.
Context {A : Arith}.

(** [a > b] and [a >= b] as Python evaluates them. *)
Definition gtb (a b : V) : bool := ltb b a.
Definition geb (a b : V) : bool := leb b a.

(** [V.mul(a, b, round=r)]. *)
Definition mul (a b : V) (r : rounding) : V := prod a b (Some r).

(** [a * b] on two values. *)
Definition times (a b : V) : V := prod a b None.

(** [V.div(a, b, round=r)] and [a / b]: a zero divisor raises. *)
Definition div (a b : V) (r : rounding) : result V :=
  if is_zero b then Raise ZeroDivisionError else Ok (quot a b (Some r)).

Definition over (a b : V) : result V :=
  if is_zero b then Raise ZeroDivisionError else Ok (quot a b None).

(** [sum(xs, V0)]: Python adds from the left, starting at [V0]. *)
Definition sum (xs : list V) : V := fold_left add xs V0.

(** [V.min(xs)] and [max(xs)]; both raise [ValueError] on an empty list and
    keep the first of several equal extremes. *)
Definition vmin (xs : list V) : result V :=
  match xs with
  | [] => Raise ValueError
  | x :: xs' => Ok (fold_left (fun m y => if ltb y m then y else m) xs' x)
  end.

Definition vmax (xs : list V) : result V :=
  match xs with
  | [] => Raise ValueError
  | x :: xs' => Ok (fold_left (fun m y => if ltb m y then y else m) xs' x)
  end.
End Derived.

(** ** fixed(p): an integer [x] standing for [x / 10^p] *)

(** Modelled from the spec (4.A): [round=up] adds [10^p - 1] before flooring
  (for a quotient: the divisor less one, so that the result is the least
  value not below the quotient); [round=down] and no rounding mode truncate;
  [nearest] adds half. *)
Definition fixed_prod (s a b : Z) (r : option rounding) : Z :=
match r with
| Some RoundUp => (a * b + (s - 1)) / s
| Some RoundNearest => (a * b + s / 2) / s
| _ => Z.quot (a * b) s
end.

Definition fixed_quot (s a b : Z) (r : option rounding) : Z :=
match r with
| Some RoundUp => (a * s + (b - 1)) / b
| Some RoundNearest => (a * s + b / 2) / b
| _ => Z.quot (a * s) b
end.

Definition FixedArith (p : Z) : Arith := {|
V := Z;
name := Fixed;
precision := p;
exact := false;
V0 := 0;
V1 := 10 ^ p;
epsilon := 1;
of_int := fun n => n * 10 ^ p;
add := Z.add;
sub := Z.sub;
scale := Z.mul;
prod := fixed_prod (10 ^ p);
quot := fixed_quot (10 ^ p);
is_zero := fun a => a =? 0;
eqb := Z.eqb;
ltb := Z.ltb;
leb := Z.leb
|}.

(** ** guarded(p, g): fixed-point with [g] guard digits *)

(** Modelled from the spec (4.A): the representation has [p + g] digits,
  two values within [10^-p] of each other compare equal, and [epsilon] is
  [10^-p], that is [10^g] in the representation. *)
Definition guarded_eqb (g a b : Z) : bool := Z.abs (a - b) <? 10 ^ g.

Definition GuardedArith (p g : Z) : Arith := {|
V := Z;
name := Guarded;
precision := p;
exact := false;
V0 := 0;
V1 := 10 ^ (p + g);
epsilon := 10 ^ g;
of_int := fun n => n * 10 ^ (p + g);
add := Z.add;
sub := Z.sub;
scale := Z.mul;
prod := fixed_prod (10 ^ (p + g));
quot := fixed_quot (10 ^ (p + g));
is_zero := fun a => a =? 0;
eqb := guarded_eqb g;
ltb := fun a b => (a <? b) && negb (guarded_eqb g a b);
leb := fun a b => (a <=? b) || guarded_eqb g a b
|}.

(** ** rational: exact, always reduced *)

(** Modelled from the spec (4.A): [epsilon = 0], [exact = true], rounding
  modes are no-ops.  [Qc] is the type of reduced fractions. *)
Definition Qc_eqb (a b : Qc) : bool := Qeq_bool a b.
Definition Qc_leb (a b : Qc) : bool := Qle_bool a b.
Definition Qc_ltb (a b : Qc) : bool := negb (Qle_bool b a).

Definition RationalArith : Arith := {|
V := Qc;
name := Rational;
precision := 0;
exact := true;
V0 := Q2Qc 0;
V1 := Q2Qc 1;
epsilon := Q2Qc 0;
of_int := fun n => Q2Qc (inject_Z n);
add := Qcplus;
sub := Qcminus;
scale := fun a m => Qcmult a (Q2Qc (inject_Z m));
prod := fun a b _ => Qcmult a b;
quot := fun a b _ => Qcdiv a b;
is_zero := fun a => Qc_eqb a (Q2Qc 0);
eqb := Qc_eqb;
ltb := Qc_ltb;
leb := Qc_leb
|}.

End Values.
Export Values.

(* ===================================================================== *)
(** * Candidates, ballots, rounds                                         *)
(* ===================================================================== *)

Module Election.

Inductive status : Type := Withdrawn | Hopeful | Pending | Elected | Defeated.

Definition status_eqb (a b : status) : bool :=
match a, b with
| Withdrawn, Withdrawn | Hopeful, Hopeful | Pending, Pending
| Elected, Elected | Defeated, Defeated => true
| _, _ => false
end.

Lemma status_eqb_eq (a b : status) : status_eqb a b = true <-> a = b.
Proof. destruct a, b; simpl; split; congruence. Qed.

Inductive action_kind : Type :=
| KElect | KDefeat | KPend | KUnpend | KTransfer | KTie | KLog.

(** Insertion sort, the order given as a boolean "not after". *)
Section Sorting.
Variable T : Type.
Variable le : T -> T -> bool.

Fixpoint insert_sorted (x : T) (xs : list T) : list T :=
  match xs with
  | [] => [x]
  | y :: ys => if le x y then x :: xs else y :: insert_sorted x ys
  end.

Fixpoint isort (xs : list T) : list T :=
  match xs with
  | [] => []
  | x :: xs' => insert_sorted x (isort xs')
  end.
End Sorting.

Section WithArith.
Context {A : Arith}.

(** Modelled from the spec (section 3): the candidate, ballot and round
    classes of [droop.election] are not part of the sources at hand. *)
Record Candidate : Type := mkCandidate {
  cid : nat;
  cname : string;
  order : nat;
  cstatus : status;
  vote : V;
  kf : V
}.

Definition set_status (s : status) (c : Candidate) : Candidate :=
  mkCandidate (cid c) (cname c) (order c) s (vote c) (kf c).
Definition set_vote (v : V) (c : Candidate) : Candidate :=
  mkCandidate (cid c) (cname c) (order c) (cstatus c) v (kf c).
Definition set_kf (k : V) (c : Candidate) : Candidate :=
  mkCandidate (cid c) (cname c) (order c) (cstatus c) (vote c) k.

(** A ballot line: [multiplier] identical ballots with one [ranking];
    [weight], [bresidual] and the cursor [index] change during a count. *)
Record Ballot : Type := mkBallot {
  multiplier : Z;
  ranking : list nat;
  weight : V;
  bresidual : V;
  index : nat
}.

Definition set_weight (w : V) (b : Ballot) : Ballot :=
  mkBallot (multiplier b) (ranking b) w (bresidual b) (index b).
Definition set_bresidual (r : V) (b : Ballot) : Ballot :=
  mkBallot (multiplier b) (ranking b) (weight b) r (index b).
Definition set_index (i : nat) (b : Ballot) : Ballot :=
  mkBallot (multiplier b) (ranking b) (weight b) (bresidual b) i.

(** A log entry: kind, message, the candidates it names and the value the
    message prints, if any. *)
Record action : Type := mkAction {
  akind : action_kind;
  amsg : string;
  awho : list nat;
  aval : option V
}.

Record Round : Type := mkRound {
  n : nat;
  quota : V;
  votes : V;
  surplus : V;
  residual : V;
  C : list Candidate;
  log : list action
}.

(** The election: the profile's constants, the ballots, the current round
    [R] and the earlier rounds, latest first. *)
Record Election : Type := mkElection {
  nSeats : Z;
  nBallots : Z;
  ballots : list Ballot;
  R : Round;
  rounds : list Round
}.

Definition with_R (f : Round -> Round) (E : Election) : Election :=
  mkElection (nSeats E) (nBallots E) (ballots E) (f (R E)) (rounds E).
Definition with_ballots (bs : list Ballot) (E : Election) : Election :=
  mkElection (nSeats E) (nBallots E) bs (R E) (rounds E).

Definition set_quota (q : V) (r : Round) : Round :=
  mkRound (n r) q (votes r) (surplus r) (residual r) (C r) (log r).
Definition set_votes (v : V) (r : Round) : Round :=
  mkRound (n r) (quota r) v (surplus r) (residual r) (C r) (log r).
Definition set_surplus (s : V) (r : Round) : Round :=
  mkRound (n r) (quota r) (votes r) s (residual r) (C r) (log r).
Definition set_residual (x : V) (r : Round) : Round :=
  mkRound (n r) (quota r) (votes r) (surplus r) x (C r) (log r).
Definition set_C (cs : list Candidate) (r : Round) : Round :=
  mkRound (n r) (quota r) (votes r) (surplus r) (residual r) cs (log r).
Definition add_log (a : action) (r : Round) : Round :=
  mkRound (n r) (quota r) (votes r) (surplus r) (residual r) (C r)
          (log r ++ [a]).

(** ** Derived sets: views computed by filtering, in catalogue order *)

Definition has_status (s : status) (c : Candidate) : bool :=
  status_eqb (cstatus c) s.

Definition hopeful (cs : list Candidate) := filter (has_status Hopeful) cs.
Definition elected (cs : list Candidate) := filter (has_status Elected) cs.
Definition pending (cs : list Candidate) := filter (has_status Pending) cs.
Definition defeated (cs : list Candidate) := filter (has_status Defeated) cs.
Definition withdrawn (cs : list Candidate) := filter (has_status Withdrawn) cs.
Definition hopefulOrElected (cs : list Candidate) :=
  filter (fun c => has_status Hopeful c || has_status Elected c) cs.

Definition nHopeful (cs : list Candidate) : Z := Z.of_nat (length (hopeful cs)).
Definition nElected (cs : list Candidate) : Z := Z.of_nat (length (elected cs)).
Definition nPending (cs : list Candidate) : Z := Z.of_nat (length (pending cs)).

(** [seatsLeftToFill() = S - |elected| - |pending|]. *)
Definition seatsLeftToFill (E : Election) : Z :=
  nSeats E - nElected (C (R E)) - nPending (C (R E)).

(** ** The candidate store: candidates are found and updated by [cid] *)

Definition lookup (k : nat) (cs : list Candidate) : option Candidate :=
  find (fun c => Nat.eqb (cid c) k) cs.

Definition update (k : nat) (f : Candidate -> Candidate)
           (cs : list Candidate) : list Candidate :=
  map (fun c => if Nat.eqb (cid c) k then f c else c) cs.

(** ** Status transitions; each writes a log entry *)

Definition transition (kind : action_kind) (s : status) (k : nat)
           (msg : string) (r : Round) : Round :=
  add_log (mkAction kind msg [k] None) (set_C (update k (set_status s) (C r)) r).

Definition elect (k : nat) (msg : string) : Round -> Round :=
  transition KElect Elected k msg.
Definition defeat (k : nat) (msg : string) : Round -> Round :=
  transition KDefeat Defeated k msg.
Definition pend (k : nat) : Round -> Round :=
  transition KPend Pending k "Pend"%string.

(** [newRound()]: the candidate state is carried over, [n] is incremented,
    the log is reset, and the round that ends is frozen. *)
Definition newRound (E : Election) : Election :=
  let r := R E in
  mkElection (nSeats E) (nBallots E) (ballots E)
             (mkRound (S (n r)) (quota r) (votes r) (surplus r) (residual r)
                      (C r) [])
             (r :: rounds E).

(** ** Ordering helpers *)

(** [sortByOrder], [byTieOrder] and [byBallotOrder]: by ballot-file order. *)
Definition order_le (c d : Candidate) : bool := Nat.leb (order c) (order d).
Definition sortByOrder (cs : list Candidate) : list Candidate :=
  isort order_le cs.

(** [sortByVote] and [byVote()]: ascending by vote, ties by ballot order. *)
Definition vote_le (c d : Candidate) : bool :=
  ltb (vote c) (vote d) || (eqb (vote c) (vote d) && Nat.leb (order c) (order d)).
Definition sortByVote (cs : list Candidate) : list Candidate :=
  isort vote_le cs.

(** [byVote(reverse=True)]. *)
Definition sortByVoteReversed (cs : list Candidate) : list Candidate :=
  rev (sortByVote cs).

End WithArith.
End Election.
Export Election.

(* ===================================================================== *)
(** * Sure losers: the grouping shared by [meek.py] and [wigm_prf.py]     *)
(* ===================================================================== *)

Module Batch.
Section WithArith.
Context {A : Arith}.

Definition nonempty {T : Type} (xs : list T) : bool :=
  match xs with [] => false | _ => true end.

(** The state of the first loop: [(sortedGroups, group, vote)]. *)
Definition group_state : Type := (list (list Candidate) * list Candidate * V)%type.

Definition close_group (gs : list (list Candidate)) (g : list Candidate)
  : list (list Candidate) :=
  if nonempty g then gs ++ [g] else gs.

(** One turn of [for c in sortedCands]. *)
Definition group_step (surplus : V) (st : group_state) (c : Candidate)
  : group_state :=
  let '(gs, g, v) := st in
  if geb (add v surplus) (vote c)
  then (gs, g ++ [c], v)
  else (close_group gs g, [c], vote c).

Definition sortedGroups (surplus : V) (sortedCands : list Candidate)
  : list (list Candidate) :=
  let '(gs, g, _) := fold_left (group_step surplus) sortedCands ([], [], V0) in
  close_group gs g.

(** The second loop, [for g in xrange(len(sortedGroups) - 1)], as a
    recursion on the groups from index [g] on; it stops before the last
    group.  [sortedGroups[g+1][0]] is the head of the next group; a group
    is never empty (lemma [sortedGroups_nonempty]), so the branch for an
    empty next group is never taken. *)
Fixpoint scan (surplus : V) (maxDefeat : Z) (gs : list (list Candidate))
         (g : nat) (ncand : Z) (v : V) (maxg : option nat) : option nat :=
  match gs with
  | group :: ((next :: _) as rest) =>
      let ncand' := ncand + Z.of_nat (length group) in
      if ncand' >? maxDefeat then maxg
      else
        let v' := add v (sum (map vote group)) in
        let maxg' :=
          match next with
          | c :: _ => if ltb (add v' surplus) (vote c) then Some g else maxg
          | [] => maxg
          end in
        scan surplus maxDefeat rest (S g) ncand' v' maxg'
  | _ => maxg
  end.

Definition find_maxg (surplus : V) (maxDefeat : Z)
           (gs : list (list Candidate)) : option nat :=
  scan surplus maxDefeat gs 0 0 V0 None.

(** [for g in xrange(maxg+1): batch.extend(sortedGroups[g])]. *)
Definition batch_of (gs : list (list Candidate)) (maxg : option nat)
  : list Candidate :=
  match maxg with
  | None => []
  | Some g => concat (firstn (S g) gs)
  end.

(** The body of [batchDefeat] from the sorted hopefuls on. *)
Definition sure_losers (surplus : V) (maxDefeat : Z)
           (sortedCands : list Candidate) : list Candidate :=
  let gs := sortedGroups surplus sortedCands in
  batch_of gs (find_maxg surplus maxDefeat gs).

End WithArith.
End Batch.
Export Batch.

(* ===================================================================== *)
(** * [droop/rules/meek.py]                                               *)
(* ===================================================================== *)

Module Meek.

Inductive defeat_batch : Type := BatchNone | BatchSafe.

(** The options the rule keeps: [variant], [defeat_batch], [omega]. *)
Record Rule : Type := mkRule {
warren : bool;
defeatBatch : defeat_batch;
omega : option Z
}.

(** [iterateStatus]: why did the iteration terminate? *)
Inductive iterateStatus : Type := IS_omega | IS_batch | IS_elected | IS_stable.

Section WithArith.
Context {A : Arith}.
Variable rule : Rule.

Definition countComplete (E : Election) : bool :=
  (nHopeful (C (R E)) <=? seatsLeftToFill E) || (seatsLeftToFill E <=? 0).

Definition hasQuota (E : Election) (c : Candidate) : bool :=
  if exact then gtb (vote c) (quota (R E)) else geb (vote c) (quota (R E)).

Definition calcQuota (E : Election) : result V :=
  if exact
  then over (votes (R E)) (of_int (nSeats E + 1))
  else q <- over (votes (R E)) (of_int (nSeats E + 1)) ;; Ok (add q epsilon).

(** [breakTie]: [None] for no candidate; a single candidate as it is;
    otherwise the first in ballot order, with a log entry. *)
Definition breakTie (r : Round) (tied : list Candidate) (purpose : string)
  : option Candidate * Round :=
  match tied with
  | [] => (None, r)
  | [t] => (Some t, r)
  | _ =>
      match sortByOrder tied with
      | t :: _ =>
          (Some t,
           add_log (mkAction KLog ("Break tie (" ++ purpose ++ ")")
                             (map cid (sortByOrder tied) ++ [cid t]) None) r)
      | [] => (None, r)
      end
  end.

Definition batchDefeat (E : Election) (surplus : V) : list Candidate :=
  match defeatBatch rule with
  | BatchNone => []
  | BatchSafe =>
      sure_losers surplus
                  (nHopeful (C (R E)) - seatsLeftToFill E)
                  (sortByVote (hopeful (C (R E))))
  end.

(** ** The distribution of one ballot *)

Definition add_vote (k : nat) (x : V) (cs : list Candidate) : list Candidate :=
  update k (fun c => set_vote (add (vote c) x) c) cs.

(** [for c in b.ranking] of the Meek branch: the candidates, the weight and
    the residual of the ballot after the loop.  A ranking holds candidates
    of the catalogue; an identifier that is not in it is passed over. *)
Fixpoint meek_ranking (m : Z) (rk : list nat) (cs : list Candidate)
         (w r : V) : list Candidate * V * V :=
  match rk with
  | [] => (cs, w, r)
  | k :: rk' =>
      match lookup k cs with
      | None => meek_ranking m rk' cs w r
      | Some c =>
          let kv := mul (scale w m) (kf c) RoundDown in
          let cs' := add_vote k kv cs in
          let w' := mul w (sub V1 (kf c)) RoundDown in
          let r' := sub r kv in
          if leb w' V0 then (cs', w', r') else meek_ranking m rk' cs' w' r'
      end
  end.

(** [for c in b.ranking] of the Warren branch. *)
Fixpoint warren_ranking (m : Z) (rk : list nat) (cs : list Candidate)
         (w r : V) : list Candidate * V * V :=
  match rk with
  | [] => (cs, w, r)
  | k :: rk' =>
      match lookup k cs with
      | None => warren_ranking m rk' cs w r
      | Some c =>
          let keep := if ltb (kf c) r then kf c else r in
          let w' := sub w keep in
          let cs' := add_vote k (scale keep m) cs in
          let r' := sub r (scale keep m) in
          if leb w' V0 then (cs', w', r') else warren_ranking m rk' cs' w' r'
      end
  end.

(** One turn of [for b in R.ballots]: the state is the candidates, the
    ballots done so far and [R.residual]. *)
Definition distribute_ballot
           (st : list Candidate * list Ballot * V) (b : Ballot)
  : list Candidate * list Ballot * V :=
  let '(cs, done, res) := st in
  let '(cs', w, r) :=
    (if warren rule then warren_ranking else meek_ranking)
      (multiplier b) (ranking b) cs V1 (of_int (multiplier b)) in
  (cs', done ++ [set_bresidual r (set_weight w b)], add res r).

Definition reset_votes (cs : list Candidate) : list Candidate :=
  map (fun c => if has_status Hopeful c || has_status Elected c
                then set_vote V0 c else c) cs.

(** Lines 217-271: distribute the vote of each ballot and add up. *)
Definition distribute (E : Election) : Election :=
  let '(cs, bs, res) :=
    fold_left distribute_ballot (ballots E) (reset_votes (C (R E)), [], V0) in
  let r := set_residual res (set_C cs (R E)) in
  with_ballots bs
    (with_R (fun _ => set_votes (sum (map vote (hopefulOrElected cs))) r) E).

(** ** One pass of [while True] in [iterate] *)

(** What a pass leaves: the iteration has ended with a status (and a batch),
    or it goes on with a new [lastsurplus]. *)
Inductive pass_result : Type :=
| Finished (s : iterateStatus) (batch : list Candidate) (E : Election)
| Again (lastsurplus : V) (E : Election).

(** D.4: [for c in [c for c in C.hopeful if hasQuota(E, c)]: C.elect(c)]. *)
Definition winners (E : Election) : list Candidate :=
  filter (hasQuota E) (hopeful (C (R E))).

Definition elect_winners (E : Election) : Election :=
  fold_left (fun E' c => with_R (elect (cid c) "Elect") E') (winners E) E.

(** D.6: [sum([c.vote-R.quota for c in C.elected], V0)]. *)
Definition total_surplus (r : Round) : V :=
  sum (map (fun c => sub (vote c) (quota r)) (elected (C r))).

(** D.8: the new keep factor of an elected candidate. *)
Definition new_kf (r : Round) (c : Candidate) : result V :=
  div (mul (kf c) (quota r) RoundUp) (vote c) RoundUp.

Definition update_kf (r : Round) (cs : list Candidate) (c : Candidate)
  : result (list Candidate) :=
  k <- new_kf r c ;; Ok (update (cid c) (set_kf k) cs).

Definition update_keep_factors (r : Round) : result Round :=
  cs <- foldM (update_kf r) (elected (C r)) (C r) ;; Ok (set_C cs r).

(** D.7: the tests that end the iteration, in the order [iterate] makes
    them, and D.8 when none of them holds. *)
Definition test_complete (omega_ lastsurplus : V) (any_elected : bool)
           (E : Election) : result pass_result :=
  let r := R E in
  if any_elected then Ok (Finished IS_elected [] E)
  else if leb (surplus r) omega_ then Ok (Finished IS_omega [] E)
  else if geb (surplus r) lastsurplus then
    Ok (Finished IS_stable []
          (with_R (add_log (mkAction KLog "Stable state detected" []
                                     (Some (surplus r)))) E))
  else
    let batch := batchDefeat E (surplus r) in
    if nonempty batch then Ok (Finished IS_batch batch E)
    else
      r' <- update_keep_factors r ;;
      Ok (Again (surplus r) (with_R (fun _ => r') E)).

(** The state after D.6: votes distributed, quota updated, winners
    elected, total surplus calculated; the flag tells whether [iStatus]
    was set to [IS_elected]. *)
Definition tally (E : Election) : result (bool * Election) :=
  let E1 := distribute E in
  q <- calcQuota E1 ;;
  let E2 := with_R (set_quota q) E1 in
  let E3 := elect_winners E2 in
  Ok (nonempty (winners E2),
      with_R (fun r => set_surplus (total_surplus r) r) E3).

Definition pass (omega_ lastsurplus : V) (E : Election) : result pass_result :=
  t <- tally E ;;
  test_complete omega_ lastsurplus (fst t) (snd t).

(** [iterate]: [fuel] bounds the number of passes. *)
Fixpoint iterate_from (fuel : nat) (omega_ lastsurplus : V) (E : Election)
  : result (iterateStatus * list Candidate * Election) :=
  match fuel with
  | O => Timeout
  | S fuel' =>
      p <- pass omega_ lastsurplus E ;;
      match p with
      | Finished s batch E' => Ok (s, batch, E')
      | Again last' E' => iterate_from fuel' omega_ last' E'
      end
  end.

Definition iterate (fuel : nat) (omega_ : V) (E : Election)
  : result (iterateStatus * list Candidate * Election) :=
  iterate_from fuel omega_ (of_int (nBallots E)) E.

(** ** Defeats *)

(** [C.defeat(c, msg); c.kf = V0; c.vote = V0]. *)
Definition defeat_zero (msg : string) (r : Round) (c : Candidate) : Round :=
  let r' := defeat (cid c) msg r in
  set_C (update (cid c) (fun d => set_vote V0 (set_kf V0 d)) (C r')) r'.

Definition defeat_batch_of (batch : list Candidate) (r : Round) : Round :=
  fold_left (defeat_zero "Defeat certain loser") batch r.

(** Lines 385-386: the hopefuls within [surplus] of the lowest vote. *)
Definition low_candidates (r : Round) : result (list Candidate) :=
  low_vote <- vmin (map vote (hopeful (C r))) ;;
  Ok (filter (fun c => geb (add low_vote (surplus r)) (vote c)) (hopeful (C r))).

(** Lines 385-397: defeat the candidate with the lowest vote. *)
Definition defeat_low (s : iterateStatus) (r : Round) : result Round :=
  low <- low_candidates r ;;
  match breakTie r low "defeat" with
  | (Some c, r') =>
      Ok (defeat_zero
            (match s with
             | IS_omega => "Defeat (surplus < omega)"
             | _ => "Defeat (stable surplus)"
             end) r' c)
  | (None, r') => Ok r'
  end.

(** ** The round loop *)

(** The body of [while not countComplete()]. *)
Definition round (fuel : nat) (omega_ : V) (E : Election) : result Election :=
  it <- iterate fuel omega_ (newRound E) ;;
  let '(s, batch, E') := it in
  match s with
  | IS_elected => Ok E'
  | IS_batch => Ok (with_R (defeat_batch_of batch) E')
  | _ => r <- defeat_low s (R E') ;; Ok (with_R (fun _ => r) E')
  end.

Fixpoint rounds_loop (nrounds fuel : nat) (omega_ : V) (E : Election)
  : result Election :=
  if countComplete E then Ok E
  else
    match nrounds with
    | O => Timeout
    | S nrounds' =>
        E' <- round fuel omega_ E ;; rounds_loop nrounds' fuel omega_ E'
    end.

(** Lines 401-407: elect or defeat the remaining hopefuls. *)
Definition finish_step (E : Election) (c : Candidate) : Election :=
  if nElected (C (R E)) <? nSeats E
  then with_R (elect (cid c) "Elect remaining") E
  else with_R (fun r => defeat_zero "Defeat remaining" r c) E.

Definition finish (E : Election) : Election :=
  fold_left finish_step (hopeful (C (R E))) E.

(** ** Initialization *)

(** [cls.omega], in digits. *)
Definition omega_digits : Z :=
  match omega rule with
  | Some w => w
  | None =>
      match name with
      | Rational => 10
      | Guarded => precision * 2 / 3
      | Fixed => precision * 2 / 3
      end
  end.

(** [cls._omega = V(1) / V(10**cls.omega)]. *)
Definition omega_value : result V :=
  over (of_int 1) (of_int (10 ^ omega_digits)).

(** Modelled from the spec (4.B): [b.topCand] is the first candidate of the
    ranking that is not withdrawn; the ballot class is not part of the
    sources at hand. *)
Definition topCand (cs : list Candidate) (b : Ballot) : option nat :=
  find (fun k => match lookup k cs with
                 | Some c => negb (has_status Withdrawn c)
                 | None => false
                 end) (ranking b).

Definition init_kf (cs : list Candidate) : list Candidate :=
  map (fun c => if has_status Hopeful c then set_vote V0 (set_kf V1 c) else c)
      (map (fun c => if has_status Withdrawn c then set_kf V0 c else c) cs).

Definition first_preferences (cs : list Candidate) (bs : list Ballot)
  : list Candidate :=
  fold_left (fun cs' b => match topCand cs' b with
                          | Some k => add_vote k (of_int (multiplier b)) cs'
                          | None => cs'
                          end) bs cs.

(** Lines 343-354. *)
Definition init (E : Election) : result Election :=
  let E1 := with_R (set_votes (of_int (nBallots E))) E in
  q <- calcQuota E1 ;;
  Ok (with_R (fun r => set_C (first_preferences (init_kf (C r)) (ballots E))
                             (set_quota q r)) E1).

(** [count(E)]: [nrounds] bounds the number of rounds and [fuel] the
    number of passes of each iteration. *)
Definition count (nrounds fuel : nat) (E : Election) : result Election :=
  omega_ <- omega_value ;;
  E0 <- init E ;;
  E' <- rounds_loop nrounds fuel omega_ E0 ;;
  Ok (finish E').

End WithArith.
End Meek.

(* ===================================================================== *)
(** * [droop/rules/wigm_prf.py]                                           *)
(* ===================================================================== *)

Module Wigm.
Section WithArith.
Context {A : Arith}.

(** [cls.defeatBatch]: the rule name ends in [batch]. *)
Variable defeatBatch : bool.

Definition hasQuota (E : Election) (c : Candidate) : bool :=
  geb (vote c) (quota (R E)).

Definition calcQuota (E : Election) : result V :=
  q <- over (of_int (nBallots E)) (of_int (nSeats E + 1)) ;; Ok (add q epsilon).

(** ** Ballots *)

(** Modelled from the spec (section 3 and 4.E): the ballot class is not
    part of the sources at hand.  The cursor [index] points into the
    ranking; a ballot is exhausted when the cursor has passed the last rank
    or the weight is zero; [b.vote] is the weight times the multiplier. *)
Definition topRank (b : Ballot) : option nat := nth_error (ranking b) (index b).

Definition exhausted (b : Ballot) : bool :=
  (length (ranking b) <=? index b)%nat || is_zero (weight b).

Definition advance (b : Ballot) : Ballot := set_index (S (index b)) b.

Definition ballot_vote (b : Ballot) : V := scale (weight b) (multiplier b).

Definition top_is_hopeful (cs : list Candidate) (b : Ballot) : bool :=
  match topRank b with
  | Some k => match lookup k cs with
              | Some c => has_status Hopeful c
              | None => false
              end
  | None => false
  end.

(** [while not ballot.exhausted and ballot.topCand not in CS.hopeful:
    ballot.advance()], at most [steps] turns. *)
Fixpoint advance_loop (steps : nat) (cs : list Candidate) (b : Ballot) : Ballot :=
  match steps with
  | O => b
  | S steps' =>
      if exhausted b then b
      else if top_is_hopeful cs b then b
      else advance_loop steps' cs (advance b)
  end.

(** [transfer(ballot, CS)]: the cursor can move at most to the end of the
    ranking, which bounds the loop. *)
Definition transfer (cs : list Candidate) (b : Ballot) : Ballot * bool :=
  let b' := advance_loop (length (ranking b) - index b) cs b in
  (b', negb (exhausted b')).

Definition add_vote (k : nat) (x : V) (cs : list Candidate) : list Candidate :=
  update k (fun c => set_vote (add (vote c) x) c) cs.

(** [if transfer(b, CS): b.topCand.vote += b.vote]. *)
Definition transfer_and_credit (cs : list Candidate) (b : Ballot)
  : list Candidate * Ballot :=
  let '(b', live) := transfer cs b in
  match live, topRank b' with
  | true, Some k => (add_vote k (ballot_vote b') cs, b')
  | _, _ => (cs, b')
  end.

Definition topped_at (k : nat) (b : Ballot) : bool :=
  match topRank b with
  | Some j => Nat.eqb j k
  | None => false
  end.

(** [for b in (b for b in E.ballots if b.topRank == c.cid)] with the body
    [reweigh] applied before the transfer; the state is the candidates and
    the ballots already visited. *)
Definition transfer_ballots
           (reweigh : list Candidate -> Ballot -> result Ballot) (k : nat)
           (cs : list Candidate) (bs : list Ballot)
  : result (list Candidate * list Ballot) :=
  foldM (fun st b =>
           let '(cs', done) := st in
           if topped_at k b then
             b1 <- reweigh cs' b ;;
             let '(cs'', b2) := transfer_and_credit cs' b1 in
             Ok (cs'', done ++ [b2])
           else Ok (cs', done ++ [b]))
        bs (cs, []).

Definition keep_weight (cs : list Candidate) (b : Ballot) : result Ballot := Ok b.

(** [b.weight = (b.weight * surplus) / high_candidate.vote]. *)
Definition surplus_weight (k : nat) (surplus : V)
           (cs : list Candidate) (b : Ballot) : result Ballot :=
  match lookup k cs with
  | Some c => w <- over (times (weight b) surplus) (vote c) ;; Ok (set_weight w b)
  | None => Raise AttributeError
  end.

(** ** Ties and sure losers *)

Definition breakTie (r : Round) (tied : list Candidate) (reason : string)
  : result (Candidate * Round) :=
  match tied with
  | [t] => Ok (t, r)
  | _ =>
      match sortByOrder tied with
      | t :: _ =>
          Ok (t, add_log (mkAction KTie ("Break tie (" ++ reason ++ ")")
                                   (map cid tied ++ [cid t]) None) r)
      | [] => Raise IndexError
      end
  end.

Definition pending_surplus (r : Round) : V :=
  sum (map (fun c => sub (vote c) (quota r)) (pending (C r))).

Definition batchDefeat (E : Election) : list Candidate :=
  sure_losers (pending_surplus (R E))
              (Z.of_nat (length (hopeful (C (R E)))) - seatsLeftToFill E)
              (sortByVote (hopeful (C (R E)))).

(** ** The steps of a round *)

(** B.1: [for c in [c for c in CS.hopeful.byVote(reverse=True)
    if hasQuota(E, c)]: CS.pend(c)]. *)
Definition pend_winners (E : Election) : Election :=
  fold_left (fun E' c => with_R (pend (cid c)) E')
            (filter (hasQuota E) (sortByVoteReversed (hopeful (C (R E))))) E.

Definition set_cand_vote (k : nat) (v : V) (r : Round) : Round :=
  set_C (update k (set_vote v) (C r)) r.

Definition log_transfer (msg : string) (k : nat) (v : option V) (r : Round) : Round :=
  add_log (mkAction KTransfer msg [k] v) r.

(** The transfer of the ballots of one defeated candidate (lines 335-340
    and 376-380). *)
Definition transfer_defeated (E : Election) (c : Candidate) : result Election :=
  st <- transfer_ballots keep_weight (cid c) (C (R E)) (ballots E) ;;
  let '(cs, bs) := st in
  Ok (with_ballots bs
        (with_R (fun r => log_transfer "Transfer defeated" (cid c) None
                            (set_cand_vote (cid c) V0 (set_C cs r))) E)).

(** B.3 (lines 350-362): transfer the highest surplus. *)
Definition transfer_high_surplus (E : Election) : result Election :=
  high_vote <- vmax (map vote (pending (C (R E)))) ;;
  let high_candidates :=
    filter (fun c => eqb (vote c) high_vote) (pending (C (R E))) in
  t <- breakTie (R E) high_candidates "surplus" ;;
  let '(high_candidate, r0) := t in
  let r1 := elect (cid high_candidate) "Transfer high surplus" r0 in
  let surplus := sub (vote high_candidate) (quota r1) in
  st <- transfer_ballots (surplus_weight (cid high_candidate) surplus)
                         (cid high_candidate) (C r1) (ballots E) ;;
  let '(cs, bs) := st in
  Ok (with_ballots bs
        (with_R (fun _ => log_transfer "Surplus transferred"
                            (cid high_candidate) (Some surplus)
                            (set_cand_vote (cid high_candidate) (quota r1)
                                           (set_C cs r1))) E)).

(** B.4 (lines 369-380): defeat the candidate with the lowest vote. *)
Definition defeat_low (E : Election) : result Election :=
  low_vote <- vmin (map vote (hopeful (C (R E)))) ;;
  let low_candidates :=
    filter (fun c => eqb (vote c) low_vote) (hopeful (C (R E))) in
  t <- breakTie (R E) low_candidates "defeat" ;;
  let '(low_candidate, r0) := t in
  transfer_defeated (with_R (fun _ => defeat (cid low_candidate) "Defeat" r0) E)
                    low_candidate.

(** B.2 (lines 328-341) when there are sure losers; the flag is [true]
    when the loop is left by [break]. *)
Definition defeat_sure_losers (sureLosers : list Candidate) (E : Election)
  : result (Election * bool) :=
  let E1 := fold_left (fun E' c => with_R (defeat (cid c) "Defeat sure loser") E')
                      (sortByOrder sureLosers) E in
  if Z.of_nat (length (hopeful (C (R E1)))) <=? seatsLeftToFill E1
  then Ok (E1, true)
  else E2 <- foldM transfer_defeated (sortByOrder sureLosers) E1 ;; Ok (E2, false).

(** The body of the [while] loop; the flag is [true] after [break]. *)
Definition round (E : Election) : result (Election * bool) :=
  let E1 := pend_winners (newRound E) in
  let sureLosers := if defeatBatch then batchDefeat E1 else [] in
  if nonempty sureLosers then defeat_sure_losers sureLosers E1
  else if nonempty (pending (C (R E1))) then
    E2 <- transfer_high_surplus E1 ;; Ok (E2, false)
  else if nonempty (hopeful (C (R E1))) then
    E2 <- defeat_low E1 ;; Ok (E2, false)
  else Ok (E1, false).

(** [len(CS.hopeful) > E.seatsLeftToFill() > 0]. *)
Definition loop_test (E : Election) : bool :=
  (seatsLeftToFill E <? Z.of_nat (length (hopeful (C (R E)))))
  && (0 <? seatsLeftToFill E).

Fixpoint rounds_loop (nrounds : nat) (E : Election) : result Election :=
  if loop_test E then
    match nrounds with
    | O => Timeout
    | S nrounds' =>
        s <- round E ;;
        let '(E', stop) := s in
        if stop then Ok E' else rounds_loop nrounds' E'
    end
  else Ok E.

(** C (lines 387-393): finish the count. *)
Definition elect_pending (E : Election) : Election :=
  fold_left (fun E' c => with_R (elect (cid c) "Elect pending") E')
            (pending (C (R E))) E.

Definition finish_step (E : Election) (c : Candidate) : Election :=
  if Z.of_nat (length (elected (C (R E)))) <? nSeats E
  then with_R (elect (cid c) "Elect remaining") E
  else with_R (defeat (cid c) "Defeat remaining") E.

Definition finish (E : Election) : Election :=
  let E1 := elect_pending E in
  fold_left finish_step (hopeful (C (R E1))) E1.

(** A (lines 297-299): [for b in E.ballots: b.topCand.vote += b.vote]. *)
Definition first_preferences (cs : list Candidate) (bs : list Ballot)
  : result (list Candidate) :=
  foldM (fun cs' b => match topRank b with
                      | Some k => Ok (add_vote k (ballot_vote b) cs')
                      | None => Raise AttributeError
                      end) bs cs.

Definition init (E : Election) : result Election :=
  q <- calcQuota E ;;
  cs <- first_preferences (C (R E)) (ballots E) ;;
  Ok (with_R (fun r => set_C cs (set_quota q r)) E).

Definition count (nrounds : nat) (E : Election) : result Election :=
  E0 <- init E ;;
  E' <- rounds_loop nrounds E0 ;;
  Ok (finish E').

End WithArith.
End Wigm.

(* ===================================================================== *)
(** * The options of the rules: [Rule.options]                            *)
(* ===================================================================== *)

Module RuleOptions.
Open Scope string_scope.

(** The values an option takes: the command line gives strings and
    booleans, a caller may give any object; [None], booleans, integers and
    strings are told apart here. *)
Inductive pyval : Type :=
| PNone
| PBool (b : bool)
| PInt (z : Z)
| PStr (s : string).

(** A [dict] with string keys, as the list of its items; the first item
    of a key is the one the dict holds. *)
Definition dict : Type := list (string * pyval).

Fixpoint dict_get (d : dict) (k : string) : option pyval :=
  match d with
  | [] => None
  | (k', v) :: d' => if String.eqb k' k then Some v else dict_get d' k
  end.

(** [d.get(k, default)]. *)
Definition get_default (d : dict) (k : string) (default : pyval) : pyval :=
  match dict_get d k with
  | Some v => v
  | None => default
  end.

(** [d[k] = v]. *)
Fixpoint dict_set (d : dict) (k : string) (v : pyval) : dict :=
  match d with
  | [] => [(k, v)]
  | (k', v') :: d' =>
      if String.eqb k' k then (k, v) :: d' else (k', v') :: dict_set d' k v
  end.

(** [v == s] for a string [s]. *)
Definition is_str (v : pyval) (s : string) : bool :=
  match v with
  | PStr t => String.eqb t s
  | _ => false
  end.

(** The truth value of [v] in [if not v]. *)
Definition truthy (v : pyval) : bool :=
  match v with
  | PNone => false
  | PBool b => b
  | PInt z => negb (Z.eqb z 0)
  | PStr s => negb (String.eqb s "")
  end.

(** [str.lower] on the letters [A] to [Z]. *)
Definition lower_ascii (c : ascii) : ascii :=
  let n := nat_of_ascii c in
  if (Nat.leb 65 n && Nat.leb n 90)%bool then ascii_of_nat (n + 32) else c.

Fixpoint lower (s : string) : string :=
  match s with
  | EmptyString => EmptyString
  | String c s' => String (lower_ascii c) (lower s')
  end.

(** [s.endswith(suffix)]. *)
Definition ends_with (s suffix : string) : bool :=
  Nat.leb (String.length suffix) (String.length s) &&
  String.eqb (substring (String.length s - String.length suffix)
                        (String.length suffix) s) suffix.

(** The exceptions [options] raises: [UsageError], and [AttributeError]
    when [lower] or [endswith] is asked of a value that is not a string. *)
Inductive opt_exn : Type := OptUsageError | OptAttributeError.

(** ** [meek.py], lines 53-72 *)

(** The attributes of the class [Rule]; [warren] is set by [options]
    only. *)
Record meek_class : Type := mkMeekClass {
  m_warren : option bool;
  m_omega : pyval;
  m_defeatBatch : pyval
}.

Definition meek_class0 : meek_class := mkMeekClass None PNone (PStr "safe").

(** Lines 59-64: the variant, or the exception. *)
Definition variant_of (d : dict) : opt_exn + string :=
  if is_str (get_default d "rule" PNone) "warren" then inr "warren"
  else
    match get_default d "variant" (PStr "meek") with
    | PStr s =>
        let v := lower s in
        if String.eqb v "meek" || String.eqb v "warren" then inr v
        else inl OptUsageError
    | _ => inl OptAttributeError
    end.

(** [options(cls, options)]: the class and the dict as the call leaves
    them, and the exception if one is raised. *)
Definition meek_options (c : meek_class) (d : dict)
  : meek_class * dict * option opt_exn :=
  match variant_of d with
  | inl e => (c, d, Some e)
  | inr variant =>
      let d1 := if truthy (get_default d "arithmetic" PNone) then d
                else dict_set d "arithmetic" (PStr "guarded") in
      let db := get_default d1 "defeat_batch" (m_defeatBatch c) in
      let c1 := mkMeekClass (Some (String.eqb variant "warren"))
                            (get_default d1 "omega" PNone) db in
      if is_str db "none" || is_str db "safe" then (c1, d1, None)
      else (c1, d1, Some OptUsageError)
  end.

(** ** [wigm_prf.py], lines 128-140 *)

Record wigm_class : Type := mkWigmClass {
  w_name : pyval;
  w_defeatBatch : bool
}.

Definition wigm_precision : Z := 4.

Definition wigm_class0 : wigm_class := mkWigmClass (PStr "wigm-prf") false.

(** [ignored |= set(...)]: a set as a list without repetition. *)
Fixpoint set_add (x : string) (s : list string) : list string :=
  match s with
  | [] => [x]
  | y :: s' => if String.eqb y x then s else y :: set_add x s'
  end.

Definition wigm_ignored (ignored : list string) : list string :=
  set_add "defeat_batch"
    (set_add "display" (set_add "precision" (set_add "arithmetic" ignored))).

Definition wigm_options (c : wigm_class) (d : dict) (ignored : list string)
  : wigm_class * dict * list string * option opt_exn :=
  let nm := get_default d "rule" (w_name c) in
  match nm with
  | PStr s =>
      (mkWigmClass nm (ends_with s "batch"),
       dict_set (dict_set (dict_set d "arithmetic" (PStr "fixed"))
                          "precision" (PInt wigm_precision))
                "display" PNone,
       wigm_ignored ignored, None)
  | _ => (mkWigmClass nm (w_defeatBatch c), d, ignored, Some OptAttributeError)
  end.

End RuleOptions.

(* ===================================================================== *)
(** * The command line: [Droop.py]                                        *)
(* ===================================================================== *)

Module Cli.
Import RuleOptions.
Open Scope string_scope.

(** [arg.split('=')]: never empty. *)
Fixpoint split_eq (s : string) : list string :=
  match s with
  | EmptyString => [EmptyString]
  | String c s' =>
      if Ascii.eqb c "="%char then EmptyString :: split_eq s'
      else match split_eq s' with
           | h :: t => String c h :: t
           | [] => [String c EmptyString]
           end
  end.

(** [x in names]. *)
Definition mem (x : string) (names : list string) : bool :=
  existsb (String.eqb x) names.

(** The local [path] and the dict [options] of the loop over the
    arguments. *)
Record cli_state : Type := mkCliState {
  cli_path : option string;
  cli_options : dict
}.

Definition cli_state0 : cli_state := mkCliState None [].

(** [if path:]. *)
Definition path_set (p : option string) : bool :=
  match p with
  | Some s => negb (String.eqb s "")
  | None => false
  end.

Section Names.

(** [droop.values.arithmeticNames] and [droop.electionRuleNames()]: the
    names the installed arithmetics and rules are known by. *)
Variable arithmeticNames : list string.
Variable electionRuleNames : list string.

(** One turn of the loop [for arg in sys.argv[1:]]; [None] when
    [UsageError] is raised. *)
Definition cli_arg (st : cli_state) (arg : string) : option cli_state :=
  match split_eq arg with
  | [] => Some st
  | [w] =>
      if mem w arithmeticNames then
        Some (mkCliState (cli_path st)
                         (dict_set (cli_options st) "arithmetic" (PStr w)))
      else if mem w electionRuleNames then
        Some (mkCliState (cli_path st)
                         (dict_set (cli_options st) "rule" (PStr w)))
      else if String.eqb w "dump" then
        Some (mkCliState (cli_path st)
                         (dict_set (cli_options st) "dump" (PBool true)))
      else if path_set (cli_path st) then None
      else Some (mkCliState (Some w) (dict_set (cli_options st) "path" (PStr w)))
  | k :: v :: _ =>
      Some (mkCliState (cli_path st)
              (dict_set (cli_options st) k
                 (if String.eqb (lower v) "false" then PBool false
                  else if String.eqb (lower v) "true" then PBool true
                  else PStr v)))
  end.

Fixpoint cli_args (st : cli_state) (argv : list string) : option cli_state :=
  match argv with
  | [] => Some st
  | arg :: argv' =>
      match cli_arg st arg with
      | Some st' => cli_args st' argv'
      | None => None
      end
  end.

(** How the program ends, or the options it gives to [main]. *)
Inductive cli_outcome : Type :=
| ExitUsage                          (* no argument: usage, exit 1 *)
| ExitHelp (subject : option string) (* help: exit 0 *)
| ExitUsageError                     (* UsageError: message and usage, exit 1 *)
| ExitNoBallotFile                   (* must specify ballot file, exit 1 *)
| CallMain (options : dict).

(** The body of [if __name__ == "__main__"] up to the call of [main];
    [argv] is [sys.argv[1:]]. *)
Definition cli (argv : list string) : cli_outcome :=
  match argv with
  | [] => ExitUsage
  | a :: rest =>
      if String.eqb a "help" then ExitHelp (hd_error rest)
      else
        match cli_args cli_state0 argv with
        | None => ExitUsageError
        | Some st =>
            match cli_path st with
            | None => ExitNoBallotFile
            | Some _ => CallMain (cli_options st)
            end
        end
  end.

End Names.
End Cli.

(* ===================================================================== *)
(** * Properties                                                          *)
(* ===================================================================== *)

(** ** The candidate store *)

Section StoreFacts.
Context {A : Arith}.

Lemma update_cids (k : nat) (f : Candidate -> Candidate) (cs : list Candidate) :
  (forall c, cid (f c) = cid c) ->
  map cid (update k f cs) = map cid cs.
Proof.
  intros Hf. unfold update. rewrite map_map. apply map_ext.
  intros c. destruct (Nat.eqb (cid c) k); auto.
Qed.

Lemma update_length (k : nat) (f : Candidate -> Candidate) (cs : list Candidate) :
  length (update k f cs) = length cs.
Proof. unfold update. apply length_map. Qed.

Lemma update_absent (k : nat) (f : Candidate -> Candidate) (cs : list Candidate) :
  ~ In k (map cid cs) -> update k f cs = cs.
Proof.
  induction cs as [|c cs IH]; simpl; intros Hn; auto.
  destruct (Nat.eqb_spec (cid c) k) as [Heq|Hne].
  - exfalso. apply Hn. now left.
  - f_equal. apply IH. intros H. apply Hn. now right.
Qed.

Lemma lookup_In (k : nat) (cs : list Candidate) (c : Candidate) :
  lookup k cs = Some c -> In c cs /\ cid c = k.
Proof.
  unfold lookup. intros H. apply find_some in H. destruct H as [H1 H2].
  split; auto. now apply Nat.eqb_eq.
Qed.

Lemma lookup_NoDup (cs : list Candidate) (c : Candidate) :
  NoDup (map cid cs) -> In c cs -> lookup (cid c) cs = Some c.
Proof.
  induction cs as [|d cs IH]; simpl; intros Hnd Hin; [contradiction|].
  inversion Hnd as [|? ? Hnotin Hnd']; subst.
  unfold lookup; simpl.
  destruct Hin as [->|Hin].
  - now rewrite Nat.eqb_refl.
  - destruct (Nat.eqb_spec (cid d) (cid c)) as [Heq|Hne].
    + exfalso. apply Hnotin. rewrite Heq. now apply in_map.
    + now apply IH.
Qed.

Lemma lookup_None (k : nat) (cs : list Candidate) :
  lookup k cs = None <-> ~ In k (map cid cs).
Proof.
  unfold lookup. induction cs as [|d cs IH]; simpl.
  - split; auto.
  - destruct (Nat.eqb_spec (cid d) k) as [Heq|Hne].
    + split; [discriminate|]. intros H. exfalso. apply H. now left.
    + rewrite IH. split; intros H; [intros [H'|H']; auto|]. intros H'. apply H. now right.
Qed.

Lemma has_status_set_kf (s : status) (k : V) (c : Candidate) :
  has_status s (set_kf k c) = has_status s c.
Proof. reflexivity. Qed.

Lemma has_status_set_vote (s : status) (v : V) (c : Candidate) :
  has_status s (set_vote v c) = has_status s c.
Proof. reflexivity. Qed.

Lemma has_status_iff (s : status) (c : Candidate) :
  has_status s c = true <-> cstatus c = s.
Proof. unfold has_status. apply status_eqb_eq. Qed.

End StoreFacts.

(** ** Folding updates over a list of candidates *)

Section FoldUpdate.
Context {A : Arith}.

Variable G : Candidate -> Candidate -> Candidate.
Hypothesis G_cid : forall c d, cid (G c d) = cid d.

Definition find_cid (k : nat) (l : list Candidate) : option Candidate :=
  find (fun c => Nat.eqb (cid c) k) l.

Lemma fold_update_spec (l cs : list Candidate) :
  NoDup (map cid l) ->
  fold_left (fun acc c => update (cid c) (G c) acc) l cs =
  map (fun d => match find_cid (cid d) l with
                | Some c => G c d
                | None => d
                end) cs.
Proof.
  revert cs. induction l as [|c l IH]; intros cs Hnd; simpl.
  - symmetry. apply map_id.
  - inversion Hnd as [|? ? Hnotin Hnd']; subst.
    rewrite IH by assumption. unfold update. rewrite map_map.
    apply map_ext. intros d.
    destruct (Nat.eqb_spec (cid d) (cid c)) as [Heq|Hne].
    + rewrite G_cid, Heq.
      replace (Nat.eqb (cid c) (cid c)) with true by (symmetry; apply Nat.eqb_refl).
      assert (Hnone : find_cid (cid c) l = None).
      { apply lookup_None. assumption. }
      now rewrite Hnone.
    + destruct (Nat.eqb_spec (cid c) (cid d)) as [Heq'|_]; [congruence|].
      reflexivity.
Qed.

Lemma find_cid_filter (P : Candidate -> bool) (cs : list Candidate) (d : Candidate) :
  NoDup (map cid cs) -> In d cs ->
  find_cid (cid d) (filter P cs) = if P d then Some d else None.
Proof.
  induction cs as [|c cs IH]; simpl; intros Hnd Hin; [contradiction|].
  inversion Hnd as [|? ? Hnotin Hnd']; subst.
  destruct Hin as [Heq|Hin].
  - subst c. destruct (P d) eqn:HP.
    + unfold find_cid; simpl. now rewrite Nat.eqb_refl.
    + apply lookup_None. intros Hc. apply Hnotin.
      apply in_map_iff in Hc. destruct Hc as [x [Hx Hxin]].
      apply filter_In in Hxin. rewrite <- Hx. apply in_map. tauto.
  - assert (Hne : cid c <> cid d).
    { intros Heq. apply Hnotin. rewrite Heq. now apply in_map. }
    destruct (P c).
    + unfold find_cid; simpl.
      destruct (Nat.eqb_spec (cid c) (cid d)); [contradiction|].
      now apply IH.
    + now apply IH.
Qed.

(** Visiting the candidates that satisfy [P] and updating each by its
    identifier changes exactly those candidates. *)
Lemma fold_update_filter (P : Candidate -> bool) (cs : list Candidate) :
  NoDup (map cid cs) ->
  fold_left (fun acc c => update (cid c) (G c) acc) (filter P cs) cs =
  map (fun d => if P d then G d d else d) cs.
Proof.
  intros Hnd. rewrite fold_update_spec.
  - apply map_ext_in. intros d Hd.
    rewrite find_cid_filter by assumption. now destruct (P d).
  - clear - Hnd. induction cs as [|c cs IH]; simpl; [constructor|].
    inversion Hnd as [|? ? Hnotin Hnd']; subst.
    destruct (P c); simpl; auto.
    constructor; auto. intros Hc. apply Hnotin.
    apply in_map_iff in Hc. destruct Hc as [x [Hx Hxin]].
    apply filter_In in Hxin. rewrite <- Hx. apply in_map. tauto.
Qed.

End FoldUpdate.

(** ** The Meek/Warren pass: order of the tests, quota *)

Section MeekPass.
Context {A : Arith}.
Variable rule : Meek.Rule.

(** The keep factor D.8 gives a candidate. *)
Definition kf_updated (r : Round) (c : Candidate) : Candidate :=
  if has_status Elected c
  then set_kf (quot (mul (kf c) (quota r) RoundUp) (vote c) (Some RoundUp)) c
  else c.

Lemma foldM_update_kf (r : Round) (l cs : list Candidate) :
  (forall c, In c l -> is_zero (vote c) = false) ->
  foldM (Meek.update_kf r) l cs =
  Ok (fold_left
        (fun acc c =>
           update (cid c)
                  (set_kf (quot (mul (kf c) (quota r) RoundUp) (vote c) (Some RoundUp)))
                  acc) l cs).
Proof.
  revert cs. induction l as [|c l IH]; intros cs Hnz; simpl; [reflexivity|].
  unfold Meek.update_kf at 1, Meek.new_kf, div.
  rewrite (Hnz c) by now left. simpl.
  apply IH. intros d Hd. apply Hnz. now right.
Qed.

Lemma update_keep_factors_ok (r : Round) :
  NoDup (map cid (C r)) ->
  (forall c, In c (elected (C r)) -> is_zero (vote c) = false) ->
  Meek.update_keep_factors r = Ok (set_C (map (kf_updated r) (C r)) r).
Proof.
  intros Hnd Hnz. unfold Meek.update_keep_factors.
  rewrite foldM_update_kf by assumption. simpl. f_equal. f_equal.
  unfold elected.
  rewrite (fold_update_filter
             (fun c => set_kf (quot (mul (kf c) (quota r) RoundUp) (vote c)
                                    (Some RoundUp)))); auto.
Qed.

(** A zero vote of an elected candidate makes D.8 raise. *)
Lemma update_keep_factors_raises (r : Round) (c : Candidate) (l : list Candidate) :
  elected (C r) = c :: l -> is_zero (vote c) = true ->
  Meek.update_keep_factors r = Raise ZeroDivisionError.
Proof.
  intros He Hz. unfold Meek.update_keep_factors. rewrite He. simpl.
  unfold Meek.update_kf at 1, Meek.new_kf, div. now rewrite Hz.
Qed.

(** [elect_winners] changes candidates and log only. *)
Lemma elect_winners_fields (E : Election) :
  let E' := Meek.elect_winners E in
  quota (R E') = quota (R E) /\ votes (R E') = votes (R E) /\
  residual (R E') = residual (R E) /\ surplus (R E') = surplus (R E) /\
  nSeats E' = nSeats E /\ nBallots E' = nBallots E /\ ballots E' = ballots E /\
  rounds E' = rounds E /\ n (R E') = n (R E).
Proof.
  unfold Meek.elect_winners. generalize (Meek.winners E) as ws.
  intros ws. revert E. induction ws as [|w ws IH]; intros E; simpl.
  - repeat split.
  - specialize (IH (with_R (elect (cid w) "Elect") E)). simpl in IH. exact IH.
Qed.

(** The state of the election after the distribution, with quota [q]. *)
Definition with_quota (E : Election) (q : V) : Election :=
  with_R (set_quota q) (Meek.distribute rule E).

(** The state after D.6. *)
Definition tallied (E : Election) (q : V) : Election :=
  with_R (fun r => set_surplus (Meek.total_surplus r) r)
         (Meek.elect_winners (with_quota E q)).

Lemma tally_eq (E : Election) (q : V) :
  Meek.calcQuota (Meek.distribute rule E) = Ok q ->
  Meek.tally rule E =
  Ok (nonempty (Meek.winners (with_quota E q)), tallied E q).
Proof. intros Hq. unfold Meek.tally. rewrite Hq. reflexivity. Qed.

Definition log_stable (E : Election) : Election :=
  with_R (add_log (mkAction KLog "Stable state detected" []
                            (Some (surplus (R E))))) E.

(** The order of the tests of one pass, for a pass whose quota is [q]:
    elected, omega, stable, batch, and else the keep factors of the elected
    candidates are updated and the iteration goes on. *)
Definition priority_order (omega_ lastsurplus : V) (E : Election) (q : V) : Prop :=
  let E2 := with_quota E q in
  let E3 := tallied E q in
  let s := surplus (R E3) in
  let p := Meek.pass rule omega_ lastsurplus E in
  (Meek.winners E2 <> [] -> p = Ok (Meek.Finished Meek.IS_elected [] E3)) /\
  (Meek.winners E2 = [] ->
     (leb s omega_ = true -> p = Ok (Meek.Finished Meek.IS_omega [] E3)) /\
     (leb s omega_ = false ->
        (geb s lastsurplus = true ->
           p = Ok (Meek.Finished Meek.IS_stable [] (log_stable E3))) /\
        (geb s lastsurplus = false ->
           (Meek.batchDefeat rule E3 s <> [] ->
              p = Ok (Meek.Finished Meek.IS_batch (Meek.batchDefeat rule E3 s) E3)) /\
           (Meek.batchDefeat rule E3 s = [] ->
              NoDup (map cid (C (R E3))) ->
              (forall c, In c (elected (C (R E3))) -> is_zero (vote c) = false) ->
              p = Ok (Meek.Again s
                        (with_R (set_C (map (kf_updated (R E3)) (C (R E3)))) E3)))))).

(** C1. In every pass of the Meek/Warren iteration the tests are made in
    this order: a hopeful was elected in the pass (status Elected);
    otherwise surplus <= omega (Omega); otherwise surplus >= lastsurplus
    (Stable, after the stable-state message is logged); otherwise a
    non-empty batch (Batch); otherwise every elected candidate gets the keep
    factor div(mul(kf, quota, up), vote, up) and the iteration repeats with
    the surplus as the new lastsurplus. *)
Theorem iterate_priority_order (omega_ lastsurplus : V) (E : Election) (q : V) :
  Meek.calcQuota (Meek.distribute rule E) = Ok q ->
  priority_order omega_ lastsurplus E q.
Proof.
  intros Hq. unfold priority_order, Meek.pass.
  rewrite (tally_eq E Hq). cbn [bind fst snd].
  unfold Meek.test_complete.
  split.
  - intros Hw. destruct (Meek.winners (with_quota E q)); [congruence|].
    reflexivity.
  - intros Hw. rewrite Hw. cbn [nonempty].
    split.
    + intros Hle. now rewrite Hle.
    + intros Hle. rewrite Hle. split.
      * intros Hge. now rewrite Hge.
      * intros Hge. rewrite Hge. split.
        -- intros Hb. destruct (Meek.batchDefeat rule (tallied E q) _); [congruence|].
           reflexivity.
        -- intros Hb Hnd Hnz. rewrite Hb. cbn [nonempty].
           rewrite update_keep_factors_ok by assumption. reflexivity.
Qed.

(** C2 as a property of each pass: the quota the pass sets and the
    candidates it elects. *)
Definition quota_rule (E : Election) (q : V) : Prop :=
  let E3 := tallied E q in
  let v := votes (R E3) in
  v = sum (map vote (hopefulOrElected (C (R (Meek.distribute rule E))))) /\
  is_zero (of_int (nSeats E + 1)) = false /\
  quota (R E3) = q /\
  (exact = true ->
     q = quot v (of_int (nSeats E + 1)) None /\
     forall c, Meek.hasQuota E3 c = gtb (vote c) q) /\
  (exact = false ->
     q = add (quot v (of_int (nSeats E + 1)) None) epsilon /\
     forall c, Meek.hasQuota E3 c = geb (vote c) q).

Lemma distribute_fields (E : Election) :
  nSeats (Meek.distribute rule E) = nSeats E /\
  nBallots (Meek.distribute rule E) = nBallots E /\
  rounds (Meek.distribute rule E) = rounds E /\
  n (R (Meek.distribute rule E)) = n (R E) /\
  log (R (Meek.distribute rule E)) = log (R E) /\
  votes (R (Meek.distribute rule E)) =
    sum (map vote (hopefulOrElected (C (R (Meek.distribute rule E))))).
Proof.
  unfold Meek.distribute.
  destruct (fold_left _ _ _) as [[cs bs] res]. simpl. repeat split.
Qed.

(** C2. In every Meek/Warren pass the quota is votes/(S+1) when the
    arithmetic is exact and votes/(S+1) + epsilon otherwise, and a
    candidate has the quota iff vote > quota when the arithmetic is exact
    and iff vote >= quota otherwise. *)
Theorem quota_and_hasQuota (E : Election) (q : V) :
  Meek.calcQuota (Meek.distribute rule E) = Ok q ->
  quota_rule E q.
Proof.
  intros Hq. unfold quota_rule. cbv zeta.
  pose proof (distribute_fields E) as (HS & _ & _ & _ & _ & Hv).
  pose proof (elect_winners_fields (with_quota E q)) as (Hq' & Hv' & _).
  assert (Hq3 : quota (R (tallied E q)) = q).
  { unfold tallied. cbn [R with_R quota set_surplus]. rewrite Hq'. reflexivity. }
  assert (Hv3 : votes (R (tallied E q)) = votes (R (Meek.distribute rule E))).
  { unfold tallied. cbn [R with_R votes set_surplus]. rewrite Hv'. reflexivity. }
  rewrite Hq3, Hv3.
  unfold Meek.calcQuota, over in Hq. rewrite HS in Hq.
  split; [exact Hv|].
  destruct (is_zero (of_int (nSeats E + 1))) eqn:Hz.
  { destruct exact; discriminate. }
  split; [reflexivity|]. split; [reflexivity|].
  unfold Meek.hasQuota. rewrite Hq3.
  destruct exact; cbn [bind] in Hq; injection Hq as <-.
  - split; [intros _|discriminate]. split; reflexivity.
  - split; [discriminate|intros _]. split; reflexivity.
Qed.

End MeekPass.

(** ** Sorting *)

Section SortFacts.
Variable T : Type.
Variable le : T -> T -> bool.

Lemma insert_sorted_perm (x : T) (l : list T) :
  Permutation (insert_sorted le x l) (x :: l).
Proof.
  induction l as [|y l IH]; simpl; [reflexivity|].
  destruct (le x y); [reflexivity|].
  rewrite IH. apply perm_swap.
Qed.

Lemma isort_perm (l : list T) : Permutation (isort le l) l.
Proof.
  induction l as [|x l IH]; simpl; [reflexivity|].
  rewrite insert_sorted_perm. now constructor.
Qed.

Lemma isort_In (l : list T) (x : T) : In x (isort le l) <-> In x l.
Proof.
  split; apply Permutation_in; [|symmetry]; apply isort_perm.
Qed.

Lemma isort_length (l : list T) : length (isort le l) = length l.
Proof. apply Permutation_length, isort_perm. Qed.

Lemma isort_NoDup (l : list T) : NoDup l -> NoDup (isort le l).
Proof. apply Permutation_NoDup. symmetry. apply isort_perm. Qed.

(** When the order is total and transitive, the head of the sorted list is
    not after any element. *)
Hypothesis le_total : forall x y, le x y = true \/ le y x = true.
Hypothesis le_trans : forall x y z, le x y = true -> le y z = true -> le x z = true.

Definition head_min (l : list T) : Prop :=
  match l with
  | [] => True
  | m :: _ => forall y, In y l -> le m y = true
  end.

Lemma insert_sorted_head_min (x : T) (l : list T) :
  head_min l -> head_min (insert_sorted le x l).
Proof.
  destruct l as [|m l]; simpl; intros Hmin.
  - intros y [Hy|[]]. subst y. destruct (le_total x x); assumption.
  - destruct (le x m) eqn:Hxm; simpl.
    + intros y [Hy|Hy].
      * subst y. destruct (le_total x x); assumption.
      * apply le_trans with m; auto.
    + intros y [Hy|Hy].
      * subst y. apply Hmin. now left.
      * apply (Permutation_in _ (insert_sorted_perm x l)) in Hy.
        destruct Hy as [Hy|Hy].
        -- subst y. destruct (le_total m x); [assumption|congruence].
        -- apply Hmin. now right.
Qed.

Lemma isort_head_min (l : list T) : head_min (isort le l).
Proof.
  induction l as [|x l IH]; simpl; [exact I|].
  now apply insert_sorted_head_min.
Qed.

Lemma isort_head (l : list T) (h : T) (t : list T) :
  isort le l = h :: t -> forall y, In y l -> le h y = true.
Proof.
  intros Hs y Hy. pose proof (isort_head_min l) as Hm.
  rewrite Hs in Hm. simpl in Hm. apply Hm.
  change (In y (h :: t)). rewrite <- Hs. now apply isort_In.
Qed.

End SortFacts.

(** ** Sure losers *)

Section BatchFacts.
Context {A : Arith}.
Variable surplus : V.
Variable maxDefeat : Z.

(** The grouping in the words of the specification: walking the sorted
    hopefuls, a candidate joins the current group iff
    [group_vote + surplus >= c.vote]; otherwise the group is closed and a
    new one is opened at this candidate's vote.  [gv] is the group vote and
    [current] the open group. *)
Fixpoint groups_spec (gv : V) (current : list Candidate)
         (l : list Candidate) : list (list Candidate) :=
  match l with
  | [] => close_group [] current
  | c :: l' =>
      if geb (add gv surplus) (vote c)
      then groups_spec gv (current ++ [c]) l'
      else close_group [] current ++ groups_spec (vote c) [c] l'
  end.

Lemma close_group_app (gs : list (list Candidate)) (g : list Candidate) :
  close_group gs g = gs ++ close_group [] g.
Proof. unfold close_group. destruct (nonempty g); simpl; auto using app_nil_r. Qed.

Lemma fold_group_step (l : list Candidate) (gs : list (list Candidate))
      (g : list Candidate) (v : V) :
  (let '(gs', g', _) := fold_left (group_step surplus) l (gs, g, v) in
   close_group gs' g') = gs ++ groups_spec v g l.
Proof.
  revert gs g v. induction l as [|c l IH]; intros gs g v; simpl.
  - apply close_group_app.
  - destruct (geb (add v surplus) (vote c)).
    + apply IH.
    + rewrite IH. rewrite close_group_app. now rewrite app_assoc.
Qed.

Lemma sortedGroups_spec (l : list Candidate) :
  sortedGroups surplus l = groups_spec V0 [] l.
Proof.
  unfold sortedGroups. pose proof (fold_group_step l [] [] V0) as H.
  destruct (fold_left _ _ _) as [[gs g] v]. exact H.
Qed.

Lemma groups_spec_concat (l : list Candidate) (gv : V) (g : list Candidate) :
  concat (groups_spec gv g l) = g ++ l.
Proof.
  revert gv g. induction l as [|c l IH]; intros gv g; simpl.
  - unfold close_group. destruct g; simpl; rewrite ?app_nil_r; auto.
  - destruct (geb (add gv surplus) (vote c)).
    + rewrite IH. now rewrite <- app_assoc.
    + rewrite concat_app, IH. unfold close_group.
      destruct g; simpl; rewrite ?app_nil_r; auto.
Qed.

Lemma groups_spec_nonempty (l : list Candidate) (gv : V) (g grp : list Candidate) :
  In grp (groups_spec gv g l) -> grp <> [].
Proof.
  revert gv g. induction l as [|c l IH]; intros gv g; simpl.
  - unfold close_group. destruct g; simpl; [tauto|]. intros [<-|[]]. discriminate.
  - destruct (geb (add gv surplus) (vote c)).
    + apply IH.
    + intros H. apply in_app_or in H. destruct H as [H|H].
      * unfold close_group in H. destruct g; simpl in H; [tauto|].
        destruct H as [<-|[]]. discriminate.
      * now apply IH in H.
Qed.

(** The groups partition the sorted hopefuls, in order, and none is empty. *)
Lemma sortedGroups_concat (l : list Candidate) :
  concat (sortedGroups surplus l) = l.
Proof. rewrite sortedGroups_spec. apply groups_spec_concat. Qed.

Lemma sortedGroups_nonempty (l grp : list Candidate) :
  In grp (sortedGroups surplus l) -> grp <> [].
Proof. rewrite sortedGroups_spec. apply groups_spec_nonempty. Qed.

(** ** Viable cuts *)

Definition add_group (v : V) (grp : list Candidate) : V :=
  add v (sum (map vote grp)).

(** The cut after group [g], counting from a state of the scan that has
    seen [nc0] candidates with cumulative vote [v0]: [g] is not the last
    group, the groups up to [g] hold at most [maxDefeat] candidates, and
    their vote plus the surplus is below the vote of the first candidate
    of the next group. *)
Definition viable_from (nc0 : Z) (v0 : V) (gs : list (list Candidate))
           (g : nat) : bool :=
  (nc0 + Z.of_nat (length (concat (firstn (S g) gs))) <=? maxDefeat)
  && match nth_error gs (S g) with
     | Some (c :: _) =>
         ltb (add (fold_left add_group (firstn (S g) gs) v0) surplus) (vote c)
     | _ => false
     end.

Definition viable (gs : list (list Candidate)) (g : nat) : bool :=
  viable_from 0 V0 gs g.

Lemma viable_from_S (nc0 : Z) (v0 : V) (grp : list Candidate)
      (gs : list (list Candidate)) (g : nat) :
  viable_from nc0 v0 (grp :: gs) (S g) =
  viable_from (nc0 + Z.of_nat (length grp)) (add_group v0 grp) gs g.
Proof.
  unfold viable_from.
  change (firstn (S (S g)) (grp :: gs)) with (grp :: firstn (S g) gs).
  cbn [concat fold_left nth_error]. rewrite length_app, Nat2Z.inj_add.
  now rewrite Z.add_assoc.
Qed.

Lemma viable_from_too_many (nc0 : Z) (v0 : V) (grp : list Candidate)
      (gs : list (list Candidate)) (g : nat) :
  maxDefeat < nc0 + Z.of_nat (length grp) ->
  viable_from nc0 v0 (grp :: gs) g = false.
Proof.
  intros H. unfold viable_from.
  change (firstn (S g) (grp :: gs)) with (grp :: firstn g gs).
  cbn [concat]. rewrite length_app, Nat2Z.inj_add.
  destruct (Z.leb_spec (nc0 + (Z.of_nat (length grp)
                               + Z.of_nat (length (concat (firstn g gs))))) maxDefeat);
    [lia|reflexivity].
Qed.

Lemma viable_from_short (nc0 : Z) (v0 : V) (gs : list (list Candidate)) (g : nat) :
  (length gs <= S g)%nat -> viable_from nc0 v0 gs g = false.
Proof.
  intros H. unfold viable_from.
  apply nth_error_None in H. rewrite H. apply andb_false_r.
Qed.

Lemma scan_cons (grp next : list Candidate) (rest : list (list Candidate))
      (g : nat) (ncand : Z) (v : V) (maxg : option nat) :
  scan surplus maxDefeat (grp :: next :: rest) g ncand v maxg =
  if ncand + Z.of_nat (length grp) >? maxDefeat then maxg
  else scan surplus maxDefeat (next :: rest) (S g)
            (ncand + Z.of_nat (length grp)) (add v (sum (map vote grp)))
            (match next with
             | c :: _ => if ltb (add (add v (sum (map vote grp))) surplus) (vote c)
                         then Some g else maxg
             | [] => maxg
             end).
Proof. reflexivity. Qed.

(** What [scan] returns: the largest viable cut at or after its position,
    or the value it was entered with when there is none. *)
Lemma scan_spec (gs : list (list Candidate)) :
  forall (g0 : nat) (nc0 : Z) (v0 : V) (m0 : option nat),
    let r := scan surplus maxDefeat gs g0 nc0 v0 m0 in
    (r = m0 /\ forall i, viable_from nc0 v0 gs i = false) \/
    (exists i, r = Some (g0 + i)%nat /\ viable_from nc0 v0 gs i = true /\
               forall j, (i < j)%nat -> viable_from nc0 v0 gs j = false).
Proof.
  induction gs as [|grp gs IH]; intros g0 nc0 v0 m0; cbv zeta.
  - left. split; [reflexivity|]. intros i. apply viable_from_short. simpl. lia.
  - destruct gs as [|next rest].
    + left. split; [reflexivity|]. intros i. apply viable_from_short. simpl. lia.
    + rewrite scan_cons.
      destruct (Z.gtb_spec (nc0 + Z.of_nat (length grp)) maxDefeat) as [Hgt|Hle].
      * left. split; [reflexivity|]. intros i. now apply viable_from_too_many.
      * set (v' := add v0 (sum (map vote grp))).
        set (m' := match next with
                   | c :: _ => if ltb (add v' surplus) (vote c) then Some g0 else m0
                   | [] => m0
                   end).
        specialize (IH (S g0) (nc0 + Z.of_nat (length grp)) v' m').
        cbv zeta in IH.
        assert (H0 : viable_from nc0 v0 (grp :: next :: rest) 0 =
                     match next with
                     | c :: _ => ltb (add v' surplus) (vote c)
                     | [] => false
                     end).
        { unfold viable_from. cbn [firstn concat nth_error fold_left].
          rewrite app_nil_r.
          destruct (Z.leb_spec (nc0 + Z.of_nat (length grp)) maxDefeat); [|lia].
          reflexivity. }
        destruct IH as [[Hr Hall]|[i [Hr [Hv Hlater]]]].
        -- rewrite Hr. unfold m'.
           destruct next as [|c next'].
           ++ left. split; [reflexivity|]. intros [|i].
              ** now rewrite H0.
              ** rewrite viable_from_S. apply Hall.
           ++ destruct (ltb (add v' surplus) (vote c)) eqn:Hlt.
              ** right. exists 0%nat. rewrite Nat.add_0_r. split; [reflexivity|].
                 split; [now rewrite H0|].
                 intros [|j] Hj; [lia|]. rewrite viable_from_S. apply Hall.
              ** left. split; [reflexivity|]. intros [|i].
                 --- now rewrite H0.
                 --- rewrite viable_from_S. apply Hall.
        -- right. exists (S i). rewrite Hr. split; [f_equal; lia|].
           split; [now rewrite viable_from_S|].
           intros [|j] Hj; [lia|]. rewrite viable_from_S. apply Hlater. lia.
Qed.

(** [find_maxg] is the largest viable cut, and [None] when no cut is
    viable. *)
Lemma find_maxg_largest (gs : list (list Candidate)) :
  match find_maxg surplus maxDefeat gs with
  | Some g => viable gs g = true /\ forall j, (g < j)%nat -> viable gs j = false
  | None => forall g, viable gs g = false
  end.
Proof.
  unfold find_maxg, viable.
  destruct (scan_spec gs 0 0 V0 None) as [[-> Hall]|[i [-> [Hv Hl]]]]; auto.
Qed.

Lemma viable_not_last (gs : list (list Candidate)) (g : nat) :
  viable gs g = true -> (S g < length gs)%nat.
Proof.
  intros H. destruct (Nat.lt_ge_cases (S g) (length gs)) as [|Hge]; auto.
  unfold viable in H. rewrite (viable_from_short 0 V0 gs Hge) in H. discriminate.
Qed.

Lemma viable_size (gs : list (list Candidate)) (g : nat) :
  viable gs g = true ->
  Z.of_nat (length (concat (firstn (S g) gs))) <= maxDefeat.
Proof.
  unfold viable, viable_from. intros H. apply andb_prop in H.
  destruct H as [H _]. apply Z.leb_le in H. lia.
Qed.

End BatchFacts.

(** ** [batchDefeat], both counters *)

Section BatchDefeat.
Context {A : Arith}.

Lemma last_in_skipn (T : Type) (d : T) (l : list T) (k : nat) :
  (k < length l)%nat -> In (last l d) (skipn k l).
Proof.
  revert k. induction l as [|x l IH]; intros k Hk; simpl in Hk; [lia|].
  destruct k as [|k].
  - simpl skipn. destruct l as [|y l]; [now left|].
    right. apply (IH 0%nat). simpl. lia.
  - destruct l as [|y l]; [simpl in Hk; lia|].
    change (In (last (y :: l) d) (skipn k (y :: l))).
    apply IH. simpl in *. lia.
Qed.

Lemma NoDup_app_disjoint (T : Type) (l1 l2 : list T) (x : T) :
  NoDup (l1 ++ l2) -> In x l1 -> In x l2 -> False.
Proof.
  induction l1 as [|y l1 IH]; simpl; intros Hnd H1 H2; [contradiction|].
  inversion Hnd as [|? ? Hnotin Hnd']; subst.
  destruct H1 as [->|H1].
  - apply Hnotin. apply in_or_app. now right.
  - now apply IH.
Qed.

(** What the specification says of a batch [batch] found among the sorted
    hopefuls [sorted] with at most [maxDefeat] defeats allowed:
    - the groups are those of the grouping rule, and they partition the
      sorted hopefuls;
    - the batch is the union of the groups up to the largest viable cut,
      and is empty when no cut is viable;
    - it holds no member of the final group;
    - a non-empty batch has at most [maxDefeat] members. *)
Definition batch_properties (surplus : V) (maxDefeat : Z)
           (sorted batch : list Candidate) : Prop :=
  let gs := sortedGroups surplus sorted in
  gs = groups_spec surplus V0 [] sorted /\
  concat gs = sorted /\
  match find_maxg surplus maxDefeat gs with
  | Some g =>
      viable surplus maxDefeat gs g = true /\
      (forall j, (g < j)%nat -> viable surplus maxDefeat gs j = false) /\
      batch = concat (firstn (S g) gs)
  | None =>
      (forall g, viable surplus maxDefeat gs g = false) /\ batch = []
  end /\
  (NoDup sorted -> forall c, In c batch -> In c (last gs []) -> False) /\
  (batch <> [] -> Z.of_nat (length batch) <= maxDefeat) /\
  (0 <= maxDefeat -> Z.of_nat (length batch) <= maxDefeat).

Lemma sure_losers_properties (surplus : V) (maxDefeat : Z)
      (sorted : list Candidate) :
  batch_properties surplus maxDefeat sorted
                   (sure_losers surplus maxDefeat sorted).
Proof.
  unfold batch_properties, sure_losers. cbv zeta.
  set (gs := sortedGroups surplus sorted).
  pose proof (find_maxg_largest surplus maxDefeat gs) as Hmax.
  split; [apply sortedGroups_spec|].
  split; [apply sortedGroups_concat|].
  destruct (find_maxg surplus maxDefeat gs) as [g|]; cbn [batch_of].
  - destruct Hmax as [Hv Hl].
    pose proof (viable_size _ _ _ _ Hv) as Hsize.
    split; [auto|]. split; [|split; auto].
    intros Hnd c Hin Hlast.
    pose proof (viable_not_last _ _ _ _ Hv) as Hlt.
    assert (Hc : concat (firstn (S g) gs) ++ concat (skipn (S g) gs) = sorted).
    { rewrite <- concat_app, firstn_skipn. apply sortedGroups_concat. }
    rewrite <- Hc in Hnd.
    apply (NoDup_app_disjoint _ _ c Hnd Hin).
    apply in_concat. exists (last gs []). split; [|exact Hlast].
    now apply last_in_skipn.
  - split; [auto|]. split; [intros _ c []|]. split; [congruence|]. simpl. lia.
Qed.

Lemma NoDup_of_cids (cs : list Candidate) : NoDup (map cid cs) -> NoDup cs.
Proof. apply NoDup_map_inv. Qed.

Lemma sortByVote_hopeful_NoDup (cs : list Candidate) :
  NoDup (map cid cs) -> NoDup (sortByVote (hopeful cs)).
Proof.
  intros H. apply isort_NoDup. apply NoDup_filter. now apply NoDup_of_cids.
Qed.

(** C3, as the code has it.  With [defeat_batch = none] the Meek/Warren
    [batchDefeat] returns the empty list whatever the hopefuls.  Otherwise,
    and always in WIGM, on any hopefuls and surplus: the hopefuls sorted by
    vote are grouped by the rule "join iff group_vote + surplus >= vote",
    the result is the union of the groups up to the largest viable cut and
    empty when there is none, it holds no member of the final group, and a
    non-empty result (any result when seatsLeftToFill <= |hopeful|, as at
    every call) has at most |hopeful| - seatsLeftToFill members. *)
Theorem batchDefeat_sure_losers (rule : Meek.Rule) (E : Election) (surplus : V) :
  (Meek.defeatBatch rule = Meek.BatchNone ->
     Meek.batchDefeat rule E surplus = []) /\
  (Meek.defeatBatch rule = Meek.BatchSafe ->
     batch_properties surplus (nHopeful (C (R E)) - seatsLeftToFill E)
                      (sortByVote (hopeful (C (R E))))
                      (Meek.batchDefeat rule E surplus)) /\
  batch_properties (Wigm.pending_surplus (R E))
                   (Z.of_nat (length (hopeful (C (R E)))) - seatsLeftToFill E)
                   (sortByVote (hopeful (C (R E))))
                   (Wigm.batchDefeat E).
Proof.
  unfold Meek.batchDefeat, Wigm.batchDefeat.
  split; [intros ->; reflexivity|].
  split; [intros ->|]; apply sure_losers_properties.
Qed.

End BatchDefeat.

(** ** Defeat of the lowest candidate (Meek/Warren) *)

Section DefeatLow.
Context {A : Arith}.
Variable rule : Meek.Rule.

Lemma order_le_total (c d : Candidate) :
  order_le c d = true \/ order_le d c = true.
Proof.
  unfold order_le. destruct (Nat.leb_spec (order c) (order d)); [now left|].
  right. apply Nat.leb_le. lia.
Qed.

Lemma order_le_trans (c d e : Candidate) :
  order_le c d = true -> order_le d e = true -> order_le c e = true.
Proof. unfold order_le. rewrite !Nat.leb_le. lia. Qed.

(** The candidate [breakTie] chooses is one of the tied candidates and no
    tied candidate comes before it in ballot order. *)
Lemma breakTie_first (r : Round) (tied : list Candidate) (purpose : string)
      (c : Candidate) :
  fst (Meek.breakTie r tied purpose) = Some c ->
  In c tied /\ forall d, In d tied -> (order c <= order d)%nat.
Proof.
  unfold Meek.breakTie. destruct tied as [|t [|t' tied]].
  - discriminate.
  - simpl. intros [= <-]. split; [now left|]. intros d [<-|[]]. lia.
  - destruct (sortByOrder (t :: t' :: tied)) as [|h l] eqn:Hs; [discriminate|].
    simpl. intros [= <-]. split.
    + apply (proj1 (isort_In order_le (t :: t' :: tied) h)).
      unfold sortByOrder in Hs. rewrite Hs. now left.
    + intros d Hd. apply Nat.leb_le.
      apply (@isort_head _ order_le order_le_total order_le_trans _ _ _ Hs d Hd).
Qed.

Lemma breakTie_candidates (r : Round) (tied : list Candidate) (purpose : string) :
  C (snd (Meek.breakTie r tied purpose)) = C r.
Proof.
  unfold Meek.breakTie. destruct tied as [|t [|t' tied]]; auto.
  destruct (sortByOrder _); auto.
Qed.

Lemma breakTie_some (r : Round) (tied : list Candidate) (purpose : string) :
  tied <> [] -> exists c, fst (Meek.breakTie r tied purpose) = Some c.
Proof.
  unfold Meek.breakTie. destruct tied as [|t [|t' tied]]; [congruence| |]; intros _.
  - now exists t.
  - destruct (sortByOrder (t :: t' :: tied)) as [|h l] eqn:Hs.
    + exfalso. apply (f_equal (@length _)) in Hs. unfold sortByOrder in Hs.
      rewrite isort_length in Hs. discriminate.
    + now exists h.
Qed.

(** What the defeat of [c] leaves in the candidate list [cs']: [c] is
    defeated with keep factor and vote [V0], the others are as in [cs]. *)
Definition defeated_only (c : Candidate) (cs cs' : list Candidate) : Prop :=
  cs' = map (fun d => if Nat.eqb (cid d) (cid c)
                      then set_vote V0 (set_kf V0 (set_status Defeated d))
                      else d) cs.

Lemma defeat_zero_candidates (msg : string) (r : Round) (c : Candidate) :
  defeated_only c (C r) (C (Meek.defeat_zero msg r c)).
Proof.
  unfold defeated_only, Meek.defeat_zero, defeat, transition. simpl.
  unfold update. rewrite map_map. apply map_ext. intros d.
  destruct (Nat.eqb (cid d) (cid c)) eqn:Hd; simpl; rewrite Hd; reflexivity.
Qed.


End DefeatLow.

(** ** WIGM: quota, pending, transfer of the highest surplus *)

Section WigmFacts.
Context {A : Arith}.

(** Identifier and status of each candidate, in catalogue order. *)
Definition skeleton (cs : list Candidate) : list (nat * status) :=
  map (fun c => (cid c, cstatus c)) cs.

Lemma skeleton_update (k : nat) (f : Candidate -> Candidate) (cs : list Candidate) :
  (forall c, cid (f c) = cid c /\ cstatus (f c) = cstatus c) ->
  skeleton (update k f cs) = skeleton cs.
Proof.
  intros Hf. unfold skeleton, update. rewrite map_map. apply map_ext.
  intros c. destruct (Nat.eqb (cid c) k); auto.
  destruct (Hf c) as [-> ->]. reflexivity.
Qed.

Lemma skeleton_add_vote (k : nat) (x : V) (cs : list Candidate) :
  skeleton (Wigm.add_vote k x cs) = skeleton cs.
Proof. apply skeleton_update. intros c. split; reflexivity. Qed.

Lemma skeleton_lookup_status (cs cs' : list Candidate) (k : nat) :
  skeleton cs = skeleton cs' ->
  option_map cstatus (lookup k cs) = option_map cstatus (lookup k cs').
Proof.
  revert cs'. induction cs as [|c cs IH]; intros [|c' cs'] H; try discriminate; auto.
  simpl in H. injection H as Hc Hs Hrest.
  unfold lookup. simpl. rewrite Hc.
  destruct (Nat.eqb (cid c') k); simpl; [now rewrite Hs|].
  now apply IH.
Qed.

Lemma top_is_hopeful_skeleton (cs cs' : list Candidate) (b : Ballot) :
  skeleton cs = skeleton cs' ->
  Wigm.top_is_hopeful cs b = Wigm.top_is_hopeful cs' b.
Proof.
  intros H. unfold Wigm.top_is_hopeful. destruct (Wigm.topRank b) as [k|]; auto.
  pose proof (@skeleton_lookup_status cs cs' k H) as Hk.
  unfold has_status.
  destruct (lookup k cs), (lookup k cs'); simpl in Hk; try discriminate; auto.
  injection Hk as ->. reflexivity.
Qed.

Lemma advance_loop_skeleton (cs cs' : list Candidate) (steps : nat) (b : Ballot) :
  skeleton cs = skeleton cs' ->
  Wigm.advance_loop steps cs b = Wigm.advance_loop steps cs' b.
Proof.
  intros H. revert b. induction steps as [|steps IH]; intros b; simpl; auto.
  rewrite (@top_is_hopeful_skeleton cs cs' b H), IH. reflexivity.
Qed.

Lemma transfer_skeleton (cs cs' : list Candidate) (b : Ballot) :
  skeleton cs = skeleton cs' -> Wigm.transfer cs b = Wigm.transfer cs' b.
Proof.
  intros H. unfold Wigm.transfer. now rewrite (@advance_loop_skeleton cs cs' _ b H).
Qed.

(** The loop of [transfer] has really ended: the ballot it returns is
    exhausted or topped at a hopeful. *)
Lemma advance_loop_done (cs : list Candidate) (steps : nat) (b : Ballot) :
  (length (ranking b) - index b <= steps)%nat ->
  let b' := Wigm.advance_loop steps cs b in
  Wigm.exhausted b' = true \/ Wigm.top_is_hopeful cs b' = true.
Proof.
  revert b. induction steps as [|steps IH]; intros b Hs; simpl.
  - left. unfold Wigm.exhausted. apply orb_true_iff. left. apply Nat.leb_le. lia.
  - destruct (Wigm.exhausted b) eqn:He; [now left|].
    destruct (Wigm.top_is_hopeful cs b) eqn:Ht; [now right|].
    apply IH. unfold Wigm.advance. simpl.
    unfold Wigm.exhausted in He. apply orb_false_iff in He. destruct He as [He _].
    apply Nat.leb_gt in He. lia.
Qed.

Lemma transfer_done (cs : list Candidate) (b : Ballot) :
  let b' := fst (Wigm.transfer cs b) in
  Wigm.exhausted b' = true \/ Wigm.top_is_hopeful cs b' = true.
Proof. unfold Wigm.transfer. simpl. now apply advance_loop_done. Qed.

Lemma lookup_update_other (k j : nat) (f : Candidate -> Candidate)
      (cs : list Candidate) :
  (forall c, cid (f c) = cid c) -> j <> k ->
  lookup k (update j f cs) = lookup k cs.
Proof.
  intros Hf Hne. unfold lookup, update.
  induction cs as [|c cs IH]; simpl; auto.
  destruct (Nat.eqb_spec (cid c) j) as [Hj|Hj].
  - rewrite Hf. destruct (Nat.eqb_spec (cid c) k); [congruence|]. exact IH.
  - destruct (Nat.eqb (cid c) k); auto.
Qed.

Lemma lookup_update_same (k : nat) (f : Candidate -> Candidate)
      (cs : list Candidate) :
  (forall c, cid (f c) = cid c) ->
  lookup k (update k f cs) = option_map f (lookup k cs).
Proof.
  intros Hf. unfold lookup, update.
  induction cs as [|c cs IH]; simpl; auto.
  destruct (Nat.eqb_spec (cid c) k) as [Hk|Hk].
  - rewrite Hf. destruct (Nat.eqb_spec (cid c) k); [reflexivity|contradiction].
  - destruct (Nat.eqb_spec (cid c) k); [contradiction|]. exact IH.
Qed.

(** The candidate a live ballot is credited to is hopeful, so it is not
    [k] when [k] is not hopeful. *)
Lemma transfer_and_credit_spec (cs : list Candidate) (b : Ballot) (k : nat)
      (h : Candidate) :
  lookup k cs = Some h -> has_status Hopeful h = false ->
  let '(cs', b') := Wigm.transfer_and_credit cs b in
  b' = fst (Wigm.transfer cs b) /\ skeleton cs' = skeleton cs /\
  lookup k cs' = Some h.
Proof.
  intros Hk Hh. unfold Wigm.transfer_and_credit.
  pose proof (transfer_done cs b) as Hdone.
  destruct (Wigm.transfer cs b) as [b' live] eqn:Ht. simpl in Hdone.
  assert (Hlive : live = negb (Wigm.exhausted b')).
  { unfold Wigm.transfer in Ht. now injection Ht as <- <-. }
  destruct live; [|now auto].
  destruct (Wigm.topRank b') as [j|] eqn:Hj; [|now auto].
  split; [reflexivity|]. split; [apply skeleton_add_vote|].
  unfold Wigm.add_vote. rewrite lookup_update_other; auto.
  intros ->. destruct Hdone as [He|Htop].
  - rewrite He in Hlive. discriminate.
  - unfold Wigm.top_is_hopeful in Htop. rewrite Hj, Hk in Htop. congruence.
Qed.

End WigmFacts.

Section WigmTransfer.
Context {A : Arith}.

Lemma fold_with_R_C (f : Candidate -> Round -> Round)
      (g : Candidate -> list Candidate -> list Candidate)
      (l : list Candidate) (E : Election) :
  (forall c r, C (f c r) = g c (C r)) ->
  C (R (fold_left (fun E' c => with_R (f c) E') l E)) =
  fold_left (fun cs c => g c cs) l (C (R E)).
Proof.
  intros Hfg. revert E. induction l as [|c l IH]; intros E; simpl; auto.
  rewrite IH. simpl. now rewrite Hfg.
Qed.

Lemma lookup_map (F : Candidate -> Candidate) (k : nat) (cs : list Candidate) :
  (forall c, cid (F c) = cid c) ->
  lookup k (map F cs) = option_map F (lookup k cs).
Proof.
  intros HF. unfold lookup. induction cs as [|c cs IH]; simpl; auto.
  rewrite HF. destruct (Nat.eqb (cid c) k); auto.
Qed.

Lemma NoDup_cid_filter (P : Candidate -> bool) (l : list Candidate) :
  NoDup (map cid l) -> NoDup (map cid (filter P l)).
Proof.
  induction l as [|c l IH]; simpl; intros Hnd; [constructor|].
  inversion Hnd as [|? ? Hnotin Hnd']; subst.
  destruct (P c); simpl; auto. constructor; auto.
  intros Hc. apply Hnotin. apply in_map_iff in Hc.
  destruct Hc as [x [Hx Hxin]]. apply filter_In in Hxin.
  rewrite <- Hx. apply in_map. tauto.
Qed.

Lemma NoDup_cid_perm (l l' : list Candidate) :
  Permutation l l' -> NoDup (map cid l) -> NoDup (map cid l').
Proof. intros Hp. apply Permutation_NoDup. now apply Permutation_map. Qed.

Lemma find_cid_In (c : Candidate) (l : list Candidate) :
  In c l -> find_cid (cid c) l <> None.
Proof.
  intros Hin Hnone. apply lookup_None in Hnone. apply Hnone. now apply in_map.
Qed.

(** B.1 leaves pending each hopeful that has the quota. *)
Lemma pend_winners_pending (E : Election) (c : Candidate) :
  NoDup (map cid (C (R E))) ->
  In c (hopeful (C (R E))) -> Wigm.hasQuota E c = true ->
  lookup (cid c) (C (R (Wigm.pend_winners E))) = Some (set_status Pending c).
Proof.
  intros Hnd Hc Hq. unfold Wigm.pend_winners.
  set (l := filter (Wigm.hasQuota E) (sortByVoteReversed (hopeful (C (R E))))).
  rewrite (@fold_with_R_C (fun c => pend (cid c))
                          (fun c => update (cid c) (set_status Pending)))
    by reflexivity.
  rewrite (@fold_update_spec _ (fun _ d => set_status Pending d)).
  - rewrite lookup_map.
    + rewrite lookup_NoDup; auto.
      * simpl. destruct (find_cid (cid c) l) eqn:Hf; [reflexivity|].
        exfalso. revert Hf. apply find_cid_In. unfold l.
        apply filter_In. split; [|exact Hq].
        unfold sortByVoteReversed, sortByVote. apply -> in_rev.
        now apply isort_In.
      * apply filter_In in Hc. tauto.
    + intros d. destruct (find_cid (cid d) l); reflexivity.
  - reflexivity.
  - unfold l. apply NoDup_cid_filter.
    unfold sortByVoteReversed, sortByVote.
    apply NoDup_cid_perm with (l := hopeful (C (R E))).
    + rewrite <- Permutation_rev. symmetry. apply isort_perm.
    + now apply NoDup_cid_filter.
Qed.

(** The weight the surplus transfer gives a ballot topped at [h]. *)
Definition reweighed (s : V) (h : Candidate) (b : Ballot) : Ballot :=
  set_weight (quot (times (weight b) s) (vote h) None) b.

(** A ballot after the surplus of [h] has been transferred, the candidates
    being [cs]. *)
Definition transferred (cs : list Candidate) (s : V) (h : Candidate)
           (b : Ballot) : Ballot :=
  if Wigm.topped_at (cid h) b
  then fst (Wigm.transfer cs (reweighed s h b))
  else b.

(** One turn of the loop over the ballots in B.3. *)
Definition surplus_step (k : nat) (s : V)
           (st : list Candidate * list Ballot) (b : Ballot)
  : result (list Candidate * list Ballot) :=
  let '(cs', done) := st in
  if Wigm.topped_at k b then
    b1 <- Wigm.surplus_weight k s cs' b ;;
    let '(cs'', b2) := Wigm.transfer_and_credit cs' b1 in
    Ok (cs'', done ++ [b2])
  else Ok (cs', done ++ [b]).

Lemma transfer_ballots_surplus_eq (k : nat) (s : V) (cs : list Candidate)
      (bs : list Ballot) :
  Wigm.transfer_ballots (Wigm.surplus_weight k s) k cs bs =
  foldM (surplus_step k s) bs (cs, []).
Proof. reflexivity. Qed.

Lemma surplus_step_topped (h : Candidate) (s : V) (cs0 cs : list Candidate)
      (done : list Ballot) (b : Ballot) :
  skeleton cs = skeleton cs0 ->
  lookup (cid h) cs = Some h ->
  has_status Hopeful h = false ->
  is_zero (vote h) = false ->
  exists cs',
    surplus_step (cid h) s (cs, done) b = Ok (cs', done ++ [transferred cs0 s h b]) /\
    skeleton cs' = skeleton cs0 /\ lookup (cid h) cs' = Some h.
Proof.
  intros Hsk Hk Hh Hz. unfold surplus_step, transferred.
  destruct (Wigm.topped_at (cid h) b) eqn:Htop; [|exists cs; auto].
  unfold Wigm.surplus_weight. rewrite Hk. unfold over. rewrite Hz.
  cbn [bind].
  pose proof (@transfer_and_credit_spec _ cs
                (set_weight (quot (times (weight b) s) (vote h) None) b)
                (cid h) h Hk Hh) as Hspec.
  destruct (Wigm.transfer_and_credit cs _) as [cs'' b2].
  destruct Hspec as (Hb2 & Hsk' & Hk').
  exists cs''. split; [|split; [congruence|exact Hk']].
  rewrite Hb2. unfold reweighed.
  now rewrite (@transfer_skeleton _ cs cs0 _ Hsk).
Qed.

Lemma surplus_step_zero (h : Candidate) (s : V) (cs : list Candidate)
      (done : list Ballot) (b : Ballot) :
  lookup (cid h) cs = Some h -> is_zero (vote h) = true ->
  surplus_step (cid h) s (cs, done) b =
  if Wigm.topped_at (cid h) b then Raise ZeroDivisionError
  else Ok (cs, done ++ [b]).
Proof.
  intros Hk Hz. unfold surplus_step.
  destruct (Wigm.topped_at (cid h) b); [|reflexivity].
  unfold Wigm.surplus_weight. rewrite Hk. unfold over. now rewrite Hz.
Qed.

(** The loop over the ballots, when it does not raise. *)
Lemma transfer_ballots_surplus (h : Candidate) (s : V)
      (cs0 : list Candidate) (bs : list Ballot) :
  forall (cs : list Candidate) (done : list Ballot)
         (res : list Candidate * list Ballot),
    skeleton cs = skeleton cs0 ->
    lookup (cid h) cs = Some h ->
    has_status Hopeful h = false ->
    foldM (surplus_step (cid h) s) bs (cs, done) = Ok res ->
    snd res = done ++ map (transferred cs0 s h) bs /\
    skeleton (fst res) = skeleton cs0 /\ lookup (cid h) (fst res) = Some h.
Proof.
  induction bs as [|b bs IH]; intros cs done res Hsk Hk Hh; cbn [foldM map].
  - intros [= <-]. rewrite app_nil_r. auto.
  - destruct (is_zero (vote h)) eqn:Hz.
    + rewrite surplus_step_zero by assumption. unfold transferred at 1.
      destruct (Wigm.topped_at (cid h) b); [discriminate|].
      cbn [bind]. intros Hf.
      destruct (IH _ _ _ Hsk Hk Hh Hf) as (H1 & H2 & H3).
      rewrite H1, <- app_assoc. auto.
    + destruct (@surplus_step_topped h s cs0 cs done b Hsk Hk Hh Hz)
        as [cs' (Hstep & Hsk' & Hk')].
      rewrite Hstep. cbn [bind]. intros Hf.
      destruct (IH _ _ _ Hsk' Hk' Hh Hf) as (H1 & H2 & H3).
      rewrite H1, <- app_assoc. auto.
Qed.

(** The loop does not raise when the vote of [h] is not zero. *)
Lemma transfer_ballots_surplus_succeeds (h : Candidate) (s : V)
      (cs0 : list Candidate) (bs : list Ballot) :
  forall (cs : list Candidate) (done : list Ballot),
    skeleton cs = skeleton cs0 ->
    lookup (cid h) cs = Some h ->
    has_status Hopeful h = false ->
    is_zero (vote h) = false ->
    exists res, foldM (surplus_step (cid h) s) bs (cs, done) = Ok res.
Proof.
  induction bs as [|b bs IH]; intros cs done Hsk Hk Hh Hz; cbn [foldM].
  - eexists. reflexivity.
  - destruct (@surplus_step_topped h s cs0 cs done b Hsk Hk Hh Hz)
      as [cs' (Hstep & Hsk' & Hk')].
    rewrite Hstep. cbn [bind]. now apply IH.
Qed.

Lemma vmax_In (l : list V) (m : V) : vmax l = Ok m -> In m l.
Proof.
  destruct l as [|x l]; [discriminate|]. simpl. intros [= <-].
  revert x. induction l as [|y l IH]; intros x; simpl; [now left|].
  destruct (IH (if ltb x y then y else x)) as [H|H]; [|now auto].
  destruct (ltb x y); [right; left|left]; congruence.
Qed.

Lemma wigm_breakTie_first (r : Round) (tied : list Candidate) (reason : string)
      (t : Candidate) (r' : Round) :
  Wigm.breakTie r tied reason = Ok (t, r') ->
  In t tied /\ (forall d, In d tied -> (order t <= order d)%nat) /\
  C r' = C r /\ quota r' = quota r.
Proof.
  unfold Wigm.breakTie.
  assert (Hgen : match sortByOrder tied with
                 | t0 :: _ =>
                     In t0 tied /\ forall d, In d tied -> (order t0 <= order d)%nat
                 | [] => True
                 end).
  { destruct (sortByOrder tied) as [|h l] eqn:Hs; [exact I|]. split.
    - apply (proj1 (isort_In order_le tied h)).
      unfold sortByOrder in Hs. rewrite Hs. now left.
    - intros d Hd. apply Nat.leb_le.
      apply (@isort_head _ order_le order_le_total order_le_trans _ _ _ Hs d Hd). }
  destruct tied as [|t0 [|t1 tied]].
  - simpl. discriminate.
  - intros [= <- <-]. split; [now left|]. split; [|auto].
    intros d [<-|[]]. lia.
  - destruct (sortByOrder (t0 :: t1 :: tied)) as [|h l]; [discriminate|].
    intros [= <- <-]. destruct Hgen as [H1 H2]. auto.
Qed.

(** What B.3 does, [h] being the candidate whose surplus is transferred. *)
Definition surplus_transferred (E E' : Election) (h : Candidate) : Prop :=
  let q := quota (R E) in
  let s := sub (vote h) q in
  let cs1 := update (cid h) (set_status Elected) (C (R E)) in
  In h (pending (C (R E))) /\
  (exists hv, vmax (map vote (pending (C (R E)))) = Ok hv /\
              eqb (vote h) hv = true /\
              forall d, In d (pending (C (R E))) -> eqb (vote d) hv = true ->
                        (order h <= order d)%nat) /\
  ballots E' = map (transferred cs1 s h) (ballots E) /\
  lookup (cid h) (C (R E')) = Some (set_vote q (set_status Elected h)) /\
  skeleton (C (R E')) = skeleton cs1.

Lemma transfer_high_surplus_spec (E E' : Election) :
  NoDup (map cid (C (R E))) ->
  Wigm.transfer_high_surplus E = Ok E' ->
  exists h, surplus_transferred E E' h.
Proof.
  intros Hnd. unfold Wigm.transfer_high_surplus.
  destruct (vmax (map vote (pending (C (R E))))) as [hv| |] eqn:Hmax;
    try discriminate.
  cbn [bind].
  destruct (Wigm.breakTie _ _ _) as [[h r0]| |] eqn:Hb; try discriminate.
  cbn [bind].
  destruct (wigm_breakTie_first _ _ _ Hb) as (Hin & Hord & HC & Hq).
  apply filter_In in Hin. destruct Hin as [Hpend Heq].
  assert (HinC : In h (C (R E))) by (apply filter_In in Hpend; tauto).
  assert (Hstat : has_status Pending h = true) by (apply filter_In in Hpend; tauto).
  set (r1 := elect (cid h) "Transfer high surplus" r0).
  assert (HC1 : C r1 = update (cid h) (set_status Elected) (C (R E))).
  { unfold r1, elect, transition. simpl. now rewrite HC. }
  assert (Hq1 : quota r1 = quota (R E)).
  { unfold r1, elect, transition. simpl. exact Hq. }
  assert (Hl1 : lookup (cid h) (C r1) = Some (set_status Elected h)).
  { rewrite HC1, lookup_update_same by reflexivity.
    rewrite lookup_NoDup by assumption. reflexivity. }
  assert (Hnh : has_status Hopeful (set_status Elected h) = false) by reflexivity.
  rewrite transfer_ballots_surplus_eq.
  destruct (foldM _ _ _) as [[cs' bs']| |] eqn:Hfold; try discriminate.
  change (cid h) with (cid (set_status Elected h)) in Hfold.
  destruct (@transfer_ballots_surplus (set_status Elected h) _ (C r1) (ballots E)
              (C r1) [] _ eq_refl Hl1 Hnh Hfold) as (Hbs & Hsk & Hl).
  cbn [fst snd app] in Hbs, Hsk, Hl. cbn [bind].
  change (cid (set_status Elected h)) with (cid h) in Hl.
  intros [= <-]. exists h. unfold surplus_transferred. cbv zeta.
  split; [exact Hpend|]. split.
  { exists hv. split; [exact Hmax|]. split; [exact Heq|].
    intros d Hd He. apply Hord. apply filter_In. auto. }
  rewrite <- HC1, <- Hq1.
  split; [exact Hbs|]. split.
  - cbn [R with_R with_ballots C]. unfold Wigm.log_transfer, Wigm.set_cand_vote.
    cbn [C add_log set_C].
    rewrite lookup_update_same by reflexivity. rewrite Hl. reflexivity.
  - cbn [R with_R with_ballots C]. unfold Wigm.log_transfer, Wigm.set_cand_vote.
    cbn [C add_log set_C].
    rewrite skeleton_update; [exact Hsk|].
    intros c. split; reflexivity.
Qed.

End WigmTransfer.

Section WigmSurplus.
Context {A : Arith}.

Lemma vmax_nonempty (l : list V) : l <> [] -> exists m, vmax l = Ok m.
Proof. destruct l; [congruence|]. intros _. eexists. reflexivity. Qed.

Lemma wigm_breakTie_succeeds (r : Round) (tied : list Candidate) (reason : string) :
  tied <> [] -> exists t r', Wigm.breakTie r tied reason = Ok (t, r').
Proof.
  unfold Wigm.breakTie. destruct tied as [|t [|t' tied]]; [congruence| |]; intros _.
  - now exists t, r.
  - destruct (sortByOrder (t :: t' :: tied)) as [|h l] eqn:Hs.
    + exfalso. apply (f_equal (@length _)) in Hs. unfold sortByOrder in Hs.
      rewrite isort_length in Hs. discriminate.
    + eexists. eexists. reflexivity.
Qed.

(** B.3 does not look at the size of the surplus: it goes through whenever
    there is a pending candidate, unless a division by a zero vote raises. *)
Lemma transfer_high_surplus_succeeds (E : Election) :
  (forall v : V, eqb v v = true) ->
  NoDup (map cid (C (R E))) ->
  pending (C (R E)) <> [] ->
  (forall c, In c (pending (C (R E))) -> is_zero (vote c) = false) ->
  exists E', Wigm.transfer_high_surplus E = Ok E'.
Proof.
  intros Hrefl Hnd Hne Hnz. unfold Wigm.transfer_high_surplus.
  destruct (@vmax_nonempty (map vote (pending (C (R E))))) as [hv Hmax].
  { destruct (pending (C (R E))); [congruence|discriminate]. }
  rewrite Hmax. cbn [bind].
  pose proof (vmax_In _ Hmax) as Hin. apply in_map_iff in Hin.
  destruct Hin as [c0 [Hv0 Hc0]].
  destruct (@wigm_breakTie_succeeds (R E)
              (filter (fun c => eqb (vote c) hv) (pending (C (R E)))) "surplus")
    as [h [r0 Hb]].
  { intros Hnil. assert (Hc : In c0 (filter (fun c => eqb (vote c) hv)
                                            (pending (C (R E))))).
    { apply filter_In. split; [exact Hc0|]. rewrite Hv0. apply Hrefl. }
    rewrite Hnil in Hc. contradiction. }
  rewrite Hb. cbn [bind].
  destruct (wigm_breakTie_first _ _ _ Hb) as (Hin & _ & HC & _).
  apply filter_In in Hin. destruct Hin as [Hpend _].
  assert (HinC : In h (C (R E))) by (apply filter_In in Hpend; tauto).
  set (r1 := elect (cid h) "Transfer high surplus" r0).
  assert (Hl1 : lookup (cid h) (C r1) = Some (set_status Elected h)).
  { unfold r1, elect, transition. cbn [C add_log set_C]. rewrite HC.
    rewrite lookup_update_same by reflexivity.
    rewrite lookup_NoDup by assumption. reflexivity. }
  rewrite transfer_ballots_surplus_eq.
  destruct (@transfer_ballots_surplus_succeeds _ (set_status Elected h)
              (sub (vote h) (quota r1)) (C r1) (ballots E) (C r1) [])
    as [[cs' bs'] Hfold]; auto.
  { apply (Hnz h Hpend). }
  change (cid (set_status Elected h)) with (cid h) in Hfold.
  rewrite Hfold. cbn [bind]. eexists. reflexivity.
Qed.

(** A round with no sure losers and a pending candidate is the transfer
    of the highest surplus. *)
Lemma round_transfers (defeatBatch : bool) (E : Election) :
  let E1 := Wigm.pend_winners (newRound E) in
  (if defeatBatch then Wigm.batchDefeat E1 else []) = [] ->
  pending (C (R E1)) <> [] ->
  Wigm.round defeatBatch E =
  (E2 <- Wigm.transfer_high_surplus E1 ;; Ok (E2, false)).
Proof.
  cbv zeta. intros Hb Hp. unfold Wigm.round. rewrite Hb. cbn [nonempty].
  destruct (pending _); [congruence|]. reflexivity.
Qed.

End WigmSurplus.

Section WigmFixed.
Variable p : Z.

(** C5. In the WIGM counter (fixed-point arithmetic) a hopeful whose vote
    equals the quota has the quota and is set pending; the surplus-transfer
    step moves the pending candidate with the highest vote, the first in
    ballot order among equals, to elected, gives every ballot topped at it
    the weight (weight * surplus) / vote, each operation truncated, and
    puts it through the ballot transfer, and sets the candidate's vote to
    the quota; the step does not test the surplus, so it is made for a
    zero surplus too. *)
Theorem wigm_quota_and_surplus_transfer :
  (forall (E : @Election (FixedArith p)) (c : Candidate),
      vote c = quota (R E) -> Wigm.hasQuota E c = true) /\
  (forall (E : @Election (FixedArith p)) (c : Candidate),
      NoDup (map cid (C (R E))) -> In c (hopeful (C (R E))) ->
      vote c = quota (R E) ->
      lookup (cid c) (C (R (Wigm.pend_winners E))) = Some (set_status Pending c)) /\
  (forall (E E' : @Election (FixedArith p)),
      NoDup (map cid (C (R E))) ->
      Wigm.transfer_high_surplus E = Ok E' ->
      exists h, surplus_transferred E E' h) /\
  (forall (s : Z) (h : @Candidate (FixedArith p)) (b : @Ballot (FixedArith p)),
      weight (@reweighed (FixedArith p) s h b) =
      Z.quot (Z.quot (weight b * s) (10 ^ p) * 10 ^ p) (vote h)) /\
  (forall (E : @Election (FixedArith p)),
      NoDup (map cid (C (R E))) ->
      pending (C (R E)) <> [] ->
      (forall c, In c (pending (C (R E))) -> vote c <> 0) ->
      exists E', Wigm.transfer_high_surplus E = Ok E') /\
  (forall (defeatBatch : bool) (E : @Election (FixedArith p)),
      (if defeatBatch then Wigm.batchDefeat (Wigm.pend_winners (newRound E))
       else []) = [] ->
      pending (C (R (Wigm.pend_winners (newRound E)))) <> [] ->
      Wigm.round defeatBatch E =
      (E2 <- Wigm.transfer_high_surplus (Wigm.pend_winners (newRound E)) ;;
       Ok (E2, false))).
Proof.
  assert (Hq : forall (E : @Election (FixedArith p)) (c : Candidate),
             vote c = quota (R E) -> Wigm.hasQuota E c = true).
  { intros E c Hv. unfold Wigm.hasQuota, geb. simpl. rewrite Hv. apply Z.leb_refl. }
  split; [exact Hq|]. split.
  { intros E c Hnd Hc Hv. apply pend_winners_pending; auto. }
  split; [intros E E'; apply transfer_high_surplus_spec|].
  split; [reflexivity|]. split.
  - intros E Hnd Hne Hnz. apply transfer_high_surplus_succeeds; auto.
    + intros v. apply Z.eqb_refl.
    + intros c Hc. simpl. apply Z.eqb_neq. now apply Hnz.
  - intros defeatBatch E. apply round_transfers.
Qed.

End WigmFixed.

(** ** Frames: what each operation of the Meek/Warren counter can change *)

Section Frames.
Context {A : Arith}.
Variable rule : Meek.Rule.

(** Only the vote differs. *)
Definition vote_changed (d d' : Candidate) : Prop := d' = set_vote (vote d') d.

Lemma vote_changed_refl (d : Candidate) : vote_changed d d.
Proof. destruct d; reflexivity. Qed.

Lemma vote_changed_trans (d1 d2 d3 : Candidate) :
  vote_changed d1 d2 -> vote_changed d2 d3 -> vote_changed d1 d3.
Proof. unfold vote_changed. intros -> ->. reflexivity. Qed.

Lemma Forall2_refl_on (T : Type) (Rel : T -> T -> Prop) (l : list T) :
  (forall x, Rel x x) -> Forall2 Rel l l.
Proof. intros H. induction l; constructor; auto. Qed.

Lemma Forall2_trans_on (T : Type) (Rel : T -> T -> Prop) (l1 l2 l3 : list T) :
  (forall x y z, Rel x y -> Rel y z -> Rel x z) ->
  Forall2 Rel l1 l2 -> Forall2 Rel l2 l3 -> Forall2 Rel l1 l3.
Proof.
  intros Ht H12. revert l3. induction H12; intros l3 H23; inversion H23; subst;
    constructor; eauto.
Qed.

Lemma Forall2_map_r (T : Type) (Rel : T -> T -> Prop) (F : T -> T) (l : list T) :
  (forall x, Rel x (F x)) -> Forall2 Rel l (map F l).
Proof. intros H. induction l; simpl; constructor; auto. Qed.

Lemma Forall2_In_r (T : Type) (Rel : T -> T -> Prop) (l l' : list T) (y : T) :
  Forall2 Rel l l' -> In y l' -> exists x, In x l /\ Rel x y.
Proof.
  induction 1 as [|x y' l l' Hxy _ IH]; simpl; [contradiction|].
  intros [<-|Hy].
  - exists x. auto.
  - destruct (IH Hy) as [x' [Hx' Hr]]. exists x'. auto.
Qed.

Lemma Forall2_In_l (T : Type) (Rel : T -> T -> Prop) (l l' : list T) (x : T) :
  Forall2 Rel l l' -> In x l -> exists y, In y l' /\ Rel x y.
Proof.
  induction 1 as [|x' y l l' Hxy _ IH]; simpl; [contradiction|].
  intros [<-|Hx].
  - exists y. auto.
  - destruct (IH Hx) as [y' [Hy' Hr]]. exists y'. auto.
Qed.

Lemma add_vote_frame (k : nat) (x : V) (cs : list Candidate) :
  Forall2 vote_changed cs (Meek.add_vote k x cs).
Proof.
  unfold Meek.add_vote, update. apply Forall2_map_r. intros d.
  destruct (Nat.eqb (cid d) k); [reflexivity|apply vote_changed_refl].
Qed.

Lemma meek_ranking_frame (m : Z) (rk : list nat) (cs : list Candidate) (w r : V) :
  Forall2 vote_changed cs (fst (fst (Meek.meek_ranking m rk cs w r))).
Proof.
  revert cs w r. induction rk as [|k rk IH]; intros cs w r; simpl.
  - apply Forall2_refl_on, vote_changed_refl.
  - destruct (lookup k cs) as [c|]; [|apply IH].
    destruct (leb _ V0); simpl.
    + apply add_vote_frame.
    + eapply Forall2_trans_on; [apply vote_changed_trans|apply add_vote_frame|apply IH].
Qed.

Lemma warren_ranking_frame (m : Z) (rk : list nat) (cs : list Candidate) (w r : V) :
  Forall2 vote_changed cs (fst (fst (Meek.warren_ranking m rk cs w r))).
Proof.
  revert cs w r. induction rk as [|k rk IH]; intros cs w r; simpl.
  - apply Forall2_refl_on, vote_changed_refl.
  - destruct (lookup k cs) as [c|]; [|apply IH].
    destruct (leb _ V0); simpl.
    + apply add_vote_frame.
    + eapply Forall2_trans_on; [apply vote_changed_trans|apply add_vote_frame|apply IH].
Qed.

Lemma distribute_ballot_frame (cs : list Candidate) (done : list Ballot)
      (res : V) (b : Ballot) :
  Forall2 vote_changed cs
          (fst (fst (Meek.distribute_ballot rule (cs, done, res) b))).
Proof.
  unfold Meek.distribute_ballot.
  pose proof (meek_ranking_frame (multiplier b) (ranking b) cs V1
                                 (of_int (multiplier b))) as Hm.
  pose proof (warren_ranking_frame (multiplier b) (ranking b) cs V1
                                   (of_int (multiplier b))) as Hw.
  destruct (Meek.warren rule).
  - destruct (Meek.warren_ranking _ _ _ _ _) as [[cs' w] r]. exact Hw.
  - destruct (Meek.meek_ranking _ _ _ _ _) as [[cs' w] r]. exact Hm.
Qed.

Lemma fold_distribute_frame (bs : list Ballot) (st : list Candidate * list Ballot * V) :
  Forall2 vote_changed (fst (fst st))
          (fst (fst (fold_left (Meek.distribute_ballot rule) bs st))).
Proof.
  revert st. induction bs as [|b bs IH]; intros st; simpl.
  - apply Forall2_refl_on, vote_changed_refl.
  - eapply Forall2_trans_on; [apply vote_changed_trans| |apply IH].
    destruct st as [[cs done] res]. apply distribute_ballot_frame.
Qed.

Lemma reset_votes_frame (cs : list Candidate) :
  Forall2 vote_changed cs (Meek.reset_votes cs).
Proof.
  unfold Meek.reset_votes. apply Forall2_map_r. intros d.
  destruct (_ || _); [reflexivity|apply vote_changed_refl].
Qed.

(** The distribution changes votes only. *)
Lemma distribute_frame (E : Election) :
  Forall2 vote_changed (C (R E)) (C (R (Meek.distribute rule E))).
Proof.
  unfold Meek.distribute.
  pose proof (fold_distribute_frame (ballots E) (Meek.reset_votes (C (R E)), [], V0))
    as H.
  destruct (fold_left _ _ _) as [[cs bs] res]. simpl in *.
  eapply Forall2_trans_on; [apply vote_changed_trans|apply reset_votes_frame|exact H].
Qed.

(** Election changes the status of hopefuls only, to elected. *)
Definition elected_or_same (d d' : Candidate) : Prop :=
  d' = d \/ (cstatus d = Hopeful /\ d' = set_status Elected d).

Lemma elected_or_same_refl (d : Candidate) : elected_or_same d d.
Proof. now left. Qed.

Lemma filter_filter_and (T : Type) (P Q : T -> bool) (l : list T) :
  filter P (filter Q l) = filter (fun x => Q x && P x) l.
Proof.
  induction l as [|x l IH]; simpl; auto.
  destruct (Q x); simpl; [destruct (P x)|]; now rewrite IH.
Qed.

Lemma elect_winners_frame (E : Election) :
  NoDup (map cid (C (R E))) ->
  C (R (Meek.elect_winners E)) =
  map (fun d => if has_status Hopeful d && Meek.hasQuota E d
                then set_status Elected d else d) (C (R E)).
Proof.
  intros Hnd. unfold Meek.elect_winners.
  pose proof (@fold_with_R_C _ (fun c => elect (cid c) "Elect")
                (fun c => update (cid c) (set_status Elected))
                (Meek.winners E) E) as H.
  rewrite H by reflexivity.
  unfold Meek.winners, hopeful. rewrite filter_filter_and.
  rewrite (@fold_update_filter _ (fun _ d => set_status Elected d)); auto.
Qed.

End Frames.

(** ** The states a Meek/Warren count goes through *)

Section Reachable.
Context {A : Arith}.
Variable rule : Meek.Rule.
Variable omega_ : V.
Variable E0 : Election.

(** The states at the test of [while not countComplete()]. *)
Inductive at_head : Election -> Prop :=
| head_init (E : Election) :
    Meek.init E0 = Ok E -> at_head E
| head_round (E E' : Election) (fuel : nat) :
    at_head E -> Meek.countComplete E = false ->
    Meek.round rule fuel omega_ E = Ok E' -> at_head E'.

(** The states at the top of [while True] in [iterate], with
    [lastsurplus]. *)
Inductive in_iterate : V -> Election -> Prop :=
| iterate_start (E : Election) :
    at_head E -> Meek.countComplete E = false ->
    in_iterate (of_int (nBallots (newRound E))) (newRound E)
| iterate_again (last last' : V) (E E' : Election) :
    in_iterate last E ->
    Meek.pass rule omega_ last E = Ok (Meek.Again last' E') ->
    in_iterate last' E'.

(** The states after D.6 of a pass. *)
Definition after_tally (E' : Election) : Prop :=
  exists last E b, in_iterate last E /\ Meek.tally rule E = Ok (b, E').

Definition state_of (p : Meek.pass_result) : Election :=
  match p with
  | Meek.Finished _ _ E => E
  | Meek.Again _ E => E
  end.

Lemma pass_finished_batch (last : V) (E E' : Election)
      (s : Meek.iterateStatus) (batch : list Candidate) :
  Meek.pass rule omega_ last E = Ok (Meek.Finished s batch E') ->
  batch = [] \/
  (s = Meek.IS_batch /\ batch = Meek.batchDefeat rule E' (surplus (R E'))).
Proof.
  unfold Meek.pass. destruct (Meek.tally rule E) as [[b E1]| |]; try discriminate.
  cbn [bind fst snd]. unfold Meek.test_complete.
  destruct b; [intros [= <- <- <-]; now left|].
  destruct (leb _ _); [intros [= <- <- <-]; now left|].
  destruct (geb _ _); [intros [= <- <- <-]; now left|].
  destruct (nonempty _) eqn:Hne.
  - intros [= <- <- <-]. right. auto.
  - destruct (Meek.update_keep_factors _); discriminate.
Qed.

Lemma sure_losers_incl (surplus : V) (maxDefeat : Z) (sorted : list Candidate)
      (c : Candidate) :
  In c (sure_losers surplus maxDefeat sorted) -> In c sorted.
Proof.
  unfold sure_losers, batch_of.
  destruct (find_maxg _ _ _) as [g|]; [|contradiction].
  intros H. rewrite <- (sortedGroups_concat surplus sorted).
  rewrite <- (firstn_skipn (S g) (sortedGroups surplus sorted)).
  rewrite concat_app. apply in_or_app. now left.
Qed.

Lemma sure_losers_NoDup (surplus : V) (maxDefeat : Z) (sorted : list Candidate) :
  NoDup sorted -> NoDup (sure_losers surplus maxDefeat sorted).
Proof.
  unfold sure_losers, batch_of.
  destruct (find_maxg _ _ _) as [g|]; [|constructor].
  intros H. rewrite <- (sortedGroups_concat surplus sorted) in H.
  rewrite <- (firstn_skipn (S g) (sortedGroups surplus sorted)) in H.
  rewrite concat_app in H. now apply NoDup_app_remove_r in H.
Qed.

Lemma batchDefeat_hopeful (E : Election) (s : V) (c : Candidate) :
  In c (Meek.batchDefeat rule E s) -> In c (hopeful (C (R E))).
Proof.
  unfold Meek.batchDefeat. destruct (Meek.defeatBatch rule); [contradiction|].
  intros H. apply sure_losers_incl in H. now apply isort_In in H.
Qed.

Lemma batchDefeat_NoDup (E : Election) (s : V) :
  NoDup (map cid (C (R E))) -> NoDup (Meek.batchDefeat rule E s).
Proof.
  intros H. unfold Meek.batchDefeat. destruct (Meek.defeatBatch rule); [constructor|].
  apply sure_losers_NoDup. now apply sortByVote_hopeful_NoDup.
Qed.

(** *** Invariants of the count *)

Variable Inv : Election -> Prop.
Hypothesis Inv_init : forall E, Meek.init E0 = Ok E -> Inv E.
Hypothesis Inv_newRound : forall E, Inv E -> Inv (newRound E).
Hypothesis Inv_pass :
  forall E last p, Inv E -> Meek.pass rule omega_ last E = Ok p -> Inv (state_of p).
Hypothesis Inv_defeat :
  forall E c msg, Inv E -> In c (hopeful (C (R E))) ->
                  Inv (with_R (fun r => Meek.defeat_zero msg r c) E).
Hypothesis Inv_log : forall E a, Inv E -> Inv (with_R (add_log a) E).
Hypothesis Inv_NoDup : forall E, Inv E -> NoDup (map cid (C (R E))).

Lemma iterate_from_inv (fuel : nat) :
  forall (last : V) (E E' : Election) (s : Meek.iterateStatus)
         (batch : list Candidate),
    Inv E ->
    Meek.iterate_from rule fuel omega_ last E = Ok (s, batch, E') ->
    Inv E' /\
    (batch = [] \/
     (s = Meek.IS_batch /\ batch = Meek.batchDefeat rule E' (surplus (R E')))).
Proof.
  induction fuel as [|fuel IH]; intros last E E' s batch HI; simpl; [discriminate|].
  destruct (Meek.pass rule omega_ last E) as [p| |] eqn:Hp; try discriminate.
  cbn [bind]. destruct p as [s1 b1 E1|last1 E1].
  - intros [= <- <- <-]. split.
    + change E1 with (state_of (Meek.Finished s1 b1 E1)).
      eapply Inv_pass; eassumption.
    + eapply pass_finished_batch; eassumption.
  - apply IH. change E1 with (state_of (Meek.Again last1 E1)).
    eapply Inv_pass; eassumption.
Qed.

Lemma defeat_remains_hopeful (E : Election) (c d : Candidate) (msg : string) :
  NoDup (map cid (C (R E))) ->
  In c (hopeful (C (R E))) -> In d (hopeful (C (R E))) -> c <> d ->
  In d (hopeful (C (R (with_R (fun r => Meek.defeat_zero msg r c) E)))).
Proof.
  intros Hnd Hc Hd Hne. cbn [R with_R].
  rewrite (defeat_zero_candidates msg (R E) c).
  apply filter_In in Hc. apply filter_In in Hd.
  destruct Hc as [Hc _], Hd as [Hd Hdh].
  apply filter_In. split; [|exact Hdh].
  apply in_map_iff. exists d. split; [|exact Hd].
  destruct (Nat.eqb_spec (cid d) (cid c)) as [Heq|]; [|reflexivity].
  exfalso. apply Hne.
  pose proof (lookup_NoDup _ c Hnd Hc) as H1.
  pose proof (lookup_NoDup _ d Hnd Hd) as H2.
  rewrite Heq in H2. congruence.
Qed.

Lemma defeat_batch_inv (batch : list Candidate) :
  forall E, Inv E -> NoDup batch ->
            (forall c, In c batch -> In c (hopeful (C (R E)))) ->
            Inv (with_R (Meek.defeat_batch_of batch) E).
Proof.
  induction batch as [|c batch IH]; intros E HI Hnd Hin.
  - destruct E as [a b c d e]. exact HI.
  - inversion Hnd as [|? ? Hnotin Hnd']; subst.
    specialize (IH (with_R (fun r => Meek.defeat_zero "Defeat certain loser" r c) E)).
    assert (Hc : In c (hopeful (C (R E)))) by (apply Hin; now left).
    apply IH; auto.
    intros d Hd. apply defeat_remains_hopeful; auto.
    + apply Hin. now right.
    + intros ->. contradiction.
Qed.

Lemma defeat_low_inv (s : Meek.iterateStatus) (E : Election) (r : Round) :
  Inv E -> Meek.defeat_low s (R E) = Ok r -> Inv (with_R (fun _ => r) E).
Proof.
  intros HI. unfold Meek.defeat_low.
  destruct (Meek.low_candidates (R E)) as [low| |] eqn:Hlow; try discriminate.
  cbn [bind].
  assert (Hsub : forall c, In c low -> In c (hopeful (C (R E)))).
  { unfold Meek.low_candidates in Hlow.
    destruct (vmin _); try discriminate. cbn [bind] in Hlow.
    injection Hlow as <-. intros c Hc. apply filter_In in Hc. tauto. }
  destruct (Meek.breakTie (R E) low "defeat") as [[c|] r'] eqn:Hb.
  - intros [= <-].
    assert (Hc : In c low).
    { apply (@breakTie_first _ (R E) low "defeat" c). now rewrite Hb. }
    unfold Meek.breakTie in Hb.
    destruct low as [|t [|t' low]]; try discriminate.
    + injection Hb as <- <-.
      apply Inv_defeat; [exact HI|]. apply Hsub. now left.
    + destruct (sortByOrder (t :: t' :: low)) as [|h l]; try discriminate.
      injection Hb as <- <-.
      match goal with
      | |- Inv (with_R (fun _ => Meek.defeat_zero ?m (add_log ?a (R E)) h) E) =>
          change (Inv (with_R (fun r => Meek.defeat_zero m r h)
                              (with_R (add_log a) E)))
      end.
      apply Inv_defeat; [now apply Inv_log|].
      cbn [R with_R C add_log]. now apply Hsub.
  - intros [= <-]. unfold Meek.breakTie in Hb.
    destruct low as [|t [|t' low]]; try discriminate.
    + injection Hb as <-. destruct E as [a b c d e]. exact HI.
    + destruct (sortByOrder (t :: t' :: low)); try discriminate.
      injection Hb as <-. destruct E as [a b c d e]. exact HI.
Qed.

Lemma round_inv (fuel : nat) (E E' : Election) :
  Inv E -> Meek.round rule fuel omega_ E = Ok E' -> Inv E'.
Proof.
  intros HI. unfold Meek.round, Meek.iterate.
  destruct (Meek.iterate_from _ _ _ _ _) as [[[s batch] E1]| |] eqn:Hit;
    try discriminate.
  cbn [bind].
  destruct (@iterate_from_inv _ _ _ _ _ _ (Inv_newRound HI) Hit) as [HI1 Hbatch].
  destruct s.
  - destruct (Meek.defeat_low _ _) as [r| |] eqn:Hd; try discriminate.
    cbn [bind]. intros [= <-]. eapply defeat_low_inv; eassumption.
  - intros [= <-]. destruct Hbatch as [->|[_ ->]].
    + destruct E1 as [a b c d e]. exact HI1.
    + apply defeat_batch_inv; auto.
      * apply batchDefeat_NoDup. now apply Inv_NoDup.
      * intros c. apply batchDefeat_hopeful.
  - intros [= <-]. exact HI1.
  - destruct (Meek.defeat_low _ _) as [r| |] eqn:Hd; try discriminate.
    cbn [bind]. intros [= <-]. eapply defeat_low_inv; eassumption.
Qed.

(** The invariant holds at every state of the round loop and of the
    iteration. *)
Lemma at_head_inv (E : Election) : at_head E -> Inv E.
Proof.
  induction 1 as [E Hi|E E' fuel _ IH _ Hr].
  - now apply Inv_init.
  - eapply round_inv; eassumption.
Qed.

Lemma in_iterate_inv (last : V) (E : Election) : in_iterate last E -> Inv E.
Proof.
  induction 1 as [E Hh _|last last' E E' _ IH Hp].
  - apply Inv_newRound. now apply at_head_inv.
  - change E' with (state_of (Meek.Again last' E')).
    eapply Inv_pass; eassumption.
Qed.

End Reachable.

(** ** How a candidate evolves during a pass *)

Section Evolution.
Context {A : Arith}.
Variable rule : Meek.Rule.

(** From [d] to [d']: the identity is kept, a status changes only from
    hopeful to elected, and the keep factor changes only for an elected
    candidate. *)
Definition evolves (d d' : Candidate) : Prop :=
  cid d' = cid d /\ order d' = order d /\
  (cstatus d' = cstatus d \/ (cstatus d = Hopeful /\ cstatus d' = Elected)) /\
  (cstatus d' <> Elected -> kf d' = kf d).

Lemma evolves_refl (d : Candidate) : evolves d d.
Proof. unfold evolves. auto. Qed.

Lemma evolves_trans (d1 d2 d3 : Candidate) :
  evolves d1 d2 -> evolves d2 d3 -> evolves d1 d3.
Proof.
  unfold evolves. intros (Hc & Ho & Hs & Hk) (Hc' & Ho' & Hs' & Hk').
  split; [congruence|]. split; [congruence|]. split.
  - destruct Hs as [Hs|[Hs1 Hs2]], Hs' as [Hs'|[Hs1' Hs2']]; try (left; congruence);
      try (right; split; congruence).
  - intros Hne. rewrite Hk' by assumption. apply Hk.
    destruct Hs' as [Hs'|[Hs1' Hs2']]; congruence.
Qed.

Lemma vote_changed_evolves (d d' : Candidate) : vote_changed d d' -> evolves d d'.
Proof. unfold vote_changed. intros ->. unfold evolves. simpl. auto. Qed.

Lemma Forall2_impl2 (T : Type) (P Q : T -> T -> Prop) (l l' : list T) :
  (forall x y, P x y -> Q x y) -> Forall2 P l l' -> Forall2 Q l l'.
Proof. intros H. induction 1; constructor; auto. Qed.

Lemma evolves_cids (cs cs' : list Candidate) :
  Forall2 evolves cs cs' -> map cid cs' = map cid cs.
Proof.
  induction 1 as [|d d' cs cs' Hd _ IH]; simpl; auto.
  destruct Hd as [-> _]. now rewrite IH.
Qed.

Lemma distribute_evolves (E : Election) :
  Forall2 evolves (C (R E)) (C (R (Meek.distribute rule E))).
Proof.
  eapply Forall2_impl2; [apply vote_changed_evolves|apply distribute_frame].
Qed.

Lemma elect_winners_evolves (E : Election) :
  NoDup (map cid (C (R E))) ->
  Forall2 evolves (C (R E)) (C (R (Meek.elect_winners E))).
Proof.
  intros Hnd. rewrite elect_winners_frame by assumption.
  apply Forall2_map_r. intros d.
  destruct (has_status Hopeful d) eqn:Hh; simpl; [|apply evolves_refl].
  destruct (Meek.hasQuota E d); [|apply evolves_refl].
  apply has_status_iff in Hh. unfold evolves. simpl.
  split; [reflexivity|]. split; [reflexivity|]. split; [now right|congruence].
Qed.

Lemma foldM_update_kf_ok (r : Round) (l : list Candidate) :
  forall cs cs',
    foldM (Meek.update_kf r) l cs = Ok cs' ->
    cs' = fold_left
            (fun acc c =>
               update (cid c)
                      (set_kf (quot (mul (kf c) (quota r) RoundUp) (vote c)
                                    (Some RoundUp))) acc) l cs.
Proof.
  induction l as [|c l IH]; intros cs cs'; simpl; [congruence|].
  unfold Meek.update_kf at 1, Meek.new_kf, div.
  destruct (is_zero (vote c)); [discriminate|].
  cbn [bind]. apply IH.
Qed.

(** D.8, when it does not raise. *)
Lemma update_keep_factors_map (r r' : Round) :
  NoDup (map cid (C r)) ->
  Meek.update_keep_factors r = Ok r' ->
  r' = set_C (map (kf_updated r) (C r)) r.
Proof.
  intros Hnd. unfold Meek.update_keep_factors.
  destruct (foldM _ _ _) as [cs'| |] eqn:Hf; try discriminate.
  cbn [bind]. intros [= <-]. f_equal.
  apply foldM_update_kf_ok in Hf. rewrite Hf. unfold elected.
  rewrite (@fold_update_filter _
             (fun c => set_kf (quot (mul (kf c) (quota r) RoundUp) (vote c)
                                    (Some RoundUp)))); auto.
Qed.

Lemma kf_updated_evolves (r : Round) (d : Candidate) : evolves d (kf_updated r d).
Proof.
  unfold kf_updated. destruct (has_status Elected d) eqn:He; [|apply evolves_refl].
  apply has_status_iff in He. unfold evolves. simpl.
  split; [reflexivity|]. split; [reflexivity|]. split; [now left|congruence].
Qed.

(** The fields a pass leaves alone, and how the candidates evolve. *)
Definition same_frame (E E' : Election) : Prop :=
  nSeats E' = nSeats E /\ nBallots E' = nBallots E /\ rounds E' = rounds E /\
  n (R E') = n (R E).

Lemma tally_evolves (E E' : Election) (b : bool) :
  NoDup (map cid (C (R E))) ->
  Meek.tally rule E = Ok (b, E') ->
  Forall2 evolves (C (R E)) (C (R E')) /\ same_frame E E'.
Proof.
  intros Hnd. unfold Meek.tally.
  destruct (Meek.calcQuota _) as [q| |]; try discriminate.
  cbn [bind]. intros [= _ <-].
  pose proof (distribute_evolves E) as H1.
  pose proof (distribute_fields rule E) as (F1 & F2 & F3 & F4 & _).
  set (E2 := with_R (set_quota q) (Meek.distribute rule E)) in *.
  assert (Hnd2 : NoDup (map cid (C (R E2)))).
  { unfold E2. cbn [R with_R C set_quota]. now rewrite (evolves_cids H1). }
  pose proof (elect_winners_evolves E2 Hnd2) as H2.
  pose proof (elect_winners_fields E2) as (_ & _ & _ & _ & G1 & G2 & _ & G3 & G4).
  split.
  - cbn [R with_R C set_surplus].
    eapply Forall2_trans_on; [apply evolves_trans|exact H1|exact H2].
  - unfold same_frame. cbn [R with_R nSeats nBallots rounds n set_surplus].
    rewrite G1, G2, G3, G4. unfold E2.
    cbn [R with_R nSeats nBallots rounds n set_quota]. auto.
Qed.

Lemma pass_evolves (omega_ last : V) (E : Election) (p : Meek.pass_result) :
  NoDup (map cid (C (R E))) ->
  Meek.pass rule omega_ last E = Ok p ->
  Forall2 evolves (C (R E)) (C (R (state_of p))) /\ same_frame E (state_of p).
Proof.
  intros Hnd. unfold Meek.pass.
  destruct (Meek.tally rule E) as [[b E1]| |] eqn:Ht; try discriminate.
  cbn [bind fst snd].
  destruct (@tally_evolves E E1 b Hnd Ht) as [H1 F1].
  unfold Meek.test_complete.
  destruct b; [intros [= <-]; auto|].
  destruct (leb _ _); [intros [= <-]; auto|].
  destruct (geb _ _); [intros [= <-]; auto|].
  destruct (nonempty _); [intros [= <-]; auto|].
  destruct (Meek.update_keep_factors (R E1)) as [r'| |] eqn:Hu; try discriminate.
  cbn [bind]. intros [= <-]. cbn [state_of].
  assert (Hnd1 : NoDup (map cid (C (R E1)))) by now rewrite (evolves_cids H1).
  rewrite (@update_keep_factors_map (R E1) r' Hnd1 Hu). split.
  - cbn [R with_R C set_C].
    eapply Forall2_trans_on; [apply evolves_trans|exact H1|].
    apply Forall2_map_r. apply kf_updated_evolves.
  - unfold same_frame in *. cbn [R with_R nSeats nBallots rounds n set_C]. exact F1.
Qed.

End Evolution.

(** ** Hopeful candidates keep the keep factor [V1] *)

Section HopefulKeepFactor.
Context {A : Arith}.
Variable rule : Meek.Rule.
Variable omega_ : V.

Definition hopeful_kf_one (cs : list Candidate) : Prop :=
  forall c, In c cs -> cstatus c = Hopeful -> kf c = V1.

(** A candidate that is hopeful afterwards was hopeful before, with the
    same keep factor. *)
Definition progresses (d d' : Candidate) : Prop :=
  cid d' = cid d /\ (cstatus d' = Hopeful -> cstatus d = Hopeful /\ kf d' = kf d).

Lemma progresses_refl (d : Candidate) : progresses d d.
Proof. unfold progresses. auto. Qed.

Lemma progresses_trans (d1 d2 d3 : Candidate) :
  progresses d1 d2 -> progresses d2 d3 -> progresses d1 d3.
Proof.
  unfold progresses. intros [Hc H12] [Hc' H23]. split; [congruence|].
  intros H3. destruct (H23 H3) as [H2 Hk]. destruct (H12 H2) as [H1 Hk'].
  split; congruence.
Qed.

Lemma evolves_progresses (d d' : Candidate) : evolves d d' -> progresses d d'.
Proof.
  unfold evolves, progresses. intros (Hc & _ & Hs & Hk). split; [exact Hc|].
  intros Hh. split.
  - destruct Hs as [Hs|[_ Hs]]; congruence.
  - apply Hk. congruence.
Qed.

Lemma progresses_cids (cs cs' : list Candidate) :
  Forall2 progresses cs cs' -> map cid cs' = map cid cs.
Proof.
  induction 1 as [|d d' cs cs' Hd _ IH]; simpl; auto.
  destruct Hd as [-> _]. now rewrite IH.
Qed.

Lemma hopeful_kf_one_progresses (cs cs' : list Candidate) :
  Forall2 progresses cs cs' -> hopeful_kf_one cs -> hopeful_kf_one cs'.
Proof.
  intros H2 H c' Hc' Hh.
  destruct (@Forall2_In_r _ _ _ _ c' H2 Hc') as [c [Hc [_ Hp]]].
  destruct (Hp Hh) as [Hs ->]. now apply H.
Qed.

Lemma update_progresses (k : nat) (f : Candidate -> Candidate)
      (cs : list Candidate) :
  (forall d, progresses d (f d)) -> Forall2 progresses cs (update k f cs).
Proof.
  intros Hf. unfold update. apply Forall2_map_r. intros d.
  destruct (Nat.eqb (cid d) k); [apply Hf|apply progresses_refl].
Qed.

Lemma first_preferences_frame (bs : list Ballot) (cs : list Candidate) :
  Forall2 vote_changed cs (Meek.first_preferences cs bs).
Proof.
  unfold Meek.first_preferences. revert cs.
  induction bs as [|b bs IH]; intros cs; simpl.
  - apply Forall2_refl_on, vote_changed_refl.
  - eapply Forall2_trans_on; [apply vote_changed_trans| |apply IH].
    destruct (Meek.topCand cs b).
    + apply add_vote_frame.
    + apply Forall2_refl_on, vote_changed_refl.
Qed.

Lemma vote_changed_progresses (d d' : Candidate) :
  vote_changed d d' -> progresses d d'.
Proof. intros H. now apply evolves_progresses, vote_changed_evolves. Qed.

Lemma init_candidates (E0 E : Election) :
  Meek.init E0 = Ok E ->
  C (R E) = Meek.first_preferences (Meek.init_kf (C (R E0))) (ballots E0) /\
  rounds E = rounds E0 /\ nSeats E = nSeats E0 /\ nBallots E = nBallots E0 /\
  ballots E = ballots E0.
Proof.
  unfold Meek.init. destruct (Meek.calcQuota _); try discriminate.
  cbn [bind]. intros [= <-]. repeat split.
Qed.

Lemma init_kf_cids (cs : list Candidate) :
  map cid (Meek.init_kf cs) = map cid cs.
Proof.
  unfold Meek.init_kf. rewrite !map_map. apply map_ext. intros c.
  destruct (has_status Withdrawn c) eqn:Hw; simpl;
    destruct (has_status Hopeful _); reflexivity.
Qed.

Lemma init_kf_hopeful (cs : list Candidate) : hopeful_kf_one (Meek.init_kf cs).
Proof.
  unfold Meek.init_kf. intros c Hc Hh. rewrite map_map in Hc.
  apply in_map_iff in Hc. destruct Hc as [d [<- _]].
  destruct (has_status Hopeful _) eqn:Hd; [reflexivity|].
  rewrite <- has_status_iff in Hh. congruence.
Qed.

(** The invariant: no identifier occurs twice, and in the current round
    and in every earlier round each hopeful has keep factor [V1]. *)
Definition hopeful_inv (E : Election) : Prop :=
  NoDup (map cid (C (R E))) /\
  forall r, In r (R E :: rounds E) -> hopeful_kf_one (C r).

Lemma hopeful_inv_step (E E' : Election) :
  hopeful_inv E ->
  Forall2 progresses (C (R E)) (C (R E')) -> rounds E' = rounds E ->
  hopeful_inv E'.
Proof.
  intros [Hnd Hall] Hp Hr. split.
  - now rewrite (progresses_cids Hp).
  - intros r [<-|Hin].
    + eapply hopeful_kf_one_progresses; [exact Hp|]. apply Hall. now left.
    + apply Hall. right. now rewrite <- Hr.
Qed.

Lemma hopeful_inv_init (E0 E : Election) :
  NoDup (map cid (C (R E0))) -> rounds E0 = [] ->
  Meek.init E0 = Ok E -> hopeful_inv E.
Proof.
  intros Hnd Hr Hi. destruct (@init_candidates E0 E Hi) as (HC & HR & _).
  pose proof (first_preferences_frame (ballots E0) (Meek.init_kf (C (R E0)))) as Hf.
  rewrite <- HC in Hf.
  assert (Hp : Forall2 progresses (Meek.init_kf (C (R E0))) (C (R E))).
  { eapply Forall2_impl2; [apply vote_changed_progresses|exact Hf]. }
  split.
  - rewrite (progresses_cids Hp), init_kf_cids. exact Hnd.
  - rewrite HR, Hr. intros r [<-|[]].
    eapply hopeful_kf_one_progresses; [exact Hp|apply init_kf_hopeful].
Qed.

Lemma hopeful_inv_newRound (E : Election) : hopeful_inv E -> hopeful_inv (newRound E).
Proof.
  intros [Hnd Hall]. split; [exact Hnd|].
  intros r [<-|Hin]; [|now apply Hall].
  apply (Hall (R E)). now left.
Qed.

Lemma hopeful_inv_pass (E : Election) (last : V) (p : Meek.pass_result) :
  hopeful_inv E -> Meek.pass rule omega_ last E = Ok p ->
  hopeful_inv (state_of p).
Proof.
  intros HI Hp. destruct (@pass_evolves _ rule omega_ last E p (proj1 HI) Hp)
    as [Hev (_ & _ & Hr & _)].
  eapply hopeful_inv_step; [exact HI| |exact Hr].
  eapply Forall2_impl2; [apply evolves_progresses|exact Hev].
Qed.

Lemma defeat_zero_progresses (msg : string) (r : Round) (c : Candidate) :
  Forall2 progresses (C r) (C (Meek.defeat_zero msg r c)).
Proof.
  rewrite (defeat_zero_candidates msg r c). apply Forall2_map_r. intros d.
  destruct (Nat.eqb (cid d) (cid c)); [|apply progresses_refl].
  unfold progresses. simpl. split; [reflexivity|discriminate].
Qed.

Lemma hopeful_inv_defeat (E : Election) (c : Candidate) (msg : string) :
  hopeful_inv E -> In c (hopeful (C (R E))) ->
  hopeful_inv (with_R (fun r => Meek.defeat_zero msg r c) E).
Proof.
  intros HI _. eapply hopeful_inv_step; [exact HI| |reflexivity].
  apply defeat_zero_progresses.
Qed.

Lemma hopeful_inv_log (E : Election) (a : action) :
  hopeful_inv E -> hopeful_inv (with_R (add_log a) E).
Proof.
  intros HI. eapply hopeful_inv_step; [exact HI| |reflexivity].
  apply Forall2_refl_on, progresses_refl.
Qed.

Lemma finish_progresses (E : Election) :
  Forall2 progresses (C (R E)) (C (R (Meek.finish E))) /\
  rounds (Meek.finish E) = rounds E.
Proof.
  unfold Meek.finish. generalize (hopeful (C (R E))) as l. intros l.
  revert E. induction l as [|c l IH]; intros E; simpl.
  - split; [apply Forall2_refl_on, progresses_refl|reflexivity].
  - destruct (IH (Meek.finish_step E c)) as [H1 H2]. split.
    + eapply Forall2_trans_on; [apply progresses_trans| |exact H1].
      unfold Meek.finish_step. destruct (_ <? _).
      * cbn [R with_R C elect transition add_log set_C].
        apply update_progresses. intros d. unfold progresses. simpl.
        split; [reflexivity|discriminate].
      * apply defeat_zero_progresses.
    + rewrite H2. unfold Meek.finish_step. destruct (_ <? _); reflexivity.
Qed.

(** C10. In the Meek/Warren counter every hopeful candidate has keep
    factor V1, in every round: at every state of the round loop, at the top
    of every pass, after D.6 of every pass and after the count is finished,
    for the current round and for all earlier rounds.  The update D.8
    changes the keep factor of elected candidates only, and a defeat sets
    the keep factor of the candidate defeated to V0 and no other. *)
Theorem hopeful_keep_factor_is_one (E0 : Election) :
  NoDup (map cid (C (R E0))) -> rounds E0 = [] ->
  (forall E, at_head rule omega_ E0 E -> hopeful_inv E) /\
  (forall last E, in_iterate rule omega_ E0 last E -> hopeful_inv E) /\
  (forall E, after_tally rule omega_ E0 E -> hopeful_inv E) /\
  (forall E, at_head rule omega_ E0 E -> hopeful_inv (Meek.finish E)) /\
  (forall r r', NoDup (map cid (C r)) -> Meek.update_keep_factors r = Ok r' ->
                C r' = map (kf_updated r) (C r) /\
                forall c, cstatus c <> Elected -> kf_updated r c = c) /\
  (forall msg r c, defeated_only c (C r) (C (Meek.defeat_zero msg r c))).
Proof.
  intros Hnd Hr.
  assert (Hhead : forall E, at_head rule omega_ E0 E -> hopeful_inv E).
  { apply at_head_inv.
    - intros E. now apply hopeful_inv_init.
    - apply hopeful_inv_newRound.
    - apply hopeful_inv_pass.
    - apply hopeful_inv_defeat.
    - apply hopeful_inv_log.
    - intros E [H _]. exact H. }
  assert (Hiter : forall last E, in_iterate rule omega_ E0 last E -> hopeful_inv E).
  { apply in_iterate_inv.
    - intros E. now apply hopeful_inv_init.
    - apply hopeful_inv_newRound.
    - apply hopeful_inv_pass.
    - apply hopeful_inv_defeat.
    - apply hopeful_inv_log.
    - intros E [H _]. exact H. }
  split; [exact Hhead|]. split; [exact Hiter|]. split; [|split; [|split]].
  - intros E' (last & E & b & Hin & Ht).
    pose proof (Hiter _ _ Hin) as HI.
    destruct (@tally_evolves _ rule E E' b (proj1 HI) Ht) as [Hev (_ & _ & Hr' & _)].
    eapply hopeful_inv_step; [exact HI| |exact Hr'].
    eapply Forall2_impl2; [apply evolves_progresses|exact Hev].
  - intros E HE. destruct (finish_progresses E) as [H1 H2].
    eapply hopeful_inv_step; [exact (Hhead E HE)|exact H1|exact H2].
  - intros r r' Hn Hu. rewrite (@update_keep_factors_map _ r r' Hn Hu). split.
    + reflexivity.
    + intros c Hc. unfold kf_updated.
      destruct (has_status Elected c) eqn:He; [|reflexivity].
      apply has_status_iff in He. contradiction.
  - intros msg r c. apply defeat_zero_candidates.
Qed.

End HopefulKeepFactor.

(** ** Conservation of the vote in a Meek pass *)

(** The laws conservation rests on: addition is a commutative monoid,
  subtraction undoes it, a product with [V0] rounded down is [V0], and the
  values of the integers add up. *)
Class ArithLaws (A : Arith) : Prop := {
add_comm : forall a b : V, add a b = add b a;
add_assoc : forall a b c : V, add a (add b c) = add (add a b) c;
add_V0_l : forall a : V, add V0 a = a;
sub_add : forall a b : V, add (sub a b) b = a;
sub_diag : forall a : V, sub a a = V0;
prod_V0_r : forall a : V, prod a V0 (Some RoundDown) = V0;
of_int_0 : of_int 0 = V0;
of_int_add : forall m k : Z, of_int (m + k) = add (of_int m) (of_int k);
epsilon_scale_nonneg : forall k : Z, 0 <= k -> leb V0 (scale epsilon k) = true
}.

#[export] Instance FixedLaws (p : Z) : ArithLaws (FixedArith p).
Proof.
constructor; cbn -[Z.mul Z.pow Z.add Z.sub]; intros; try lia.
unfold fixed_prod. rewrite Z.mul_0_r. destruct (10 ^ p); reflexivity.
Qed.

#[export] Instance GuardedLaws (p g : Z) : ArithLaws (GuardedArith p g).
Proof.
constructor; cbn -[Z.mul Z.pow Z.add Z.sub]; intros; try lia.
unfold fixed_prod. rewrite Z.mul_0_r. destruct (10 ^ (p + g)); reflexivity.
Qed.

#[export] Instance RationalLaws : ArithLaws RationalArith.
Proof.
constructor; simpl; intros.
- apply Qcplus_comm.
- apply Qcplus_assoc.
- apply Qcplus_0_l.
- unfold Qcminus. rewrite <- Qcplus_assoc, (Qcplus_comm (- b)), Qcplus_opp_r.
  apply Qcplus_0_r.
- unfold Qcminus. apply Qcplus_opp_r.
- apply Qcmult_0_r.
- reflexivity.
- apply Qc_is_canon. unfold Qcplus, Q2Qc. cbn [this].
  rewrite !Qred_correct, inject_Z_plus. reflexivity.
- rewrite Qcmult_0_l. reflexivity.
Qed.

Section Conservation.
Context {A : Arith} {L : ArithLaws A}.
Variable rule : Meek.Rule.

Lemma add_V0_r (a : V) : add a V0 = a.
Proof. rewrite add_comm. apply add_V0_l. Qed.

Lemma sub_V0_r (a : V) : sub a V0 = a.
Proof. rewrite <- (add_V0_r (sub a V0)). apply sub_add. Qed.

Lemma fold_add_acc (l : list V) (a : V) :
  fold_left add l a = add a (fold_left add l V0).
Proof.
  revert a. induction l as [|x l IH]; intros a; simpl.
  - now rewrite add_V0_r.
  - rewrite IH, (IH (add V0 x)), add_V0_l. symmetry. apply add_assoc.
Qed.

Lemma sum_cons (x : V) (l : list V) : sum (x :: l) = add x (sum l).
Proof. unfold sum. simpl. rewrite fold_add_acc, add_V0_l. reflexivity. Qed.

Lemma sum_nil : sum (@nil V) = V0.
Proof. reflexivity. Qed.

Lemma sum_zeros (l : list V) : (forall x, In x l -> x = V0) -> sum l = V0.
Proof.
  induction l as [|x l IH]; intros H; [reflexivity|].
  rewrite sum_cons, IH, (H x), add_V0_l; auto; try now left.
  intros y Hy. apply H. now right.
Qed.

(** Moving a term to the end of a sum of three. *)
Lemma add_swap_r (a b c : V) : add (add a b) c = add (add a c) b.
Proof. rewrite <- !add_assoc. f_equal. apply add_comm. Qed.

Definition live (c : Candidate) : bool :=
  has_status Hopeful c || has_status Elected c.

(** The sum of the votes of the live candidates, as line 271 takes it. *)
Definition live_sum (cs : list Candidate) : V :=
  sum (map vote (hopefulOrElected cs)).

Definition nonlive_kf_zero (cs : list Candidate) : Prop :=
  forall c, In c cs -> live c = false -> kf c = V0.

Lemma live_sum_cons (c : Candidate) (cs : list Candidate) :
  live_sum (c :: cs) = if live c then add (vote c) (live_sum cs) else live_sum cs.
Proof.
  unfold live_sum, hopefulOrElected. simpl. fold (live c).
  destruct (live c); [apply sum_cons|reflexivity].
Qed.

Lemma live_sum_add_vote (k : nat) (x : V) (cs : list Candidate) (c : Candidate) :
  NoDup (map cid cs) -> lookup k cs = Some c ->
  live_sum (Meek.add_vote k x cs) =
  if live c then add (live_sum cs) x else live_sum cs.
Proof.
  unfold Meek.add_vote. induction cs as [|d cs IH]; intros Hnd Hl; [discriminate|].
  inversion Hnd as [|? ? Hnotin Hnd']; subst.
  unfold lookup in Hl. simpl in Hl. simpl update.
  destruct (Nat.eqb_spec (cid d) k) as [Hk|Hk].
  - injection Hl as <-. subst k.
    rewrite (@update_absent _ _ _ _ Hnotin).
    rewrite !live_sum_cons.
    change (live (set_vote (add (vote d) x) d)) with (live d).
    destruct (live d); [|reflexivity].
    simpl vote. apply add_swap_r.
  - change (update k (fun c0 => set_vote (add (vote c0) x) c0) cs)
      with (Meek.add_vote k x cs).
    rewrite !live_sum_cons. unfold Meek.add_vote. rewrite (IH Hnd' Hl).
    destruct (live d), (live c); auto. apply add_assoc.
Qed.

Lemma vote_changed_cids (cs cs' : list Candidate) :
  Forall2 vote_changed cs cs' -> map cid cs' = map cid cs.
Proof.
  intros H. apply evolves_cids.
  eapply Forall2_impl2; [apply vote_changed_evolves|exact H].
Qed.

Lemma vote_changed_nonlive (cs cs' : list Candidate) :
  Forall2 vote_changed cs cs' -> nonlive_kf_zero cs -> nonlive_kf_zero cs'.
Proof.
  intros H Hz c' Hc' Hl.
  destruct (@Forall2_In_r _ _ _ _ c' H Hc') as [c [Hc Hv]].
  unfold vote_changed in Hv. rewrite Hv in *. simpl. apply Hz; auto.
Qed.

(** A ballot gives the live candidates what it takes off its residual. *)
Lemma meek_ranking_conserves (m : Z) (rk : list nat) :
  forall (cs : list Candidate) (w r : V),
    NoDup (map cid cs) -> nonlive_kf_zero cs ->
    let '(cs', _, r') := Meek.meek_ranking m rk cs w r in
    add (live_sum cs') r' = add (live_sum cs) r.
Proof.
  induction rk as [|k rk IH]; intros cs w r Hnd Hz; simpl; [reflexivity|].
  destruct (lookup k cs) as [c|] eqn:Hl; [|now apply IH].
  set (kv := mul (scale w m) (kf c) RoundDown).
  assert (Hstep : add (live_sum (Meek.add_vote k kv cs)) (sub r kv) =
                  add (live_sum cs) r).
  { rewrite (@live_sum_add_vote k kv cs c Hnd Hl).
    destruct (live c) eqn:Hlive.
    - rewrite <- add_assoc, (add_comm kv), sub_add. reflexivity.
    - assert (Hkv : kv = V0).
      { unfold kv, mul. rewrite (Hz c); [apply prod_V0_r| |exact Hlive].
        apply (proj1 (@lookup_In _ k cs c Hl)). }
      rewrite Hkv, sub_V0_r. reflexivity. }
  destruct (leb _ V0); [exact Hstep|].
  pose proof (add_vote_frame k kv cs) as Hf.
  specialize (IH (Meek.add_vote k kv cs)
                 (mul w (sub V1 (kf c)) RoundDown) (sub r kv)).
  destruct (Meek.meek_ranking _ _ _ _ _) as [[cs' w'] r'].
  rewrite IH; auto.
  - now rewrite (vote_changed_cids Hf).
  - now apply (vote_changed_nonlive Hf).
Qed.

(** The number of ballots of a list of ballot lines. *)
Definition ballot_count (bs : list Ballot) : Z :=
  fold_right Z.add 0 (map multiplier bs).

Lemma fold_distribute_conserves (bs : list Ballot) :
  Meek.warren rule = false ->
  forall (cs : list Candidate) (done : list Ballot) (res : V),
    NoDup (map cid cs) -> nonlive_kf_zero cs ->
    let '(cs', done', res') :=
      fold_left (Meek.distribute_ballot rule) bs (cs, done, res) in
    add (live_sum cs') res' =
    add (add (live_sum cs) res) (of_int (ballot_count bs)) /\
    map multiplier done' = map multiplier done ++ map multiplier bs.
Proof.
  intros Hw. induction bs as [|b bs IH]; intros cs done res Hnd Hz.
  - simpl. rewrite of_int_0, add_V0_r, app_nil_r. auto.
  - cbn [fold_left].
    pose proof (@meek_ranking_conserves (multiplier b) (ranking b) cs V1
                  (of_int (multiplier b)) Hnd Hz) as Hc.
    pose proof (meek_ranking_frame (multiplier b) (ranking b) cs V1
                                   (of_int (multiplier b))) as Hf.
    unfold Meek.distribute_ballot at 2. rewrite Hw.
    destruct (Meek.meek_ranking _ _ _ _ _) as [[cs1 w1] r1]. simpl in Hf.
    specialize (IH cs1 (done ++ [set_bresidual r1 (set_weight w1 b)]) (add res r1)).
    destruct (fold_left _ _ _) as [[cs' done'] res'].
    destruct IH as [IH1 IH2].
    + now rewrite (vote_changed_cids Hf).
    + now apply (vote_changed_nonlive Hf).
    + split.
      * rewrite IH1.
        change (ballot_count (b :: bs)) with (multiplier b + ballot_count bs).
        rewrite of_int_add.
        rewrite (add_comm res r1), (add_assoc (live_sum cs1)), Hc.
        rewrite (add_swap_r (live_sum cs)), (add_assoc (add (live_sum cs) res)).
        reflexivity.
      * rewrite IH2, map_app, <- app_assoc. reflexivity.
Qed.

Lemma reset_votes_live_sum (cs : list Candidate) :
  live_sum (Meek.reset_votes cs) = V0.
Proof.
  unfold live_sum. apply sum_zeros. intros x Hx.
  apply in_map_iff in Hx. destruct Hx as [c [<- Hc]].
  apply filter_In in Hc. destruct Hc as [Hc Hl].
  unfold Meek.reset_votes in Hc. apply in_map_iff in Hc.
  destruct Hc as [d [<- _]].
  destruct (has_status Hopeful d || has_status Elected d) eqn:Hd; [reflexivity|].
  rewrite Hd in Hl. discriminate.
Qed.

(** After the distribution the votes of the live candidates and the
    residual of the round add up to the number of ballots. *)
Lemma distribute_conserves (E : Election) :
  Meek.warren rule = false ->
  NoDup (map cid (C (R E))) -> nonlive_kf_zero (C (R E)) ->
  let E' := Meek.distribute rule E in
  add (votes (R E')) (residual (R E')) = of_int (ballot_count (ballots E)) /\
  votes (R E') = live_sum (C (R E')) /\
  map multiplier (ballots E') = map multiplier (ballots E).
Proof.
  intros Hw Hnd Hz. cbv zeta. unfold Meek.distribute.
  pose proof (reset_votes_frame (C (R E))) as Hf.
  pose proof (@fold_distribute_conserves (ballots E) Hw
                (Meek.reset_votes (C (R E))) [] V0) as H.
  destruct (fold_left _ _ _) as [[cs bs] res].
  destruct H as [H1 H2].
  - now rewrite (vote_changed_cids Hf).
  - now apply (vote_changed_nonlive Hf).
  - cbn [R with_R with_ballots votes residual C set_votes set_residual set_C ballots].
    fold (live_sum cs). rewrite H1, reset_votes_live_sum, add_V0_r, add_V0_l.
    auto.
Qed.

End Conservation.

Section ConservationInvariant.
Context {A : Arith} {L : ArithLaws A}.
Variable rule : Meek.Rule.
Variable omega_ : V.
Hypothesis meek_variant : Meek.warren rule = false.

(** The candidates of a profile are hopeful or withdrawn. *)
Definition fresh (cs : list Candidate) : Prop :=
  forall c, In c cs -> cstatus c = Hopeful \/ cstatus c = Withdrawn.

(** The invariant conservation needs: identifiers are not repeated, a
    candidate that is neither hopeful nor elected has keep factor [V0],
    and [nBallots] is the number of ballots. *)
Definition conservation_inv (E : Election) : Prop :=
  NoDup (map cid (C (R E))) /\ nonlive_kf_zero (C (R E)) /\
  nBallots E = ballot_count (ballots E).

Lemma evolves_nonlive (cs cs' : list Candidate) :
  Forall2 evolves cs cs' -> nonlive_kf_zero cs -> nonlive_kf_zero cs'.
Proof.
  intros H Hz c' Hc' Hl.
  destruct (@Forall2_In_r _ _ _ _ c' H Hc') as [c [Hc (_ & _ & Hs & Hk)]].
  unfold live, has_status in Hl. apply orb_false_iff in Hl. destruct Hl as [Hh He].
  assert (HnE : cstatus c' <> Elected).
  { intros Heq. rewrite Heq in He. discriminate. }
  rewrite (Hk HnE). apply Hz; [exact Hc|].
  destruct Hs as [Hs|[_ Hs]]; [|contradiction].
  unfold live, has_status. rewrite <- Hs, Hh, He. reflexivity.
Qed.

Lemma init_kf_nonlive (cs : list Candidate) :
  fresh cs -> nonlive_kf_zero (Meek.init_kf cs).
Proof.
  intros Hf c Hc Hl. unfold Meek.init_kf in Hc. rewrite map_map in Hc.
  apply in_map_iff in Hc. destruct Hc as [d [<- Hd]].
  pose proof (Hf d Hd) as Hs. destruct d as [k nm o st v kk].
  unfold live, has_status in *. simpl in Hs.
  destruct Hs; subst st; simpl in *; [discriminate|reflexivity].
Qed.

Lemma conservation_init (E0 E : Election) :
  NoDup (map cid (C (R E0))) -> fresh (C (R E0)) ->
  nBallots E0 = ballot_count (ballots E0) ->
  Meek.init E0 = Ok E -> conservation_inv E.
Proof.
  intros Hnd Hf Hn Hi.
  destruct (@init_candidates _ E0 E Hi) as (HC & _ & _ & HN & HB).
  pose proof (first_preferences_frame (ballots E0) (Meek.init_kf (C (R E0)))) as Hv.
  rewrite <- HC in Hv. split; [|split].
  - rewrite (vote_changed_cids Hv), init_kf_cids. exact Hnd.
  - apply (vote_changed_nonlive Hv). now apply init_kf_nonlive.
  - now rewrite HN, HB.
Qed.

Lemma tally_ballots (E E' : Election) (b : bool) :
  Meek.tally rule E = Ok (b, E') ->
  ballots E' = ballots (Meek.distribute rule E) /\
  votes (R E') = votes (R (Meek.distribute rule E)) /\
  residual (R E') = residual (R (Meek.distribute rule E)).
Proof.
  unfold Meek.tally. destruct (Meek.calcQuota _) as [q| |]; try discriminate.
  cbn [bind]. intros [= _ <-].
  pose proof (elect_winners_fields (with_R (set_quota q) (Meek.distribute rule E)))
    as (_ & Hv & Hr & _ & _ & _ & Hb & _).
  cbn [R with_R ballots votes residual set_surplus]. rewrite Hb, Hv, Hr.
  repeat split.
Qed.

Lemma pass_ballots (last : V) (E : Election) (p : Meek.pass_result) :
  Meek.pass rule omega_ last E = Ok p ->
  ballots (state_of p) = ballots (Meek.distribute rule E).
Proof.
  unfold Meek.pass.
  destruct (Meek.tally rule E) as [[b E1]| |] eqn:Ht; try discriminate.
  cbn [bind fst snd]. destruct (@tally_ballots E E1 b Ht) as [Hb _].
  unfold Meek.test_complete.
  destruct b; [intros [= <-]; auto|].
  destruct (leb _ _); [intros [= <-]; auto|].
  destruct (geb _ _); [intros [= <-]; auto|].
  destruct (nonempty _); [intros [= <-]; auto|].
  destruct (Meek.update_keep_factors (R E1)) as [r'| |]; try discriminate.
  cbn [bind]. intros [= <-]. exact Hb.
Qed.

Lemma conservation_pass (E : Election) (last : V) (p : Meek.pass_result) :
  conservation_inv E -> Meek.pass rule omega_ last E = Ok p ->
  conservation_inv (state_of p).
Proof.
  intros (Hnd & Hz & Hn) Hp.
  destruct (@pass_evolves _ rule omega_ last E p Hnd Hp) as [Hev (_ & HN & _)].
  split; [|split].
  - now rewrite (evolves_cids Hev).
  - now apply (evolves_nonlive Hev).
  - rewrite HN, Hn, (pass_ballots _ _ Hp).
    destruct (@distribute_conserves _ L rule E meek_variant Hnd Hz) as (_ & _ & Hm).
    unfold ballot_count. now rewrite Hm.
Qed.

Lemma conservation_defeat (E : Election) (c : Candidate) (msg : string) :
  conservation_inv E -> In c (hopeful (C (R E))) ->
  conservation_inv (with_R (fun r => Meek.defeat_zero msg r c) E).
Proof.
  intros (Hnd & Hz & Hn) _. unfold conservation_inv.
  cbn [R with_R nBallots ballots].
  pose proof (defeat_zero_candidates msg (R E) c) as Hd. unfold defeated_only in Hd.
  rewrite Hd. split; [|split; [|exact Hn]].
  - rewrite map_map. erewrite map_ext; [exact Hnd|].
    intros d. destruct (Nat.eqb (cid d) (cid c)); reflexivity.
  - intros d' Hd' Hl. apply in_map_iff in Hd'. destruct Hd' as [d [<- Hin]].
    destruct (Nat.eqb (cid d) (cid c)); [reflexivity|]. now apply Hz.
Qed.

Lemma conservation_reachable (E0 : Election) :
  NoDup (map cid (C (R E0))) -> fresh (C (R E0)) ->
  nBallots E0 = ballot_count (ballots E0) ->
  forall last E, in_iterate rule omega_ E0 last E -> conservation_inv E.
Proof.
  intros Hnd Hf Hn. apply in_iterate_inv.
  - intros E. now apply conservation_init.
  - intros E H. exact H.
  - apply conservation_pass.
  - apply conservation_defeat.
  - intros E a H. exact H.
  - intros E [H _]. exact H.
Qed.

(** [x] and [y] differ by at most [d]. *)
Definition within (x y d : V) : Prop :=
  leb (sub x y) d = true /\ leb (sub y x) d = true.

(** What C7 says of the state [E'] after D.6 of a pass. *)
Definition vote_conserved (E' : Election) : Prop :=
  let total := add (live_sum (C (R E'))) (residual (R E')) in
  votes (R E') = live_sum (C (R E')) /\
  total = of_int (nBallots E') /\
  within total (of_int (nBallots E'))
         (scale epsilon (Z.of_nat (length (ballots E')))).

Lemma live_sum_evolves (cs cs' : list Candidate) :
  Forall2 (fun d d' => vote d' = vote d /\ live d' = live d) cs cs' ->
  live_sum cs' = live_sum cs.
Proof.
  induction 1 as [|d d' cs cs' [Hv Hl] _ IH]; [reflexivity|].
  rewrite !live_sum_cons, Hl, Hv, IH. reflexivity.
Qed.

Lemma elect_winners_live_sum (E : Election) :
  NoDup (map cid (C (R E))) ->
  live_sum (C (R (Meek.elect_winners E))) = live_sum (C (R E)).
Proof.
  intros Hnd. rewrite elect_winners_frame by assumption.
  apply live_sum_evolves. apply Forall2_map_r. intros d.
  destruct (has_status Hopeful d) eqn:Hh; simpl; [|auto].
  destruct (Meek.hasQuota E d); [|auto].
  split; [reflexivity|]. unfold live. rewrite Hh. reflexivity.
Qed.

(** C7. In a Meek count, after each pass of the iteration the votes of
    the live (hopeful or elected) candidates and the residual of the round
    add up to the number of ballots N.  The equality is exact for every
    kernel in which addition and subtraction are exact, the rational one
    and the fixed and guarded ones alike, so that it holds in particular
    within |ballots| * epsilon. *)
Theorem meek_vote_conservation (E0 E' : Election) :
  NoDup (map cid (C (R E0))) -> fresh (C (R E0)) ->
  nBallots E0 = ballot_count (ballots E0) ->
  after_tally rule omega_ E0 E' ->
  vote_conserved E'.
Proof.
  intros Hnd Hf Hn (last & E & b & Hin & Ht).
  destruct (@conservation_reachable E0 Hnd Hf Hn last E Hin) as (Hnd1 & Hz & HN).
  destruct (@distribute_conserves _ L rule E meek_variant Hnd1 Hz) as (Hc & Hv & Hm).
  destruct (@tally_ballots E E' b Ht) as (Hb & Hvo & Hre).
  destruct (@tally_evolves _ rule E E' b Hnd1 Ht) as [_ (_ & HN' & _)].
  assert (Hsum : live_sum (C (R E')) = live_sum (C (R (Meek.distribute rule E)))).
  { unfold Meek.tally in Ht.
    destruct (Meek.calcQuota _) as [q| |]; try discriminate.
    cbn [bind] in Ht. injection Ht as _ <-.
    cbn [R with_R C set_surplus].
    rewrite elect_winners_live_sum; [reflexivity|].
    cbn [R with_R C set_quota].
    rewrite (evolves_cids (distribute_evolves rule E)). exact Hnd1. }
  assert (Htotal : add (live_sum (C (R E'))) (residual (R E')) =
                   of_int (nBallots E')).
  { rewrite Hsum, Hre, <- Hv, Hc, HN', HN. reflexivity. }
  unfold vote_conserved. cbv zeta.
  split; [now rewrite Hvo, Hsum|]. split; [exact Htotal|].
  unfold within. rewrite Htotal, sub_diag.
  split; apply epsilon_scale_nonneg; lia.
Qed.

End ConservationInvariant.

(* ===================================================================== *)
(** * Further properties of the Meek/Warren counter                      *)
(* ===================================================================== *)

(** ** What a count returns *)

Section CountResult.
Context {A : Arith}.
Variable rule : Meek.Rule.

(** The round loop returns a state of the loop at which the count is
    complete. *)
Lemma rounds_loop_head (omega_ : V) (E0 : Election) (fuel nrounds : nat) :
  forall E E', at_head rule omega_ E0 E ->
               Meek.rounds_loop rule nrounds fuel omega_ E = Ok E' ->
               at_head rule omega_ E0 E' /\ Meek.countComplete E' = true.
Proof.
  induction nrounds as [|k IH]; intros E E' Hh; cbn [Meek.rounds_loop];
    destruct (Meek.countComplete E) eqn:Hc; try discriminate.
  - intros [= <-]. auto.
  - intros [= <-]. auto.
  - destruct (Meek.round rule fuel omega_ E) as [E1| |] eqn:Hr; try discriminate.
    cbn [bind]. apply IH. eapply head_round; eassumption.
Qed.

Lemma count_head (nrounds fuel : nat) (E0 E' : Election) :
  Meek.count rule nrounds fuel E0 = Ok E' ->
  exists omega_ E,
    Meek.omega_value rule = Ok omega_ /\ at_head rule omega_ E0 E /\
    Meek.countComplete E = true /\ E' = Meek.finish E.
Proof.
  unfold Meek.count.
  destruct (Meek.omega_value rule) as [w| |]; try discriminate. cbn [bind].
  destruct (Meek.init E0) as [E1| |] eqn:Hi; try discriminate. cbn [bind].
  destruct (Meek.rounds_loop rule nrounds fuel w E1) as [E2| |] eqn:Hl;
    try discriminate.
  cbn [bind]. intros [= <-].
  assert (Hh : at_head rule w E0 E1) by (apply head_init; exact Hi).
  destruct (@rounds_loop_head w E0 fuel nrounds E1 E2 Hh Hl) as [H1 H2].
  exists w, E2. auto.
Qed.

(** *** The end of a count: lines 401-407 *)

Lemma finish_step_fields (E : Election) (c : Candidate) :
  nSeats (Meek.finish_step E c) = nSeats E /\
  rounds (Meek.finish_step E c) = rounds E /\
  map cid (C (R (Meek.finish_step E c))) = map cid (C (R E)).
Proof.
  unfold Meek.finish_step. destruct (_ <? _).
  - cbn [nSeats rounds with_R R C elect transition add_log set_C].
    repeat split. now apply update_cids.
  - cbn [nSeats rounds with_R R].
    rewrite (defeat_zero_candidates "Defeat remaining" (R E) c).
    repeat split. rewrite map_map. apply map_ext. intros d.
    destruct (Nat.eqb (cid d) (cid c)); reflexivity.
Qed.

(** What [finish_step] does to a candidate: nothing, when it is not the
    one named; else it is elected, or defeated with keep factor and vote
    [V0]. *)
Lemma finish_step_candidates (E : Election) (c : Candidate) :
  C (R (Meek.finish_step E c)) =
  map (fun d => if Nat.eqb (cid d) (cid c)
                then if nElected (C (R E)) <? nSeats E
                     then set_status Elected d
                     else set_vote V0 (set_kf V0 (set_status Defeated d))
                else d) (C (R E)).
Proof.
  unfold Meek.finish_step. destruct (_ <? _).
  - reflexivity.
  - cbn [with_R R]. apply (defeat_zero_candidates "Defeat remaining" (R E) c).
Qed.

Lemma finish_fold_no_hopeful (l : list Candidate) :
  forall E,
    (forall d, In d (C (R E)) -> cstatus d = Hopeful -> In (cid d) (map cid l)) ->
    hopeful (C (R (fold_left Meek.finish_step l E))) = [].
Proof.
  induction l as [|c l IH]; intros E H.
  - cbn [fold_left].
    destruct (hopeful (C (R E))) as [|d ds] eqn:Hh; [reflexivity|exfalso].
    assert (Hd : In d (hopeful (C (R E)))) by (rewrite Hh; now left).
    apply filter_In in Hd. destruct Hd as [Hd Hs]. apply has_status_iff in Hs.
    exact (H d Hd Hs).
  - cbn [fold_left]. apply IH. intros d' Hd' Hs'.
    rewrite finish_step_candidates in Hd'. apply in_map_iff in Hd'.
    destruct Hd' as [d [<- Hd]].
    destruct (Nat.eqb_spec (cid d) (cid c)) as [Heq|Hne].
    + exfalso. destruct (_ <? _); cbn in Hs'; discriminate.
    + destruct (H d Hd Hs') as [Hc|Hin]; [congruence|exact Hin].
Qed.

(** After [finish] no candidate is hopeful. *)
Lemma finish_no_hopeful (E : Election) : hopeful (C (R (Meek.finish E))) = [].
Proof.
  unfold Meek.finish. apply finish_fold_no_hopeful.
  intros d Hd Hs. apply in_map. apply filter_In. split; [exact Hd|].
  now apply has_status_iff.
Qed.

Lemma elect_one (cs : list Candidate) (c : Candidate) :
  NoDup (map cid cs) -> In c cs -> cstatus c = Hopeful ->
  length (elected (update (cid c) (set_status Elected) cs)) =
  S (length (elected cs)).
Proof.
  induction cs as [|d cs IH]; intros Hnd Hc Hs; [contradiction|].
  inversion Hnd as [|? ? Hn Hnd']; subst. cbn [update map].
  destruct Hc as [->|Hc].
  - rewrite Nat.eqb_refl.
    change (map (fun c0 => if Nat.eqb (cid c0) (cid c) then set_status Elected c0
                           else c0) cs)
      with (update (cid c) (set_status Elected) cs).
    rewrite (@update_absent _ _ _ _ Hn). unfold elected. cbn [filter].
    change (has_status Elected (set_status Elected c)) with true.
    assert (He : has_status Elected c = false)
      by (unfold has_status; now rewrite Hs).
    rewrite He. reflexivity.
  - destruct (Nat.eqb_spec (cid d) (cid c)) as [Heq|_].
    + exfalso. apply Hn. rewrite Heq. now apply in_map.
    + change (map (fun c0 => if Nat.eqb (cid c0) (cid c) then set_status Elected c0
                             else c0) cs)
        with (update (cid c) (set_status Elected) cs).
      unfold elected in *. cbn [filter].
      destruct (has_status Elected d); cbn [length]; now rewrite IH.
Qed.

Lemma defeat_keeps_elected (cs : list Candidate) (c : Candidate) :
  NoDup (map cid cs) -> In c cs -> cstatus c = Hopeful ->
  length (elected (map (fun d => if Nat.eqb (cid d) (cid c)
                                 then set_vote V0 (set_kf V0 (set_status Defeated d))
                                 else d) cs)) =
  length (elected cs).
Proof.
  intros Hnd Hc Hs. unfold elected.
  induction cs as [|d cs IH]; [reflexivity|].
  inversion Hnd as [|? ? Hn Hnd']; subst. cbn [map filter].
  destruct (Nat.eqb_spec (cid d) (cid c)) as [Heq|Hne].
  - assert (d = c).
    { pose proof (lookup_NoDup _ d Hnd (or_introl eq_refl)) as H1.
      pose proof (lookup_NoDup _ c Hnd Hc) as H2. congruence. }
    subst d.
    change (has_status Elected (set_vote V0 (set_kf V0 (set_status Defeated c))))
      with false.
    assert (He : has_status Elected c = false)
      by (unfold has_status; now rewrite Hs).
    rewrite He.
    assert (Hid : map (fun d => if Nat.eqb (cid d) (cid c)
                                then set_vote V0 (set_kf V0 (set_status Defeated d))
                                else d) cs = cs).
    { apply (@update_absent _ (cid c) (fun d => set_vote V0 (set_kf V0
                                                (set_status Defeated d))) cs Hn). }
    now rewrite Hid.
  - destruct Hc as [->|Hc]; [congruence|].
    destruct (has_status Elected d); cbn [length]; now rewrite IH.
Qed.

(** [finish] elects hopefuls, in the order of the catalogue, while fewer
    candidates are elected than there are seats: with [e] elected and [h]
    hopeful candidates it leaves [e + min h (max 0 (S - e))] elected. *)
Lemma finish_fold_elected (l : list Candidate) :
  forall E,
    NoDup (map cid (C (R E))) -> NoDup (map cid l) ->
    (forall c, In c l -> In c (C (R E)) /\ cstatus c = Hopeful) ->
    nElected (C (R (fold_left Meek.finish_step l E))) =
    nElected (C (R E)) +
    Z.min (Z.of_nat (length l)) (Z.max 0 (nSeats E - nElected (C (R E)))).
Proof.
  induction l as [|c l IH]; intros E Hnd Hl Hin.
  - cbn [fold_left length]. lia.
  - cbn [fold_left]. inversion Hl as [|? ? Hn Hl']; subst.
    destruct (Hin c (or_introl eq_refl)) as [Hc Hs].
    destruct (finish_step_fields E c) as (HS & _ & Hcid).
    assert (Hstep : nElected (C (R (Meek.finish_step E c))) =
                    if nElected (C (R E)) <? nSeats E
                    then nElected (C (R E)) + 1 else nElected (C (R E))).
    { rewrite finish_step_candidates. unfold nElected.
      destruct (Z.of_nat (length (elected (C (R E)))) <? nSeats E).
      - change (map (fun d => if Nat.eqb (cid d) (cid c) then set_status Elected d
                              else d) (C (R E)))
          with (update (cid c) (set_status Elected) (C (R E))).
        rewrite (@elect_one _ c Hnd Hc Hs). lia.
      - now rewrite (@defeat_keeps_elected _ c Hnd Hc Hs). }
    rewrite IH.
    + rewrite HS, Hstep. cbn [length].
      destruct (Z.ltb_spec (nElected (C (R E))) (nSeats E)); lia.
    + now rewrite Hcid.
    + exact Hl'.
    + intros c' Hc'. destruct (Hin c' (or_intror Hc')) as [Hc1 Hs1].
      split; [|exact Hs1]. rewrite finish_step_candidates.
      apply in_map_iff. exists c'. split; [|exact Hc1].
      destruct (Nat.eqb_spec (cid c') (cid c)) as [Heq|_]; [|reflexivity].
      exfalso. apply Hn. rewrite <- Heq. now apply in_map.
Qed.

Lemma NoDup_map_filter_gen (T U : Type) (f : T -> U) (p : T -> bool) (l : list T) :
  NoDup (map f l) -> NoDup (map f (filter p l)).
Proof.
  induction l as [|x l IH]; simpl; intros H; [constructor|].
  inversion H as [|? ? Hn Hnd]; subst. destruct (p x); simpl; auto.
  constructor; auto. intros Hin. apply Hn.
  apply in_map_iff in Hin. destruct Hin as [y [Hy Hin]].
  apply filter_In in Hin. rewrite <- Hy. now apply in_map.
Qed.

Lemma finish_elected (E : Election) :
  NoDup (map cid (C (R E))) ->
  nElected (C (R (Meek.finish E))) =
  nElected (C (R E)) +
  Z.min (nHopeful (C (R E))) (Z.max 0 (nSeats E - nElected (C (R E)))).
Proof.
  intros Hnd. unfold Meek.finish, nHopeful.
  apply finish_fold_elected; [exact Hnd|now apply NoDup_map_filter_gen|].
  intros c Hc. apply filter_In in Hc. destruct Hc as [Hc Hs].
  split; [exact Hc|now apply has_status_iff].
Qed.

Lemma finish_nSeats (E : Election) : nSeats (Meek.finish E) = nSeats E.
Proof.
  unfold Meek.finish. generalize (hopeful (C (R E))). intros l. revert E.
  induction l as [|c l IH]; intros E; [reflexivity|].
  cbn [fold_left]. rewrite IH. apply finish_step_fields.
Qed.

End CountResult.

Section PassStatuses.
Context {A : Arith}.
Variable rule : Meek.Rule.
Variable omega_ : V.

Lemma fold_set_kf_statuses (g : Candidate -> V) (l : list Candidate) :
  forall cs,
    map cstatus (fold_left (fun acc c => update (cid c) (set_kf (g c)) acc) l cs)
    = map cstatus cs.
Proof.
  induction l as [|c l IH]; intros cs; cbn [fold_left]; [reflexivity|].
  rewrite IH. unfold update. rewrite map_map. apply map_ext. intros d.
  destruct (Nat.eqb (cid d) (cid c)); reflexivity.
Qed.

Lemma update_keep_factors_statuses (r r' : Round) :
  Meek.update_keep_factors r = Ok r' -> map cstatus (C r') = map cstatus (C r).
Proof.
  unfold Meek.update_keep_factors.
  destruct (foldM _ _ _) as [cs'| |] eqn:Hf; try discriminate.
  cbn [bind]. intros [= <-]. cbn [C set_C].
  apply foldM_update_kf_ok in Hf. rewrite Hf.
  apply (fold_set_kf_statuses
           (fun c => quot (mul (kf c) (quota r) RoundUp) (vote c) (Some RoundUp))).
Qed.

Lemma vote_changed_statuses (cs cs' : list Candidate) :
  Forall2 vote_changed cs cs' -> map cstatus cs' = map cstatus cs.
Proof.
  induction 1 as [|d d' cs cs' Hd _ IH]; [reflexivity|].
  cbn [map]. rewrite IH. f_equal. rewrite Hd. reflexivity.
Qed.

(** A pass that elects nobody leaves every status as it was. *)
Lemma pass_statuses (last : V) (E : Election) (p : Meek.pass_result) :
  Meek.pass rule omega_ last E = Ok p ->
  match p with Meek.Finished Meek.IS_elected _ _ => False | _ => True end ->
  map cstatus (C (R (state_of p))) = map cstatus (C (R E)).
Proof.
  unfold Meek.pass, Meek.tally.
  destruct (Meek.calcQuota _) as [q| |]; try discriminate.
  cbn [bind fst snd]. unfold Meek.test_complete.
  destruct (Meek.winners (with_R (set_quota q) (Meek.distribute rule E)))
    as [|w ws] eqn:Hw.
  2:{ cbn [nonempty]. intros [= <-]. contradiction. }
  cbn [nonempty]. unfold Meek.elect_winners. rewrite Hw. cbn [fold_left].
  pose proof (vote_changed_statuses (distribute_frame rule E)) as Hd.
  destruct (leb _ _); [intros [= <-] _; exact Hd|].
  destruct (geb _ _); [intros [= <-] _; exact Hd|].
  destruct (nonempty _); [intros [= <-] _; exact Hd|].
  destruct (Meek.update_keep_factors _) as [r'| |] eqn:Hu; try discriminate.
  cbn [bind]. intros [= <-] _. cbn [state_of R with_R].
  rewrite (update_keep_factors_statuses _ Hu). exact Hd.
Qed.

(** An iteration that does not end on an election leaves every status as
    it was. *)
Lemma iterate_from_statuses (fuel : nat) :
  forall (last : V) (E E' : Election) (s : Meek.iterateStatus)
         (batch : list Candidate),
    Meek.iterate_from rule fuel omega_ last E = Ok (s, batch, E') ->
    s <> Meek.IS_elected ->
    map cstatus (C (R E')) = map cstatus (C (R E)).
Proof.
  induction fuel as [|fuel IH]; intros last E E' s batch; cbn [Meek.iterate_from];
    [discriminate|].
  destruct (Meek.pass rule omega_ last E) as [p| |] eqn:Hp; try discriminate.
  cbn [bind]. destruct p as [s1 b1 E1|last1 E1].
  - intros [= <- <- <-] Hs.
    apply (pass_statuses _ _ Hp). destruct s1; auto.
  - intros Hit Hs. rewrite (IH _ _ _ _ _ Hit Hs).
    apply (pass_statuses _ _ Hp). exact I.
Qed.

Lemma hopeful_length_statuses (cs : list Candidate) :
  forall cs', map cstatus cs' = map cstatus cs ->
              length (hopeful cs') = length (hopeful cs).
Proof.
  induction cs as [|c cs IH]; intros [|c' cs'] H; try discriminate;
    [reflexivity|].
  injection H as Hc H. unfold hopeful in *. cbn [filter].
  unfold has_status. rewrite Hc. destruct (status_eqb (cstatus c) Hopeful);
    cbn [length]; now rewrite IH.
Qed.

(** With a hopeful candidate at hand the defeat of lines 385-397 returns. *)
Lemma defeat_low_ok (s : Meek.iterateStatus) (r : Round) :
  hopeful (C r) <> [] -> exists r', Meek.defeat_low s r = Ok r'.
Proof.
  intros Hne. unfold Meek.defeat_low, Meek.low_candidates, vmin.
  destruct (hopeful (C r)) as [|c cs]; [congruence|].
  cbn [map bind].
  destruct (Meek.breakTie r _ "defeat") as [[t|] r']; eexists; reflexivity.
Qed.

Lemma not_complete_hopeful (E : Election) :
  Meek.countComplete E = false -> (0 < nHopeful (C (R E)))%Z.
Proof.
  unfold Meek.countComplete. intros H. apply orb_false_iff in H.
  destruct H as [H1 H2]. apply Z.leb_gt in H1, H2. lia.
Qed.

End PassStatuses.

(** ** Defeat of the lowest candidate at the end of a round *)

(** What the defeat of lines 385-397 needs of the order of a kernel: [<]
    is a strict order, [a >= b] holds when [a < b] does not, and a value
    is not above its sum with a value that is not below [V0]. *)
Class OrderLaws (A : Arith) : Prop := {
ltb_irrefl : forall a : V, ltb a a = false;
ltb_trans : forall a b c : V, ltb a b = true -> ltb b c = true -> ltb a c = true;
ltb_false_leb : forall a b : V, ltb a b = false -> leb b a = true;
leb_add_nonneg : forall a s : V, leb V0 s = true -> leb a (add a s) = true
}.


#[export] Instance GuardedOrder (p g : Z) : OrderLaws (GuardedArith p g).
Proof.
assert (HG : 0 <= 10 ^ g) by (apply Z.pow_nonneg; lia).
constructor; cbn; unfold guarded_eqb; intros.
- rewrite Z.ltb_irrefl. reflexivity.
- apply andb_true_iff in H, H0. destruct H as [H1 H2], H0 as [H3 H4].
  apply Z.ltb_lt in H1, H3. apply negb_true_iff, Z.ltb_ge in H2, H4.
  apply andb_true_iff. split; [apply Z.ltb_lt; lia|].
  apply negb_true_iff, Z.ltb_ge. lia.
- apply orb_true_iff. apply andb_false_iff in H. destruct H as [H|H].
  + left. apply Z.leb_le. apply Z.ltb_ge in H. lia.
  + right. apply negb_false_iff, Z.ltb_lt in H. apply Z.ltb_lt. lia.
- apply orb_true_iff. apply orb_true_iff in H. destruct H as [H|H].
  + left. apply Z.leb_le. apply Z.leb_le in H. lia.
  + right. apply Z.ltb_lt. apply Z.ltb_lt in H. lia.
Qed.

#[export] Instance RationalOrder : OrderLaws RationalArith.
Proof.
constructor; cbn; unfold Qc_ltb, Qc_leb; intros.
- apply negb_false_iff. apply Qle_bool_iff. apply Qle_refl.
- apply negb_true_iff in H, H0. apply negb_true_iff.
  destruct (Qle_bool c a) eqn:Hca; [|reflexivity].
  apply Qle_bool_iff in Hca.
  assert (Hab : ~ (b <= a)%Q) by (intros Hx; apply Qle_bool_iff in Hx; congruence).
  assert (Hbc : ~ (c <= b)%Q) by (intros Hx; apply Qle_bool_iff in Hx; congruence).
  apply Qnot_le_lt in Hab, Hbc. exfalso.
  apply (Qlt_irrefl a). apply Qlt_le_trans with c; [|exact Hca].
  apply Qlt_trans with b; assumption.
- apply negb_false_iff in H. exact H.
- apply Qle_bool_iff in H. apply Qle_bool_iff.
  change (a <= a + s)%Qc.
  rewrite <- (Qcplus_0_r a) at 1. apply Qcplus_le_compat; [apply Qcle_refl|exact H].
Qed.

Section DefeatLowRound.
Context {A : Arith} {L : OrderLaws A}.
Variable rule : Meek.Rule.
Variable omega_ : V.







End DefeatLowRound.

(** ** A status, once it is not hopeful, is kept *)

Section StatusPermanence.
Context {A : Arith}.
Variable rule : Meek.Rule.
Variable omega_ : V.

(** From an earlier state [d] of a candidate to a later one [d']: a
    status other than hopeful is kept, and a hopeful stays hopeful or
    becomes elected or defeated. *)
Definition settled (d d' : Candidate) : Prop :=
  cid d' = cid d /\
  (cstatus d <> Hopeful -> cstatus d' = cstatus d) /\
  (cstatus d = Hopeful ->
   cstatus d' = Hopeful \/ cstatus d' = Elected \/ cstatus d' = Defeated).

Lemma settled_refl (d : Candidate) : settled d d.
Proof. unfold settled. auto. Qed.

Lemma settled_trans (d1 d2 d3 : Candidate) :
  settled d1 d2 -> settled d2 d3 -> settled d1 d3.
Proof.
  intros (Hc & Hk & Hh) (Hc' & Hk' & Hh'). split; [congruence|]. split.
  - intros Hn. rewrite <- (Hk Hn). apply Hk'. now rewrite (Hk Hn).
  - intros H1. destruct (Hh H1) as [H2|[H2|H2]].
    + auto.
    + right. left. rewrite <- H2. apply Hk'. rewrite H2. discriminate.
    + right. right. rewrite <- H2. apply Hk'. rewrite H2. discriminate.
Qed.

Lemma settled_cids (cs cs' : list Candidate) :
  Forall2 settled cs cs' -> map cid cs' = map cid cs.
Proof.
  induction 1 as [|d d' cs cs' Hd _ IH]; simpl; auto.
  destruct Hd as [-> _]. now rewrite IH.
Qed.

Lemma evolves_settled (d d' : Candidate) : evolves d d' -> settled d d'.
Proof.
  intros (Hc & _ & Hs & _). split; [exact Hc|]. split.
  - intros Hn. destruct Hs as [Hs|[Hs _]]; congruence.
  - intros Hh. destruct Hs as [Hs|[_ Hs]]; [left; congruence|auto].
Qed.

Fixpoint settled_history (cur : Round) (hs : list Round) : Prop :=
  match hs with
  | [] => True
  | r :: hs' => Forall2 settled (C r) (C cur) /\ settled_history r hs'
  end.

Definition status_inv (E : Election) : Prop :=
  NoDup (map cid (C (R E))) /\ settled_history (R E) (rounds E).

Lemma status_inv_step (E E' : Election) :
  status_inv E -> Forall2 settled (C (R E)) (C (R E')) -> rounds E' = rounds E ->
  status_inv E'.
Proof.
  intros [Hnd Hh] Hs Hr. split.
  - now rewrite (settled_cids Hs).
  - rewrite Hr. destruct (rounds E) as [|r hs]; [exact I|].
    destruct Hh as [H1 H2]. split; [|exact H2].
    eapply Forall2_trans_on; [apply settled_trans|exact H1|exact Hs].
Qed.

Lemma defeat_settled (cs : list Candidate) (c : Candidate) :
  NoDup (map cid cs) -> In c cs -> cstatus c = Hopeful ->
  Forall2 settled cs
          (map (fun d => if Nat.eqb (cid d) (cid c)
                         then set_vote V0 (set_kf V0 (set_status Defeated d))
                         else d) cs).
Proof.
  intros Hnd Hc Hs.
  assert (H : forall d, In d cs -> cid d = cid c -> d = c).
  { intros d Hd Heq. pose proof (lookup_NoDup _ d Hnd Hd) as H1.
    pose proof (lookup_NoDup _ c Hnd Hc) as H2. congruence. }
  clear Hnd Hc. induction cs as [|d cs IH]; [constructor|].
  cbn [map]. constructor.
  - destruct (Nat.eqb_spec (cid d) (cid c)) as [Heq|_]; [|apply settled_refl].
    rewrite (H d (or_introl eq_refl) Heq). unfold settled. cbn.
    split; [reflexivity|]. split; [congruence|auto].
  - apply IH. intros d' Hd'. apply H. now right.
Qed.

Lemma elect_settled (cs : list Candidate) (c : Candidate) :
  NoDup (map cid cs) -> In c cs -> cstatus c = Hopeful ->
  Forall2 settled cs (update (cid c) (set_status Elected) cs).
Proof.
  intros Hnd Hc Hs.
  assert (H : forall d, In d cs -> cid d = cid c -> d = c).
  { intros d Hd Heq. pose proof (lookup_NoDup _ d Hnd Hd) as H1.
    pose proof (lookup_NoDup _ c Hnd Hc) as H2. congruence. }
  clear Hnd Hc. unfold update. induction cs as [|d cs IH]; [constructor|].
  cbn [map]. constructor.
  - destruct (Nat.eqb_spec (cid d) (cid c)) as [Heq|_]; [|apply settled_refl].
    rewrite (H d (or_introl eq_refl) Heq). unfold settled. cbn.
    split; [reflexivity|]. split; [congruence|auto].
  - apply IH. intros d' Hd'. apply H. now right.
Qed.

Lemma status_inv_init (E0 E : Election) :
  NoDup (map cid (C (R E0))) -> rounds E0 = [] ->
  Meek.init E0 = Ok E -> status_inv E.
Proof.
  intros Hnd Hr Hi. destruct (@hopeful_inv_init _ E0 E Hnd Hr Hi) as [Hnd1 _].
  destruct (@init_candidates _ E0 E Hi) as (_ & HR & _).
  split; [exact Hnd1|]. rewrite HR, Hr. exact I.
Qed.

Lemma status_inv_newRound (E : Election) : status_inv E -> status_inv (newRound E).
Proof.
  intros [Hnd Hh]. split; [exact Hnd|].
  cbn [newRound R rounds settled_history C]. split; [|exact Hh].
  apply Forall2_refl_on, settled_refl.
Qed.

Lemma status_inv_pass (E : Election) (last : V) (p : Meek.pass_result) :
  status_inv E -> Meek.pass rule omega_ last E = Ok p -> status_inv (state_of p).
Proof.
  intros HI Hp.
  destruct (@pass_evolves _ rule omega_ last E p (proj1 HI) Hp)
    as [Hev (_ & _ & Hr & _)].
  eapply status_inv_step; [exact HI| |exact Hr].
  eapply Forall2_impl2; [apply evolves_settled|exact Hev].
Qed.

Lemma status_inv_defeat (E : Election) (c : Candidate) (msg : string) :
  status_inv E -> In c (hopeful (C (R E))) ->
  status_inv (with_R (fun r => Meek.defeat_zero msg r c) E).
Proof.
  intros HI Hc. apply filter_In in Hc. destruct Hc as [Hc Hs].
  apply has_status_iff in Hs.
  eapply status_inv_step; [exact HI| |reflexivity].
  cbn [R with_R]. rewrite (defeat_zero_candidates msg (R E) c).
  now apply defeat_settled; [apply HI| |].
Qed.

Lemma status_inv_log (E : Election) (a : action) :
  status_inv E -> status_inv (with_R (add_log a) E).
Proof.
  intros HI. eapply status_inv_step; [exact HI| |reflexivity].
  apply Forall2_refl_on, settled_refl.
Qed.

Lemma status_inv_head (E0 E : Election) :
  NoDup (map cid (C (R E0))) -> rounds E0 = [] ->
  at_head rule omega_ E0 E -> status_inv E.
Proof.
  intros Hnd Hr. apply at_head_inv.
  - intros E1. now apply status_inv_init.
  - apply status_inv_newRound.
  - apply status_inv_pass.
  - apply status_inv_defeat.
  - apply status_inv_log.
  - intros E1 [H _]. exact H.
Qed.

Lemma finish_fold_settled (l : list Candidate) :
  forall E,
    NoDup (map cid (C (R E))) -> NoDup (map cid l) ->
    (forall c, In c l -> In c (C (R E)) /\ cstatus c = Hopeful) ->
    Forall2 settled (C (R E)) (C (R (fold_left Meek.finish_step l E))) /\
    rounds (fold_left Meek.finish_step l E) = rounds E.
Proof.
  induction l as [|c l IH]; intros E Hnd Hl Hin.
  - cbn [fold_left]. split; [apply Forall2_refl_on, settled_refl|reflexivity].
  - cbn [fold_left]. inversion Hl as [|? ? Hn Hl']; subst.
    destruct (Hin c (or_introl eq_refl)) as [Hc Hs].
    destruct (finish_step_fields E c) as (_ & HR & Hcid).
    assert (Hstep : Forall2 settled (C (R E)) (C (R (Meek.finish_step E c)))).
    { rewrite finish_step_candidates. destruct (_ <? _).
      - now apply elect_settled.
      - now apply defeat_settled. }
    destruct (IH (Meek.finish_step E c)) as [H1 H2].
    + now rewrite Hcid.
    + exact Hl'.
    + intros c' Hc'. destruct (Hin c' (or_intror Hc')) as [Hc1 Hs1].
      split; [|exact Hs1]. rewrite finish_step_candidates.
      apply in_map_iff. exists c'. split; [|exact Hc1].
      destruct (Nat.eqb_spec (cid c') (cid c)) as [Heq|_]; [|reflexivity].
      exfalso. apply Hn. rewrite <- Heq. now apply in_map.
    + split; [|now rewrite H2].
      eapply Forall2_trans_on; [apply settled_trans|exact Hstep|exact H1].
Qed.

Lemma status_inv_finish (E : Election) : status_inv E -> status_inv (Meek.finish E).
Proof.
  intros HI. pose proof HI as [Hnd _].
  destruct (@finish_fold_settled (hopeful (C (R E))) E Hnd) as [H1 H2].
  - now apply NoDup_map_filter_gen.
  - intros c Hc. apply filter_In in Hc. destruct Hc as [Hc Hs].
    split; [exact Hc|now apply has_status_iff].
  - eapply status_inv_step; [exact HI|exact H1|exact H2].
Qed.

Lemma settled_pairs (hs : list Round) :
  forall cur, settled_history cur hs ->
              ForallOrdPairs
                (fun later earlier => Forall2 settled (C earlier) (C later))
                (cur :: hs).
Proof.
  assert (Hall : forall hs cur, settled_history cur hs ->
                   Forall (fun r => Forall2 settled (C r) (C cur)) hs).
  { induction hs0 as [|r hs0 IH]; intros cur H; [constructor|].
    destruct H as [H1 H2]. constructor; [exact H1|].
    eapply Forall_impl; [|exact (IH r H2)]. simpl. intros r' Hr'.
    eapply Forall2_trans_on; [apply settled_trans|exact Hr'|exact H1]. }
  induction hs as [|r hs IH]; intros cur H.
  - constructor; constructor.
  - constructor; [now apply Hall|]. apply IH. now destruct H.
Qed.

End StatusPermanence.

(** X7. In a Meek or Warren count the status of a candidate, once it is no
  longer hopeful, is never changed: from any round on record to any later
  one, and to the state [finish] leaves, every candidate keeps its
  identifier, a candidate that is not hopeful keeps its status, and a
  hopeful one stays hopeful or becomes elected or defeated. *)
Theorem meek_statuses_settle {A : Arith} (rule : Meek.Rule) (omega_ : V)
        (E0 : Election) :
NoDup (map cid (C (R E0))) -> rounds E0 = [] ->
(forall E, at_head rule omega_ E0 E ->
           ForallOrdPairs
             (fun later earlier => Forall2 settled (C earlier) (C later))
             (R E :: rounds E)) /\
(forall E, at_head rule omega_ E0 E ->
           ForallOrdPairs
             (fun later earlier => Forall2 settled (C earlier) (C later))
             (R (Meek.finish E) :: rounds (Meek.finish E))).
Proof.
intros Hnd Hr. split; intros E HE.
- apply settled_pairs. apply (status_inv_head Hnd Hr HE).
- apply settled_pairs. apply status_inv_finish.
  apply (status_inv_head Hnd Hr HE).
Qed.

(* ===================================================================== *)
(** * The Meek counter with exact arithmetic                             *)
(* ===================================================================== *)


Lemma Qc_eq_Qeq (a b : Qc) : a = b -> (this a == this b)%Q.
Proof. intros ->. reflexivity. Qed.

(** From reduced fractions to fractions, where [lra] and [nra] work. *)
Ltac qc_to_q :=
  repeat match goal with
         | H : @eq Qc _ _ |- _ => apply Qc_eq_Qeq in H
         | H : ~ @eq Qc _ _ |- _ => clear H
         end;
  try apply Qc_is_canon;
  unfold Qcle, Qclt, Qcdiv, Qcminus, Qcplus, Qcmult, Qcopp, Q2Qc in *;
  cbn [this] in *;
  rewrite ?Qred_correct in *.

Section RationalOrder.
Open Scope Qc_scope.

Lemma weight_step (w1 w2 k1 k2 : Qc) :
  0 <= w1 -> w1 <= w2 -> 0 <= k2 -> k2 <= k1 -> k1 <= 1 ->
  0 <= w1 * (1 - k1) /\ w1 * (1 - k1) <= w2 * (1 - k2).
Proof. intros. qc_to_q. split; nra. Qed.

Lemma vote_step (k1 k2 v1 v2 w1 w2 m : Qc) :
  0 <= k2 -> k2 <= k1 -> 0 <= m -> 0 <= w1 -> w1 <= w2 ->
  k2 * v1 <= v2 * k1 ->
  k2 * (v1 + (w1 * m) * k1) <= (v2 + (w2 * m) * k2) * k1.
Proof.
  intros. qc_to_q.
  assert (0 <= this m * this k1)%Q by nra.
  assert (0 <= (this m * this k1) * this k2)%Q by nra.
  assert (0 <= (this w2 - this w1) * ((this m * this k1) * this k2))%Q by nra.
  nra.
Qed.

Lemma vote_step_solo (k1 k2 v1 v2 w2 m : Qc) :
  0 <= k2 -> k2 <= k1 -> 0 <= m -> 0 <= w2 ->
  k2 * v1 <= v2 * k1 -> k2 * v1 <= (v2 + (w2 * m) * k2) * k1.
Proof.
  intros. qc_to_q.
  assert (0 <= this m * this k1)%Q by nra.
  assert (0 <= (this m * this k1) * this k2)%Q by nra.
  assert (0 <= this w2 * ((this m * this k1) * this k2))%Q by nra.
  nra.
Qed.

Lemma Qc_pos_neq (v : Qc) : 0 < v -> v <> 0.
Proof. intros Hv ->. revert Hv. apply Qcle_not_lt, Qcle_refl. Qed.

Lemma new_kf_bounds (k q v : Qc) :
  0 < v -> 0 < q -> q <= v -> 0 < k -> 0 < k * q / v /\ k * q / v <= k.
Proof.
  intros Hv Hq Hqv Hk. pose proof (Qc_pos_neq Hv) as Hne.
  assert (E : (k * q / v) * v = k * q) by (field; exact Hne).
  set (x := k * q / v) in *. clearbody x.
  qc_to_q. split.
  - destruct (Qlt_le_dec 0 (this x)) as [Hx|Hx]; [exact Hx|exfalso].
    assert (this x * this v <= 0)%Q by nra. nra.
  - destruct (Qlt_le_dec (this k) (this x)) as [Hx|Hx]; [exfalso|exact Hx].
    assert (0 < (this x - this k) * this v)%Q by nra.
    assert (0 <= this k * (this v - this q))%Q by nra. nra.
Qed.

Lemma new_kf_vote (k q v v' : Qc) :
  0 < v -> 0 < k -> (k * q / v) * v <= v' * k -> q <= v'.
Proof.
  intros Hv Hk H. pose proof (Qc_pos_neq Hv) as Hne.
  assert (E : (k * q / v) * v = k * q) by (field; exact Hne).
  rewrite E in H. clear E. qc_to_q. nra.
Qed.

Lemma same_kf_vote (k v v' : Qc) : 0 < k -> k * v <= v' * k -> v <= v'.
Proof. intros. qc_to_q. nra. Qed.

Lemma inject_nonneg (m : Z) : (0 <= m)%Z -> 0 <= Q2Qc (inject_Z m).
Proof.
  intros H. qc_to_q. change 0%Q with (inject_Z 0). now rewrite <- Zle_Qle.
Qed.

Lemma inject_pos (m : Z) : (0 < m)%Z -> 0 < Q2Qc (inject_Z m).
Proof.
  intros H. qc_to_q. change 0%Q with (inject_Z 0). now rewrite <- Zlt_Qlt.
Qed.

End RationalOrder.

Section RationalMeek.
#[local] Existing Instance RationalArith.
Open Scope Qc_scope.
Variable rule : Meek.Rule.
Hypothesis meek_variant : Meek.warren rule = false.

Lemma rat_leb (a b : Qc) : @leb RationalArith a b = true <-> a <= b.
Proof. apply Qle_bool_iff. Qed.

Lemma rat_leb_false (a b : Qc) : @leb RationalArith a b = false <-> b < a.
Proof.
  rewrite <- not_true_iff_false, rat_leb. split.
  - apply Qcnot_le_lt.
  - intros H H'. revert H. now apply Qcle_not_lt.
Qed.

Lemma rat_ltb (a b : Qc) : @ltb RationalArith a b = true <-> a < b.
Proof.
  change (@ltb RationalArith a b) with (negb (@leb RationalArith b a)).
  rewrite negb_true_iff. apply rat_leb_false.
Qed.

Lemma Qcmult_le_0_compat_local (a b : Qc) : 0 <= a -> 0 <= b -> 0 <= a * b.
Proof. intros. qc_to_q. nra. Qed.

(** Two runs of the distribution side by side: the second has the smaller
    keep factors.  Then it has the larger weights, and for each candidate
    the votes of the two runs are in the proportion of the keep factors at
    least: [kf2 * vote1 <= vote2 * kf1]. *)
Definition Lrel (d1 d2 : Candidate) : Prop :=
  cid d2 = cid d1 /\ 0 <= kf d2 /\ kf d2 <= kf d1 /\ kf d1 <= 1 /\
  kf d2 * vote d1 <= vote d2 * kf d1.

Lemma Lrel_cids (cs1 cs2 : list Candidate) :
  Forall2 Lrel cs1 cs2 -> map cid cs2 = map cid cs1.
Proof.
  induction 1 as [|d d' cs cs' Hd _ IH]; simpl; auto.
  destruct Hd as [-> _]. now rewrite IH.
Qed.

Lemma lookup_Forall2 (Rel : Candidate -> Candidate -> Prop)
      (cs1 cs2 : list Candidate) (k : nat) :
  (forall d1 d2, Rel d1 d2 -> cid d2 = cid d1) ->
  Forall2 Rel cs1 cs2 ->
  match lookup k cs1, lookup k cs2 with
  | Some c1, Some c2 => Rel c1 c2
  | None, None => True
  | _, _ => False
  end.
Proof.
  intros Hc. unfold lookup. induction 1 as [|d d' cs cs' Hd _ IH]; simpl; auto.
  rewrite (Hc _ _ Hd). destruct (Nat.eqb (cid d) k); auto.
Qed.

Lemma Forall2_map2_In (T : Type) (P Q : T -> T -> Prop) (f g : T -> T)
      (l l' : list T) :
  Forall2 P l l' ->
  (forall x y, In x l -> In y l' -> P x y -> Q (f x) (g y)) ->
  Forall2 Q (map f l) (map g l').
Proof.
  induction 1 as [|x y l l' Hxy _ IH]; intros H; simpl; constructor.
  - apply H; simpl; auto.
  - apply IH. intros x' y' Hx' Hy'. apply H; simpl; auto.
Qed.

Lemma lookup_unique (cs : list Candidate) (k : nat) (c d : Candidate) :
  NoDup (map cid cs) -> lookup k cs = Some c -> In d cs -> cid d = k -> d = c.
Proof.
  intros Hnd Hl Hd Hk. pose proof (lookup_NoDup _ d Hnd Hd) as H.
  rewrite Hk in H. congruence.
Qed.

(** One step of the two runs. *)
Lemma add_vote_lockstep (m : Z) (k : nat) (cs1 cs2 : list Candidate)
      (c1 c2 : Candidate) (w1 w2 : Qc) :
  (0 <= m)%Z -> NoDup (map cid cs1) -> Forall2 Lrel cs1 cs2 ->
  lookup k cs1 = Some c1 -> lookup k cs2 = Some c2 ->
  0 <= w1 -> w1 <= w2 ->
  Forall2 Lrel (Meek.add_vote k (mul (scale w1 m) (kf c1) RoundDown) cs1)
               (Meek.add_vote k (mul (scale w2 m) (kf c2) RoundDown) cs2).
Proof.
  intros Hm Hnd HF H1 H2 Hw1 Hw.
  assert (Hnd2 : NoDup (map cid cs2)) by now rewrite (Lrel_cids HF).
  unfold Meek.add_vote, update.
  eapply Forall2_map2_In; [exact HF|].
  intros d1 d2 Hd1 Hd2 (Hc & Hk0 & Hk & Hk1 & Hv).
  rewrite Hc. destruct (Nat.eqb_spec (cid d1) k) as [Hk'|_].
  - assert (d1 = c1) by exact (@lookup_unique cs1 k c1 d1 Hnd H1 Hd1 Hk').
    assert (d2 = c2) by (apply (@lookup_unique cs2 k c2 d2 Hnd2 H2 Hd2); congruence).
    subst d1 d2. unfold Lrel. cbn [cid kf vote set_vote].
    repeat (split; [assumption|]).
    apply vote_step; auto. now apply inject_nonneg.
  - unfold Lrel. auto.
Qed.

Lemma add_vote_solo (m : Z) (k : nat) (cs1 cs2 : list Candidate)
      (c2 : Candidate) (w2 : Qc) :
  (0 <= m)%Z -> NoDup (map cid cs2) -> Forall2 Lrel cs1 cs2 ->
  lookup k cs2 = Some c2 -> 0 <= w2 ->
  Forall2 Lrel cs1 (Meek.add_vote k (mul (scale w2 m) (kf c2) RoundDown) cs2).
Proof.
  intros Hm Hnd HF H2 Hw.
  unfold Meek.add_vote, update. rewrite <- (map_id cs1).
  eapply Forall2_map2_In; [exact HF|].
  intros d1 d2 Hd1 Hd2 (Hc & Hk0 & Hk & Hk1 & Hv).
  destruct (Nat.eqb_spec (cid d2) k) as [Hk'|_].
  - assert (d2 = c2) by exact (@lookup_unique cs2 k c2 d2 Hnd H2 Hd2 Hk').
    subst d2. unfold Lrel. cbn [cid kf vote set_vote].
    repeat (split; [assumption|]).
    apply vote_step_solo; auto. now apply inject_nonneg.
  - unfold Lrel. auto.
Qed.

Lemma add_vote_cids (k : nat) (x : V) (cs : list Candidate) :
  map cid (Meek.add_vote k x cs) = map cid cs.
Proof. unfold Meek.add_vote. now apply update_cids. Qed.

(** The second run on its own: its votes only grow. *)
Lemma meek_ranking_solo (m : Z) (rk : list nat) :
  (0 <= m)%Z ->
  forall (cs1 cs2 : list Candidate) (w2 r2 : Qc),
    Forall2 Lrel cs1 cs2 -> NoDup (map cid cs2) -> 0 <= w2 ->
    Forall2 Lrel cs1 (fst (fst (Meek.meek_ranking m rk cs2 w2 r2))) /\
    0 <= snd (fst (Meek.meek_ranking m rk cs2 w2 r2)).
Proof.
  intros Hm. induction rk as [|k rk IH]; intros cs1 cs2 w2 r2 HF Hnd Hw;
    cbn [Meek.meek_ranking]; [simpl; auto|].
  destruct (lookup k cs2) as [c2|] eqn:H2; [|now apply IH].
  assert (HL : exists d1, Lrel d1 c2).
  { destruct (@lookup_In _ k cs2 c2 H2) as [Hin _].
    destruct (@Forall2_In_r _ _ _ _ c2 HF Hin) as [d1 [_ Hd]]. eauto. }
  destruct HL as [d1 (_ & Hk0 & Hk & Hk1 & _)].
  assert (Hw' : 0 <= mul w2 (sub V1 (kf c2)) RoundDown).
  { change (0 <= w2 * (1 - kf c2)).
    destruct (@weight_step w2 w2 (kf c2) (kf c2)); auto.
    - apply Qcle_refl.
    - apply Qcle_refl.
    - eapply Qcle_trans; eassumption. }
  pose proof (add_vote_solo k Hm Hnd HF H2 Hw) as HF'.
  destruct (leb _ V0); [simpl; auto|].
  apply IH; auto. now rewrite add_vote_cids.
Qed.

Lemma meek_ranking_lockstep (m : Z) (rk : list nat) :
  (0 <= m)%Z ->
  forall (cs1 cs2 : list Candidate) (w1 w2 r1 r2 : Qc),
    NoDup (map cid cs1) -> Forall2 Lrel cs1 cs2 -> 0 <= w1 -> w1 <= w2 ->
    Forall2 Lrel (fst (fst (Meek.meek_ranking m rk cs1 w1 r1)))
                 (fst (fst (Meek.meek_ranking m rk cs2 w2 r2))) /\
    0 <= snd (fst (Meek.meek_ranking m rk cs1 w1 r1)) /\
    snd (fst (Meek.meek_ranking m rk cs1 w1 r1)) <=
    snd (fst (Meek.meek_ranking m rk cs2 w2 r2)).
Proof.
  intros Hm. induction rk as [|k rk IH]; intros cs1 cs2 w1 w2 r1 r2 Hnd HF Hw1 Hw;
    cbn [Meek.meek_ranking]; [simpl; auto|].
  assert (Hnd2 : NoDup (map cid cs2)) by now rewrite (Lrel_cids HF).
  pose proof (@lookup_Forall2 Lrel cs1 cs2 k) as HL.
  destruct (lookup k cs1) as [c1|] eqn:H1, (lookup k cs2) as [c2|] eqn:H2;
    try (exfalso; apply HL; [intros ? ? [? _]; assumption|exact HF]).
  2:{ now apply IH. }
  assert (Hc : Lrel c1 c2) by (apply HL; [intros ? ? [? _]; assumption|exact HF]).
  clear HL. destruct Hc as (_ & Hk0 & Hk & Hk1 & _).
  destruct (@weight_step w1 w2 (kf c1) (kf c2) Hw1 Hw Hk0 Hk Hk1) as [Hw1' Hw'].
  pose proof (add_vote_lockstep k Hm Hnd HF H1 H2 Hw1 Hw) as HF'.
  destruct (@leb RationalArith (w1 * (1 - kf c1)) 0) eqn:L1;
    destruct (@leb RationalArith (w2 * (1 - kf c2)) 0) eqn:L2;
    change (@leb RationalArith (@mul RationalArith w1 (sub V1 (kf c1)) RoundDown) V0)
      with (@leb RationalArith (w1 * (1 - kf c1)) 0);
    change (@leb RationalArith (@mul RationalArith w2 (sub V1 (kf c2)) RoundDown) V0)
      with (@leb RationalArith (w2 * (1 - kf c2)) 0);
    rewrite L1, L2.
  - simpl. auto.
  - cbn [fst snd]. apply rat_leb in L1.
    destruct (@meek_ranking_solo m rk Hm _ _ (w2 * (1 - kf c2))
                (r2 - w2 * Q2Qc (inject_Z m) * kf c2) HF')
      as [HS1 HS2].
    + now rewrite add_vote_cids.
    + eapply Qcle_trans; eassumption.
    + split; [exact HS1|]. split; [exact Hw1'|].
      eapply Qcle_trans; eassumption.
  - apply rat_leb in L2. apply rat_leb_false in L1. exfalso.
    revert L1. apply Qcle_not_lt. eapply Qcle_trans; eassumption.
  - apply IH; auto. now rewrite add_vote_cids.
Qed.

(** With exact arithmetic the residual of a ballot is its weight times its
    multiplier. *)
Lemma meek_ranking_residual (m : Z) (rk : list nat) :
  forall (cs : list Candidate) (w r : Qc),
    r = w * Q2Qc (inject_Z m) ->
    snd (Meek.meek_ranking m rk cs w r) =
    snd (fst (Meek.meek_ranking m rk cs w r)) * Q2Qc (inject_Z m).
Proof.
  induction rk as [|k rk IH]; intros cs w r Hr; cbn [Meek.meek_ranking];
    [exact Hr|].
  destruct (lookup k cs) as [c|]; [|now apply IH].
  assert (Hr' : sub r (mul (scale w m) (kf c) RoundDown) =
                mul w (sub V1 (kf c)) RoundDown * Q2Qc (inject_Z m)).
  { rewrite Hr. change (w * Q2Qc (inject_Z m) - w * Q2Qc (inject_Z m) * kf c =
                        w * (1 - kf c) * Q2Qc (inject_Z m)). ring. }
  destruct (leb _ V0); [exact Hr'|]. now apply IH.
Qed.

(** The part of a ballot line a count does not change. *)
Definition line (b : Ballot) : Z * list nat := (multiplier b, ranking b).

Definition fair (bs : list Ballot) : Prop :=
  forall b, In b bs -> (0 <= multiplier b)%Z.

Lemma distribute_ballot_meek (cs : list Candidate) (done : list Ballot)
      (res : V) (b : Ballot) :
  Meek.distribute_ballot rule (cs, done, res) b =
  let mr := Meek.meek_ranking (multiplier b) (ranking b) cs V1
                              (of_int (multiplier b)) in
  (fst (fst mr),
   done ++ [set_bresidual (snd mr) (set_weight (snd (fst mr)) b)],
   add res (snd mr)).
Proof.
  unfold Meek.distribute_ballot. rewrite meek_variant.
  destruct (Meek.meek_ranking _ _ _ _ _) as [[cs' w] r]. reflexivity.
Qed.

Lemma ballot_residual_le (m : Z) (rk : list nat) (cs1 cs2 : list Candidate) :
  (0 <= m)%Z -> NoDup (map cid cs1) -> Forall2 Lrel cs1 cs2 ->
  Forall2 Lrel
    (fst (fst (Meek.meek_ranking m rk cs1 V1 (of_int m))))
    (fst (fst (Meek.meek_ranking m rk cs2 V1 (of_int m)))) /\
  snd (Meek.meek_ranking m rk cs1 V1 (of_int m)) <=
  snd (Meek.meek_ranking m rk cs2 V1 (of_int m)).
Proof.
  intros Hm Hnd HF.
  assert (H01 : (0:Qc) <= 1) by (apply Qclt_le_weak; reflexivity).
  destruct (@meek_ranking_lockstep m rk Hm cs1 cs2 1 1 (Q2Qc (inject_Z m))
              (Q2Qc (inject_Z m)) Hnd HF H01 (Qcle_refl _)) as (H1 & H2 & H3).
  split; [exact H1|].
  assert (Hr : forall cs, snd (Meek.meek_ranking m rk cs V1 (of_int m)) =
                          snd (fst (Meek.meek_ranking m rk cs V1 (of_int m)))
                          * Q2Qc (inject_Z m)).
  { intros cs. apply meek_ranking_residual.
    change (Q2Qc (inject_Z m) = 1 * Q2Qc (inject_Z m)). ring. }
  rewrite (Hr cs1), (Hr cs2).
  apply Qcmult_le_compat_r; [exact H3|now apply inject_nonneg].
Qed.

Lemma fold_lockstep (bs1 : list Ballot) :
  fair bs1 ->
  forall (bs2 : list Ballot) (cs1 cs2 : list Candidate)
         (done1 done2 : list Ballot) (res1 res2 : Qc),
    map line bs1 = map line bs2 ->
    NoDup (map cid cs1) -> Forall2 Lrel cs1 cs2 -> res1 <= res2 ->
    Forall2 Lrel
      (fst (fst (fold_left (Meek.distribute_ballot rule) bs1 (cs1, done1, res1))))
      (fst (fst (fold_left (Meek.distribute_ballot rule) bs2 (cs2, done2, res2))))
    /\
    snd (fold_left (Meek.distribute_ballot rule) bs1 (cs1, done1, res1)) <=
    snd (fold_left (Meek.distribute_ballot rule) bs2 (cs2, done2, res2)).
Proof.
  induction bs1 as [|b1 bs1 IH]; intros Hfair bs2 cs1 cs2 done1 done2 res1 res2
                                        Hl Hnd HF Hres;
    destruct bs2 as [|b2 bs2]; try discriminate; [simpl; auto|].
  injection Hl as Hm Hrk Hl. cbn [fold_left].
  rewrite !distribute_ballot_meek. cbv zeta. rewrite <- Hm, <- Hrk.
  assert (Hm0 : (0 <= multiplier b1)%Z) by (apply Hfair; now left).
  destruct (@ballot_residual_le (multiplier b1) (ranking b1) cs1 cs2 Hm0 Hnd HF)
    as [H1 H2].
  apply IH; auto.
  - intros b Hb. apply Hfair. now right.
  - rewrite (vote_changed_cids (meek_ranking_frame _ _ _ _ _)). exact Hnd.
  - now apply Qcplus_le_compat.
Qed.

Lemma fold_solo (bs : list Ballot) :
  fair bs ->
  forall (cs1 cs2 : list Candidate) (done : list Ballot) (res : Qc),
    Forall2 Lrel cs1 cs2 -> NoDup (map cid cs2) ->
    Forall2 Lrel cs1
      (fst (fst (fold_left (Meek.distribute_ballot rule) bs (cs2, done, res)))).
Proof.
  induction bs as [|b bs IH]; intros Hfair cs1 cs2 done res HF Hnd; [exact HF|].
  cbn [fold_left]. rewrite distribute_ballot_meek. cbv zeta.
  assert (Hm0 : (0 <= multiplier b)%Z) by (apply Hfair; now left).
  assert (H01 : (0:Qc) <= 1) by (apply Qclt_le_weak; reflexivity).
  destruct (@meek_ranking_solo (multiplier b) (ranking b) Hm0 cs1 cs2 1
              (Q2Qc (inject_Z (multiplier b))) HF Hnd H01) as [H1 _].
  apply IH; auto.
  - intros b' Hb. apply Hfair. now right.
  - rewrite (vote_changed_cids (meek_ranking_frame _ _ _ _ _)). exact Hnd.
Qed.

Lemma fold_lines (bs : list Ballot) :
  forall (cs : list Candidate) (done : list Ballot) (res : V),
    map line (snd (fst (fold_left (Meek.distribute_ballot rule) bs (cs, done, res))))
    = map line done ++ map line bs.
Proof.
  induction bs as [|b bs IH]; intros cs done res; cbn [fold_left].
  - simpl. now rewrite app_nil_r.
  - rewrite distribute_ballot_meek. cbv zeta. rewrite IH, map_app, <- app_assoc.
    reflexivity.
Qed.

Lemma distribute_parts (E : Election) :
  C (R (Meek.distribute rule E)) =
  fst (fst (fold_left (Meek.distribute_ballot rule) (ballots E)
                      (Meek.reset_votes (C (R E)), [], V0))) /\
  residual (R (Meek.distribute rule E)) =
  snd (fold_left (Meek.distribute_ballot rule) (ballots E)
                 (Meek.reset_votes (C (R E)), [], V0)) /\
  ballots (Meek.distribute rule E) =
  snd (fst (fold_left (Meek.distribute_ballot rule) (ballots E)
                      (Meek.reset_votes (C (R E)), [], V0))).
Proof.
  unfold Meek.distribute. destruct (fold_left _ _ _) as [[cs bs] res].
  simpl. auto.
Qed.

Lemma distribute_lines (E : Election) :
  map line (ballots (Meek.distribute rule E)) = map line (ballots E).
Proof.
  destruct (distribute_parts E) as (_ & _ & ->). now rewrite fold_lines.
Qed.

(** What the two runs start from: the second has the smaller keep factors,
    a candidate that is not live has keep factor [V0], and a candidate the
    second run alone leaves out has vote [V0] there. *)
Definition Prel (d1 d2 : Candidate) : Prop :=
  cid d2 = cid d1 /\ 0 <= kf d2 /\ kf d2 <= kf d1 /\ kf d1 <= 1 /\
  (live d1 = false -> kf d1 = 0) /\
  (live d1 = true -> live d2 = false -> vote d2 = 0).

Lemma reset_Lrel (cs1 cs2 : list Candidate) :
  Forall2 Prel cs1 cs2 ->
  Forall2 Lrel (Meek.reset_votes cs1) (Meek.reset_votes cs2).
Proof.
  intros H. unfold Meek.reset_votes.
  eapply Forall2_map2_In; [exact H|].
  intros d1 d2 _ _ (Hc & Hk0 & Hk & Hk1 & Hz & Hv).
  fold (live d1). fold (live d2). unfold Lrel.
  destruct (live d1) eqn:L1, (live d2) eqn:L2; cbn [cid kf vote set_vote];
    repeat (split; [assumption|]).
  - rewrite Qcmult_0_r, Qcmult_0_l. apply Qcle_refl.
  - rewrite (Hv eq_refl eq_refl), Qcmult_0_r, Qcmult_0_l. apply Qcle_refl.
  - rewrite (Hz eq_refl) in *.
    assert (kf d2 = 0) by (apply Qcle_antisym; assumption).
    rewrite H0, Qcmult_0_r, Qcmult_0_l. apply Qcle_refl.
  - rewrite (Hz eq_refl) in *.
    assert (kf d2 = 0) by (apply Qcle_antisym; assumption).
    rewrite H0, Qcmult_0_r, Qcmult_0_l. apply Qcle_refl.
Qed.

Lemma reset_votes_cids (cs : list Candidate) :
  map cid (Meek.reset_votes cs) = map cid cs.
Proof. apply vote_changed_cids, reset_votes_frame. Qed.

(** The two runs of the whole distribution. *)
Lemma distribute_lockstep (E1 E2 : Election) :
  map line (ballots E1) = map line (ballots E2) -> fair (ballots E1) ->
  NoDup (map cid (C (R E1))) -> Forall2 Prel (C (R E1)) (C (R E2)) ->
  Forall2 Lrel (C (R (Meek.distribute rule E1))) (C (R (Meek.distribute rule E2)))
  /\ residual (R (Meek.distribute rule E1)) <= residual (R (Meek.distribute rule E2)).
Proof.
  intros Hl Hfair Hnd HP.
  destruct (distribute_parts E1) as (-> & -> & _).
  destruct (distribute_parts E2) as (-> & -> & _).
  apply fold_lockstep; auto.
  - now rewrite reset_votes_cids.
  - now apply reset_Lrel.
  - apply Qcle_refl.
Qed.

(** *** The invariant *)

Definition kf_range (cs : list Candidate) : Prop :=
  forall c, In c cs -> 0 <= kf c /\ kf c <= 1.

Definition elected_kf_pos (cs : list Candidate) : Prop :=
  forall c, In c cs -> cstatus c = Elected -> 0 < kf c.

(** From an earlier state [d] of a candidate to a later one [d']: once
    elected it stays elected, and its keep factor does not grow. *)
Definition descends (d d' : Candidate) : Prop :=
  cid d' = cid d /\
  (cstatus d = Elected -> cstatus d' = Elected /\ kf d' <= kf d).

(** The rounds of a count, latest first: each descends from the one
    before it. *)
Fixpoint history_ok (cur : Round) (hs : list Round) : Prop :=
  match hs with
  | [] => True
  | r :: hs' => Forall2 descends (C r) (C cur) /\ history_ok r hs'
  end.

Definition kf_static (E : Election) : Prop :=
  NoDup (map cid (C (R E))) /\ nonlive_kf_zero (C (R E)) /\
  hopeful_kf_one (C (R E)) /\ elected_kf_pos (C (R E)) /\
  (forall r, In r (R E :: rounds E) -> kf_range (C r)) /\
  history_ok (R E) (rounds E).

(** What a step of the count does to a candidate: nothing to its keep
    factor, with the same status or from hopeful to elected; or it lowers
    the keep factor of an elected candidate; or it defeats a hopeful. *)
Definition Wrel (d d' : Candidate) : Prop :=
  cid d' = cid d /\
  ((kf d' = kf d /\
    (cstatus d' = cstatus d \/ (cstatus d = Hopeful /\ cstatus d' = Elected)))
   \/ (cstatus d = Elected /\ cstatus d' = Elected /\
       0 < kf d' /\ kf d' <= kf d)
   \/ (cstatus d = Hopeful /\ cstatus d' = Defeated /\ kf d' = 0)).

Lemma Wrel_cids (cs cs' : list Candidate) :
  Forall2 Wrel cs cs' -> map cid cs' = map cid cs.
Proof.
  induction 1 as [|d d' cs cs' Hd _ IH]; simpl; auto.
  destruct Hd as [-> _]. now rewrite IH.
Qed.

Lemma descends_refl (d : Candidate) : descends d d.
Proof. split; [reflexivity|]. intros H. split; [exact H|apply Qcle_refl]. Qed.

Lemma descends_trans (d1 d2 d3 : Candidate) :
  descends d1 d2 -> descends d2 d3 -> descends d1 d3.
Proof.
  intros [Hc H12] [Hc' H23]. split; [congruence|].
  intros H1. destruct (H12 H1) as [H2 Hk]. destruct (H23 H2) as [H3 Hk'].
  split; [exact H3|]. eapply Qcle_trans; eassumption.
Qed.

Lemma live_status (c : Candidate) :
  live c = true <-> cstatus c = Hopeful \/ cstatus c = Elected.
Proof.
  unfold live. rewrite orb_true_iff, !has_status_iff. reflexivity.
Qed.

Lemma live_false (c : Candidate) :
  live c = false <-> cstatus c <> Hopeful /\ cstatus c <> Elected.
Proof.
  rewrite <- not_true_iff_false, live_status. tauto.
Qed.

Lemma Wrel_descends (d d' : Candidate) : Wrel d d' -> descends d d'.
Proof.
  intros [Hc H]. split; [exact Hc|]. intros He.
  destruct H as [[Hk [Hs|[Hs _]]]|[(_ & Hs & _ & Hk)|(Hs & _)]];
    try congruence.
  - split; [congruence|]. rewrite Hk. apply Qcle_refl.
  - auto.
Qed.

Lemma history_ok_step (cur cur' : Round) (hs : list Round) :
  Forall2 descends (C cur) (C cur') -> history_ok cur hs -> history_ok cur' hs.
Proof.
  intros Hd. destruct hs as [|r hs]; simpl; [auto|].
  intros [H1 H2]. split; [|exact H2].
  eapply Forall2_trans_on; [apply descends_trans|exact H1|exact Hd].
Qed.

Lemma static_step (E E' : Election) :
  kf_static E -> Forall2 Wrel (C (R E)) (C (R E')) -> rounds E' = rounds E ->
  kf_static E'.
Proof.
  intros (Hnd & Hz & Hh & Hp & Hr & Hhist) HW Hrounds.
  assert (Hcur : kf_range (C (R E))) by (apply Hr; now left).
  assert (Hback : forall d', In d' (C (R E')) ->
                             exists d, In d (C (R E)) /\ Wrel d d').
  { intros d' Hd'. exact (@Forall2_In_r _ _ _ _ d' HW Hd'). }
  split; [|split; [|split; [|split; [|split]]]].
  - now rewrite (Wrel_cids HW).
  - intros d' Hd' Hl. destruct (Hback d' Hd') as [d [Hd [_ H]]].
    apply live_false in Hl. destruct Hl as [Hl1 Hl2].
    destruct H as [[Hk [Hs|[_ Hs]]]|[(_ & Hs & _)|(_ & _ & Hk)]];
      try congruence; [|exact Hk].
    rewrite Hk. apply Hz; [exact Hd|]. apply live_false. rewrite <- Hs. auto.
  - intros d' Hd' Hs'. destruct (Hback d' Hd') as [d [Hd [_ H]]].
    destruct H as [[Hk [Hs|[_ Hs]]]|[(_ & Hs & _)|(_ & Hs & _)]];
      try congruence.
    rewrite Hk. apply Hh; [exact Hd|congruence].
  - intros d' Hd' Hs'. destruct (Hback d' Hd') as [d [Hd [_ H]]].
    destruct H as [[Hk [Hs|[Hs _]]]|[(_ & _ & Hk & _)|(_ & Hs & _)]];
      try congruence.
    + rewrite Hk. apply Hp; [exact Hd|congruence].
    + rewrite Hk, (Hh d Hd Hs). reflexivity.
  - intros r [<-|Hin].
    + intros d' Hd'. destruct (Hback d' Hd') as [d [Hd [_ H]]].
      destruct (Hcur d Hd) as [Hk0 Hk1].
      destruct H as [[Hk _]|[(_ & _ & Hk & Hk')|(_ & _ & Hk)]].
      * rewrite Hk. auto.
      * split; [now apply Qclt_le_weak|]. eapply Qcle_trans; eassumption.
      * rewrite Hk. split; [apply Qcle_refl|]. apply Qclt_le_weak. reflexivity.
    + apply Hr. right. now rewrite <- Hrounds.
  - rewrite Hrounds. apply (@history_ok_step (R E)); [|exact Hhist].
    eapply Forall2_impl2; [apply Wrel_descends|exact HW].
Qed.

Lemma static_newRound (E : Election) : kf_static E -> kf_static (newRound E).
Proof.
  intros (Hnd & Hz & Hh & Hp & Hr & Hhist).
  split; [exact Hnd|]. split; [exact Hz|]. split; [exact Hh|].
  split; [exact Hp|]. split.
  - intros r [<-|Hin]; [|now apply Hr]. apply (Hr (R E)). now left.
  - cbn [newRound R rounds history_ok C]. split; [|exact Hhist].
    apply Forall2_refl_on, descends_refl.
Qed.

(** *** Votes and quota after the distribution *)

Lemma Qc_add_nonneg (a b : Qc) : 0 <= a -> 0 <= b -> 0 <= a + b.
Proof. intros. qc_to_q. lra. Qed.

Lemma Qc_le_add_r (a b : Qc) : 0 <= b -> a <= a + b.
Proof. intros. qc_to_q. lra. Qed.

Lemma Qc_le_add_l (a b s : Qc) : 0 <= a -> b <= s -> b <= a + s.
Proof. intros. qc_to_q. lra. Qed.

Lemma Qc_div_mul (a c : Qc) : 0 < c -> (a / c) * c = a.
Proof. intros Hc. field. now apply Qc_pos_neq. Qed.

Lemma div_nonneg (a c : Qc) : 0 <= a -> 0 < c -> 0 <= a / c.
Proof.
  intros Ha Hc. pose proof (Qc_div_mul a Hc) as E.
  set (x := a / c) in *. clearbody x. qc_to_q.
  destruct (Qlt_le_dec (this x) 0) as [Hx|Hx]; [exfalso|exact Hx].
  assert (this x * this c < 0)%Q by nra. nra.
Qed.

Lemma div_pos (a c : Qc) : 0 < a -> 0 < c -> 0 < a / c.
Proof.
  intros Ha Hc. pose proof (Qc_div_mul a Hc) as E.
  set (x := a / c) in *. clearbody x. qc_to_q.
  destruct (Qlt_le_dec 0 (this x)) as [Hx|Hx]; [exact Hx|exfalso].
  assert (this x * this c <= 0)%Q by nra. nra.
Qed.

Lemma div_le (a b c : Qc) : a <= b -> 0 < c -> a / c <= b / c.
Proof.
  intros Hab Hc. pose proof (Qc_div_mul a Hc) as Ea.
  pose proof (Qc_div_mul b Hc) as Eb.
  set (x := a / c) in *. set (y := b / c) in *. clearbody x y. qc_to_q.
  destruct (Qlt_le_dec (this y) (this x)) as [Hx|Hx]; [exfalso|exact Hx].
  assert (0 < (this x - this y) * this c)%Q by nra. nra.
Qed.

Lemma live_sum_bounds (cs : list Candidate) :
  (forall a, In a cs -> live a = true -> 0 <= vote a) ->
  0 <= live_sum cs /\
  forall a, In a cs -> live a = true -> vote a <= live_sum cs.
Proof.
  induction cs as [|c cs IH]; intros H.
  - split; [apply Qcle_refl|contradiction].
  - destruct IH as [IH1 IH2]; [intros a Ha; apply H; now right|].
    rewrite live_sum_cons. destruct (live c) eqn:Hl.
    + assert (Hc : 0 <= vote c) by (apply H; [now left|exact Hl]).
      change (add (vote c) (live_sum cs)) with (vote c + live_sum cs).
      split.
      * now apply Qc_add_nonneg.
      * intros a [<-|Ha] Hla.
        -- now apply Qc_le_add_r.
        -- apply Qc_le_add_l; auto.
    + split; [exact IH1|]. intros a [<-|Ha] Hla; [congruence|auto].
Qed.

Definition quota_of (E : Election) : Qc :=
  votes (R (Meek.distribute rule E)) / Q2Qc (inject_Z (nSeats E + 1)).

(** After the distribution every elected candidate has a vote that is
    positive and at least the quota. *)
Definition good (E : Election) : Prop :=
  forall c, In c (C (R (Meek.distribute rule E))) -> cstatus c = Elected ->
            0 < vote c /\ quota_of E <= vote c.

Definition kf_inv (E : Election) : Prop :=
  kf_static E /\ nBallots E = ballot_count (ballots E) /\ (0 <= nSeats E)%Z /\
  fair (ballots E) /\ good E.

Lemma Forall2_and (T U : Type) (P Q : T -> U -> Prop) (l : list T) (l' : list U) :
  Forall2 P l l' -> Forall2 Q l l' -> Forall2 (fun x y => P x y /\ Q x y) l l'.
Proof.
  induction 1 as [|x y l l' Hxy _ IH]; intros H; inversion H; subst;
    constructor; auto.
Qed.

Lemma Forall2_In_both (T U : Type) (P : T -> U -> Prop) (l : list T) (l' : list U) :
  Forall2 P l l' -> Forall2 (fun x y => In x l /\ In y l' /\ P x y) l l'.
Proof.
  induction 1 as [|x y l l' Hxy _ IH]; constructor.
  - simpl. auto.
  - eapply Forall2_impl; [|exact IH]. simpl. intros a b (Ha & Hb & Hab). auto.
Qed.

Lemma Forall2_compose (T : Type) (P Q S : T -> T -> Prop) (l1 l2 l3 : list T) :
  (forall x y z, P x y -> Q y z -> S x z) ->
  Forall2 P l1 l2 -> Forall2 Q l2 l3 -> Forall2 S l1 l3.
Proof.
  intros Ht H12. revert l3. induction H12; intros l3 H23; inversion H23; subst;
    constructor; eauto.
Qed.

Lemma reset_votes_zero (cs : list Candidate) (d : Candidate) :
  In d (Meek.reset_votes cs) -> live d = true -> vote d = 0.
Proof.
  unfold Meek.reset_votes. intros Hd Hl. apply in_map_iff in Hd.
  destruct Hd as [c [<- _]]. fold (live c) in *.
  destruct (live c) eqn:Hc; [reflexivity|congruence].
Qed.

Lemma Prel_refl (cs : list Candidate) :
  kf_range cs -> nonlive_kf_zero cs -> Forall2 Prel cs cs.
Proof.
  intros Hr Hz.
  assert (H : Forall2 (fun x y => In x cs /\ In y cs /\ x = y) cs cs).
  { apply Forall2_In_both. apply Forall2_refl_on. reflexivity. }
  eapply Forall2_impl; [|exact H]. simpl. intros d ? (Hd & _ & <-).
  destruct (Hr d Hd) as [H0 H1]. unfold Prel.
  repeat (split; [first [reflexivity|assumption|apply Qcle_refl]|]).
  split; [intros Hl; now apply Hz|congruence].
Qed.

Lemma vote_changed_fields (d a : Candidate) :
  vote_changed d a ->
  cid a = cid d /\ kf a = kf d /\ cstatus a = cstatus d /\ live a = live d.
Proof. intros H. rewrite H. repeat split. Qed.

(** The facts the static invariant gives of the candidates after the
    distribution. *)
Lemma distributed_static (E : Election) :
  kf_static E ->
  NoDup (map cid (C (R (Meek.distribute rule E)))) /\
  nonlive_kf_zero (C (R (Meek.distribute rule E))) /\
  hopeful_kf_one (C (R (Meek.distribute rule E))) /\
  elected_kf_pos (C (R (Meek.distribute rule E))) /\
  kf_range (C (R (Meek.distribute rule E))).
Proof.
  intros (Hnd & Hz & Hh & Hp & Hr & _).
  pose proof (distribute_frame rule E) as HF.
  assert (Hback : forall a, In a (C (R (Meek.distribute rule E))) ->
                            exists d, In d (C (R E)) /\ vote_changed d a).
  { intros a Ha. exact (@Forall2_In_r _ _ _ _ a HF Ha). }
  split; [now rewrite (vote_changed_cids HF)|].
  split; [now apply (vote_changed_nonlive HF)|].
  split; [|split].
  - intros a Ha Hs. destruct (Hback a Ha) as [d [Hd Hv]].
    destruct (vote_changed_fields Hv) as (_ & -> & Hst & _).
    apply Hh; [exact Hd|congruence].
  - intros a Ha Hs. destruct (Hback a Ha) as [d [Hd Hv]].
    destruct (vote_changed_fields Hv) as (_ & -> & Hst & _).
    apply Hp; [exact Hd|congruence].
  - intros a Ha. destruct (Hback a Ha) as [d [Hd Hv]].
    destruct (vote_changed_fields Hv) as (_ & -> & _).
    apply (Hr (R E)); [now left|exact Hd].
Qed.

Lemma distributed_votes_nonneg (E : Election) :
  kf_static E -> fair (ballots E) ->
  forall a, In a (C (R (Meek.distribute rule E))) -> live a = true ->
            0 <= vote a.
Proof.
  intros (Hnd & Hz & Hh & Hp & Hr & _) Hfair a Ha Hl.
  assert (Hcur : kf_range (C (R E))) by (apply Hr; now left).
  pose proof (reset_Lrel (Prel_refl Hcur Hz)) as H0.
  pose proof (@fold_solo (ballots E) Hfair _ _ [] V0 H0) as H1.
  rewrite reset_votes_cids in H1. specialize (H1 Hnd).
  pose proof (fold_distribute_frame rule (ballots E)
                (Meek.reset_votes (C (R E)), [], V0)) as H2.
  cbn [fst] in H2.
  destruct (distribute_parts E) as (HC & _).
  assert (H1' : Forall2 Lrel (Meek.reset_votes (C (R E)))
                        (C (R (Meek.distribute rule E))))
    by (rewrite HC; exact H1).
  assert (H2' : Forall2 vote_changed (Meek.reset_votes (C (R E)))
                        (C (R (Meek.distribute rule E))))
    by (rewrite HC; exact H2).
  pose proof (Forall2_In_both (Forall2_and H1' H2')) as H3.
  destruct (@Forall2_In_r _ _ _ _ a H3 Ha) as [d0 [_ (Hd0 & _ & HL & Hv)]].
  destruct HL as (_ & _ & _ & _ & HL).
  destruct (vote_changed_fields Hv) as (_ & Hkk & Hss & Hll).
  assert (Hl0 : live d0 = true) by congruence.
  rewrite (reset_votes_zero _ _ Hd0 Hl0) in HL.
  assert (Hk : 0 < kf a).
  { pose proof (reset_votes_frame (C (R E))) as H4.
    destruct (@Forall2_In_r _ _ _ _ d0 H4 Hd0) as [d [Hd Hvd]].
    destruct (vote_changed_fields Hvd) as (_ & Hkd & Hsd & _).
    apply live_status in Hl. rewrite Hkk, Hkd. destruct Hl as [Hs|Hs].
    - rewrite (Hh d Hd); [reflexivity|congruence].
    - apply Hp; [exact Hd|congruence]. }
  rewrite <- Hkk in HL. revert HL Hk. generalize (kf a) (vote a).
  intros k v HL Hk. qc_to_q. nra.
Qed.

Lemma distribute_votes (E : Election) :
  votes (R (Meek.distribute rule E)) = live_sum (C (R (Meek.distribute rule E))).
Proof. apply distribute_fields. Qed.

Lemma seats_pos (E : Election) :
  (0 <= nSeats E)%Z -> 0 < Q2Qc (inject_Z (nSeats E + 1)).
Proof. intros H. apply inject_pos. lia. Qed.

(** The quota is not negative, and positive when some candidate has a
    positive vote. *)
Lemma quota_of_bounds (E : Election) :
  kf_static E -> fair (ballots E) -> (0 <= nSeats E)%Z ->
  0 <= quota_of E /\
  forall a, In a (C (R (Meek.distribute rule E))) -> live a = true ->
            0 < vote a -> 0 < quota_of E.
Proof.
  intros Hs Hfair HS.
  destruct (@live_sum_bounds _ (distributed_votes_nonneg Hs Hfair)) as [H0 H1].
  unfold quota_of. rewrite distribute_votes. split.
  - apply div_nonneg; [exact H0|now apply seats_pos].
  - intros a Ha Hl Hv. apply div_pos; [|now apply seats_pos].
    eapply Qclt_le_trans; [exact Hv|]. now apply H1.
Qed.

(** *** One step of the count *)

(** From a candidate [a] after the distribution to the candidate [d'] of
    the next state: it is left alone; or it is a hopeful over the quota
    and is elected; or it is elected and D.8 gives it a new keep factor;
    or it is a hopeful and is defeated. *)
Definition Trel (q : Qc) (a d' : Candidate) : Prop :=
  vote_changed a d'
  \/ (cstatus a = Hopeful /\ q < vote a /\
      vote_changed (set_status Elected a) d')
  \/ (cstatus a = Elected /\ vote_changed (set_kf (kf a * q / vote a) a) d')
  \/ (cstatus a = Hopeful /\
      d' = set_vote 0 (set_kf 0 (set_status Defeated a))).

Definition facts (q : Qc) (a : Candidate) : Prop :=
  0 <= kf a /\ kf a <= 1 /\ (live a = false -> kf a = 0) /\
  (cstatus a = Hopeful -> kf a = 1) /\
  (cstatus a = Elected -> 0 < kf a /\ 0 < vote a /\ q <= vote a /\ 0 < q).

Lemma distributed_facts (E : Election) :
  kf_inv E ->
  forall a, In a (C (R (Meek.distribute rule E))) -> facts (quota_of E) a.
Proof.
  intros (Hst & _ & Hseats & Hfair & Hgood) a Ha.
  destruct (distributed_static Hst) as (_ & Hz & Hh & Hp & Hr).
  destruct (Hr a Ha) as [H0 H1].
  split; [exact H0|]. split; [exact H1|]. split; [now apply Hz|].
  split; [now apply Hh|]. intros He.
  destruct (Hgood a Ha He) as [Hv Hq].
  split; [now apply Hp|]. split; [exact Hv|]. split; [exact Hq|].
  destruct (quota_of_bounds Hst Hfair Hseats) as [_ Hpos].
  apply (Hpos a Ha); [|exact Hv]. apply live_status. now right.
Qed.

Lemma Trel_Wrel (q : Qc) (a d' : Candidate) :
  facts q a -> Trel q a d' ->
  Wrel a d' /\ 0 <= kf d' /\ kf d' <= kf a /\
  (live a = true -> live d' = false -> vote d' = 0).
Proof.
  intros (H0 & H1 & Hz & Hh & He) [Hv|[(Hs & Hq & Hv)|[(Hs & Hv)|(Hs & ->)]]].
  - destruct (vote_changed_fields Hv) as (Hc & Hk & Hst & Hl).
    split; [|split; [|split]].
    + split; [exact Hc|]. left. auto.
    + now rewrite Hk.
    + rewrite Hk. apply Qcle_refl.
    + congruence.
  - destruct (vote_changed_fields Hv) as (Hc & Hk & Hst & Hl).
    cbn [cid kf cstatus set_status] in Hc, Hk, Hst.
    split; [|split; [|split]].
    + split; [exact Hc|]. left. auto.
    + now rewrite Hk.
    + rewrite Hk. apply Qcle_refl.
    + intros _ Hl'. apply live_false in Hl'. destruct Hl' as [_ Hl'].
      congruence.
  - destruct (vote_changed_fields Hv) as (Hc & Hk & Hst & Hl).
    cbn [cid kf cstatus set_kf] in Hc, Hk, Hst.
    destruct (He Hs) as (Hk0 & Hv0 & Hqv & Hq0).
    destruct (@new_kf_bounds (kf a) q (vote a) Hv0 Hq0 Hqv Hk0) as [Hn0 Hn1].
    rewrite <- Hk in Hn0, Hn1.
    split; [|split; [|split]].
    + split; [exact Hc|]. right. left. repeat split; auto. congruence.
    + now apply Qclt_le_weak.
    + exact Hn1.
    + intros _ Hl'. apply live_false in Hl'. destruct Hl' as [_ Hl'].
      congruence.
  - cbn [cid kf cstatus vote set_vote set_kf set_status].
    split; [|split; [|split]].
    + split; [reflexivity|]. right. right. auto.
    + apply Qcle_refl.
    + exact H0.
    + reflexivity.
Qed.

Lemma Forall2_zip3 (T : Type) (P Q S : T -> T -> Prop) (l1 l3 : list T) :
  Forall2 P l1 l3 ->
  forall l2, Forall2 Q l1 l2 -> Forall2 S l2 l3 ->
  forall z, In z l3 ->
  exists x y, In x l1 /\ In y l2 /\ P x z /\ Q x y /\ S y z.
Proof.
  induction 1 as [|x z' l1 l3 Hxz _ IH]; intros l2 HQ HS z Hz; [contradiction|].
  inversion HQ as [|? y ? l2' Hxy HQ']; subst.
  inversion HS as [|? ? ? ? Hyz HS']; subst.
  destruct Hz as [<-|Hz].
  - exists x, y. simpl. auto 10.
  - destruct (IH l2' HQ' HS' z Hz) as (x' & y' & Hx' & Hy' & H').
    exists x', y'. simpl. auto 10.
Qed.

Lemma fair_lines (bs bs' : list Ballot) :
  map line bs' = map line bs -> fair bs -> fair bs'.
Proof.
  intros Hl Hf b' Hb'. apply (in_map line) in Hb'. rewrite Hl in Hb'.
  apply in_map_iff in Hb'. destruct Hb' as [b [Hb Hin]].
  injection Hb as Hm _. rewrite <- Hm. now apply Hf.
Qed.

Lemma ballot_count_lines (bs bs' : list Ballot) :
  map line bs' = map line bs -> ballot_count bs' = ballot_count bs.
Proof.
  intros Hl. unfold ballot_count. f_equal.
  change multiplier with (fun b => fst (line b)).
  rewrite <- !(map_map line fst). now rewrite Hl.
Qed.

Lemma conserved_le (v r v' r' n : Qc) :
  v + r = n -> v' + r' = n -> r <= r' -> v' <= v.
Proof. intros. qc_to_q. lra. Qed.

Lemma inv_step_quota (E E' : Election) :
  kf_inv E ->
  Forall2 (Trel (quota_of E)) (C (R (Meek.distribute rule E))) (C (R E')) ->
  nSeats E' = nSeats E -> nBallots E' = nBallots E -> rounds E' = rounds E ->
  map line (ballots E') = map line (ballots E) ->
  kf_inv E' /\ quota_of E' <= quota_of E.
Proof.
  intros HI HT HS HN HR HL.
  pose proof HI as (Hst & Hcount & Hseats & Hfair & Hgood).
  pose proof Hst as (Hnd & Hz & _ & _ & Hr & _).
  assert (Hcur : kf_range (C (R E))) by (apply Hr; now left).
  pose proof (distribute_frame rule E) as HF.
  pose proof (distributed_facts HI) as Hfacts.
  assert (HP : Forall2 (fun a d' =>
                          Wrel a d' /\ 0 <= kf d' /\ kf d' <= kf a /\
                          (live a = true -> live d' = false -> vote d' = 0))
                       (C (R (Meek.distribute rule E))) (C (R E'))).
  { eapply Forall2_impl; [|exact (Forall2_In_both HT)].
    simpl. intros a d' (Ha & _ & Hrel). apply Trel_Wrel with (q := quota_of E); auto. }
  assert (HWP : Forall2 (fun d d' => Wrel d d' /\ Prel d d') (C (R E)) (C (R E'))).
  { eapply Forall2_compose; [|exact (Forall2_In_both HF)|exact HP].
    simpl. intros d a d' (Hd & _ & Hv) ([Hc HW] & Hk0 & Hk & Hl).
    destruct (vote_changed_fields Hv) as (Hca & Hka & Hsa & Hla).
    destruct (Hcur d Hd) as [_ Hd1].
    split.
    - split; [congruence|]. rewrite <- Hka, <- Hsa. exact HW.
    - unfold Prel. rewrite <- Hka, <- Hla.
      split; [congruence|]. split; [exact Hk0|]. split; [exact Hk|].
      split; [now rewrite Hka|]. split; [|exact Hl].
      intros Hl'. rewrite Hka. apply Hz; [exact Hd|congruence]. }
  assert (HW : Forall2 Wrel (C (R E)) (C (R E')))
    by (eapply Forall2_impl; [|exact HWP]; simpl; tauto).
  assert (HPr : Forall2 Prel (C (R E)) (C (R E')))
    by (eapply Forall2_impl; [|exact HWP]; simpl; tauto).
  pose proof (@static_step E E' Hst HW HR) as Hst'.
  destruct (@distribute_lockstep E E' (eq_sym HL) Hfair Hnd HPr) as [HLk Hres].
  assert (Hq : quota_of E' <= quota_of E).
  { pose proof (@distribute_conserves _ RationalLaws rule E meek_variant Hnd Hz)
      as HcE.
    pose proof Hst' as (Hnd' & Hz' & _).
    pose proof (@distribute_conserves _ RationalLaws rule E' meek_variant Hnd' Hz')
      as HcE'.
    cbv zeta in HcE, HcE'. destruct HcE as (HcE & _). destruct HcE' as (HcE' & _).
    rewrite (@ballot_count_lines _ _ HL) in HcE'.
    pose proof (@conserved_le _ _ _ _ _ HcE HcE' Hres) as Hvotes.
    unfold quota_of. rewrite HS. apply div_le; [exact Hvotes|].
    now apply seats_pos. }
  split; [|exact Hq].
  split; [exact Hst'|]. split; [|split; [|split]].
  - rewrite HN, Hcount. symmetry. exact (@ballot_count_lines _ _ HL).
  - now rewrite HS.
  - exact (@fair_lines _ _ HL Hfair).
  - idtac.
    destruct (@quota_of_bounds E Hst Hfair Hseats) as [Hq0 _].
    pose proof (distribute_frame rule E') as HF'.
    intros c Hc He.
    destruct (@Forall2_zip3 _ _ _ _ _ _ HLk _ (Forall2_In_both HT) HF' c Hc)
      as (a & d' & Ha & Hd' & HLrel & (_ & _ & HTrel) & Hvc).
    destruct (vote_changed_fields Hvc) as (_ & Hkc & Hsc & _).
    destruct HLrel as (_ & _ & _ & _ & HLrel).
    destruct (Hfacts a Ha) as (_ & _ & _ & Hh1 & He1).
    assert (Hgoal : 0 < vote c /\ quota_of E <= vote c).
    { destruct HTrel as [Hv|[(Hs & Hqa & Hv)|[(Hs & Hv)|(Hs & ->)]]].
      - destruct (vote_changed_fields Hv) as (_ & Hk & Hst0 & _).
        destruct He1 as (Hk0 & Hv0 & Hqv & _); [congruence|].
        rewrite Hkc, Hk in HLrel.
        pose proof (@same_kf_vote _ _ _ Hk0 HLrel) as Hle.
        split; [eapply Qclt_le_trans; eassumption|].
        eapply Qcle_trans; eassumption.
      - destruct (vote_changed_fields Hv) as (_ & Hk & _).
        cbn [kf set_status] in Hk. rewrite Hkc, Hk in HLrel.
        assert (Hk0 : 0 < kf a) by (rewrite (Hh1 Hs); reflexivity).
        pose proof (@same_kf_vote _ _ _ Hk0 HLrel) as Hle.
        assert (Hqc : quota_of E < vote c)
          by (eapply Qclt_le_trans; eassumption).
        split; [eapply Qcle_lt_trans; eassumption|].
        now apply Qclt_le_weak.
      - destruct (vote_changed_fields Hv) as (_ & Hk & _).
        cbn [kf set_kf] in Hk. rewrite Hkc, Hk in HLrel.
        destruct (He1 Hs) as (Hk0 & Hv0 & Hqv & Hq1).
        pose proof (@new_kf_vote _ _ _ _ Hv0 Hk0 HLrel) as Hle.
        split; [eapply Qclt_le_trans; eassumption|exact Hle].
      - cbn [cstatus set_vote set_kf set_status] in Hsc. congruence. }
    destruct Hgoal as [G1 G2]. split; [exact G1|].
    eapply Qcle_trans; eassumption.
Qed.

Lemma inv_step (E E' : Election) :
  kf_inv E ->
  Forall2 (Trel (quota_of E)) (C (R (Meek.distribute rule E))) (C (R E')) ->
  nSeats E' = nSeats E -> nBallots E' = nBallots E -> rounds E' = rounds E ->
  map line (ballots E') = map line (ballots E) ->
  kf_inv E'.
Proof. intros. now apply (@inv_step_quota E E'). Qed.

(** *** The steps of a Meek count *)

Lemma is_zero_pos (x : Qc) : 0 < x -> @is_zero RationalArith x = false.
Proof.
  intros H. apply not_true_iff_false. intros Hz.
  apply Qeq_bool_iff in Hz. apply (Qc_pos_neq H). now apply Qc_is_canon.
Qed.

Lemma calcQuota_rat (E : Election) :
  (0 <= nSeats E)%Z ->
  Meek.calcQuota (Meek.distribute rule E) = Ok (quota_of E).
Proof.
  intros HS. unfold Meek.calcQuota, over. cbn [exact RationalArith].
  destruct (distribute_fields rule E) as (-> & _).
  change (of_int (nSeats E + 1)) with (Q2Qc (inject_Z (nSeats E + 1))).
  rewrite is_zero_pos by now apply seats_pos. reflexivity.
Qed.

Lemma vote_changed_sym (d d' : Candidate) : vote_changed d d' -> vote_changed d' d.
Proof. unfold vote_changed. intros ->. destruct d; reflexivity. Qed.

Lemma Forall2_flip_map (T : Type) (P Q : T -> T -> Prop) (g : T -> T)
      (l l' : list T) :
  Forall2 P l l' -> (forall x y, In x l -> In y l' -> P x y -> Q y (g x)) ->
  Forall2 Q l' (map g l).
Proof.
  induction 1 as [|x y l l' Hxy _ IH]; intros H; simpl; constructor.
  - apply H; simpl; auto.
  - apply IH. intros x' y' Hx' Hy'. apply H; simpl; auto.
Qed.

Lemma Forall2_map_self (T : Type) (Q : T -> T -> Prop) (g : T -> T) (l : list T) :
  (forall x, In x l -> Q x (g x)) -> Forall2 Q l (map g l).
Proof.
  induction l as [|x l IH]; intros H; simpl; constructor.
  - apply H. now left.
  - apply IH. intros y Hy. apply H. now right.
Qed.

(** The candidates after D.6 of a pass: the hopefuls over the quota are
    elected, and nothing else changes. *)
Definition elect_over (q : Qc) (a : Candidate) : Candidate :=
  if has_status Hopeful a && @ltb RationalArith q (vote a)
  then set_status Elected a else a.

Lemma tallied_candidates (E : Election) (q : Qc) :
  NoDup (map cid (C (R E))) ->
  C (R (tallied rule E q)) =
    map (elect_over q) (C (R (Meek.distribute rule E))) /\
  quota (R (tallied rule E q)) = q /\
  NoDup (map cid (C (R (tallied rule E q)))) /\
  (nonempty (Meek.winners (with_quota rule E q)) = false ->
   C (R (tallied rule E q)) = C (R (Meek.distribute rule E))).
Proof.
  intros Hnd.
  assert (Hnd1 : NoDup (map cid (C (R (with_quota rule E q))))).
  { cbn [with_quota R with_R C set_quota].
    now rewrite (vote_changed_cids (distribute_frame rule E)). }
  assert (HC : C (R (tallied rule E q)) =
               map (elect_over q) (C (R (Meek.distribute rule E)))).
  { cbn [tallied R with_R C set_surplus].
    now rewrite (elect_winners_frame (with_quota rule E q) Hnd1). }
  split; [exact HC|]. split; [|split].
  - cbn [tallied R with_R quota set_surplus].
    now destruct (elect_winners_fields (with_quota rule E q)) as (-> & _).
  - rewrite HC, map_map. cbn [with_quota R with_R C set_quota] in Hnd1.
    erewrite map_ext; [exact Hnd1|]. intros d. unfold elect_over.
    destruct (_ && _); reflexivity.
  - intros Hne. rewrite HC.
    rewrite <- (map_id (C (R (Meek.distribute rule E)))) at 2.
    apply map_ext_in. intros a Ha. unfold elect_over.
    destruct (has_status Hopeful a) eqn:Hh; cbn [andb]; [|reflexivity].
    destruct (@ltb RationalArith q (vote a)) eqn:Hw; [|reflexivity].
    exfalso. unfold Meek.winners in Hne.
    assert (Hin : In a (filter (Meek.hasQuota (with_quota rule E q))
                               (hopeful (C (R (with_quota rule E q)))))).
    { apply filter_In. split; [|exact Hw]. apply filter_In. split; [|exact Hh].
      exact Ha. }
    destruct (filter _ _); [contradiction|discriminate].
Qed.

(** The outcomes of a pass whose distribution is done: it ends with the
    candidates of D.6, or no hopeful was over the quota and D.8 gives the
    elected candidates their new keep factors. *)
Lemma pass_outcomes (omega_ last : V) (E : Election) (p : Meek.pass_result) :
  NoDup (map cid (C (R E))) -> (0 <= nSeats E)%Z ->
  Meek.pass rule omega_ last E = Ok p ->
  quota (R (state_of p)) = quota_of E /\
  (C (R (state_of p)) =
     map (elect_over (quota_of E)) (C (R (Meek.distribute rule E))) \/
   C (R (state_of p)) =
     map (kf_updated (R (tallied rule E (quota_of E))))
         (C (R (Meek.distribute rule E)))).
Proof.
  intros Hnd HS. unfold Meek.pass.
  rewrite (tally_eq rule E (calcQuota_rat E HS)). cbn [bind fst snd].
  destruct (@tallied_candidates E (quota_of E) Hnd) as (HC & Hq & Hnd3 & Hsame).
  unfold Meek.test_complete.
  destruct (nonempty (Meek.winners (with_quota rule E (quota_of E)))) eqn:Hne;
    [intros [= <-]; split; [exact Hq|left; exact HC]|].
  destruct (leb _ _); [intros [= <-]; split; [exact Hq|left; exact HC]|].
  destruct (geb _ _); [intros [= <-]; split; [exact Hq|left; exact HC]|].
  destruct (nonempty (Meek.batchDefeat _ _ _));
    [intros [= <-]; split; [exact Hq|left; exact HC]|].
  destruct (Meek.update_keep_factors _) as [r'| |] eqn:Hu; try discriminate.
  cbn [bind]. intros [= <-]. cbn [state_of R with_R].
  rewrite (@update_keep_factors_map _ _ r' Hnd3 Hu). cbn [C set_C quota].
  split; [exact Hq|]. right. now rewrite (Hsame eq_refl).
Qed.

Lemma elect_over_Trel (q : Qc) (a : Candidate) : Trel q a (elect_over q a).
Proof.
  unfold elect_over.
  destruct (has_status Hopeful a) eqn:Hh; cbn [andb];
    [|left; apply vote_changed_refl].
  destruct (@ltb RationalArith q (vote a)) eqn:Hw;
    [|left; apply vote_changed_refl].
  right. left. apply has_status_iff in Hh. split; [exact Hh|].
  split; [|apply vote_changed_refl]. now apply rat_ltb.
Qed.

Lemma kf_updated_Trel (r : Round) (a : Candidate) :
  Trel (quota r) a (kf_updated r a).
Proof.
  unfold kf_updated.
  destruct (has_status Elected a) eqn:He; [|left; apply vote_changed_refl].
  right. right. left. apply has_status_iff in He. split; [exact He|].
  apply vote_changed_refl.
Qed.

(** The candidates a pass leaves, from the candidates after its
    distribution. *)
Lemma pass_Trel (omega_ last : V) (E : Election) (p : Meek.pass_result) :
  NoDup (map cid (C (R E))) -> (0 <= nSeats E)%Z ->
  Meek.pass rule omega_ last E = Ok p ->
  Forall2 (Trel (quota_of E)) (C (R (Meek.distribute rule E)))
          (C (R (state_of p))).
Proof.
  intros Hnd HS Hp.
  destruct (pass_outcomes omega_ last E Hnd HS Hp) as [_ [-> | ->]].
  - apply Forall2_map_self. intros a _. apply elect_over_Trel.
  - destruct (@tallied_candidates E (quota_of E) Hnd) as (_ & Hq & _).
    apply Forall2_map_self. intros a _. rewrite <- Hq at 1.
    apply kf_updated_Trel.
Qed.

(** With exact arithmetic no pass raises: the quota is a quotient by
    [S + 1], and D.8 divides by the vote of an elected candidate, which is
    positive. *)
Lemma pass_ok (omega_ last : V) (E : Election) :
  kf_inv E -> exists p, Meek.pass rule omega_ last E = Ok p.
Proof.
  intros HI. pose proof HI as ((Hnd & _) & _ & HS & _ & Hgood).
  unfold Meek.pass.
  rewrite (tally_eq rule E (calcQuota_rat E HS)). cbn [bind fst snd].
  destruct (@tallied_candidates E (quota_of E) Hnd) as (HC & Hq & Hnd3 & Hsame).
  unfold Meek.test_complete.
  destruct (nonempty (Meek.winners (with_quota rule E (quota_of E)))) eqn:Hne;
    [eexists; reflexivity|].
  destruct (leb _ _); [eexists; reflexivity|].
  destruct (geb _ _); [eexists; reflexivity|].
  destruct (nonempty (Meek.batchDefeat _ _ _)); [eexists; reflexivity|].
  rewrite update_keep_factors_ok; [eexists; reflexivity|exact Hnd3|].
  intros c Hc. rewrite (Hsame eq_refl) in Hc.
  apply filter_In in Hc. destruct Hc as [Hc He]. apply has_status_iff in He.
  apply is_zero_pos. now apply Hgood.
Qed.

Variable omega_ : V.

Lemma kf_inv_pass (E : Election) (last : V) (p : Meek.pass_result) :
  kf_inv E -> Meek.pass rule omega_ last E = Ok p -> kf_inv (state_of p).
Proof.
  intros HI Hp. pose proof HI as ((Hnd & _) & _ & HS & _).
  destruct (@pass_evolves _ rule omega_ last E p Hnd Hp) as [_ (F1 & F2 & F3 & _)].
  apply (@inv_step E); auto.
  - now apply (@pass_Trel omega_ last).
  - rewrite (@pass_ballots _ rule omega_ last E p Hp). apply distribute_lines.
Qed.

Lemma unchanged_Trel (q : Qc) (E E' : Election) :
  C (R E') = C (R E) ->
  Forall2 (Trel q) (C (R (Meek.distribute rule E))) (C (R E')).
Proof.
  intros HC. rewrite HC. rewrite <- (map_id (C (R E))).
  eapply Forall2_flip_map; [apply distribute_frame|].
  intros d a _ _ Hv. left. now apply vote_changed_sym.
Qed.

Lemma kf_inv_unchanged (E E' : Election) :
  kf_inv E -> C (R E') = C (R E) ->
  nSeats E' = nSeats E -> nBallots E' = nBallots E -> rounds E' = rounds E ->
  ballots E' = ballots E -> kf_inv E'.
Proof.
  intros HI HC HS HN HR HB. apply (@inv_step E); auto.
  - now apply unchanged_Trel.
  - now rewrite HB.
Qed.

Lemma kf_inv_log (E : Election) (a : action) :
  kf_inv E -> kf_inv (with_R (add_log a) E).
Proof. intros HI. now apply (@kf_inv_unchanged E). Qed.

Lemma defeat_Trel (q : Qc) (E : Election) (c : Candidate) (msg : string) :
  NoDup (map cid (C (R E))) -> In c (hopeful (C (R E))) ->
  Forall2 (Trel q) (C (R (Meek.distribute rule E)))
          (C (R (with_R (fun r => Meek.defeat_zero msg r c) E))).
Proof.
  intros Hnd Hc.
  apply filter_In in Hc. destruct Hc as [Hc Hh]. apply has_status_iff in Hh.
  cbn [R with_R]. rewrite (defeat_zero_candidates msg (R E) c).
  eapply Forall2_flip_map; [apply distribute_frame|].
  intros d a Hd _ Hv. destruct (Nat.eqb_spec (cid d) (cid c)) as [Heq|_].
  - assert (d = c).
    { pose proof (lookup_NoDup _ d Hnd Hd) as H1.
      pose proof (lookup_NoDup _ c Hnd Hc) as H2. congruence. }
    subst d. destruct (vote_changed_fields Hv) as (_ & _ & Hs & _).
    right. right. right. split; [congruence|]. rewrite Hv. reflexivity.
  - left. now apply vote_changed_sym.
Qed.

Lemma kf_inv_defeat (E : Election) (c : Candidate) (msg : string) :
  kf_inv E -> In c (hopeful (C (R E))) ->
  kf_inv (with_R (fun r => Meek.defeat_zero msg r c) E).
Proof.
  intros HI Hc. pose proof HI as ((Hnd & _) & _).
  apply (@inv_step E); auto. now apply defeat_Trel.
Qed.

Lemma quota_of_newRound (E : Election) :
  C (R (Meek.distribute rule (newRound E))) = C (R (Meek.distribute rule E)) /\
  quota_of (newRound E) = quota_of E.
Proof.
  assert (HC : C (R (Meek.distribute rule (newRound E))) =
               C (R (Meek.distribute rule E))).
  { destruct (distribute_parts (newRound E)) as (-> & _).
    destruct (distribute_parts E) as (-> & _). reflexivity. }
  split; [exact HC|]. unfold quota_of. rewrite !distribute_votes, HC. reflexivity.
Qed.

Lemma good_newRound (E : Election) : good E -> good (newRound E).
Proof.
  intros H c Hc He. destruct (quota_of_newRound E) as [HC Hq].
  rewrite HC in Hc. rewrite Hq. now apply H.
Qed.

Lemma kf_inv_newRound (E : Election) : kf_inv E -> kf_inv (newRound E).
Proof.
  intros (Hst & Hn & HS & Hf & Hg).
  split; [now apply static_newRound|]. split; [exact Hn|].
  split; [exact HS|]. split; [exact Hf|]. now apply good_newRound.
Qed.

(** *** The first state of a count *)

Lemma init_kf_fresh (cs : list Candidate) : fresh cs -> fresh (Meek.init_kf cs).
Proof.
  intros Hf c Hc. unfold Meek.init_kf in Hc. rewrite map_map in Hc.
  apply in_map_iff in Hc. destruct Hc as [d [<- Hd]].
  specialize (Hf d Hd).
  destruct (has_status Withdrawn d); destruct (has_status Hopeful _); exact Hf.
Qed.

Lemma vote_changed_fresh (cs cs' : list Candidate) :
  Forall2 vote_changed cs cs' -> fresh cs -> fresh cs'.
Proof.
  intros H Hf c' Hc'. destruct (@Forall2_In_r _ _ _ _ c' H Hc') as [c [Hc Hv]].
  destruct (vote_changed_fields Hv) as (_ & _ & -> & _). now apply Hf.
Qed.

Lemma kf_inv_init (E0 E : Election) :
  NoDup (map cid (C (R E0))) -> fresh (C (R E0)) -> rounds E0 = [] ->
  nBallots E0 = ballot_count (ballots E0) -> (0 <= nSeats E0)%Z ->
  fair (ballots E0) ->
  Meek.init E0 = Ok E -> kf_inv E.
Proof.
  intros Hnd Hf Hr Hn HS Hfair Hi.
  destruct (@conservation_init _ E0 E Hnd Hf Hn Hi) as (Hnd1 & Hz & Hn1).
  destruct (@hopeful_inv_init _ E0 E Hnd Hr Hi) as [_ Hh].
  destruct (@init_candidates _ E0 E Hi) as (HC & HR & HS1 & _ & HB).
  assert (Hfresh : fresh (C (R E))).
  { rewrite HC. eapply vote_changed_fresh; [apply first_preferences_frame|].
    now apply init_kf_fresh. }
  assert (Hh1 : hopeful_kf_one (C (R E))) by (apply Hh; now left).
  split; [|split; [exact Hn1|split; [now rewrite HS1|split; [now rewrite HB|]]]].
  - split; [exact Hnd1|]. split; [exact Hz|]. split; [exact Hh1|].
    split; [|split].
    + intros c Hc He. destruct (Hfresh c Hc); congruence.
    + rewrite HR, Hr. intros r [<-|[]] c Hc.
      destruct (Hfresh c Hc) as [Hs|Hs].
      * rewrite (Hh1 c Hc Hs). split; [|apply Qcle_refl].
        apply Qclt_le_weak. reflexivity.
      * rewrite (Hz c Hc); [|apply live_false; rewrite Hs; split; discriminate].
        split; [apply Qcle_refl|]. apply Qclt_le_weak. reflexivity.
    + rewrite HR, Hr. exact I.
  - intros c Hc He.
    destruct (@Forall2_In_r _ _ _ _ c (distribute_frame rule E) Hc) as [d [Hd Hv]].
    destruct (vote_changed_fields Hv) as (_ & _ & Hs & _).
    destruct (Hfresh d Hd); congruence.
Qed.

(** *** The end of a count *)

Lemma finish_step_Wrel (E : Election) (c : Candidate) :
  (forall d, In d (C (R E)) -> cid d = cid c -> cstatus d = Hopeful) ->
  Forall2 Wrel (C (R E)) (C (R (Meek.finish_step E c))) /\
  rounds (Meek.finish_step E c) = rounds E /\
  forall d', In d' (C (R (Meek.finish_step E c))) -> cid d' <> cid c ->
             In d' (C (R E)).
Proof.
  intros Hc. unfold Meek.finish_step. destruct (_ <? _)%Z.
  - cbn [R with_R C rounds elect transition add_log set_C]. unfold update.
    split; [|split; [reflexivity|]].
    + apply Forall2_map_self. intros d Hd.
      destruct (Nat.eqb_spec (cid d) (cid c)) as [Heq|_].
      * split; [reflexivity|]. left. split; [reflexivity|].
        right. split; [now apply Hc|reflexivity].
      * split; [reflexivity|]. left. auto.
    + intros d' Hd' Hne. apply in_map_iff in Hd'. destruct Hd' as [d [<- Hd]].
      destruct (Nat.eqb_spec (cid d) (cid c)) as [Heq|_]; [|exact Hd].
      exfalso. apply Hne. exact Heq.
  - cbn [R with_R rounds].
    rewrite (defeat_zero_candidates "Defeat remaining" (R E) c).
    split; [|split; [reflexivity|]].
    + apply Forall2_map_self. intros d Hd.
      destruct (Nat.eqb_spec (cid d) (cid c)) as [Heq|_].
      * split; [reflexivity|]. right. right.
        split; [now apply Hc|]. split; reflexivity.
      * split; [reflexivity|]. left. auto.
    + intros d' Hd' Hne. apply in_map_iff in Hd'. destruct Hd' as [d [<- Hd]].
      destruct (Nat.eqb_spec (cid d) (cid c)) as [Heq|_]; [|exact Hd].
      exfalso. apply Hne. exact Heq.
Qed.

Lemma finish_static_gen (l : list Candidate) :
  forall E, kf_static E -> NoDup (map cid l) ->
            (forall c d, In c l -> In d (C (R E)) -> cid d = cid c ->
                         cstatus d = Hopeful) ->
            kf_static (fold_left Meek.finish_step l E).
Proof.
  induction l as [|c l IH]; intros E Hst Hnd Hh; [exact Hst|].
  cbn [fold_left]. inversion Hnd as [|? ? Hn Hnd']; subst.
  destruct (@finish_step_Wrel E c) as (HW & HR & Hold).
  { intros d Hd. apply Hh; [now left|exact Hd]. }
  apply IH; [exact (@static_step E _ Hst HW HR)|exact Hnd'|].
  intros c' d' Hc' Hd' Heq. apply (Hh c' d'); [now right| |exact Heq].
  apply Hold; [exact Hd'|]. intros Heq'. apply Hn.
  rewrite <- Heq', Heq. now apply in_map.
Qed.

Lemma finish_static (E : Election) : kf_static E -> kf_static (Meek.finish E).
Proof.
  intros Hst. pose proof Hst as (Hnd & _). unfold Meek.finish.
  apply finish_static_gen; [exact Hst|now apply NoDup_map_filter_gen|].
  intros c d Hc Hd Heq. apply filter_In in Hc. destruct Hc as [Hc Hh].
  apply has_status_iff in Hh.
  pose proof (lookup_NoDup _ d Hnd Hd) as H1.
  pose proof (lookup_NoDup _ c Hnd Hc) as H2. congruence.
Qed.

(** *** The keep factors of every round *)

(** In the current round and in every earlier round each keep factor is
    between [V0] and [V1], and of two rounds the later descends from the
    earlier: a candidate elected in the earlier round is elected in the
    later one, with a keep factor that is not larger. *)
Definition keep_factors_ok (E : Election) : Prop :=
  (forall r c, In r (R E :: rounds E) -> In c (C r) ->
               V0 <= kf c /\ kf c <= V1) /\
  ForallOrdPairs (fun later earlier => Forall2 descends (C earlier) (C later))
                 (R E :: rounds E).

Lemma history_all (hs : list Round) :
  forall cur, history_ok cur hs ->
              Forall (fun r => Forall2 descends (C r) (C cur)) hs.
Proof.
  induction hs as [|r hs IH]; intros cur H; [constructor|].
  destruct H as [H1 H2]. constructor; [exact H1|].
  eapply Forall_impl; [|exact (IH r H2)]. simpl. intros r' Hr'.
  eapply Forall2_trans_on; [apply descends_trans|exact Hr'|exact H1].
Qed.

Lemma history_pairs (hs : list Round) :
  forall cur, history_ok cur hs ->
              ForallOrdPairs
                (fun later earlier => Forall2 descends (C earlier) (C later))
                (cur :: hs).
Proof.
  induction hs as [|r hs IH]; intros cur H.
  - constructor; constructor.
  - constructor; [now apply history_all|]. apply IH. now destruct H.
Qed.

Lemma static_keep_factors (E : Election) : kf_static E -> keep_factors_ok E.
Proof.
  intros (_ & _ & _ & _ & Hr & Hh). split.
  - intros r c Hin Hc. exact (Hr r Hin c Hc).
  - now apply history_pairs.
Qed.

Lemma fold_residual_nonneg (bs : list Ballot) :
  fair bs ->
  forall (cs1 cs2 : list Candidate) (done : list Ballot) (res : Qc),
    Forall2 Lrel cs1 cs2 -> NoDup (map cid cs2) -> 0 <= res ->
    0 <= snd (fold_left (Meek.distribute_ballot rule) bs (cs2, done, res)).
Proof.
  induction bs as [|b bs IH]; intros Hfair cs1 cs2 done res HF Hnd Hres;
    [exact Hres|].
  cbn [fold_left]. rewrite distribute_ballot_meek. cbv zeta.
  assert (Hm0 : (0 <= multiplier b)%Z) by (apply Hfair; now left).
  assert (H01 : (0:Qc) <= 1) by (apply Qclt_le_weak; reflexivity).
  destruct (@meek_ranking_solo (multiplier b) (ranking b) Hm0 cs1 cs2 1
              (Q2Qc (inject_Z (multiplier b))) HF Hnd H01) as [H1 H2].
  apply (IH (fun b' Hb => Hfair b' (or_intror Hb)) cs1); auto.
  - rewrite (vote_changed_cids (meek_ranking_frame _ _ _ _ _)). exact Hnd.
  - apply Qc_add_nonneg; [exact Hres|].
    assert (Hr : snd (Meek.meek_ranking (multiplier b) (ranking b) cs2
                        (@V1 RationalArith) (@of_int RationalArith (multiplier b)))
                 = snd (fst (Meek.meek_ranking (multiplier b) (ranking b) cs2
                               (@V1 RationalArith)
                               (@of_int RationalArith (multiplier b))))
                   * Q2Qc (inject_Z (multiplier b))).
    { apply meek_ranking_residual.
      change (Q2Qc (inject_Z (multiplier b)) = 1 * Q2Qc (inject_Z (multiplier b))).
      ring. }
    rewrite Hr.
    apply Qcmult_le_0_compat_local; [exact H2|now apply inject_nonneg].
Qed.

Lemma distribute_residual_nonneg (E : Election) :
  kf_static E -> fair (ballots E) -> 0 <= residual (R (Meek.distribute rule E)).
Proof.
  intros (Hnd & Hz & _ & _ & Hr & _) Hfair.
  assert (Hcur : kf_range (C (R E))) by (apply Hr; now left).
  pose proof (reset_Lrel (Prel_refl Hcur Hz)) as H0.
  destruct (distribute_parts E) as (_ & -> & _).
  apply (@fold_residual_nonneg (ballots E) Hfair (Meek.reset_votes (C (R E))));
    [exact H0| |apply Qcle_refl].
  now rewrite reset_votes_cids.
Qed.

(** The votes counted are at most the number of ballots. *)
Lemma distribute_votes_le (E : Election) :
  kf_static E -> fair (ballots E) ->
  votes (R (Meek.distribute rule E)) <=
  Q2Qc (inject_Z (ballot_count (ballots E))).
Proof.
  intros Hst Hfair. pose proof Hst as (Hnd & Hz & _).
  pose proof (@distribute_conserves _ RationalLaws rule E meek_variant Hnd Hz) as Hc.
  cbv zeta in Hc. destruct Hc as (Hc & _).
  pose proof (distribute_residual_nonneg Hst Hfair) as Hres.
  change (votes (R (Meek.distribute rule E)) +
          residual (R (Meek.distribute rule E)) =
          Q2Qc (inject_Z (ballot_count (ballots E)))) in Hc.
  revert Hc Hres.
  generalize (votes (R (Meek.distribute rule E)))
             (residual (R (Meek.distribute rule E)))
             (Q2Qc (inject_Z (ballot_count (ballots E)))).
  intros v r n Hc Hres. qc_to_q. lra.
Qed.

(** *** No more candidates are elected than there are seats *)

Definition nat_value (n : nat) : Qc := Q2Qc (inject_Z (Z.of_nat n)).

Lemma nat_value_S (n : nat) : nat_value (S n) = nat_value n + 1.
Proof.
  unfold nat_value. rewrite Nat2Z.inj_succ. unfold Z.succ.
  apply Qc_is_canon. unfold Qcplus, Q2Qc. cbn [this].
  rewrite !Qred_correct, inject_Z_plus. reflexivity.
Qed.

Lemma over_step (q n v s : Qc) : q * n <= s -> q <= v -> q * (n + 1) <= v + s.
Proof. intros. qc_to_q. nra. Qed.

Lemma over_step_strict_l (q n v s : Qc) :
  q * n <= s -> q < v -> q * (n + 1) < v + s.
Proof. intros. qc_to_q. nra. Qed.

Lemma over_step_strict_r (q n v s : Qc) :
  q * n < s -> q <= v -> q * (n + 1) < v + s.
Proof. intros. qc_to_q. nra. Qed.

Lemma Qc_lt_add_l (a b s : Qc) : 0 <= a -> b < s -> b < a + s.
Proof. intros. qc_to_q. lra. Qed.

(** The candidates [sel] picks are live and have at least [q] each: the
    votes of the live candidates add up to [q] times their number at
    least, and to more when one of them has more than [q]. *)
Lemma live_sum_over (q : Qc) (sel : Candidate -> bool) (cs : list Candidate) :
  (forall a, In a cs -> live a = true -> 0 <= vote a) ->
  (forall a, In a cs -> sel a = true -> live a = true /\ q <= vote a) ->
  q * nat_value (length (filter sel cs)) <= live_sum cs /\
  ((exists a, In a cs /\ sel a = true /\ q < vote a) ->
   q * nat_value (length (filter sel cs)) < live_sum cs).
Proof.
  induction cs as [|a cs IH]; intros Hv Hs.
  - split.
    + cbn [filter length]. unfold nat_value. cbn. rewrite Qcmult_0_r.
      apply Qcle_refl.
    + intros (a & [] & _).
  - destruct IH as [IH1 IH2].
    { intros b Hb. apply Hv. now right. }
    { intros b Hb. apply Hs. now right. }
    rewrite live_sum_cons. cbn [filter].
    destruct (sel a) eqn:Hsel.
    + destruct (Hs a (or_introl eq_refl) Hsel) as [Hl Hq]. rewrite Hl.
      cbn [length]. rewrite nat_value_S.
      change (add (vote a) (live_sum cs)) with (vote a + live_sum cs).
      split; [now apply over_step|].
      intros (b & [<-|Hb] & Hsb & Hqb).
      * now apply over_step_strict_l.
      * apply over_step_strict_r; [|exact Hq]. apply IH2. eauto.
    + assert (Hstrict : (exists b, In b (a :: cs) /\ sel b = true /\ q < vote b) ->
                        exists b, In b cs /\ sel b = true /\ q < vote b).
      { intros (b & [<-|Hb] & Hsb & Hqb); [congruence|eauto]. }
      destruct (live a) eqn:Hl.
      * assert (Ha : 0 <= vote a) by (apply Hv; [now left|exact Hl]).
        change (add (vote a) (live_sum cs)) with (vote a + live_sum cs).
        split; [now apply Qc_le_add_l|].
        intros H. apply Qc_lt_add_l; [exact Ha|]. apply IH2. now apply Hstrict.
      * split; [exact IH1|]. intros H. apply IH2. now apply Hstrict.
Qed.

Lemma filter_map_length (T : Type) (p : T -> bool) (g : T -> T) (l : list T) :
  length (filter p (map g l)) = length (filter (fun x => p (g x)) l).
Proof.
  induction l as [|x l IH]; simpl; [reflexivity|].
  destruct (p (g x)); simpl; now rewrite IH.
Qed.

Lemma filter_ext_length (T : Type) (p p' : T -> bool) (l : list T) :
  (forall x, In x l -> p x = p' x) ->
  length (filter p l) = length (filter p' l).
Proof.
  induction l as [|x l IH]; intros H; simpl; [reflexivity|].
  rewrite (H x (or_introl eq_refl)).
  destruct (p' x); simpl; rewrite IH; auto; intros y Hy; apply H; now right.
Qed.

Lemma Forall2_filter_length (T : Type) (p : T -> bool) (Rel : T -> T -> Prop)
      (l l' : list T) :
  (forall x y, Rel x y -> p y = p x) -> Forall2 Rel l l' ->
  length (filter p l') = length (filter p l).
Proof.
  intros H. induction 1 as [|x y l l' Hxy _ IH]; simpl; [reflexivity|].
  rewrite (H x y Hxy). destruct (p x); simpl; now rewrite IH.
Qed.

Lemma distribute_nElected (E : Election) :
  nElected (C (R (Meek.distribute rule E))) = nElected (C (R E)).
Proof.
  unfold nElected, elected. f_equal.
  apply (@Forall2_filter_length _ _ vote_changed); [|apply distribute_frame].
  intros x y Hv. destruct (vote_changed_fields Hv) as (_ & _ & Hs & _).
  unfold has_status. now rewrite Hs.
Qed.

Lemma quota_mult (E : Election) :
  (0 <= nSeats E)%Z ->
  quota_of E * Q2Qc (inject_Z (nSeats E + 1)) =
  votes (R (Meek.distribute rule E)).
Proof. intros HS. unfold quota_of. apply Qc_div_mul. now apply seats_pos. Qed.

Lemma count_below (q n s : Qc) (S0 k : Z) :
  0 <= q -> n = Q2Qc (inject_Z k) -> s = Q2Qc (inject_Z (S0 + 1)) ->
  q * n < q * s -> (k <= S0)%Z.
Proof.
  intros Hq -> -> H.
  assert (Hlt : Q2Qc (inject_Z k) < Q2Qc (inject_Z (S0 + 1))).
  { revert H. generalize (Q2Qc (inject_Z k)) (Q2Qc (inject_Z (S0 + 1))).
    intros a b H. qc_to_q.
    destruct (Qlt_le_dec (this a) (this b)) as [Hx|Hx]; [exact Hx|exfalso].
    assert (this q * (this a - this b) >= 0)%Q by nra. nra. }
  unfold Qclt, Q2Qc in Hlt. cbn [this] in Hlt. rewrite !Qred_correct in Hlt.
  rewrite <- Zlt_Qlt in Hlt. lia.
Qed.

(** A pass leaves no more elected candidates than seats. *)
Lemma pass_elected (last : V) (E : Election) (p : Meek.pass_result) :
  kf_inv E -> (nElected (C (R E)) <= nSeats E)%Z ->
  Meek.pass rule omega_ last E = Ok p ->
  (nElected (C (R (state_of p))) <= nSeats E)%Z.
Proof.
  intros HI Hle Hp. pose proof HI as (Hst & _ & HS & Hfair & Hgood).
  pose proof Hst as (Hnd & _).
  destruct (pass_outcomes omega_ last E Hnd HS Hp) as [_ [HC | HC]]; rewrite HC.
  - set (q := quota_of E) in *.
    set (cs := C (R (Meek.distribute rule E))) in *.
    unfold nElected, elected. rewrite filter_map_length.
    destruct (@quota_of_bounds E Hst Hfair HS) as [Hq0 _]. fold q in Hq0.
    destruct (@live_sum_over q (fun a => has_status Elected (elect_over q a)) cs)
      as [_ Hstrict].
    { now apply distributed_votes_nonneg. }
    { intros a Ha. unfold elect_over.
      destruct (has_status Hopeful a) eqn:Hh; cbn [andb].
      - destruct (@ltb RationalArith q (vote a)) eqn:Hw.
        + intros _. split; [unfold live; now rewrite Hh|].
          apply Qclt_le_weak. now apply rat_ltb.
        + intros He. apply has_status_iff in Hh, He. congruence.
      - intros He. split; [unfold live; rewrite He; apply orb_true_r|].
        apply has_status_iff in He. now apply Hgood. }
    destruct (existsb (fun a => has_status Hopeful a && @ltb RationalArith q (vote a)) cs)
      eqn:Hex.
    + apply existsb_exists in Hex. destruct Hex as (a & Ha & Hw).
      apply andb_true_iff in Hw. destruct Hw as [Hh Hw].
      assert (Hlt : q * nat_value (length (filter (fun a => has_status Elected
                                                             (elect_over q a)) cs))
                    < live_sum cs).
      { apply Hstrict. exists a. split; [exact Ha|]. split.
        - unfold elect_over. rewrite Hh, Hw. reflexivity.
        - now apply rat_ltb. }
      unfold cs in Hlt at 2. rewrite <- distribute_votes, <- (@quota_mult E HS) in Hlt.
      fold q in Hlt.
      eapply count_below; [exact Hq0|reflexivity|reflexivity|exact Hlt].
    + rewrite (@filter_ext_length _ _ (has_status Elected)).
      * fold (elected cs). fold (nElected cs). unfold cs.
        now rewrite distribute_nElected.
      * intros a Ha. unfold elect_over.
        assert (Hn : has_status Hopeful a && @ltb RationalArith q (vote a) = false).
        { destruct (has_status Hopeful a && @ltb RationalArith q (vote a)) eqn:Hw;
            [|reflexivity].
          assert (existsb (fun a => has_status Hopeful a &&
                                    @ltb RationalArith q (vote a)) cs = true)
            by (apply existsb_exists; eauto).
          congruence. }
        now rewrite Hn.
  - unfold nElected, elected. rewrite filter_map_length.
    rewrite (@filter_ext_length _ _ (has_status Elected)).
    + fold (elected (C (R (Meek.distribute rule E)))).
      fold (nElected (C (R (Meek.distribute rule E)))).
      now rewrite distribute_nElected.
    + intros a _. unfold kf_updated. destruct (has_status Elected a) eqn:He;
        [|exact He]. exact He.
Qed.

Lemma defeat_nElected (E : Election) (c : Candidate) (msg : string) :
  NoDup (map cid (C (R E))) -> In c (hopeful (C (R E))) ->
  nElected (C (R (with_R (fun r => Meek.defeat_zero msg r c) E))) =
  nElected (C (R E)).
Proof.
  intros Hnd Hc. apply filter_In in Hc. destruct Hc as [Hc Hh].
  apply has_status_iff in Hh. cbn [R with_R].
  rewrite (defeat_zero_candidates msg (R E) c).
  unfold nElected, elected. rewrite filter_map_length. f_equal.
  apply filter_ext_length. intros d Hd.
  destruct (Nat.eqb_spec (cid d) (cid c)) as [Heq|_]; [|reflexivity].
  assert (d = c).
  { pose proof (lookup_NoDup _ d Hnd Hd) as H1.
    pose proof (lookup_NoDup _ c Hnd Hc) as H2. congruence. }
  subst d. unfold has_status. cbn. now rewrite Hh.
Qed.

(** *** The quota does not grow *)

(** The quotas of the rounds, latest first, do not decrease. *)
Fixpoint quota_history (cur : Round) (hs : list Round) : Prop :=
  match hs with
  | [] => True
  | r :: hs' => quota cur <= quota r /\ quota_history r hs'
  end.

Lemma quota_history_step (cur cur' : Round) (hs : list Round) :
  quota cur' <= quota cur -> quota_history cur hs -> quota_history cur' hs.
Proof.
  intros Hq. destruct hs as [|r hs]; simpl; [auto|].
  intros [H1 H2]. split; [|exact H2]. eapply Qcle_trans; eassumption.
Qed.

(** The whole invariant: the keep factors, the number of elected
    candidates, and the quota, which is at least the quota the next
    distribution gives. *)
Definition meek_inv (E : Election) : Prop :=
  kf_inv E /\ (nElected (C (R E)) <= nSeats E)%Z /\
  quota_of E <= quota (R E) /\ quota_history (R E) (rounds E).

Lemma meek_inv_step (E E' : Election) :
  meek_inv E ->
  Forall2 (Trel (quota_of E)) (C (R (Meek.distribute rule E))) (C (R E')) ->
  nSeats E' = nSeats E -> nBallots E' = nBallots E -> rounds E' = rounds E ->
  map line (ballots E') = map line (ballots E) ->
  (nElected (C (R E')) <= nSeats E)%Z ->
  quota (R E') = quota (R E) \/ quota (R E') = quota_of E ->
  meek_inv E'.
Proof.
  intros (HI & Hn & Hq & Hh) HT HS HN HR HL Hn' Hq'.
  destruct (@inv_step_quota E E' HI HT HS HN HR HL) as [HI' Hle].
  assert (Hcur : quota (R E') <= quota (R E)).
  { destruct Hq' as [-> | ->]; [apply Qcle_refl|exact Hq]. }
  split; [exact HI'|]. split; [now rewrite HS|]. split.
  - eapply Qcle_trans; [exact Hle|]. destruct Hq' as [-> | ->];
      [exact Hq|apply Qcle_refl].
  - rewrite HR. now apply (@quota_history_step (R E)).
Qed.

Lemma meek_inv_pass (E : Election) (last : V) (p : Meek.pass_result) :
  meek_inv E -> Meek.pass rule omega_ last E = Ok p -> meek_inv (state_of p).
Proof.
  intros HM Hp. pose proof HM as (HI & Hn & _).
  pose proof HI as ((Hnd & _) & _ & HS & _).
  destruct (@pass_evolves _ rule omega_ last E p Hnd Hp) as [_ (F1 & F2 & F3 & _)].
  apply (@meek_inv_step E); auto.
  - now apply (@pass_Trel omega_ last).
  - rewrite (@pass_ballots _ rule omega_ last E p Hp). apply distribute_lines.
  - now apply (@pass_elected last).
  - right. now destruct (pass_outcomes omega_ last E Hnd HS Hp).
Qed.

Lemma meek_inv_log (E : Election) (a : action) :
  meek_inv E -> meek_inv (with_R (add_log a) E).
Proof.
  intros HM. pose proof HM as (_ & Hn & _).
  apply (@meek_inv_step E); auto. now apply unchanged_Trel.
Qed.

Lemma meek_inv_defeat (E : Election) (c : Candidate) (msg : string) :
  meek_inv E -> In c (hopeful (C (R E))) ->
  meek_inv (with_R (fun r => Meek.defeat_zero msg r c) E).
Proof.
  intros HM Hc. pose proof HM as (((Hnd & _) & _) & Hn & _).
  apply (@meek_inv_step E); auto.
  - now apply defeat_Trel.
  - now rewrite defeat_nElected.
Qed.

Lemma meek_inv_newRound (E : Election) : meek_inv E -> meek_inv (newRound E).
Proof.
  intros (HI & Hn & Hq & Hh). destruct (quota_of_newRound E) as [_ Hq'].
  split; [now apply kf_inv_newRound|]. split; [exact Hn|]. split.
  - rewrite Hq'. exact Hq.
  - cbn [newRound R rounds quota_history quota]. split; [apply Qcle_refl|exact Hh].
Qed.

Lemma init_quota (E0 E : Election) :
  (0 <= nSeats E0)%Z -> Meek.init E0 = Ok E ->
  quota (R E) =
  Q2Qc (inject_Z (nBallots E0)) / Q2Qc (inject_Z (nSeats E0 + 1)).
Proof.
  intros HS. unfold Meek.init, Meek.calcQuota, over.
  cbn [exact RationalArith nSeats with_R].
  change (of_int (nSeats E0 + 1)) with (Q2Qc (inject_Z (nSeats E0 + 1))).
  rewrite is_zero_pos by now apply inject_pos; lia.
  cbn [bind]. intros [= <-]. reflexivity.
Qed.

Section Count.
Variable E0 : Election.
Hypothesis E0_NoDup : NoDup (map cid (C (R E0))).
Hypothesis E0_fresh : fresh (C (R E0)).
Hypothesis E0_rounds : rounds E0 = [].
Hypothesis E0_ballots : nBallots E0 = ballot_count (ballots E0).
Hypothesis E0_seats : (0 <= nSeats E0)%Z.
Hypothesis E0_fair : fair (ballots E0).

Lemma meek_inv_init (E : Election) : Meek.init E0 = Ok E -> meek_inv E.
Proof.
  intros Hi.
  pose proof (@kf_inv_init E0 E E0_NoDup E0_fresh E0_rounds E0_ballots E0_seats
                E0_fair Hi) as HI.
  pose proof HI as (Hst & Hn & HS & Hfair & _).
  destruct (@init_candidates _ E0 E Hi) as (HC & HR & HS1 & HN & HB).
  assert (Hfresh : fresh (C (R E))).
  { rewrite HC. eapply vote_changed_fresh; [apply first_preferences_frame|].
    now apply init_kf_fresh. }
  split; [exact HI|]. split; [|split].
  - unfold nElected, elected.
    assert (Hnil : filter (has_status Elected) (C (R E)) = []).
    { destruct (filter (has_status Elected) (C (R E))) as [|c l] eqn:Hf;
        [reflexivity|exfalso].
      assert (Hc : In c (filter (has_status Elected) (C (R E))))
        by (rewrite Hf; now left).
      apply filter_In in Hc. destruct Hc as [Hc He].
      apply has_status_iff in He. destruct (Hfresh c Hc); congruence. }
    rewrite Hnil. cbn [length]. now rewrite HS1.
  - rewrite (@init_quota E0 E E0_seats Hi). unfold quota_of. rewrite HS1.
    apply div_le; [|now apply inject_pos; lia].
    rewrite <- HN, Hn. now apply distribute_votes_le.
  - rewrite HR, E0_rounds. exact I.
Qed.

Lemma meek_inv_head (E : Election) : at_head rule omega_ E0 E -> meek_inv E.
Proof.
  apply at_head_inv.
  - apply meek_inv_init.
  - apply meek_inv_newRound.
  - apply meek_inv_pass.
  - apply meek_inv_defeat.
  - apply meek_inv_log.
  - intros E1 (((H & _) & _) & _). exact H.
Qed.

Lemma meek_inv_iterate (last : V) (E : Election) :
  in_iterate rule omega_ E0 last E -> meek_inv E.
Proof.
  apply in_iterate_inv.
  - apply meek_inv_init.
  - apply meek_inv_newRound.
  - apply meek_inv_pass.
  - apply meek_inv_defeat.
  - apply meek_inv_log.
  - intros E1 (((H & _) & _) & _). exact H.
Qed.

End Count.

End RationalMeek.

(** [r] is an exception. *)
Definition raises {T : Type} (r : result T) : bool :=
match r with
| Raise _ => true
| _ => false
end.

Section RationalCount.
#[local] Existing Instance RationalArith.
Open Scope Qc_scope.
Variable rule : Meek.Rule.
Hypothesis meek_variant : Meek.warren rule = false.
Variable omega_ : V.
Variable E0 : Election.
Hypothesis E0_NoDup : NoDup (map cid (C (R E0))).
Hypothesis E0_fresh : fresh (C (R E0)).
Hypothesis E0_rounds : rounds E0 = [].
Hypothesis E0_ballots : nBallots E0 = ballot_count (ballots E0).
Hypothesis E0_seats : (0 <= nSeats E0)%Z.
Hypothesis E0_fair : fair (ballots E0).

Lemma head_inv (E : Election) : at_head rule omega_ E0 E -> meek_inv rule E.
Proof. now apply meek_inv_head. Qed.

Lemma iterate_inv (last : V) (E : Election) :
  in_iterate rule omega_ E0 last E -> meek_inv rule E.
Proof. now apply meek_inv_iterate. Qed.

Lemma iterate_from_no_raise (fuel : nat) :
  forall (last : V) (E : Election),
    meek_inv rule E ->
    raises (Meek.iterate_from rule fuel omega_ last E) = false.
Proof.
  induction fuel as [|fuel IH]; intros last E HM; cbn [Meek.iterate_from];
    [reflexivity|].
  destruct (@pass_ok rule omega_ last E (proj1 HM)) as [p Hp]. rewrite Hp.
  cbn [bind]. destruct p as [s b E1|last1 E1]; [reflexivity|].
  apply IH. change E1 with (state_of (Meek.Again last1 E1)).
  eapply meek_inv_pass; eassumption.
Qed.

Lemma round_no_raise (fuel : nat) (E : Election) :
  at_head rule omega_ E0 E -> Meek.countComplete E = false ->
  raises (Meek.round rule fuel omega_ E) = false.
Proof.
  intros Hh Hc. pose proof (head_inv Hh) as HM.
  pose proof (meek_inv_newRound HM) as HM1.
  unfold Meek.round, Meek.iterate.
  pose proof (@iterate_from_no_raise fuel (of_int (nBallots (newRound E)))
                (newRound E) HM1) as Hnr.
  destruct (Meek.iterate_from _ _ _ _ _) as [[[s batch] E1]| |] eqn:Hit;
    [|discriminate|reflexivity].
  cbn [bind].
  assert (Hdef : s <> Meek.IS_elected ->
                 exists r', Meek.defeat_low s (R E1) = Ok r').
  { intros Hs. apply defeat_low_ok.
    pose proof (@iterate_from_statuses _ rule omega_ fuel _ _ _ _ _ Hit Hs) as Hst.
    pose proof (@hopeful_length_statuses _ _ _ Hst) as Hlen.
    pose proof (@not_complete_hopeful _ E Hc) as Hpos.
    unfold nHopeful in Hpos. cbn [newRound R C] in Hlen.
    intros Hnil. rewrite Hnil in Hlen. cbn [length] in Hlen.
    rewrite <- Hlen in Hpos. cbn in Hpos. lia. }
  destruct s; try reflexivity.
  - destruct Hdef as [r' ->]; [discriminate|reflexivity].
  - destruct Hdef as [r' ->]; [discriminate|reflexivity].
Qed.

Lemma rounds_loop_no_raise (fuel nrounds : nat) :
  forall E, at_head rule omega_ E0 E ->
            raises (Meek.rounds_loop rule nrounds fuel omega_ E) = false.
Proof.
  induction nrounds as [|k IH]; intros E Hh; cbn [Meek.rounds_loop];
    destruct (Meek.countComplete E) eqn:Hc; try reflexivity.
  pose proof (round_no_raise fuel Hh Hc) as Hr.
  destruct (Meek.round rule fuel omega_ E) as [E1| |] eqn:Hro;
    [|discriminate|reflexivity].
  cbn [bind]. apply IH. eapply head_round; eassumption.
Qed.

Lemma quota_pairs (hs : list Round) :
  forall cur, quota_history cur hs ->
              ForallOrdPairs (fun later earlier => quota later <= quota earlier)
                             (cur :: hs).
Proof.
  assert (Hall : forall hs cur, quota_history cur hs ->
                                Forall (fun r => quota cur <= quota r) hs).
  { induction hs0 as [|r hs0 IH]; intros cur H; [constructor|].
    destruct H as [H1 H2]. constructor; [exact H1|].
    eapply Forall_impl; [|exact (IH r H2)]. simpl. intros r' Hr'.
    eapply Qcle_trans; eassumption. }
  induction hs as [|r hs IH]; intros cur H.
  - constructor; constructor.
  - constructor; [now apply Hall|]. apply IH. now destruct H.
Qed.

End RationalCount.

(** A profile a Meek count with exact arithmetic starts from: the
    identifiers are not repeated, every candidate is hopeful or withdrawn,
    no round is over, [nBallots] is the number of ballots, and neither the
    number of seats nor a multiplier is negative. *)
Definition well_formed (E0 : @Election RationalArith) : Prop :=
NoDup (map cid (C (R E0))) /\ fresh (C (R E0)) /\ rounds E0 = [] /\
nBallots E0 = ballot_count (ballots E0) /\ 0 <= nSeats E0 /\
fair (ballots E0).

Lemma well_formed_head (rule : Meek.Rule) (omega_ : @V RationalArith)
      (E0 E : @Election RationalArith) :
Meek.warren rule = false -> well_formed E0 ->
at_head rule omega_ E0 E -> meek_inv rule E.
Proof.
intros Hw (H1 & H2 & H3 & H4 & H5 & H6). now apply meek_inv_head.
Qed.

Lemma well_formed_iterate (rule : Meek.Rule) (omega_ last : @V RationalArith)
      (E0 E : @Election RationalArith) :
Meek.warren rule = false -> well_formed E0 ->
in_iterate rule omega_ E0 last E -> meek_inv rule E.
Proof.
intros Hw (H1 & H2 & H3 & H4 & H5 & H6). now apply meek_inv_iterate.
Qed.

(** X1. In a Meek count with rational arithmetic, from a well-formed
    profile, every keep factor of every round is between V0 and V1, and a
    candidate elected in a round is elected in every later round with a
    keep factor that is not larger: at every state of the round loop, at
    the top of every pass, and after the remaining hopefuls are elected or
    defeated. *)
Theorem meek_rational_keep_factors (rule : Meek.Rule) (omega_ : @V RationalArith)
        (E0 : @Election RationalArith) :
Meek.warren rule = false -> well_formed E0 ->
(forall E, at_head rule omega_ E0 E -> keep_factors_ok E) /\
(forall last E, in_iterate rule omega_ E0 last E -> keep_factors_ok E) /\
(forall E, at_head rule omega_ E0 E -> keep_factors_ok (Meek.finish E)).
Proof.
intros Hw Hwf. split; [|split].
- intros E HE. apply static_keep_factors.
  apply (well_formed_head Hw Hwf HE).
- intros last E HE. apply static_keep_factors.
  apply (well_formed_iterate Hw Hwf HE).
- intros E HE. apply static_keep_factors, finish_static.
  apply (well_formed_head Hw Hwf HE).
Qed.

(** C6, as the code has it.  In a Meek count with rational arithmetic, from a
    well-formed profile, every keep factor of every round is between V0 and
    V1, and a candidate elected in a round is elected in every later round
    with a keep factor that is not larger: at every state of the round
    loop, and in the election the count returns, whose record holds every
    round. *)
Theorem meek_keep_factors_bounded_monotone (rule : Meek.Rule)
        (E0 : @Election RationalArith) :
Meek.warren rule = false -> well_formed E0 ->
(forall omega_ E, at_head rule omega_ E0 E -> keep_factors_ok E) /\
(forall nrounds fuel E', Meek.count rule nrounds fuel E0 = Ok E' ->
                         keep_factors_ok E').
Proof.
intros Hw Hwf. split.
- intros omega_ E HE. apply static_keep_factors.
  apply (well_formed_head Hw Hwf HE).
- intros nrounds fuel E' Hcount.
  destruct (@count_head _ rule nrounds fuel E0 E' Hcount)
    as (omega_ & E & _ & Hh & _ & ->).
  apply static_keep_factors, finish_static.
  apply (well_formed_head Hw Hwf Hh).
Qed.

Lemma init_ok (E0 : @Election RationalArith) :
0 <= nSeats E0 -> exists E, Meek.init E0 = Ok E.
Proof.
intros HS. unfold Meek.init, Meek.calcQuota, over.
cbn [exact RationalArith nSeats with_R].
change (of_int (nSeats E0 + 1)) with (Q2Qc (inject_Z (nSeats E0 + 1))).
rewrite is_zero_pos by (apply inject_pos; lia).
cbn [bind]. eexists. reflexivity.
Qed.

(** X2. A Meek count with rational arithmetic, from a well-formed
    profile, raises no exception: every pass returns (the quota divides by
    S + 1, and D.8 divides by the vote of an elected candidate, which is
    positive), the defeat of the lowest candidate finds a hopeful, and so
    the round loop and, when omega is a value, the count return a result
    or run out of rounds or passes. *)
Theorem meek_rational_never_raises (rule : Meek.Rule)
        (E0 : @Election RationalArith) :
Meek.warren rule = false -> well_formed E0 ->
(forall omega_ last E, in_iterate rule omega_ E0 last E ->
                       exists p, Meek.pass rule omega_ last E = Ok p) /\
(forall omega_ nrounds fuel E,
    at_head rule omega_ E0 E ->
    raises (Meek.rounds_loop rule nrounds fuel omega_ E) = false) /\
(forall nrounds fuel,
    raises (@Meek.omega_value RationalArith rule) = false ->
    raises (Meek.count rule nrounds fuel E0) = false).
Proof.
intros Hw Hwf. pose proof Hwf as (H1 & H2 & H3 & H4 & H5 & H6).
split; [|split].
- intros omega_ last E HE. apply pass_ok.
  apply (well_formed_iterate Hw Hwf HE).
- intros omega_ nrounds fuel E HE. now apply (@rounds_loop_no_raise rule Hw omega_ E0).
- intros nrounds fuel Hom. unfold Meek.count.
  destruct (@Meek.omega_value RationalArith rule) as [w| |]; [|discriminate|reflexivity].
  cbn [bind]. destruct (@init_ok E0 H5) as [E Hi]. rewrite Hi. cbn [bind].
  assert (HE : at_head rule w E0 E) by (apply head_init; exact Hi).
  pose proof (@rounds_loop_no_raise rule Hw w E0 H1 H2 H3 H4 H5 H6 fuel nrounds E HE)
    as Hr.
  destruct (Meek.rounds_loop rule nrounds fuel w E); [reflexivity|discriminate|reflexivity].
Qed.

(** X3. In a Meek count with rational arithmetic, from a well-formed
    profile, the quota never grows: the quota a pass sets is the votes of
    its distribution over S + 1 and is at most the quota before it, and of
    two rounds the later has the smaller quota or the same. *)
Theorem meek_rational_quota_never_grows (rule : Meek.Rule) (omega_ : @V RationalArith)
        (E0 : @Election RationalArith) :
Meek.warren rule = false -> well_formed E0 ->
(forall E, at_head rule omega_ E0 E ->
           ForallOrdPairs (fun later earlier : @Round RationalArith =>
                             (quota later <= quota earlier)%Qc)
                          (R E :: rounds E)) /\
(forall last E p,
    in_iterate rule omega_ E0 last E -> Meek.pass rule omega_ last E = Ok p ->
    quota (R (state_of p)) = quota_of rule E /\
    (quota (R (state_of p)) <= quota (R E))%Qc).
Proof.
intros Hw Hwf. split.
- intros E HE. apply quota_pairs.
  apply (well_formed_head Hw Hwf HE).
- intros last E p HE Hp.
  pose proof (well_formed_iterate Hw Hwf HE) as (HI & _ & Hq & _).
  pose proof HI as ((Hnd & _) & _ & HS & _).
  destruct (@pass_outcomes rule omega_ last E p Hnd HS Hp) as [Hqp _].
  split; [exact Hqp|]. now rewrite Hqp.
Qed.

(** X4. A Meek count with rational arithmetic, from a well-formed
    profile, never has more elected candidates than seats, at any state of
    the round loop; the election it returns has no hopeful candidate and
    at most S elected ones. *)
Theorem meek_rational_seats (rule : Meek.Rule) (E0 : @Election RationalArith) :
Meek.warren rule = false -> well_formed E0 ->
(forall omega_ E, at_head rule omega_ E0 E -> nElected (C (R E)) <= nSeats E) /\
(forall nrounds fuel E',
    Meek.count rule nrounds fuel E0 = Ok E' ->
    hopeful (C (R E')) = [] /\ nElected (C (R E')) <= nSeats E').
Proof.
intros Hw Hwf. split.
- intros omega_ E HE. apply (well_formed_head Hw Hwf HE).
- intros nrounds fuel E' Hc.
  destruct (@count_head _ rule nrounds fuel E0 E' Hc) as (w & E & _ & HE & _ & ->).
  split; [apply finish_no_hopeful|].
  pose proof (well_formed_head Hw Hwf HE) as (((Hnd & _) & _) & Hn & _).
  rewrite (@finish_elected _ E Hnd), finish_nSeats. lia.
Qed.

(** X5. The end of a Meek/Warren count (lines 401-407), for every
    arithmetic: when no identifier is repeated, no candidate is hopeful
    afterwards, and with e elected and h hopeful candidates before, the
    number elected afterwards is e + min(h, max(0, S - e)): hopefuls are
    elected only while fewer than S candidates are elected. *)
Theorem meek_finish_outcome {A : Arith} (E : Election) :
NoDup (map cid (C (R E))) ->
hopeful (C (R (Meek.finish E))) = [] /\
nElected (C (R (Meek.finish E))) =
nElected (C (R E)) +
Z.min (nHopeful (C (R E))) (Z.max 0 (nSeats E - nElected (C (R E)))).
Proof.
intros Hnd. split; [apply finish_no_hopeful|now apply finish_elected].
Qed.

(** X6. Whatever a Meek/Warren count returns, for every arithmetic, is
    the election after the final election or defeat of the hopefuls of a
    state of the round loop at which countComplete held, and it has no
    hopeful candidate. *)
Theorem meek_count_returns_complete {A : Arith} (rule : Meek.Rule)
        (nrounds fuel : nat) (E0 E' : Election) :
Meek.count rule nrounds fuel E0 = Ok E' ->
hopeful (C (R E')) = [] /\
exists omega_ E,
  Meek.omega_value rule = Ok omega_ /\ at_head rule omega_ E0 E /\
  Meek.countComplete E = true /\ E' = Meek.finish E.
Proof.
intros Hc. destruct (@count_head _ rule nrounds fuel E0 E' Hc) as (w & E & Hw & HE & Hcc & ->).
split; [apply finish_no_hopeful|]. exists w, E. auto.
Qed.


(* ===================================================================== *)
(** * Further properties of the WIGM counter                              *)
(* ===================================================================== *)

(** ** The rounds of the WIGM counter *)

(** [r] is the end of the fuel of a model. *)
Definition timed_out {T : Type} (r : result T) : bool :=
match r with
| Timeout => true
| _ => false
end.

Lemma bind_timed_out (T U : Type) (m : result T) (k : T -> result U) :
timed_out m = false -> (forall x, m = Ok x -> timed_out (k x) = false) ->
timed_out (bind m k) = false.
Proof. destruct m; simpl; intros; auto; discriminate. Qed.

Lemma foldM_timed_out (S0 T : Type) (f : S0 -> T -> result S0) (xs : list T) :
(forall s x, timed_out (f s x) = false) ->
forall s, timed_out (foldM f xs s) = false.
Proof.
intros Hf. induction xs as [|x xs IH]; intros s; simpl; [reflexivity|].
apply bind_timed_out; auto.
Qed.

Section WigmRounds.
Context {A : Arith}.
Variable defeatBatch : bool.

(** *** Counting the candidates by status *)

(** The sum of the weights [w] gives the statuses of the candidates. *)
Fixpoint wsum (w : status -> nat) (cs : list Candidate) : nat :=
  match cs with
  | [] => O
  | c :: cs' => (w (cstatus c) + wsum w cs')%nat
  end.

Definition indicator (s t : status) : nat := if status_eqb t s then 1 else 0.

(** The measure of the round loop: two for a hopeful candidate, one for a
    pending one. *)
Definition status_weight (s : status) : nat :=
  match s with
  | Hopeful => 2
  | Pending => 1
  | _ => 0
  end.

Definition mu (cs : list Candidate) : nat := wsum status_weight cs.

Lemma wsum_skeleton (w : status -> nat) (cs : list Candidate) :
  forall cs', skeleton cs' = skeleton cs -> wsum w cs' = wsum w cs.
Proof.
  induction cs as [|c cs IH]; intros [|c' cs'] H; try discriminate;
    [reflexivity|].
  injection H as _ Hs H. cbn [wsum]. rewrite Hs. f_equal. now apply IH.
Qed.

Lemma wsum_indicator (s : status) (cs : list Candidate) :
  wsum (indicator s) cs = length (filter (has_status s) cs).
Proof.
  induction cs as [|c cs IH]; [reflexivity|].
  cbn [wsum filter]. rewrite IH. unfold indicator, has_status.
  destruct (status_eqb (cstatus c) s); reflexivity.
Qed.

Lemma mu_counts (cs : list Candidate) :
  mu cs = (2 * length (hopeful cs) + length (pending cs))%nat.
Proof.
  unfold hopeful, pending, mu.
  induction cs as [|c cs IH]; [reflexivity|].
  cbn [wsum filter]. rewrite IH. unfold has_status.
  destruct (cstatus c); cbn [status_eqb status_weight length]; lia.
Qed.

Lemma wsum_update (w : status -> nat) (s : status) (cs : list Candidate)
      (k : nat) (d : Candidate) :
  NoDup (map cid cs) -> lookup k cs = Some d ->
  (wsum w (update k (set_status s) cs) + w (cstatus d) = wsum w cs + w s)%nat.
Proof.
  unfold lookup. induction cs as [|c cs IH]; intros Hnd Hl; [discriminate|].
  inversion Hnd as [|? ? Hn Hnd']; subst. cbn [find] in Hl.
  unfold update. cbn [map]. fold (update k (set_status s) cs).
  destruct (Nat.eqb_spec (cid c) k) as [Heq|Hne].
  - injection Hl as <-. subst k. rewrite (@update_absent _ _ _ _ Hn).
    cbn [wsum cstatus set_status]. lia.
  - specialize (IH Hnd' Hl). cbn [wsum]. lia.
Qed.

Lemma update_status_cids (s : status) (k : nat) (cs : list Candidate) :
  map cid (update k (set_status s) cs) = map cid cs.
Proof. apply update_cids. reflexivity. Qed.

Lemma skeleton_cids (cs cs' : list Candidate) :
  skeleton cs' = skeleton cs -> map cid cs' = map cid cs.
Proof.
  intros H. unfold skeleton in H.
  apply (f_equal (map fst)) in H. rewrite !map_map in H. exact H.
Qed.

(** From [cs] to [cs'], [a] hopefuls were set pending, [b] pending
    candidates elected and [c] hopefuls defeated; nothing else happened to a
    status. *)
Definition moved (a b c : nat) (cs cs' : list Candidate) : Prop :=
  map cid cs' = map cid cs /\
  forall w : status -> nat,
    (wsum w cs' + (a + c) * w Hopeful + b * w Pending =
     wsum w cs + a * w Pending + b * w Elected + c * w Defeated)%nat.

Lemma moved_skeleton (cs cs' : list Candidate) :
  skeleton cs' = skeleton cs -> moved 0 0 0 cs cs'.
Proof.
  intros H. split; [now apply skeleton_cids|]. intros w.
  rewrite (@wsum_skeleton w _ _ H). lia.
Qed.

Lemma moved_trans (a b c a' b' c' : nat) (cs cs' cs'' : list Candidate) :
  moved a b c cs cs' -> moved a' b' c' cs' cs'' ->
  moved (a + a') (b + b') (c + c') cs cs''.
Proof.
  intros [H1 H2] [H3 H4]. split; [congruence|]. intros w.
  specialize (H2 w). specialize (H4 w). lia.
Qed.

Lemma moved_counts (a b c : nat) (cs cs' : list Candidate) :
  moved a b c cs cs' ->
  nHopeful cs' = nHopeful cs - Z.of_nat a - Z.of_nat c /\
  nPending cs' = nPending cs + Z.of_nat a - Z.of_nat b /\
  nElected cs' = nElected cs + Z.of_nat b /\
  (mu cs' + a + b + 2 * c = mu cs)%nat.
Proof.
  intros [_ H]. unfold nHopeful, nPending, nElected, hopeful, pending, elected.
  rewrite <- !wsum_indicator.
  pose proof (H (indicator Hopeful)) as H1.
  pose proof (H (indicator Pending)) as H2.
  pose proof (H (indicator Elected)) as H3.
  pose proof (H status_weight) as H4.
  change (indicator Hopeful Hopeful) with 1%nat in H1.
  change (indicator Hopeful Pending) with 0%nat in H1.
  change (indicator Hopeful Elected) with 0%nat in H1.
  change (indicator Hopeful Defeated) with 0%nat in H1.
  change (indicator Pending Hopeful) with 0%nat in H2.
  change (indicator Pending Pending) with 1%nat in H2.
  change (indicator Pending Elected) with 0%nat in H2.
  change (indicator Pending Defeated) with 0%nat in H2.
  change (indicator Elected Hopeful) with 0%nat in H3.
  change (indicator Elected Pending) with 0%nat in H3.
  change (indicator Elected Elected) with 1%nat in H3.
  change (indicator Elected Defeated) with 0%nat in H3.
  cbn [status_weight] in H4.
  unfold mu. repeat split; lia.
Qed.

(** The statuses of the candidates [l], all of status [s0], are set to [s],
    one by one. *)
Lemma fold_status_wsum (w : status -> nat) (s0 s : status) (l : list Candidate) :
  forall cs,
    NoDup (map cid cs) -> NoDup (map cid l) ->
    (forall c, In c l -> exists d, lookup (cid c) cs = Some d /\
                                   cstatus d = s0) ->
    (wsum w (fold_left (fun acc c => update (cid c) (set_status s) acc) l cs)
     + length l * w s0 = wsum w cs + length l * w s)%nat /\
    map cid (fold_left (fun acc c => update (cid c) (set_status s) acc) l cs)
    = map cid cs.
Proof.
  induction l as [|c l IH]; intros cs Hnd Hl Hh; cbn [fold_left length].
  - split; [lia|reflexivity].
  - inversion Hl as [|? ? Hn Hl']; subst.
    destruct (Hh c (or_introl eq_refl)) as (d & Hd & Hs).
    pose proof (@wsum_update w s cs (cid c) d Hnd Hd) as Hmu. rewrite Hs in Hmu.
    destruct (IH (update (cid c) (set_status s) cs)) as [IH1 IH2].
    + now rewrite update_status_cids.
    + exact Hl'.
    + intros c' Hc'. destruct (Hh c' (or_intror Hc')) as (d' & Hd' & Hs').
      exists d'. split; [|exact Hs'].
      rewrite lookup_update_other; [exact Hd'|reflexivity|].
      intros Heq. apply Hn. rewrite Heq. now apply in_map.
    + split; [|now rewrite IH2, update_status_cids].
      lia.
Qed.

Lemma hopeful_lookup (cs l : list Candidate) :
  NoDup (map cid cs) -> (forall c, In c l -> In c (hopeful cs)) ->
  forall c, In c l -> exists d, lookup (cid c) cs = Some d /\ cstatus d = Hopeful.
Proof.
  intros Hnd Hl c Hc. specialize (Hl c Hc). apply filter_In in Hl.
  destruct Hl as [Hin Hs]. exists c. split; [now apply lookup_NoDup|].
  now apply has_status_iff.
Qed.

Lemma NoDup_cids_incl (cs l : list Candidate) :
  NoDup (map cid cs) -> NoDup l -> (forall c, In c l -> In c cs) ->
  NoDup (map cid l).
Proof.
  intros Hnd Hl Hin. induction l as [|c l IH]; [constructor|].
  inversion Hl as [|? ? Hn Hl']; subst. cbn [map]. constructor.
  - intros Hc. apply in_map_iff in Hc. destruct Hc as (c' & Heq & Hc').
    assert (c' = c).
    { pose proof (lookup_NoDup _ c' Hnd (Hin c' (or_intror Hc'))) as H1.
      pose proof (lookup_NoDup _ c Hnd (Hin c (or_introl eq_refl))) as H2.
      rewrite Heq in H1. congruence. }
    subst c'. contradiction.
  - apply IH; [exact Hl'|]. intros c' Hc'. apply Hin. now right.
Qed.

(** What a step keeps of the election. *)
Definition kept_frame (E E' : Election) : Prop :=
  nSeats E' = nSeats E /\ nBallots E' = nBallots E /\
  quota (R E') = quota (R E) /\ rounds E' = rounds E.

Lemma same_frame_refl (E : Election) : kept_frame E E.
Proof. repeat split. Qed.

Lemma same_frame_trans (E E' E'' : Election) :
  kept_frame E E' -> kept_frame E' E'' -> kept_frame E E''.
Proof. unfold kept_frame. intros (H1 & H2 & H3 & H4) (H5 & H6 & H7 & H8).
       repeat split; congruence. Qed.

(** A fold of status changes over an election. *)
Lemma fold_transition (kind : action_kind) (s : status) (msg : string)
      (l : list Candidate) :
  forall E,
    C (R (fold_left (fun E' c => with_R (transition kind s (cid c) msg) E') l E))
    = fold_left (fun acc c => update (cid c) (set_status s) acc) l (C (R E)) /\
    ballots (fold_left (fun E' c => with_R (transition kind s (cid c) msg) E') l E)
    = ballots E /\
    kept_frame E
      (fold_left (fun E' c => with_R (transition kind s (cid c) msg) E') l E).
Proof.
  induction l as [|c l IH]; intros E; cbn [fold_left].
  - split; [reflexivity|]. split; [reflexivity|apply same_frame_refl].
  - destruct (IH (with_R (transition kind s (cid c) msg) E)) as (-> & -> & H).
    split; [reflexivity|]. split; [reflexivity|].
    eapply same_frame_trans; [|exact H]. repeat split.
Qed.

(** *** The steps of a round *)

Definition pend_list (E : Election) : list Candidate :=
  filter (Wigm.hasQuota E) (sortByVoteReversed (hopeful (C (R E)))).

Lemma pend_list_hopeful (E : Election) (c : Candidate) :
  In c (pend_list E) -> In c (hopeful (C (R E))) /\ Wigm.hasQuota E c = true.
Proof.
  unfold pend_list. intros Hc. apply filter_In in Hc. destruct Hc as [Hc Hq].
  split; [|exact Hq].
  unfold sortByVoteReversed, sortByVote in Hc. apply in_rev in Hc.
  now apply isort_In in Hc.
Qed.

Lemma pend_list_NoDup (E : Election) :
  NoDup (map cid (C (R E))) -> NoDup (map cid (pend_list E)).
Proof.
  intros Hnd. unfold pend_list. apply NoDup_cid_filter.
  unfold sortByVoteReversed, sortByVote.
  apply NoDup_cid_perm with (l := hopeful (C (R E))).
  - rewrite <- Permutation_rev. symmetry. apply isort_perm.
  - now apply NoDup_cid_filter.
Qed.

Lemma pend_winners_fold (E : Election) :
  C (R (Wigm.pend_winners E)) =
  fold_left (fun acc c => update (cid c) (set_status Pending) acc)
            (pend_list E) (C (R E)) /\
  ballots (Wigm.pend_winners E) = ballots E /\
  kept_frame E (Wigm.pend_winners E).
Proof. apply (@fold_transition KPend Pending "Pend"). Qed.

Lemma pend_winners_moves (E : Election) :
  NoDup (map cid (C (R E))) ->
  exists a, moved a 0 0 (C (R E)) (C (R (Wigm.pend_winners E))).
Proof.
  intros Hnd. destruct (pend_winners_fold E) as (HC & _ & _). rewrite HC.
  exists (length (pend_list E)). split.
  - apply (@fold_status_wsum (fun _ => O) Hopeful Pending); auto.
    + now apply pend_list_NoDup.
    + apply hopeful_lookup; [exact Hnd|]. intros c Hc.
      now apply pend_list_hopeful.
  - intros w.
    destruct (@fold_status_wsum w Hopeful Pending (pend_list E) (C (R E)) Hnd)
      as [H _].
    + now apply pend_list_NoDup.
    + apply hopeful_lookup; [exact Hnd|]. intros c Hc.
      now apply pend_list_hopeful.
    + lia.
Qed.

Lemma defeat_fold (msg : string) (l : list Candidate) (E : Election) :
  C (R (fold_left (fun E' c => with_R (defeat (cid c) msg) E') l E)) =
  fold_left (fun acc c => update (cid c) (set_status Defeated) acc) l (C (R E)) /\
  ballots (fold_left (fun E' c => with_R (defeat (cid c) msg) E') l E) = ballots E /\
  kept_frame E (fold_left (fun E' c => with_R (defeat (cid c) msg) E') l E).
Proof. apply (@fold_transition KDefeat Defeated msg). Qed.

Lemma defeat_fold_moves (msg : string) (l : list Candidate) (E : Election) :
  NoDup (map cid (C (R E))) -> NoDup (map cid l) ->
  (forall c, In c l -> In c (hopeful (C (R E)))) ->
  moved 0 0 (length l) (C (R E))
        (C (R (fold_left (fun E' c => with_R (defeat (cid c) msg) E') l E))).
Proof.
  intros Hnd Hl Hin. destruct (defeat_fold msg l E) as (HC & _ & _). rewrite HC.
  split.
  - apply (@fold_status_wsum (fun _ => O) Hopeful Defeated); auto.
    now apply hopeful_lookup.
  - intros w.
    destruct (@fold_status_wsum w Hopeful Defeated l (C (R E)) Hnd Hl) as [H _].
    + now apply hopeful_lookup.
    + lia.
Qed.

Lemma transfer_and_credit_skeleton (cs : list Candidate) (b : Ballot) :
  skeleton (fst (Wigm.transfer_and_credit cs b)) = skeleton cs.
Proof.
  unfold Wigm.transfer_and_credit. destruct (Wigm.transfer cs b) as [b' live].
  destruct live; [|reflexivity].
  destruct (Wigm.topRank b'); [apply skeleton_add_vote|reflexivity].
Qed.

Lemma transfer_ballots_skeleton
      (reweigh : list Candidate -> Ballot -> result Ballot) (k : nat)
      (bs : list Ballot) :
  forall cs done cs' bs',
    foldM (fun st b =>
             let '(cs0, done0) := st in
             if Wigm.topped_at k b then
               b1 <- reweigh cs0 b ;;
               let '(cs1, b2) := Wigm.transfer_and_credit cs0 b1 in
               Ok (cs1, done0 ++ [b2])
             else Ok (cs0, done0 ++ [b]))
          bs (cs, done) = Ok (cs', bs') ->
    skeleton cs' = skeleton cs.
Proof.
  induction bs as [|b bs IH]; intros cs done cs' bs'; cbn [foldM].
  - intros [= <- _]. reflexivity.
  - destruct (Wigm.topped_at k b).
    + destruct (reweigh cs b) as [b1| |]; try discriminate. cbn [bind].
      pose proof (transfer_and_credit_skeleton cs b1) as Hs.
      destruct (Wigm.transfer_and_credit cs b1) as [cs1 b2]. cbn [fst] in Hs.
      cbn [bind]. intros H. rewrite (IH _ _ _ _ H). exact Hs.
    + cbn [bind]. apply IH.
Qed.

Lemma transfer_ballots_timed_out
      (reweigh : list Candidate -> Ballot -> result Ballot) (k : nat)
      (cs : list Candidate) (bs : list Ballot) :
  (forall cs0 b, timed_out (reweigh cs0 b) = false) ->
  timed_out (Wigm.transfer_ballots reweigh k cs bs) = false.
Proof.
  intros Hr. unfold Wigm.transfer_ballots. apply foldM_timed_out.
  intros [cs0 done0] b. destruct (Wigm.topped_at k b); [|reflexivity].
  apply bind_timed_out; [apply Hr|]. intros b1 _.
  destruct (Wigm.transfer_and_credit cs0 b1). reflexivity.
Qed.

Lemma transfer_defeated_spec (E E' : Election) (c : Candidate) :
  Wigm.transfer_defeated E c = Ok E' ->
  skeleton (C (R E')) = skeleton (C (R E)) /\ kept_frame E E'.
Proof.
  unfold Wigm.transfer_defeated, Wigm.transfer_ballots.
  destruct (foldM _ _ _) as [[cs bs]| |] eqn:Hf; try discriminate.
  cbn [bind]. intros [= <-]. split; [|repeat split].
  cbn [R with_R with_ballots C]. unfold Wigm.log_transfer, Wigm.set_cand_vote.
  cbn [C add_log set_C].
  rewrite skeleton_update by (intros d; split; reflexivity).
  exact (@transfer_ballots_skeleton _ _ _ _ _ _ _ Hf).
Qed.

Lemma transfer_defeated_timed_out (E : Election) (c : Candidate) :
  timed_out (Wigm.transfer_defeated E c) = false.
Proof.
  unfold Wigm.transfer_defeated. apply bind_timed_out.
  - apply transfer_ballots_timed_out. reflexivity.
  - intros [cs bs] _. reflexivity.
Qed.

Lemma foldM_transfer_defeated (l : list Candidate) :
  forall E E', foldM Wigm.transfer_defeated l E = Ok E' ->
               skeleton (C (R E')) = skeleton (C (R E)) /\ kept_frame E E'.
Proof.
  induction l as [|c l IH]; intros E E'; cbn [foldM].
  - intros [= <-]. split; [reflexivity|apply same_frame_refl].
  - destruct (Wigm.transfer_defeated E c) as [E1| |] eqn:Ht; try discriminate.
    cbn [bind]. intros H. destruct (IH _ _ H) as [H1 H2].
    destruct (@transfer_defeated_spec _ _ _ Ht) as [H3 H4].
    split; [congruence|]. eapply same_frame_trans; eassumption.
Qed.

Lemma sortByOrder_NoDup (cs l : list Candidate) :
  NoDup (map cid cs) -> NoDup l -> (forall c, In c l -> In c (hopeful cs)) ->
  NoDup (map cid (sortByOrder l)) /\
  (forall c, In c (sortByOrder l) -> In c (hopeful cs)) /\
  length (sortByOrder l) = length l.
Proof.
  intros Hnd Hl Hin. split; [|split].
  - apply NoDup_cids_incl with (cs := cs); [exact Hnd| |].
    + unfold sortByOrder. now apply isort_NoDup.
    + intros c Hc. unfold sortByOrder in Hc. apply isort_In in Hc.
      apply Hin in Hc. apply filter_In in Hc. tauto.
  - intros c Hc. unfold sortByOrder in Hc. apply isort_In in Hc. now apply Hin.
  - unfold sortByOrder. apply isort_length.
Qed.

Lemma defeat_sure_losers_moves (l : list Candidate) (E E' : Election) (stop : bool) :
  NoDup (map cid (C (R E))) -> NoDup l ->
  (forall c, In c l -> In c (hopeful (C (R E)))) ->
  Wigm.defeat_sure_losers l E = Ok (E', stop) ->
  moved 0 0 (length l) (C (R E)) (C (R E')) /\ kept_frame E E' /\
  (stop = true -> Wigm.loop_test E' = false).
Proof.
  intros Hnd Hl Hin. unfold Wigm.defeat_sure_losers. cbv zeta.
  destruct (@sortByOrder_NoDup (C (R E)) l Hnd Hl Hin) as (Hl' & Hin' & Hlen).
  pose proof (@defeat_fold_moves "Defeat sure loser" (sortByOrder l) E Hnd Hl' Hin')
    as Hm.
  destruct (defeat_fold "Defeat sure loser" (sortByOrder l) E) as (_ & _ & Hf).
  rewrite Hlen in Hm.
  set (E1 := fold_left _ (sortByOrder l) E) in *.
  destruct (_ <=? _) eqn:Hle.
  - intros [= <- <-]. split; [exact Hm|]. split; [exact Hf|]. intros _.
    unfold Wigm.loop_test. apply Z.leb_le in Hle.
    apply andb_false_iff. left. apply Z.ltb_ge. exact Hle.
  - destruct (foldM _ _ _) as [E2| |] eqn:Hfm; try discriminate.
    cbn [bind]. intros [= <- <-].
    destruct (@foldM_transfer_defeated _ _ _ Hfm) as [Hs Hf2].
    split; [|split; [eapply same_frame_trans; eassumption|discriminate]].
    pose proof (moved_trans Hm (@moved_skeleton _ _ Hs)) as Hm2.
    cbn [Nat.add] in Hm2. rewrite Nat.add_0_r in Hm2. exact Hm2.
Qed.

Lemma transfer_high_surplus_moves (E E' : Election) :
  NoDup (map cid (C (R E))) ->
  Wigm.transfer_high_surplus E = Ok E' ->
  moved 0 1 0 (C (R E)) (C (R E')) /\ kept_frame E E'.
Proof.
  intros Hnd Ht.
  destruct (@transfer_high_surplus_spec _ _ _ Hnd Ht) as (h & Hp & _ & _ & _ & Hs).
  apply filter_In in Hp. destruct Hp as [Hin Hst]. apply has_status_iff in Hst.
  split.
  - split.
    + rewrite (@skeleton_cids _ _ Hs). apply update_status_cids.
    + intros w. rewrite (@wsum_skeleton w _ _ Hs).
      pose proof (@wsum_update w Elected (C (R E)) (cid h) h Hnd
                    (@lookup_NoDup _ _ _ Hnd Hin)) as Hmu.
      rewrite Hst in Hmu. lia.
  - revert Ht. unfold Wigm.transfer_high_surplus.
    destruct (vmax _); try discriminate. cbn [bind].
    destruct (Wigm.breakTie _ _ _) as [[h' r0]| |] eqn:Hb; try discriminate.
    cbn [bind].
    destruct (@wigm_breakTie_first _ _ _ _ _ _ Hb) as (_ & _ & _ & Hq).
    destruct (Wigm.transfer_ballots _ _ _ _) as [[cs bs]| |]; try discriminate.
    cbn [bind]. intros [= <-]. repeat split. exact Hq.
Qed.

Lemma defeat_low_moves (E E' : Election) :
  NoDup (map cid (C (R E))) ->
  Wigm.defeat_low E = Ok E' ->
  moved 0 0 1 (C (R E)) (C (R E')) /\ kept_frame E E'.
Proof.
  intros Hnd. unfold Wigm.defeat_low.
  destruct (vmin _) as [lv| |]; try discriminate. cbn [bind].
  destruct (Wigm.breakTie _ _ _) as [[t r0]| |] eqn:Hb; try discriminate.
  cbn [bind]. intros Ht.
  destruct (@wigm_breakTie_first _ _ _ _ _ _ Hb) as (Hin & _ & HC & Hq).
  apply filter_In in Hin. destruct Hin as [Hh _].
  apply filter_In in Hh. destruct Hh as [Hin Hst]. apply has_status_iff in Hst.
  destruct (@transfer_defeated_spec _ _ _ Ht) as [Hs Hf].
  cbn [R with_R C rounds] in Hs. unfold defeat, transition in Hs.
  cbn [C add_log set_C] in Hs. rewrite HC in Hs.
  split.
  - split.
    + rewrite (@skeleton_cids _ _ Hs). apply update_status_cids.
    + intros w. rewrite (@wsum_skeleton w _ _ Hs).
      pose proof (@wsum_update w Defeated (C (R E)) (cid t) t Hnd
                    (@lookup_NoDup _ _ _ Hnd Hin)) as Hmu.
      rewrite Hst in Hmu. lia.
  - destruct Hf as (H1 & H2 & H3 & H4).
    cbn [nSeats nBallots with_R R rounds] in H1, H2, H3, H4.
    unfold defeat, transition in H3. cbn [quota add_log set_C] in H3.
    repeat split; congruence.
Qed.

Lemma batchDefeat_hopefuls (E : Election) (c : Candidate) :
  In c (Wigm.batchDefeat E) -> In c (hopeful (C (R E))).
Proof.
  unfold Wigm.batchDefeat. intros H. apply sure_losers_incl in H.
  unfold sortByVote in H. now apply isort_In in H.
Qed.

Lemma batchDefeat_distinct (E : Election) :
  NoDup (map cid (C (R E))) -> NoDup (Wigm.batchDefeat E).
Proof.
  intros H. unfold Wigm.batchDefeat. apply sure_losers_NoDup.
  now apply sortByVote_hopeful_NoDup.
Qed.

(** A batch leaves hopefuls enough for the seats. *)
Lemma batchDefeat_size (E : Election) :
  Wigm.batchDefeat E <> [] ->
  Z.of_nat (length (Wigm.batchDefeat E)) <=
  nHopeful (C (R E)) - seatsLeftToFill E.
Proof.
  unfold Wigm.batchDefeat. intros Hne.
  destruct (sure_losers_properties
              (Wigm.pending_surplus (R E))
              (Z.of_nat (length (hopeful (C (R E)))) - seatsLeftToFill E)
              (sortByVote (hopeful (C (R E)))))
    as (_ & _ & _ & _ & H & _).
  apply H. exact Hne.
Qed.

Lemma loop_test_counts (E : Election) :
  Wigm.loop_test E = true ->
  nSeats E < nElected (C (R E)) + nPending (C (R E)) + nHopeful (C (R E)) /\
  nElected (C (R E)) + nPending (C (R E)) < nSeats E.
Proof.
  unfold Wigm.loop_test, seatsLeftToFill, nHopeful. intros H.
  apply andb_true_iff in H. destruct H as [H1 H2].
  apply Z.ltb_lt in H1, H2. lia.
Qed.

(** One turn of the loop: what it does to the statuses. *)
Lemma round_moves (E E' : Election) (stop : bool) :
  NoDup (map cid (C (R E))) -> Wigm.loop_test E = true ->
  Wigm.round defeatBatch E = Ok (E', stop) ->
  exists a b c,
    moved a b c (C (R E)) (C (R E')) /\ (1 <= b + c)%nat /\
    Z.of_nat c <= nElected (C (R E)) + nPending (C (R E)) + nHopeful (C (R E))
                  - nSeats E /\
    nSeats E' = nSeats E /\ nBallots E' = nBallots E /\
    quota (R E') = quota (R E) /\ rounds E' = R E :: rounds E /\
    (stop = true -> Wigm.loop_test E' = false).
Proof.
  intros Hnd Hloop. apply loop_test_counts in Hloop. unfold Wigm.round. cbv zeta.
  assert (Hnd0 : NoDup (map cid (C (R (newRound E))))) by exact Hnd.
  destruct (@pend_winners_moves (newRound E) Hnd0) as [a Ha].
  destruct (pend_winners_fold (newRound E)) as (_ & _ & Hf).
  set (E1 := Wigm.pend_winners (newRound E)) in *.
  change (C (R (newRound E))) with (C (R E)) in Ha.
  assert (Hnd1 : NoDup (map cid (C (R E1)))) by (destruct Ha as [-> _]; exact Hnd).
  destruct (moved_counts Ha) as (Hh1 & Hp1 & He1 & _).
  destruct Hf as (Hf1 & Hf2 & Hf3 & Hf4).
  cbn [newRound nSeats nBallots R quota rounds] in Hf1, Hf2, Hf3, Hf4.
  destruct (nonempty (if defeatBatch then Wigm.batchDefeat E1 else [])) eqn:Hsl.
  - destruct defeatBatch; [|discriminate]. intros Hd.
    assert (Hne : Wigm.batchDefeat E1 <> []).
    { destruct (Wigm.batchDefeat E1); [discriminate|congruence]. }
    destruct (@defeat_sure_losers_moves (Wigm.batchDefeat E1) E1 E' stop Hnd1)
      as (Hm & (Hg1 & Hg2 & Hg3 & Hg4) & Hstop); auto.
    + now apply batchDefeat_distinct.
    + apply batchDefeat_hopefuls.
    + pose proof (@batchDefeat_size E1 Hne) as Hsize.
      unfold seatsLeftToFill in Hsize.
      exists (a + 0)%nat, (0 + 0)%nat, (0 + length (Wigm.batchDefeat E1))%nat.
      split; [exact (moved_trans Ha Hm)|].
      split; [destruct (Wigm.batchDefeat E1); [congruence|cbn [length]; lia]|].
      split; [lia|]. repeat split; try congruence; auto.
  - destruct (nonempty (pending (C (R E1)))) eqn:Hp.
    + destruct (Wigm.transfer_high_surplus E1) as [E2| |] eqn:Ht; try discriminate.
      cbn [bind]. intros [= <- <-].
      destruct (@transfer_high_surplus_moves _ _ Hnd1 Ht)
        as (Hm & Hg1 & Hg2 & Hg3 & Hg4).
      exists (a + 0)%nat, (0 + 1)%nat, (0 + 0)%nat.
      split; [exact (moved_trans Ha Hm)|].
      split; [lia|]. split; [lia|]. repeat split; try congruence; try discriminate.
    + destruct (nonempty (hopeful (C (R E1)))) eqn:Hh.
      * destruct (Wigm.defeat_low E1) as [E2| |] eqn:Ht; try discriminate.
        cbn [bind]. intros [= <- <-].
        destruct (@defeat_low_moves _ _ Hnd1 Ht) as (Hm & Hg1 & Hg2 & Hg3 & Hg4).
        exists (a + 0)%nat, (0 + 0)%nat, (0 + 1)%nat.
        split; [exact (moved_trans Ha Hm)|].
        split; [lia|]. split; [lia|]. repeat split; try congruence; try discriminate.
      * exfalso. unfold nHopeful, nPending in Hh1, Hp1.
        destruct (hopeful (C (R E1))); [|discriminate].
        destruct (pending (C (R E1))); [|discriminate].
        cbn [length] in Hh1, Hp1. unfold nPending, nHopeful in Hloop. lia.
Qed.

Lemma breakTie_timed_out (r : Round) (tied : list Candidate) (reason : string) :
  timed_out (Wigm.breakTie r tied reason) = false.
Proof.
  unfold Wigm.breakTie. destruct tied as [|t [|t' tied]]; try reflexivity;
    destruct (sortByOrder _); reflexivity.
Qed.

Lemma round_timed_out (E : Election) :
  timed_out (Wigm.round defeatBatch E) = false.
Proof.
  unfold Wigm.round. cbv zeta.
  set (E1 := Wigm.pend_winners (newRound E)).
  destruct (nonempty (if defeatBatch then Wigm.batchDefeat E1 else [])).
  - unfold Wigm.defeat_sure_losers. cbv zeta. destruct (_ <=? _); [reflexivity|].
    apply bind_timed_out; [|reflexivity].
    apply foldM_timed_out. apply transfer_defeated_timed_out.
  - destruct (nonempty (pending (C (R E1)))).
    + apply bind_timed_out; [|reflexivity].
      unfold Wigm.transfer_high_surplus.
      apply bind_timed_out; [destruct (map _ _); reflexivity|]. intros hv _.
      apply bind_timed_out; [apply breakTie_timed_out|]. intros [h r0] _.
      apply bind_timed_out; [|intros [cs bs] _; reflexivity].
      apply transfer_ballots_timed_out. intros cs0 b.
      unfold Wigm.surplus_weight. destruct (lookup _ _); [|reflexivity].
      unfold over. destruct (is_zero _); reflexivity.
    + destruct (nonempty (hopeful (C (R E1)))); [|reflexivity].
      apply bind_timed_out; [|reflexivity].
      unfold Wigm.defeat_low.
      apply bind_timed_out; [destruct (map _ _); reflexivity|]. intros lv _.
      apply bind_timed_out; [apply breakTie_timed_out|]. intros [t r0] _.
      apply transfer_defeated_timed_out.
Qed.

Lemma loop_test_mu (E : Election) :
  Wigm.loop_test E = true -> (4 <= mu (C (R E)))%nat.
Proof.
  intros H. apply loop_test_counts in H. rewrite mu_counts.
  unfold nElected, nPending, nHopeful in H. lia.
Qed.

Lemma rounds_loop_fuel (nrounds : nat) :
  forall E, NoDup (map cid (C (R E))) -> (mu (C (R E)) <= nrounds)%nat ->
            timed_out (Wigm.rounds_loop defeatBatch nrounds E) = false.
Proof.
  induction nrounds as [|k IH]; intros E Hnd Hmu; cbn [Wigm.rounds_loop].
  - destruct (Wigm.loop_test E) eqn:Hl; [|reflexivity].
    apply loop_test_mu in Hl. lia.
  - destruct (Wigm.loop_test E) eqn:Hl; [|reflexivity].
    apply bind_timed_out; [apply round_timed_out|].
    intros [E' stop] Hr. destruct stop; [reflexivity|].
    destruct (@round_moves E E' false Hnd Hl Hr) as (a & b & c & Hm & Hbc & _).
    destruct (moved_counts Hm) as (_ & _ & _ & Hmu').
    apply IH; [destruct Hm as [-> _]; exact Hnd|lia].
Qed.

Lemma rounds_loop_rounds (nrounds : nat) :
  forall E E', NoDup (map cid (C (R E))) ->
               Wigm.rounds_loop defeatBatch nrounds E = Ok E' ->
               (length (rounds E') + mu (C (R E')) <=
                length (rounds E) + mu (C (R E)))%nat /\
               map cid (C (R E')) = map cid (C (R E)) /\
               Wigm.loop_test E' = false.
Proof.
  induction nrounds as [|k IH]; intros E E' Hnd; cbn [Wigm.rounds_loop].
  - destruct (Wigm.loop_test E) eqn:Hl; [discriminate|]. intros [= <-].
    split; [lia|]. split; [reflexivity|exact Hl].
  - destruct (Wigm.loop_test E) eqn:Hl;
      [|intros [= <-]; split; [lia|split; [reflexivity|exact Hl]]].
    destruct (Wigm.round defeatBatch E) as [[E1 stop]| |] eqn:Hr; try discriminate.
    cbn [bind].
    destruct (@round_moves E E1 stop Hnd Hl Hr)
      as (a & b & c & Hm & Hbc & _ & _ & _ & _ & Hrs & Hstop).
    destruct (moved_counts Hm) as (_ & _ & _ & Hmu').
    destruct stop.
    + intros [= <-]. rewrite Hrs. cbn [length].
      split; [lia|]. split; [apply Hm|now apply Hstop].
    + intros H. destruct (IH E1 E') as (H4 & H5 & H6);
        [destruct Hm as [-> _]; exact Hnd|exact H|].
      rewrite Hrs in H4. cbn [length] in H4.
      split; [lia|]. split; [|exact H6]. destruct Hm as [Hm _]. congruence.
Qed.


(** *** Candidates still in the count *)

Definition nLive (cs : list Candidate) : Z :=
  nElected cs + nPending cs + nHopeful cs.

Lemma rounds_loop_live (nrounds : nat) :
  forall E E', NoDup (map cid (C (R E))) ->
               Wigm.rounds_loop defeatBatch nrounds E = Ok E' ->
               (forall m, m <= nSeats E -> m <= nLive (C (R E)) ->
                          m <= nLive (C (R E'))) /\
               nLive (C (R E')) <= nLive (C (R E)) /\
               nSeats E' = nSeats E.
Proof.
  induction nrounds as [|k IH]; intros E E' Hnd; cbn [Wigm.rounds_loop].
  - destruct (Wigm.loop_test E); [discriminate|]. intros [= <-].
    split; [auto|]. split; [lia|reflexivity].
  - destruct (Wigm.loop_test E) eqn:Hl;
      [|intros [= <-]; split; [auto|split; [lia|reflexivity]]].
    destruct (Wigm.round defeatBatch E) as [[E1 stop]| |] eqn:Hr; try discriminate.
    cbn [bind].
    destruct (@round_moves E E1 stop Hnd Hl Hr)
      as (a & b & c & Hm & _ & Hc & HS & _).
    destruct (moved_counts Hm) as (Hh & Hp & He & _).
    assert (H1 : nLive (C (R E1)) = nLive (C (R E)) - Z.of_nat c)
      by (unfold nLive; lia).
    assert (H2 : nSeats E <= nLive (C (R E1))) by (unfold nLive in *; lia).
    destruct stop.
    + intros [= <-]. split; [intros; lia|]. split; [lia|exact HS].
    + intros H. destruct (IH E1 E') as (H4 & H5 & H6);
        [destruct Hm as [-> _]; exact Hnd|exact H|].
      split; [|split; [lia|congruence]].
      intros m Hm1 Hm2. apply H4; [rewrite HS|]; lia.
Qed.

Lemma skeleton_counts (cs cs' : list Candidate) :
  skeleton cs' = skeleton cs ->
  nHopeful cs' = nHopeful cs /\ nPending cs' = nPending cs /\
  nElected cs' = nElected cs.
Proof.
  intros H. destruct (moved_counts (@moved_skeleton _ _ H)) as (H1 & H2 & H3 & _).
  repeat split; lia.
Qed.

Lemma foldM_ok (S0 T : Type) (f : S0 -> T -> result S0) (xs : list T) :
  (forall s x, exists s', f s x = Ok s') ->
  forall s, exists s', foldM f xs s = Ok s'.
Proof.
  intros Hf. induction xs as [|x xs IH]; intros s; cbn [foldM].
  - now exists s.
  - destruct (Hf s x) as [s1 ->]. cbn [bind]. apply IH.
Qed.

Lemma transfer_defeated_ok (E : Election) (c : Candidate) :
  exists E', Wigm.transfer_defeated E c = Ok E'.
Proof.
  unfold Wigm.transfer_defeated, Wigm.transfer_ballots.
  destruct (@foldM_ok _ _
              (fun st b =>
                 let '(cs', done) := st in
                 if Wigm.topped_at (cid c) b then
                   b1 <- Wigm.keep_weight cs' b ;;
                   let '(cs'', b2) := Wigm.transfer_and_credit cs' b1 in
                   Ok (cs'', done ++ [b2])
                 else Ok (cs', done ++ [b]))
              (ballots E)) with (s := (C (R E), @nil Ballot)) as [[cs bs] ->].
  - intros [cs0 done0] b. destruct (Wigm.topped_at (cid c) b); [|eexists; reflexivity].
    cbn [Wigm.keep_weight bind].
    destruct (Wigm.transfer_and_credit cs0 b). eexists. reflexivity.
  - cbn [bind]. eexists. reflexivity.
Qed.

Lemma defeat_sure_losers_ok (l : list Candidate) (E : Election) :
  exists r, Wigm.defeat_sure_losers l E = Ok r.
Proof.
  unfold Wigm.defeat_sure_losers. cbv zeta.
  destruct (_ <=? _); [eexists; reflexivity|].
  destruct (@foldM_ok _ _ Wigm.transfer_defeated (sortByOrder l)
                      transfer_defeated_ok
                      (fold_left (fun E' c => with_R (defeat (cid c) "Defeat sure loser") E')
                                 (sortByOrder l) E)) as [E2 ->].
  cbn [bind]. eexists. reflexivity.
Qed.

Lemma vmin_In (l : list V) (m : V) : vmin l = Ok m -> In m l.
Proof.
  destruct l as [|x l]; [discriminate|]. simpl. intros [= <-].
  revert x. induction l as [|y l IH]; intros x; simpl; [now left|].
  destruct (IH (if ltb y x then y else x)) as [H|H]; [|now auto].
  destruct (ltb y x); [right; left|left]; congruence.
Qed.

(** B.4 goes through when there is a hopeful candidate. *)
Lemma wigm_defeat_low_ok (E : Election) :
  (forall v : V, eqb v v = true) -> hopeful (C (R E)) <> [] ->
  exists E', Wigm.defeat_low E = Ok E'.
Proof.
  intros Hrefl Hne. unfold Wigm.defeat_low.
  destruct (vmin (map vote (hopeful (C (R E))))) as [lv| |] eqn:Hmin.
  - cbn [bind]. pose proof (vmin_In _ Hmin) as Hin. apply in_map_iff in Hin.
    destruct Hin as (c0 & Hv0 & Hc0).
    destruct (@wigm_breakTie_succeeds _ (R E)
                (filter (fun c => eqb (vote c) lv) (hopeful (C (R E)))) "defeat")
      as (t & r0 & ->).
    { intros Hnil. assert (Hc : In c0 (filter (fun c => eqb (vote c) lv)
                                              (hopeful (C (R E))))).
      { apply filter_In. split; [exact Hc0|]. rewrite Hv0. apply Hrefl. }
      rewrite Hnil in Hc. contradiction. }
    cbn [bind]. apply transfer_defeated_ok.
  - exfalso. destruct (hopeful (C (R E))); [congruence|discriminate].
  - exfalso. destruct (hopeful (C (R E))); discriminate.
Qed.

(** *** The end of the count: lines 387-393 *)

Lemma pending_lookup (cs : list Candidate) (c : Candidate) :
  NoDup (map cid cs) -> In c (pending cs) ->
  exists d, lookup (cid c) cs = Some d /\ cstatus d = Pending.
Proof.
  intros Hnd Hc. apply filter_In in Hc. destruct Hc as [Hin Hs].
  exists c. split; [now apply lookup_NoDup|now apply has_status_iff].
Qed.

Lemma counts_of_wsum (cs cs' : list Candidate) (dh dp de : Z) :
  (Z.of_nat (wsum (indicator Hopeful) cs') =
   Z.of_nat (wsum (indicator Hopeful) cs) + dh) ->
  (Z.of_nat (wsum (indicator Pending) cs') =
   Z.of_nat (wsum (indicator Pending) cs) + dp) ->
  (Z.of_nat (wsum (indicator Elected) cs') =
   Z.of_nat (wsum (indicator Elected) cs) + de) ->
  nHopeful cs' = nHopeful cs + dh /\ nPending cs' = nPending cs + dp /\
  nElected cs' = nElected cs + de.
Proof.
  unfold nHopeful, nPending, nElected, hopeful, pending, elected.
  rewrite <- !wsum_indicator. auto.
Qed.

Lemma elect_pending_counts (E : Election) :
  NoDup (map cid (C (R E))) ->
  nHopeful (C (R (Wigm.elect_pending E))) = nHopeful (C (R E)) /\
  nPending (C (R (Wigm.elect_pending E))) = 0 /\
  nElected (C (R (Wigm.elect_pending E))) =
  nElected (C (R E)) + nPending (C (R E)) /\
  nSeats (Wigm.elect_pending E) = nSeats E /\
  map cid (C (R (Wigm.elect_pending E))) = map cid (C (R E)).
Proof.
  intros Hnd. unfold Wigm.elect_pending.
  destruct (@fold_transition KElect Elected "Elect pending"
              (pending (C (R E))) E) as (HC & _ & (HS & _)).
  unfold elect. rewrite HC, HS.
  assert (Hl : NoDup (map cid (pending (C (R E))))) by now apply NoDup_cid_filter.
  assert (Hw : forall w,
             (wsum w (fold_left (fun acc c => update (cid c) (set_status Elected) acc)
                                (pending (C (R E))) (C (R E)))
              + length (pending (C (R E))) * w Pending =
              wsum w (C (R E)) + length (pending (C (R E))) * w Elected)%nat /\
             map cid (fold_left (fun acc c => update (cid c) (set_status Elected) acc)
                                (pending (C (R E))) (C (R E))) = map cid (C (R E))).
  { intros w. apply (@fold_status_wsum w Pending Elected); auto.
    intros c Hc. now apply pending_lookup. }
  destruct (Hw (indicator Hopeful)) as [H1 Hcid].
  destruct (Hw (indicator Pending)) as [H2 _].
  destruct (Hw (indicator Elected)) as [H3 _].
  change (indicator Hopeful Pending) with 0%nat in H1.
  change (indicator Hopeful Elected) with 0%nat in H1.
  change (indicator Pending Pending) with 1%nat in H2.
  change (indicator Pending Elected) with 0%nat in H2.
  change (indicator Elected Pending) with 0%nat in H3.
  change (indicator Elected Elected) with 1%nat in H3.
  clear HC Hw.
  set (cs' := fold_left (fun acc c => update (cid c) (set_status Elected) acc)
                        _ _) in *.
  assert (Hp : Z.of_nat (length (pending (C (R E)))) =
               Z.of_nat (wsum (indicator Pending) (C (R E)))).
  { now rewrite wsum_indicator. }
  destruct (@counts_of_wsum (C (R E)) cs' 0 (- nPending (C (R E)))
                            (nPending (C (R E)))) as (H4 & H5 & H6);
    try (unfold nPending; lia).
  repeat split; try assumption; lia.
Qed.

Lemma finish_step_counts (E : Election) (c d : Candidate) :
  NoDup (map cid (C (R E))) -> lookup (cid c) (C (R E)) = Some d ->
  cstatus d = Hopeful ->
  nHopeful (C (R (Wigm.finish_step E c))) = nHopeful (C (R E)) - 1 /\
  nPending (C (R (Wigm.finish_step E c))) = nPending (C (R E)) /\
  nElected (C (R (Wigm.finish_step E c))) =
  (if nElected (C (R E)) <? nSeats E then nElected (C (R E)) + 1
   else nElected (C (R E))) /\
  nSeats (Wigm.finish_step E c) = nSeats E /\
  map cid (C (R (Wigm.finish_step E c))) = map cid (C (R E)).
Proof.
  intros Hnd Hk Hs. unfold Wigm.finish_step.
  fold (nElected (C (R E))).
  destruct (nElected (C (R E)) <? nSeats E).
  - cbn [with_R R nSeats elect transition add_log set_C C].
    pose proof (fun w => @wsum_update w Elected (C (R E)) (cid c) d Hnd Hk) as Hw.
    pose proof (Hw (indicator Hopeful)) as H1.
    pose proof (Hw (indicator Pending)) as H2.
    pose proof (Hw (indicator Elected)) as H3.
    rewrite Hs in H1, H2, H3.
    change (indicator Hopeful Hopeful) with 1%nat in H1.
    change (indicator Hopeful Elected) with 0%nat in H1.
    change (indicator Pending Hopeful) with 0%nat in H2.
    change (indicator Pending Elected) with 0%nat in H2.
    change (indicator Elected Hopeful) with 0%nat in H3.
    change (indicator Elected Elected) with 1%nat in H3.
    destruct (@counts_of_wsum (C (R E))
                (update (cid c) (set_status Elected) (C (R E))) (-1) 0 1)
      as (H4 & H5 & H6); try lia.
    repeat split; try assumption; try lia. apply update_status_cids.
  - cbn [with_R R nSeats defeat transition add_log set_C C].
    pose proof (fun w => @wsum_update w Defeated (C (R E)) (cid c) d Hnd Hk) as Hw.
    pose proof (Hw (indicator Hopeful)) as H1.
    pose proof (Hw (indicator Pending)) as H2.
    pose proof (Hw (indicator Elected)) as H3.
    rewrite Hs in H1, H2, H3.
    change (indicator Hopeful Hopeful) with 1%nat in H1.
    change (indicator Hopeful Defeated) with 0%nat in H1.
    change (indicator Pending Hopeful) with 0%nat in H2.
    change (indicator Pending Defeated) with 0%nat in H2.
    change (indicator Elected Hopeful) with 0%nat in H3.
    change (indicator Elected Defeated) with 0%nat in H3.
    destruct (@counts_of_wsum (C (R E))
                (update (cid c) (set_status Defeated) (C (R E))) (-1) 0 0)
      as (H4 & H5 & H6); try lia.
    repeat split; try assumption; try lia. apply update_status_cids.
Qed.

Lemma finish_fold_counts (l : list Candidate) :
  forall E,
    NoDup (map cid (C (R E))) -> NoDup (map cid l) ->
    (forall c, In c l -> exists d, lookup (cid c) (C (R E)) = Some d /\
                                   cstatus d = Hopeful) ->
    nHopeful (C (R (fold_left Wigm.finish_step l E))) =
    nHopeful (C (R E)) - Z.of_nat (length l) /\
    nPending (C (R (fold_left Wigm.finish_step l E))) = nPending (C (R E)) /\
    nElected (C (R (fold_left Wigm.finish_step l E))) =
    nElected (C (R E)) +
    Z.min (Z.of_nat (length l)) (Z.max 0 (nSeats E - nElected (C (R E)))).
Proof.
  induction l as [|c l IH]; intros E Hnd Hl Hin; cbn [fold_left length].
  - repeat split; lia.
  - inversion Hl as [|? ? Hn Hl']; subst.
    destruct (Hin c (or_introl eq_refl)) as (d & Hk & Hs).
    destruct (@finish_step_counts E c d Hnd Hk Hs) as (H1 & H2 & H3 & H4 & H5).
    destruct (IH (Wigm.finish_step E c)) as (H6 & H7 & H8).
    + now rewrite H5.
    + exact Hl'.
    + intros c' Hc'. destruct (Hin c' (or_intror Hc')) as (d' & Hk' & Hs').
      exists d'. split; [|exact Hs'].
      assert (Hne : cid c <> cid c').
      { intros Heq. apply Hn. rewrite Heq. now apply in_map. }
      unfold Wigm.finish_step. destruct (_ <? _);
        cbn [with_R R elect defeat transition add_log set_C C];
        (rewrite lookup_update_other; [exact Hk'|reflexivity|exact Hne]).
    + rewrite H6, H7, H8, H1, H2, H3, H4.
      destruct (Z.ltb_spec (nElected (C (R E))) (nSeats E)); repeat split; lia.
Qed.

Lemma length_zero_nil (T : Type) (l : list T) : Z.of_nat (length l) = 0 -> l = [].
Proof. destruct l; [reflexivity|cbn [length]; lia]. Qed.

Lemma finish_counts (E : Election) :
  NoDup (map cid (C (R E))) ->
  hopeful (C (R (Wigm.finish E))) = [] /\
  pending (C (R (Wigm.finish E))) = [] /\
  nElected (C (R (Wigm.finish E))) =
  nElected (C (R E)) + nPending (C (R E)) +
  Z.min (nHopeful (C (R E)))
        (Z.max 0 (nSeats E - nElected (C (R E)) - nPending (C (R E)))).
Proof.
  intros Hnd. unfold Wigm.finish. cbv zeta.
  destruct (@elect_pending_counts E Hnd) as (H1 & H2 & H3 & H4 & H5).
  set (E1 := Wigm.elect_pending E) in *.
  assert (Hnd1 : NoDup (map cid (C (R E1)))) by now rewrite H5.
  destruct (@finish_fold_counts (hopeful (C (R E1))) E1 Hnd1) as (H6 & H7 & H8).
  - now apply NoDup_cid_filter.
  - apply hopeful_lookup; auto.
  - fold (nHopeful (C (R E1))) in H6, H8.
    split; [apply length_zero_nil; fold (nHopeful (C (R (fold_left Wigm.finish_step
              (hopeful (C (R E1))) E1)))); lia|].
    split; [apply length_zero_nil; fold (nPending (C (R (fold_left Wigm.finish_step
              (hopeful (C (R E1))) E1)))); lia|].
    rewrite H8, H3, H1, H4. lia.
Qed.

End WigmRounds.

(** X8. The round loop of the WIGM counter comes to an end: with [h] hopeful
  and [p] pending candidates it makes at most [2 * h + p] turns, so that
  this much fuel is enough, and what it returns has left the loop's test
  (the test of [while] is false, also after [break]) with at most
  [2 * h + p] rounds added to the record. *)
Theorem wigm_rounds_bounded {A : Arith} (defeatBatch : bool) (E : Election) :
NoDup (map cid (C (R E))) ->
(forall nrounds,
    (2 * length (hopeful (C (R E))) + length (pending (C (R E))) <= nrounds)%nat ->
    Wigm.rounds_loop defeatBatch nrounds E <> Timeout) /\
(forall nrounds E',
    Wigm.rounds_loop defeatBatch nrounds E = Ok E' ->
    Wigm.loop_test E' = false /\
    (length (rounds E') <=
     length (rounds E) + 2 * length (hopeful (C (R E))) + length (pending (C (R E))))%nat).
Proof.
intros Hnd. split.
- intros nrounds Hn H.
  pose proof (@rounds_loop_fuel A defeatBatch nrounds E Hnd) as Hf.
  rewrite mu_counts in Hf. specialize (Hf Hn). rewrite H in Hf. discriminate.
- intros nrounds E' H.
  destruct (@rounds_loop_rounds A defeatBatch nrounds E E' Hnd H) as (H1 & _ & H2).
  rewrite (mu_counts (C (R E))) in H1. split; [exact H2|lia].
Qed.

(** X9. The end of the WIGM count (step C) leaves no candidate pending or
  hopeful: with [e] elected, [p] pending and [h] hopeful candidates and
  [S] seats it leaves [e + p + min h (max 0 (S - e - p))] elected. *)
Theorem wigm_finish_outcome {A : Arith} (E : Election) :
NoDup (map cid (C (R E))) ->
hopeful (C (R (Wigm.finish E))) = [] /\
pending (C (R (Wigm.finish E))) = [] /\
nElected (C (R (Wigm.finish E))) =
nElected (C (R E)) + nPending (C (R E)) +
Z.min (nHopeful (C (R E)))
      (Z.max 0 (nSeats E - nElected (C (R E)) - nPending (C (R E)))).
Proof. apply finish_counts. Qed.

(** ** The WIGM counter fills the seats *)

Section WigmSeats.
Variable p : Z.
Hypothesis p_nonneg : 0 <= p.

(** What a ballot is worth to the candidate [k]: its vote, when [k] is at
    its top. *)
Definition ballot_value (k : nat) (b : @Ballot (FixedArith p)) : Z :=
  if Wigm.topped_at k b then Wigm.ballot_vote b else 0.

Definition topped_tally (k : nat) (bs : list (@Ballot (FixedArith p))) : Z :=
  fold_right Z.add 0 (map (ballot_value k) bs).

Definition total_vote (cs : list (@Candidate (FixedArith p))) : Z :=
  fold_right Z.add 0 (map (fun c => vote c) cs).

Definition ballots_ok (bs : list (@Ballot (FixedArith p))) : Prop :=
  forall b, In b bs -> 0 <= weight b /\ 0 <= multiplier b.

(** A candidate that is not elected has the votes of the ballots it tops;
    an elected one has the quota, a pending one the quota at least. *)
Definition cand_ok (q : Z) (bs : list (@Ballot (FixedArith p))) (c : @Candidate (FixedArith p)) : Prop :=
  (cstatus c <> Elected -> vote c = topped_tally (cid c) bs) /\
  (cstatus c = Elected -> vote c = q) /\
  (cstatus c = Pending -> q <= vote c).

Definition inv_of (nS nB q : Z) (bs : list (@Ballot (FixedArith p)))
           (cs : list (@Candidate (FixedArith p))) : Prop :=
  NoDup (map cid cs) /\ ballots_ok bs /\ Forall (cand_ok q bs) cs /\
  total_vote cs <= nB * 10 ^ p /\
  nB * 10 ^ p < q * (nS + 1) /\ 0 < q /\ 0 <= nS.

Definition wigm_inv (E : @Election (FixedArith p)) : Prop :=
  inv_of (nSeats E) (nBallots E) (quota (R E)) (ballots E) (C (R E)).

Lemma tally_app (k : nat) (a b : list (@Ballot (FixedArith p))) :
  topped_tally k (a ++ b) = topped_tally k a + topped_tally k b.
Proof.
  unfold topped_tally. induction a as [|x a IH]; cbn [app map fold_right]; lia.
Qed.

Lemma ballot_value_nonneg (k : nat) (b : @Ballot (FixedArith p)) :
  0 <= weight b -> 0 <= multiplier b -> 0 <= ballot_value k b.
Proof.
  intros Hw Hm. unfold ballot_value, Wigm.ballot_vote.
  destruct (Wigm.topped_at k b); [|lia]. cbn. nia.
Qed.

Lemma tally_nonneg (k : nat) (bs : list (@Ballot (FixedArith p))) :
  ballots_ok bs -> 0 <= topped_tally k bs.
Proof.
  unfold topped_tally. induction bs as [|b bs IH]; intros H; cbn [map fold_right]; [lia|].
  destruct (H b (or_introl eq_refl)) as [Hw Hm].
  pose proof (@ballot_value_nonneg k b Hw Hm).
  assert (0 <= fold_right Z.add 0 (map (ballot_value k) bs)).
  { apply IH. intros b' Hb'. apply H. now right. }
  lia.
Qed.

Lemma total_vote_lower (q : Z) (bs : list (@Ballot (FixedArith p))) (cs : list (@Candidate (FixedArith p))) :
  0 < q -> ballots_ok bs -> Forall (cand_ok q bs) cs ->
  q * Z.of_nat (length (elected cs) + length (pending cs)) <= total_vote cs.
Proof.
  intros Hq Hb. unfold total_vote, elected, pending.
  induction 1 as [|c cs Hc _ IH]; cbn [map fold_right filter length]; [lia|].
  destruct Hc as (H1 & H2 & H3). unfold has_status in *.
  pose proof (@tally_nonneg (cid c) bs Hb) as Ht.
  destruct (cstatus c) eqn:Hs; cbn [status_eqb length].
  - rewrite H1 by discriminate. lia.
  - rewrite H1 by discriminate. lia.
  - specialize (H3 eq_refl). rewrite Nat.add_succ_r. lia.
  - specialize (H2 eq_refl). cbn [Nat.add]. lia.
  - rewrite H1 by discriminate. lia.
Qed.

(** The invariant bounds the seats taken. *)
Lemma inv_seats_bound (nS nB q : Z) (bs : list (@Ballot (FixedArith p)))
      (cs : list (@Candidate (FixedArith p))) :
  inv_of nS nB q bs cs -> nElected cs + nPending cs <= nS.
Proof.
  intros (Hnd & Hb & Hc & Ht & Hq & Hq0 & HS).
  pose proof (@total_vote_lower q bs cs Hq0 Hb Hc) as Hl.
  unfold nElected, nPending. rewrite Nat2Z.inj_add in Hl. nia.
Qed.

Lemma total_vote_update (k : nat) (f : @Candidate (FixedArith p) -> @Candidate (FixedArith p))
      (cs : list (@Candidate (FixedArith p))) (c : @Candidate (FixedArith p)) :
  NoDup (map cid cs) -> lookup k cs = Some c ->
  total_vote (update k f cs) = total_vote cs - vote c + vote (f c).
Proof.
  unfold lookup, total_vote.
  induction cs as [|d cs IH]; intros Hnd Hl; [discriminate|].
  inversion Hnd as [|? ? Hn Hnd']; subst. cbn [find] in Hl.
  unfold update. cbn [map fold_right]. fold (update k f cs).
  destruct (Nat.eqb_spec (cid d) k) as [Heq|Hne].
  - injection Hl as <-. subst k. rewrite (@update_absent _ _ _ _ Hn). lia.
  - rewrite (IH Hnd' Hl). lia.
Qed.

Lemma total_vote_status (k : nat) (s : status) (cs : list (@Candidate (FixedArith p))) :
  total_vote (update k (set_status s) cs) = total_vote cs.
Proof.
  unfold total_vote, update. rewrite map_map. f_equal. apply map_ext.
  intros c. destruct (Nat.eqb (cid c) k); reflexivity.
Qed.

(** *** One ballot *)

Lemma advance_loop_fields (steps : nat) (cs : list (@Candidate (FixedArith p))) :
  forall b, weight (Wigm.advance_loop steps cs b) = weight b /\
            multiplier (Wigm.advance_loop steps cs b) = multiplier b.
Proof.
  induction steps as [|k IH]; intros b; cbn [Wigm.advance_loop]; [auto|].
  destruct (Wigm.exhausted b); [auto|].
  destruct (Wigm.top_is_hopeful cs b); [auto|].
  destruct (IH (Wigm.advance b)) as [-> ->]. auto.
Qed.

Lemma exhausted_value (b : @Ballot (FixedArith p)) (j : nat) :
  Wigm.exhausted b = true -> ballot_value j b = 0.
Proof.
  unfold Wigm.exhausted, ballot_value, Wigm.topped_at, Wigm.topRank.
  intros H. apply orb_true_iff in H. destruct H as [H|H].
  - apply Nat.leb_le in H. apply nth_error_None in H. now rewrite H.
  - destruct (nth_error _ _); [|reflexivity].
    destruct (Nat.eqb _ _); [|reflexivity].
    unfold Wigm.ballot_vote. cbn in *. apply Z.eqb_eq in H. rewrite H. lia.
Qed.

(** A ballot that is transferred is credited to a hopeful candidate, or
    is worth nothing to any candidate. *)
Lemma transfer_and_credit_cases (cs : list (@Candidate (FixedArith p))) (b1 : @Ballot (FixedArith p)) :
  let '(cs', b') := Wigm.transfer_and_credit cs b1 in
  weight b' = weight b1 /\ multiplier b' = multiplier b1 /\
  ((cs' = cs /\ forall j, ballot_value j b' = 0) \/
   (exists j c, Wigm.topRank b' = Some j /\ lookup j cs = Some c /\
                cstatus c = Hopeful /\
                cs' = Wigm.add_vote j (Wigm.ballot_vote b') cs)).
Proof.
  unfold Wigm.transfer_and_credit.
  pose proof (transfer_done cs b1) as Hdone.
  destruct (Wigm.transfer cs b1) as [b' live] eqn:Ht. cbn [fst] in Hdone.
  assert (Hb' : b' = Wigm.advance_loop (length (ranking b1) - index b1) cs b1
                /\ live = negb (Wigm.exhausted b')).
  { unfold Wigm.transfer in Ht. injection Ht as <- <-. auto. }
  destruct Hb' as [Hb' Hlive].
  destruct (advance_loop_fields (length (ranking b1) - index b1) cs b1) as [Hw Hm].
  rewrite <- Hb' in Hw, Hm.
  destruct live.
  - destruct (Wigm.exhausted b') eqn:He; [discriminate|].
    destruct Hdone as [Hd|Hd]; [discriminate|].
    unfold Wigm.top_is_hopeful in Hd.
    destruct (Wigm.topRank b') as [j|] eqn:Hj; [|discriminate].
    destruct (lookup j cs) as [c|] eqn:Hl; [|discriminate].
    split; [exact Hw|]. split; [exact Hm|]. right.
    exists j, c. apply has_status_iff in Hd. auto.
  - split; [exact Hw|]. split; [exact Hm|]. left. split; [reflexivity|].
    intros j. apply exhausted_value.
    destruct (Wigm.exhausted b'); [reflexivity|discriminate].
Qed.


(** *** The ballots of one candidate are transferred *)

Lemma tally_cons (j : nat) (b : @Ballot (FixedArith p)) (bs : list (@Ballot (FixedArith p))) :
  topped_tally j (b :: bs) = ballot_value j b + topped_tally j bs.
Proof. reflexivity. Qed.

Lemma tally_middle (j : nat) (done rest : list (@Ballot (FixedArith p))) (b : @Ballot (FixedArith p)) :
  topped_tally j (done ++ b :: rest) = topped_tally j done + ballot_value j b + topped_tally j rest.
Proof. rewrite tally_app, tally_cons. lia. Qed.

Lemma tally_moved (j : nat) (done rest : list (@Ballot (FixedArith p))) (b : @Ballot (FixedArith p)) :
  topped_tally j ((done ++ [b]) ++ rest) = topped_tally j done + ballot_value j b + topped_tally j rest.
Proof. rewrite <- app_assoc. cbn [app]. apply tally_middle. Qed.

Lemma cand_ok_tally (q : Z) (bs bs' : list (@Ballot (FixedArith p))) (c : @Candidate (FixedArith p)) :
  topped_tally (cid c) bs' = topped_tally (cid c) bs -> cand_ok q bs c -> cand_ok q bs' c.
Proof. unfold cand_ok. intros ->. auto. Qed.

Lemma ballot_value_other (j k : nat) (b : @Ballot (FixedArith p)) :
  Wigm.topRank b = Some k -> j <> k -> ballot_value j b = 0.
Proof.
  unfold ballot_value, Wigm.topped_at. intros -> Hne.
  destruct (Nat.eqb_spec k j); [congruence|reflexivity].
Qed.

Lemma ballot_value_top (k : nat) (b : @Ballot (FixedArith p)) :
  Wigm.topRank b = Some k -> ballot_value k b = weight b * multiplier b.
Proof.
  unfold ballot_value, Wigm.topped_at. intros ->. now rewrite Nat.eqb_refl.
Qed.

Lemma topped_at_true (k : nat) (b : @Ballot (FixedArith p)) :
  Wigm.topped_at k b = true -> Wigm.topRank b = Some k.
Proof.
  unfold Wigm.topped_at. destruct (Wigm.topRank b) as [j|]; [|discriminate].
  intros H. apply Nat.eqb_eq in H. now subst.
Qed.

Lemma topped_at_false (k : nat) (b : @Ballot (FixedArith p)) :
  Wigm.topped_at k b = false -> ballot_value k b = 0.
Proof. unfold ballot_value. now intros ->. Qed.

Section Fold.
Variables q N D B : Z.
Variable k : nat.
Variable ck : @Candidate (FixedArith p).
Variable reweigh : list (@Candidate (FixedArith p)) -> @Ballot (FixedArith p) -> result (@Ballot (FixedArith p)).
Hypothesis N_nonneg : 0 <= N.
Hypothesis ck_status : cstatus ck <> Hopeful.
Hypothesis reweigh_ok :
  forall (cs : list (@Candidate (FixedArith p))) (b b1 : @Ballot (FixedArith p)),
    lookup k cs = Some ck -> 0 <= weight b -> reweigh cs b = Ok b1 ->
    multiplier b1 = multiplier b /\ ranking b1 = ranking b /\
    index b1 = index b /\ 0 <= weight b1 /\ weight b1 * D <= weight b * N.

(** The state of the loop over the ballots: [done] are the ballots seen,
    [rest] the ballots to come. *)
Definition mid_inv (cs : list (@Candidate (FixedArith p))) (done rest : list (@Ballot (FixedArith p)))
  : Prop :=
  NoDup (map cid cs) /\ lookup k cs = Some ck /\ ballots_ok (done ++ rest) /\
  Forall (fun c => cid c <> k -> cand_ok q (done ++ rest) c) cs /\
  topped_tally k done = 0 /\
  D * (total_vote cs - vote ck) + N * topped_tally k rest <= D * B.

Definition transfer_step (st : list (@Candidate (FixedArith p)) * list (@Ballot (FixedArith p)))
           (b : @Ballot (FixedArith p)) : result (list (@Candidate (FixedArith p)) * list (@Ballot (FixedArith p))) :=
  let '(cs0, done0) := st in
  if Wigm.topped_at k b then
    b1 <- reweigh cs0 b ;;
    let '(cs1, b2) := Wigm.transfer_and_credit cs0 b1 in
    Ok (cs1, done0 ++ [b2])
  else Ok (cs0, done0 ++ [b]).

Lemma transfer_ballots_step (cs : list (@Candidate (FixedArith p))) (bs : list (@Ballot (FixedArith p))) :
  Wigm.transfer_ballots reweigh k cs bs = foldM transfer_step bs (cs, []).
Proof. reflexivity. Qed.

Lemma ballots_ok_moved (done rest : list (@Ballot (FixedArith p))) (b b' : @Ballot (FixedArith p)) :
  ballots_ok (done ++ b :: rest) ->
  (0 <= weight b' /\ 0 <= multiplier b') ->
  ballots_ok ((done ++ [b']) ++ rest).
Proof.
  intros H Hb' x Hx. rewrite <- app_assoc in Hx. cbn [app] in Hx.
  apply in_app_or in Hx. destruct Hx as [Hx|[<-|Hx]].
  - apply H. apply in_or_app. now left.
  - exact Hb'.
  - apply H. apply in_or_app. right. now right.
Qed.

Lemma transfer_step_mid (cs cs' : list (@Candidate (FixedArith p)))
      (done done' rest : list (@Ballot (FixedArith p))) (b : @Ballot (FixedArith p)) :
  mid_inv cs done (b :: rest) ->
  transfer_step (cs, done) b = Ok (cs', done') ->
  mid_inv cs' done' rest.
Proof.
  intros (Hnd & Hk & Hb & Hc & Hd & Ht). unfold transfer_step.
  assert (Hbb : 0 <= weight b /\ 0 <= multiplier b).
  { apply Hb. apply in_or_app. right. now left. }
  destruct Hbb as [Hw Hm].
  destruct (Wigm.topped_at k b) eqn:Htop.
  - apply topped_at_true in Htop.
    destruct (reweigh cs b) as [b1| |] eqn:Hr; try discriminate. cbn [bind].
    destruct (@reweigh_ok cs b b1 Hk Hw Hr) as (Hm1 & Hr1 & Hi1 & Hw1 & Hle).
    pose proof (transfer_and_credit_cases cs b1) as Hcases.
    destruct (Wigm.transfer_and_credit cs b1) as [cs1 b2].
    destruct Hcases as (Hw2 & Hm2 & Hcases).
    intros [= <- <-].
    assert (Hvk : ballot_value k b = weight b * multiplier b)
      by now apply ballot_value_top.
    assert (Hb2 : ballots_ok ((done ++ [b2]) ++ rest)).
    { apply (@ballots_ok_moved done rest b b2 Hb). rewrite Hw2, Hm2, Hm1.
      split; assumption. }
    rewrite tally_cons, Hvk in Ht.
    destruct Hcases as [[-> Hzero]|(j & c & Hj & Hl & Hs & ->)].
    + split; [exact Hnd|]. split; [exact Hk|]. split; [exact Hb2|].
      split; [|split].
      * eapply Forall_impl; [|exact Hc]. intros d Hd' Hne.
        apply (@cand_ok_tally q (done ++ b :: rest)); [|now apply Hd'].
        rewrite tally_moved, tally_middle, Hzero.
        rewrite (@ballot_value_other (cid d) k b Htop Hne). reflexivity.
      * rewrite tally_app, tally_cons, Hzero, Hd. reflexivity.
      * nia.
    + assert (Hjk : j <> k).
      { intros ->. rewrite Hk in Hl. injection Hl as <-. contradiction. }
      assert (Hx : Wigm.ballot_vote b2 = weight b2 * multiplier b2) by reflexivity.
      split; [unfold Wigm.add_vote; rewrite update_cids; [exact Hnd|reflexivity]|].
      split.
      { unfold Wigm.add_vote. rewrite lookup_update_other; auto. }
      split; [exact Hb2|]. split; [|split].
      * apply Forall_forall. intros d' Hd'. unfold Wigm.add_vote, update in Hd'.
        apply in_map_iff in Hd'. destruct Hd' as (d & <- & Hdin).
        rewrite Forall_forall in Hc. specialize (Hc d Hdin).
        destruct (Nat.eqb_spec (cid d) j) as [Heq|Hne].
        -- intros _. assert (d = c).
           { pose proof (@lookup_NoDup _ cs d Hnd Hdin) as H1.
             rewrite Heq, Hl in H1. congruence. }
           subst d. assert (Hck : cid c <> k) by congruence.
           destruct (Hc Hck) as (H1 & _ & _).
           unfold cand_ok. cbn [cstatus set_vote vote cid]. rewrite Hs.
           split; [|split; discriminate]. intros _.
           rewrite tally_moved. rewrite tally_middle in H1.
           rewrite (@ballot_value_other (cid c) k b Htop Hck) in H1.
           rewrite Heq. rewrite (@ballot_value_top j b2 Hj).
           rewrite Heq in H1.
           specialize (H1 ltac:(rewrite Hs; discriminate)).
           unfold Wigm.ballot_vote. cbn [add scale FixedArith]. lia.
        -- intros Hck. apply (@cand_ok_tally q (done ++ b :: rest)); [|now apply Hc].
           rewrite tally_moved, tally_middle.
           rewrite (@ballot_value_other (cid d) k b Htop Hck).
           rewrite (@ballot_value_other (cid d) j b2 Hj Hne). reflexivity.
      * rewrite tally_app, tally_cons, Hd.
        rewrite (@ballot_value_other k j b2 Hj) by congruence. reflexivity.
      * unfold Wigm.add_vote.
        rewrite (@total_vote_update j _ cs c Hnd Hl).
        cbn [vote set_vote]. rewrite Hx, Hw2, Hm2, Hm1. cbn. nia.
  - intros [= <- <-]. apply topped_at_false in Htop.
    split; [exact Hnd|]. split; [exact Hk|].
    split; [now rewrite <- app_assoc|]. split; [|split].
    + now rewrite <- app_assoc.
    + rewrite tally_app, tally_cons, Htop, Hd. reflexivity.
    + rewrite tally_cons, Htop in Ht. lia.
Qed.

Lemma transfer_fold_mid (rest : list (@Ballot (FixedArith p))) :
  forall (cs cs' : list (@Candidate (FixedArith p))) (done done' : list (@Ballot (FixedArith p))),
    mid_inv cs done rest ->
    foldM transfer_step rest (cs, done) = Ok (cs', done') ->
    mid_inv cs' done' [] /\ skeleton cs' = skeleton cs.
Proof.
  induction rest as [|b rest IH]; intros cs cs' done done' Hm; cbn [foldM].
  - intros [= <- <-]. split; [exact Hm|reflexivity].
  - destruct (transfer_step (cs, done) b) as [[cs1 done1]| |] eqn:Hs;
      try discriminate.
    cbn [bind]. intros Hf.
    pose proof (@transfer_step_mid _ _ _ _ _ _ Hm Hs) as Hm1.
    destruct (IH _ _ _ _ Hm1 Hf) as [H1 H2]. split; [exact H1|].
    rewrite H2. clear - Hs. unfold transfer_step in Hs.
    destruct (Wigm.topped_at k b); [|now injection Hs as <- _].
    destruct (reweigh cs b) as [b1| |]; try discriminate. cbn [bind] in Hs.
    pose proof (transfer_and_credit_skeleton cs b1) as Hsk.
    destruct (Wigm.transfer_and_credit cs b1) as [cs2 b2].
    injection Hs as <- _. exact Hsk.
Qed.

End Fold.


Lemma mid_inv_finish (q N D B : Z) (k : nat) (ck : @Candidate (FixedArith p))
      (cs : list (@Candidate (FixedArith p))) (bs : list (@Ballot (FixedArith p))) (v : Z) :
  0 < D -> mid_inv q N D B k ck cs bs [] ->
  cand_ok q bs (@set_vote (FixedArith p) v ck) ->
  NoDup (map cid (update k (@set_vote (FixedArith p) v) cs)) /\ ballots_ok bs /\
  Forall (cand_ok q bs) (update k (@set_vote (FixedArith p) v) cs) /\
  total_vote (update k (@set_vote (FixedArith p) v) cs) <= B + v.
Proof.
  intros HD (Hnd & Hk & Hb & Hc & Hd & Ht) Hck. rewrite app_nil_r in Hb, Hc.
  split; [rewrite update_cids; [exact Hnd|reflexivity]|].
  split; [exact Hb|]. split.
  - apply Forall_forall. intros d' Hd'. unfold update in Hd'.
    apply in_map_iff in Hd'. destruct Hd' as (d & <- & Hdin).
    rewrite Forall_forall in Hc. specialize (Hc d Hdin).
    destruct (Nat.eqb_spec (cid d) k) as [Heq|Hne]; [|now apply Hc].
    assert (d = ck).
    { pose proof (@lookup_NoDup _ cs d Hnd Hdin) as H1.
      rewrite Heq, Hk in H1. congruence. }
    subst d. exact Hck.
  - rewrite (@total_vote_update k _ cs ck Hnd Hk). cbn [vote set_vote].
    change (topped_tally k []) with 0 in Ht. nia.
Qed.

Lemma lookup_cid (k : nat) (cs : list (@Candidate (FixedArith p))) (c : @Candidate (FixedArith p)) :
  lookup k cs = Some c -> cid c = k.
Proof. intros H. now destruct (@lookup_In _ _ _ _ H). Qed.

Lemma Forall_lookup (P : @Candidate (FixedArith p) -> Prop) (k : nat)
      (cs : list (@Candidate (FixedArith p))) (c : @Candidate (FixedArith p)) :
  Forall P cs -> lookup k cs = Some c -> P c.
Proof.
  intros H Hl. destruct (@lookup_In _ _ _ _ Hl) as [Hin _].
  rewrite Forall_forall in H. now apply H.
Qed.

(** The ballots of a defeated candidate are transferred. *)
Lemma transfer_defeated_inv (E E' : @Election (FixedArith p)) (c ck : @Candidate (FixedArith p)) :
  wigm_inv E -> lookup (cid c) (C (R E)) = Some ck -> cstatus ck = Defeated ->
  Wigm.transfer_defeated E c = Ok E' -> wigm_inv E'.
Proof.
  intros (Hnd & Hb & Hc & Ht & Hq & Hq0 & HS) Hk Hs.
  unfold Wigm.transfer_defeated.
  rewrite transfer_ballots_step.
  destruct (foldM _ _ _) as [[cs bs]| |] eqn:Hf; try discriminate.
  cbn [bind]. intros [= <-].
  pose proof (@Forall_lookup _ _ _ _ Hc Hk) as (Hck & _ & _).
  rewrite (@lookup_cid _ _ _ Hk) in Hck.
  assert (Hmid : mid_inv (quota (R E)) 1 1 (nBallots E * 10 ^ p) (cid c) ck
                         (C (R E)) [] (ballots E)).
  { split; [exact Hnd|]. split; [exact Hk|]. split; [exact Hb|]. split.
    - eapply Forall_impl; [|exact Hc]. auto.
    - split; [reflexivity|].
      assert (Hv : vote ck = topped_tally (cid c) (ballots E))
        by (apply Hck; rewrite Hs; discriminate).
      rewrite <- Hv. lia. }
  assert (HN : 0 <= 1) by lia. assert (HD : 0 < 1) by lia.
  assert (Hst : cstatus ck <> Hopeful) by (rewrite Hs; discriminate).
  assert (Hrw : forall (cs0 : list (@Candidate (FixedArith p))) (b b1 : @Ballot (FixedArith p)),
             lookup (cid c) cs0 = Some ck -> 0 <= weight b ->
             Wigm.keep_weight cs0 b = Ok b1 ->
             multiplier b1 = multiplier b /\ ranking b1 = ranking b /\
             index b1 = index b /\ 0 <= weight b1 /\ weight b1 * 1 <= weight b * 1).
  { intros cs0 b b1 _ Hw [= <-]. repeat split; try reflexivity; lia. }
  destruct (@transfer_fold_mid _ _ _ _ _ _ _ HN Hst Hrw _ _ _ _ _ Hmid Hf)
    as [Hend _].
  destruct (@mid_inv_finish _ _ _ _ _ _ _ _ 0 HD Hend) as (H1 & H2 & H3 & H4).
  { unfold cand_ok. cbn [cstatus set_vote vote cid]. rewrite Hs.
    split; [|split; discriminate]. intros _.
    destruct Hend as (_ & _ & _ & _ & Hz & _).
    rewrite (@lookup_cid _ _ _ Hk). now rewrite Hz. }
  unfold wigm_inv, inv_of.
  cbn [R with_R with_ballots C nSeats nBallots ballots quota].
  unfold Wigm.log_transfer, Wigm.set_cand_vote.
  cbn [C add_log set_C quota].
  split; [exact H1|]. split; [exact H2|]. split; [exact H3|].
  split; [lia|]. auto.
Qed.

(** A status that is not [Elected] is given to a candidate that is not
    elected; a candidate set pending has the quota. *)
Lemma inv_status_update (nS nB q : Z) (bs : list (@Ballot (FixedArith p)))
      (cs : list (@Candidate (FixedArith p))) (k : nat) (d : @Candidate (FixedArith p)) (s : status) :
  inv_of nS nB q bs cs -> lookup k cs = Some d ->
  s <> Elected -> cstatus d <> Elected -> (s = Pending -> q <= vote d) ->
  inv_of nS nB q bs (update k (set_status s) cs).
Proof.
  intros (Hnd & Hb & Hc & Ht & Hq & Hq0 & HS) Hk Hs Hd Hp.
  split; [rewrite update_cids; [exact Hnd|reflexivity]|].
  split; [exact Hb|]. split; [|split; [now rewrite total_vote_status|auto]].
  apply Forall_forall. intros d' Hd'. unfold update in Hd'.
  apply in_map_iff in Hd'. destruct Hd' as (d0 & <- & Hdin).
  rewrite Forall_forall in Hc. specialize (Hc d0 Hdin).
  destruct (Nat.eqb_spec (cid d0) k) as [Heq|Hne]; [|exact Hc].
  assert (d0 = d).
  { pose proof (@lookup_NoDup _ cs d0 Hnd Hdin) as H1.
    rewrite Heq, Hk in H1. congruence. }
  subst d0. destruct Hc as (H1 & H2 & H3).
  unfold cand_ok. cbn [cstatus set_status vote cid].
  split; [intros _; now apply H1|]. split; [intros; contradiction|exact Hp].
Qed.

Lemma fold_status_inv (nS nB q : Z) (bs : list (@Ballot (FixedArith p))) (s : status)
      (l : list (@Candidate (FixedArith p))) :
  s <> Elected ->
  forall cs,
    inv_of nS nB q bs cs -> NoDup (map cid l) ->
    (forall c, In c l -> lookup (cid c) cs = Some c /\ cstatus c = Hopeful /\
                         (s = Pending -> q <= vote c)) ->
    inv_of nS nB q bs
           (fold_left (fun acc c => update (cid c) (set_status s) acc) l cs).
Proof.
  intros Hs. induction l as [|c l IH]; intros cs Hinv Hl Hin; cbn [fold_left];
    [exact Hinv|].
  inversion Hl as [|? ? Hn Hl']; subst.
  destruct (Hin c (or_introl eq_refl)) as (Hk & Hst & Hp).
  apply IH; [|exact Hl'|].
  - apply (@inv_status_update _ _ _ _ _ _ c); auto. rewrite Hst. discriminate.
  - intros c' Hc'. destruct (Hin c' (or_intror Hc')) as (Hk' & Hst' & Hp').
    split; [|auto]. rewrite lookup_update_other; [exact Hk'|reflexivity|].
    intros Heq. apply Hn. rewrite Heq. now apply in_map.
Qed.

Lemma hopeful_lookup_self (cs : list (@Candidate (FixedArith p))) (c : @Candidate (FixedArith p)) :
  NoDup (map cid cs) -> In c (hopeful cs) ->
  lookup (cid c) cs = Some c /\ cstatus c = Hopeful.
Proof.
  intros Hnd Hc. apply filter_In in Hc. destruct Hc as [Hin Hs].
  split; [now apply lookup_NoDup|now apply has_status_iff].
Qed.

Lemma pend_winners_inv (E : @Election (FixedArith p)) :
  wigm_inv E -> wigm_inv (Wigm.pend_winners E).
Proof.
  intros Hinv. unfold wigm_inv.
  destruct (pend_winners_fold E) as (-> & -> & (-> & -> & -> & _)).
  pose proof Hinv as (Hnd & _).
  apply fold_status_inv; [discriminate|exact Hinv|now apply pend_list_NoDup|].
  intros c Hc. apply pend_list_hopeful in Hc. destruct Hc as [Hc Hq].
  destruct (@hopeful_lookup_self _ _ Hnd Hc) as [H1 H2].
  split; [exact H1|]. split; [exact H2|]. intros _.
  unfold Wigm.hasQuota, geb in Hq. cbn in Hq. now apply Z.leb_le.
Qed.

Lemma defeat_fold_inv (msg : string) (l : list (@Candidate (FixedArith p))) (E : @Election (FixedArith p)) :
  wigm_inv E -> NoDup (map cid l) ->
  (forall c, In c l -> In c (hopeful (C (R E)))) ->
  wigm_inv (fold_left (fun E' c => with_R (defeat (cid c) msg) E') l E).
Proof.
  intros Hinv Hl Hin. unfold wigm_inv.
  destruct (defeat_fold msg l E) as (-> & -> & (-> & -> & -> & _)).
  pose proof Hinv as (Hnd & _).
  apply fold_status_inv; [discriminate|exact Hinv|exact Hl|].
  intros c Hc. destruct (@hopeful_lookup_self _ _ Hnd (Hin c Hc)) as [H1 H2].
  split; [exact H1|]. split; [exact H2|discriminate].
Qed.


Lemma scale_pos : 0 < 10 ^ p.
Proof. apply Z.pow_pos_nonneg; lia. Qed.

(** The weight the surplus transfer gives a ballot: not above
    [weight * surplus / vote]. *)
Lemma surplus_weight_ok (k : nat) (s : Z) (ck : @Candidate (FixedArith p)) :
  0 <= s -> 0 < vote ck ->
  forall (cs0 : list (@Candidate (FixedArith p))) (b b1 : @Ballot (FixedArith p)),
    lookup k cs0 = Some ck -> 0 <= weight b ->
    @Wigm.surplus_weight (FixedArith p) k s cs0 b = Ok b1 ->
    multiplier b1 = multiplier b /\ ranking b1 = ranking b /\
    index b1 = index b /\ 0 <= weight b1 /\ weight b1 * vote ck <= weight b * s.
Proof.
  intros Hs Hv cs0 b b1 Hk Hw. unfold Wigm.surplus_weight. rewrite Hk.
  unfold over, times. cbn [is_zero quot prod FixedArith].
  destruct (Z.eqb_spec (vote ck) 0) as [Hz|_]; [lia|]. cbn [bind].
  intros [= <-]. cbn [multiplier ranking index weight set_weight].
  repeat split. unfold fixed_quot, fixed_prod.
  - pose proof scale_pos as HS.
    assert (H1 : 0 <= Z.quot (weight b * s) (10 ^ p))
      by (apply Z.quot_pos; nia).
    apply Z.quot_pos; nia.
  - unfold fixed_quot, fixed_prod. pose proof scale_pos as HS.
    assert (H1 : 0 <= Z.quot (weight b * s) (10 ^ p))
      by (apply Z.quot_pos; nia).
    assert (H2 : 10 ^ p * Z.quot (weight b * s) (10 ^ p) <= weight b * s)
      by (apply Z.mul_quot_le; nia).
    assert (H3 : vote ck * Z.quot (Z.quot (weight b * s) (10 ^ p) * 10 ^ p) (vote ck)
                 <= Z.quot (weight b * s) (10 ^ p) * 10 ^ p)
      by (apply Z.mul_quot_le; nia).
    nia.
Qed.

(** B.3 keeps the invariant. *)
Lemma transfer_high_surplus_inv (E E' : @Election (FixedArith p)) :
  wigm_inv E -> Wigm.transfer_high_surplus E = Ok E' -> wigm_inv E'.
Proof.
  intros (Hnd & Hb & Hc & Ht & Hq & Hq0 & HS).
  unfold Wigm.transfer_high_surplus.
  destruct (vmax _) as [hv| |]; try discriminate. cbn [bind].
  destruct (Wigm.breakTie _ _ _) as [[h r0]| |] eqn:Hbt; try discriminate.
  cbn [bind].
  destruct (@wigm_breakTie_first _ _ _ _ _ _ Hbt) as (Hin & _ & HC & Hq').
  apply filter_In in Hin. destruct Hin as [Hpend _].
  apply filter_In in Hpend. destruct Hpend as [HinC Hst].
  apply has_status_iff in Hst.
  set (r1 := elect (cid h) "Transfer high surplus" r0).
  assert (HC1 : C r1 = update (cid h) (set_status Elected) (C (R E))).
  { unfold r1, elect, transition. cbn [C add_log set_C]. now rewrite HC. }
  assert (Hq1 : quota r1 = quota (R E)).
  { unfold r1, elect, transition. cbn [quota add_log set_C]. exact Hq'. }
  rewrite transfer_ballots_step, HC1, Hq1.
  destruct (foldM _ _ _) as [[cs bs]| |] eqn:Hf; try discriminate.
  cbn [bind]. intros [= <-].
  assert (Hh : cand_ok (quota (R E)) (ballots E) h).
  { rewrite Forall_forall in Hc. now apply Hc. }
  destruct Hh as (Hh1 & _ & Hh3).
  specialize (Hh1 ltac:(rewrite Hst; discriminate)). specialize (Hh3 Hst).
  set (ck := set_status Elected h).
  assert (Hk : lookup (cid h) (update (cid h) (set_status Elected) (C (R E)))
               = Some ck).
  { rewrite lookup_update_same by reflexivity.
    rewrite (@lookup_NoDup _ _ _ Hnd HinC). reflexivity. }
  assert (Hvk : vote ck = vote h) by reflexivity.
  assert (Hmid : mid_inv (quota (R E)) (vote h - quota (R E)) (vote ck)
                         (nBallots E * 10 ^ p - quota (R E)) (cid h) ck
                         (update (cid h) (set_status Elected) (C (R E)))
                         [] (ballots E)).
  { split; [rewrite update_cids; [exact Hnd|reflexivity]|].
    split; [exact Hk|]. split; [exact Hb|]. split.
    - apply Forall_forall. intros d' Hd'. unfold update in Hd'.
      apply in_map_iff in Hd'. destruct Hd' as (d & <- & Hdin).
      rewrite Forall_forall in Hc. specialize (Hc d Hdin).
      destruct (Nat.eqb_spec (cid d) (cid h)) as [Heq|Hne].
      + intros Hne. exfalso. apply Hne. exact Heq.
      + intros _. exact Hc.
    - split; [reflexivity|]. rewrite total_vote_status, Hvk, <- Hh1. nia. }
  assert (HN : 0 <= vote h - quota (R E)) by lia.
  assert (Hck : cstatus ck <> Hopeful) by discriminate.
  assert (Hv : 0 < vote ck) by (rewrite Hvk; lia).
  pose proof (@surplus_weight_ok (cid h) (vote h - quota (R E)) ck HN Hv) as Hrw.
  destruct (@transfer_fold_mid _ _ _ _ _ _ _ HN Hck Hrw _ _ _ _ _ Hmid Hf)
    as [Hend _].
  destruct (@mid_inv_finish _ _ _ _ _ _ _ _ (quota (R E)) Hv Hend)
    as (H1 & H2 & H3 & H4).
  { unfold cand_ok. cbn [cstatus set_vote set_status vote cid ck].
    split; [intros H; now contradiction H|]. split; [reflexivity|discriminate]. }
  unfold wigm_inv, inv_of.
  cbn [R with_R with_ballots C nSeats nBallots ballots quota].
  unfold Wigm.log_transfer, Wigm.set_cand_vote.
  cbn [C add_log set_C quota]. rewrite Hq1.
  split; [exact H1|]. split; [exact H2|]. split; [exact H3|].
  split; [lia|]. auto.
Qed.

(** B.4 keeps the invariant. *)
Lemma wigm_defeat_low_inv (E E' : @Election (FixedArith p)) :
  wigm_inv E -> Wigm.defeat_low E = Ok E' -> wigm_inv E'.
Proof.
  intros Hinv. pose proof Hinv as (Hnd & _). unfold Wigm.defeat_low.
  destruct (vmin _) as [lv| |]; try discriminate. cbn [bind].
  destruct (Wigm.breakTie _ _ _) as [[t r0]| |] eqn:Hbt; try discriminate.
  cbn [bind].
  destruct (@wigm_breakTie_first _ _ _ _ _ _ Hbt) as (Hin & _ & HC & Hq').
  apply filter_In in Hin. destruct Hin as [Hh _].
  destruct (@hopeful_lookup_self _ _ Hnd Hh) as [Hk Hst].
  apply (@transfer_defeated_inv _ _ t (set_status Defeated t)).
  - unfold wigm_inv. cbn [with_R R nSeats nBallots ballots].
    unfold defeat, transition. cbn [quota C add_log set_C]. rewrite HC, Hq'.
    apply (@inv_status_update _ _ _ _ _ _ t); auto; try discriminate.
    rewrite Hst. discriminate.
  - cbn [with_R R]. unfold defeat, transition. cbn [C add_log set_C].
    rewrite HC, lookup_update_same by reflexivity. now rewrite Hk.
  - reflexivity.
Qed.

Definition defeated_in (cs : list (@Candidate (FixedArith p))) (c : @Candidate (FixedArith p)) : Prop :=
  option_map cstatus (lookup (cid c) cs) = Some Defeated.

Lemma foldM_transfer_defeated_inv (l : list (@Candidate (FixedArith p))) :
  forall E E', wigm_inv E -> (forall c, In c l -> defeated_in (C (R E)) c) ->
               foldM Wigm.transfer_defeated l E = Ok E' -> wigm_inv E'.
Proof.
  induction l as [|c l IH]; intros E E' Hinv Hd; cbn [foldM].
  - now intros [= <-].
  - destruct (Wigm.transfer_defeated E c) as [E1| |] eqn:Ht; try discriminate.
    cbn [bind]. apply IH.
    + pose proof (Hd c (or_introl eq_refl)) as Hc. unfold defeated_in in Hc.
      destruct (lookup (cid c) (C (R E))) as [ck|] eqn:Hk; [|discriminate].
      injection Hc as Hc. exact (@transfer_defeated_inv _ _ _ _ Hinv Hk Hc Ht).
    + intros c' Hc'. unfold defeated_in.
      destruct (@transfer_defeated_spec _ _ _ _ Ht) as [Hs _].
      rewrite (@skeleton_lookup_status _ _ _ (cid c') Hs).
      apply Hd. now right.
Qed.

Lemma fold_defeat_defeated (msg : string) (l : list (@Candidate (FixedArith p)))
      (E : @Election (FixedArith p)) (c : @Candidate (FixedArith p)) :
  NoDup (map cid (C (R E))) -> NoDup (map cid l) ->
  (forall c, In c l -> In c (C (R E))) -> In c l ->
  defeated_in (C (R (fold_left (fun E' c => with_R (defeat (cid c) msg) E') l E))) c.
Proof.
  intros Hnd Hl Hin Hc. destruct (defeat_fold msg l E) as (-> & _ & _).
  rewrite (@fold_update_spec _ (fun _ d => set_status Defeated d));
    [|reflexivity|exact Hl].
  unfold defeated_in. rewrite lookup_map.
  - rewrite (@lookup_NoDup _ _ _ Hnd (Hin c Hc)). cbn [option_map].
    destruct (find_cid (cid c) l) eqn:Hf; [reflexivity|].
    exfalso. revert Hf. now apply find_cid_In.
  - intros d. destruct (find_cid (cid d) l); reflexivity.
Qed.

(** B.2 keeps the invariant. *)
Lemma defeat_sure_losers_inv (l : list (@Candidate (FixedArith p))) (E E' : @Election (FixedArith p))
      (stop : bool) :
  wigm_inv E -> NoDup l -> (forall c, In c l -> In c (hopeful (C (R E)))) ->
  Wigm.defeat_sure_losers l E = Ok (E', stop) -> wigm_inv E'.
Proof.
  intros Hinv Hl Hin. pose proof Hinv as (Hnd & _).
  unfold Wigm.defeat_sure_losers. cbv zeta.
  destruct (@sortByOrder_NoDup _ (C (R E)) l Hnd Hl Hin) as (Hl' & Hin' & _).
  pose proof (@defeat_fold_inv "Defeat sure loser" (sortByOrder l) E Hinv Hl' Hin')
    as Hinv1.
  destruct (_ <=? _).
  - now intros [= <- _].
  - destruct (foldM _ _ _) as [E2| |] eqn:Hf; try discriminate.
    cbn [bind]. intros [= <- _].
    apply (@foldM_transfer_defeated_inv _ _ _ Hinv1) in Hf; [exact Hf|].
    intros c Hc. apply fold_defeat_defeated; auto.
    intros c' Hc'. apply Hin' in Hc'. apply filter_In in Hc'. tauto.
Qed.

(** A round keeps the invariant. *)
Lemma wigm_round_inv (defeatBatch : bool) (E E' : @Election (FixedArith p)) (stop : bool) :
  wigm_inv E -> Wigm.round defeatBatch E = Ok (E', stop) -> wigm_inv E'.
Proof.
  intros Hinv. unfold Wigm.round. cbv zeta.
  assert (Hinv0 : wigm_inv (newRound E)) by exact Hinv.
  pose proof (pend_winners_inv Hinv0) as Hinv1.
  set (E1 := Wigm.pend_winners (newRound E)) in *.
  pose proof Hinv1 as (Hnd1 & _).
  destruct (nonempty (if defeatBatch then Wigm.batchDefeat E1 else [])) eqn:Hsl.
  - destruct defeatBatch; [|discriminate].
    apply defeat_sure_losers_inv; auto.
    + now apply batchDefeat_distinct.
    + apply batchDefeat_hopefuls.
  - destruct (nonempty (pending (C (R E1)))).
    + destruct (Wigm.transfer_high_surplus E1) as [E2| |] eqn:Ht; try discriminate.
      cbn [bind]. intros [= <- _]. exact (@transfer_high_surplus_inv _ _ Hinv1 Ht).
    + destruct (nonempty (hopeful (C (R E1)))).
      * destruct (Wigm.defeat_low E1) as [E2| |] eqn:Ht; try discriminate.
        cbn [bind]. intros [= <- _]. exact (@wigm_defeat_low_inv _ _ Hinv1 Ht).
      * now intros [= <- _].
Qed.

Lemma rounds_loop_inv (defeatBatch : bool) (nrounds : nat) :
  forall E E' : @Election (FixedArith p),
    wigm_inv E -> Wigm.rounds_loop defeatBatch nrounds E = Ok E' -> wigm_inv E'.
Proof.
  induction nrounds as [|k IH]; intros E E' Hinv; cbn [Wigm.rounds_loop].
  - destruct (Wigm.loop_test E); [discriminate|]. now intros [= <-].
  - destruct (Wigm.loop_test E); [|now intros [= <-]].
    destruct (Wigm.round defeatBatch E) as [[E1 stop]| |] eqn:Hr; try discriminate.
    cbn [bind]. pose proof (@wigm_round_inv _ _ _ _ Hinv Hr) as Hinv1.
    destruct stop; [now intros [= <-]|]. now apply IH.
Qed.


(** *** The rounds go through *)

Lemma wigm_round_ok (defeatBatch : bool) (E : @Election (FixedArith p)) :
  wigm_inv E -> exists r, Wigm.round defeatBatch E = Ok r.
Proof.
  intros Hinv. unfold Wigm.round. cbv zeta.
  assert (Hinv0 : wigm_inv (newRound E)) by exact Hinv.
  pose proof (pend_winners_inv Hinv0) as Hinv1.
  set (E1 := Wigm.pend_winners (newRound E)) in *.
  destruct Hinv1 as (Hnd & Hb & Hc & Ht & Hq & Hq0 & HS).
  destruct (nonempty (if defeatBatch then Wigm.batchDefeat E1 else [])).
  - apply defeat_sure_losers_ok.
  - destruct (nonempty (pending (C (R E1)))) eqn:Hp.
    + destruct (@transfer_high_surplus_succeeds (FixedArith p) E1) as [E2 ->].
      * intros v. apply Z.eqb_refl.
      * exact Hnd.
      * destruct (pending (C (R E1))); [discriminate|congruence].
      * intros c Hc'. apply filter_In in Hc'. destruct Hc' as [Hin Hs].
        apply has_status_iff in Hs. rewrite Forall_forall in Hc.
        destruct (Hc c Hin) as (_ & _ & H3). specialize (H3 Hs).
        cbn. apply Z.eqb_neq. lia.
      * cbn [bind]. eexists. reflexivity.
    + destruct (nonempty (hopeful (C (R E1)))) eqn:Hh; [|eexists; reflexivity].
      destruct (@wigm_defeat_low_ok (FixedArith p) E1) as [E2 ->].
      * intros v. apply Z.eqb_refl.
      * destruct (hopeful (C (R E1))); [discriminate|congruence].
      * cbn [bind]. eexists. reflexivity.
Qed.

Lemma rounds_loop_ok (defeatBatch : bool) (nrounds : nat) :
  forall E : @Election (FixedArith p),
    wigm_inv E -> (mu (C (R E)) <= nrounds)%nat ->
    exists E', Wigm.rounds_loop defeatBatch nrounds E = Ok E'.
Proof.
  induction nrounds as [|k IH]; intros E Hinv Hmu; cbn [Wigm.rounds_loop].
  - destruct (Wigm.loop_test E) eqn:Hl; [|eexists; reflexivity].
    apply loop_test_mu in Hl. lia.
  - destruct (Wigm.loop_test E) eqn:Hl; [|eexists; reflexivity].
    destruct (@wigm_round_ok defeatBatch E Hinv) as [[E1 stop] Hr]. rewrite Hr.
    cbn [bind]. destruct stop; [eexists; reflexivity|].
    pose proof Hinv as (Hnd & _).
    destruct (@round_moves _ defeatBatch E E1 false Hnd Hl Hr)
      as (a & b & c & Hm & Hbc & _).
    destruct (moved_counts Hm) as (_ & _ & _ & Hmu').
    apply IH; [exact (@wigm_round_inv _ _ _ _ Hinv Hr)|lia].
Qed.

(** *** The start of the count *)

(** An election as it is before the count: each candidate hopeful or
    withdrawn, with no votes; each ballot of weight one; [nBallots] the
    number of ballots. *)
Definition wigm_start (E : @Election (FixedArith p)) : Prop :=
  NoDup (map cid (C (R E))) /\ fresh (C (R E)) /\
  (forall c, In c (C (R E)) -> vote c = 0) /\
  (forall b, In b (ballots E) -> weight b = 10 ^ p /\ 0 <= multiplier b) /\
  nBallots E = ballot_count (ballots E) /\ 0 <= nSeats E.

Definition credited (bs : list (@Ballot (FixedArith p))) (c : @Candidate (FixedArith p)) : @Candidate (FixedArith p) :=
  @set_vote (FixedArith p) (vote c + topped_tally (cid c) bs) c.

Ltac vlia := match goal with |- @eq _ ?a ?b => change (@eq Z a b); lia end.

Lemma first_preferences_votes (bs : list (@Ballot (FixedArith p))) :
  forall cs cs' : list (@Candidate (FixedArith p)),
    Wigm.first_preferences cs bs = Ok cs' -> cs' = map (credited bs) cs.
Proof.
  unfold Wigm.first_preferences.
  induction bs as [|b bs IH]; intros cs cs'; cbn [foldM].
  - intros [= <-]. symmetry. rewrite <- (map_id cs) at 2. apply map_ext.
    intros c. unfold credited. change (topped_tally (cid c) []) with 0.
    destruct c. unfold set_vote. cbn. f_equal. vlia.
  - destruct (Wigm.topRank b) as [k|] eqn:Hk; [|discriminate]. cbn [bind].
    intros H. rewrite (IH _ _ H). unfold Wigm.add_vote, update.
    rewrite map_map. apply map_ext. intros c. unfold credited.
    rewrite tally_cons.
    destruct (Nat.eqb_spec (cid c) k) as [Heq|Hne].
    + rewrite (@ballot_value_top (cid c) b) by congruence.
      cbn [cid set_vote vote]. unfold Wigm.ballot_vote.
      cbn [add scale FixedArith]. unfold set_vote. cbn. f_equal. vlia.
    + rewrite (@ballot_value_other (cid c) k b Hk Hne). reflexivity.
Qed.

Definition ballots_value (bs : list (@Ballot (FixedArith p))) : Z :=
  fold_right Z.add 0 (map (fun b : @Ballot (FixedArith p) => weight b * multiplier b) bs).

Lemma value_once (k : nat) (x : Z) (cs : list (@Candidate (FixedArith p))) :
  NoDup (map cid cs) -> 0 <= x ->
  0 <= fold_right Z.add 0 (map (fun c => if Nat.eqb k (cid c) then x else 0) cs)
  <= x /\
  (~ In k (map cid cs) ->
   fold_right Z.add 0 (map (fun c => if Nat.eqb k (cid c) then x else 0) cs) = 0).
Proof.
  intros Hnd Hx. induction cs as [|c cs IH]; cbn [map fold_right].
  - split; [lia|reflexivity].
  - inversion Hnd as [|? ? Hn Hnd']; subst. destruct (IH Hnd') as [IH1 IH2].
    destruct (Nat.eqb_spec k (cid c)) as [Heq|Hne].
    + subst k. rewrite (IH2 Hn). split; [lia|].
      intros H. exfalso. apply H. now left.
    + split; [lia|]. intros H. rewrite IH2; [lia|].
      intros H'. apply H. now right.
Qed.

Lemma tally_sum_le (cs : list (@Candidate (FixedArith p))) (bs : list (@Ballot (FixedArith p))) :
  NoDup (map cid cs) -> ballots_ok bs ->
  fold_right Z.add 0 (map (fun c => topped_tally (cid c) bs) cs) <= ballots_value bs.
Proof.
  intros Hnd. induction bs as [|b bs IH]; intros Hb.
  - unfold ballots_value. cbn [map fold_right].
    clear. induction cs as [|c cs IH]; cbn [map fold_right]; [lia|].
    change (topped_tally (cid c) []) with 0. lia.
  - assert (Hb' : ballots_ok bs) by (intros x Hx; apply Hb; now right).
    specialize (IH Hb').
    destruct (Hb b (or_introl eq_refl)) as [Hw Hm].
    assert (Hsplit : fold_right Z.add 0 (map (fun c => topped_tally (cid c) (b :: bs)) cs)
                     = fold_right Z.add 0 (map (fun c => ballot_value (cid c) b) cs)
                       + fold_right Z.add 0 (map (fun c => topped_tally (cid c) bs) cs)).
    { clear. induction cs as [|c cs IHc]; cbn [map fold_right]; [lia|].
      rewrite IHc, tally_cons. lia. }
    rewrite Hsplit. unfold ballots_value. cbn [map fold_right].
    fold (ballots_value bs).
    assert (Hone : fold_right Z.add 0 (map (fun c => ballot_value (cid c) b) cs)
                   <= weight b * multiplier b).
    { unfold ballot_value, Wigm.topped_at, Wigm.ballot_vote.
      cbn [scale FixedArith].
      destruct (Wigm.topRank b) as [k|].
      - apply (@value_once k (weight b * multiplier b) cs Hnd). nia.
      - clear - Hw Hm. induction cs as [|c cs IHc]; cbn [map fold_right]; nia. }
    lia.
Qed.

Lemma ballots_value_count (bs : list (@Ballot (FixedArith p))) :
  (forall b, In b bs -> weight b = 10 ^ p /\ 0 <= multiplier b) ->
  ballots_value bs = ballot_count bs * 10 ^ p /\ 0 <= ballot_count bs.
Proof.
  unfold ballots_value, ballot_count.
  induction bs as [|b bs IH]; intros H; cbn [map fold_right]; [lia|].
  destruct (H b (or_introl eq_refl)) as [Hw Hm].
  destruct IH as [IH1 IH2]; [intros x Hx; apply H; now right|].
  rewrite IH1, Hw. split; lia.
Qed.

Lemma total_vote_credited (cs : list (@Candidate (FixedArith p))) (bs : list (@Ballot (FixedArith p))) :
  (forall c, In c cs -> vote c = 0) ->
  total_vote (map (credited bs) cs) =
  fold_right Z.add 0 (map (fun c => topped_tally (cid c) bs) cs).
Proof.
  unfold total_vote. induction cs as [|c cs IH]; intros H; cbn [map fold_right];
    [reflexivity|].
  rewrite IH by (intros x Hx; apply H; now right).
  cbn [credited vote set_vote]. rewrite (H c (or_introl eq_refl)). lia.
Qed.

Lemma fresh_counts (cs : list (@Candidate (FixedArith p))) :
  fresh cs -> nElected cs = 0 /\ nPending cs = 0.
Proof.
  unfold fresh, nElected, nPending, elected, pending, has_status.
  induction cs as [|c cs IH]; intros H; cbn [filter length]; [auto|].
  destruct IH as [IH1 IH2]; [intros x Hx; apply H; now right|].
  destruct (H c (or_introl eq_refl)) as [->| ->]; cbn [status_eqb]; auto.
Qed.

Lemma skeleton_credited (cs : list (@Candidate (FixedArith p))) (bs : list (@Ballot (FixedArith p))) :
  skeleton (map (credited bs) cs) = skeleton cs.
Proof. unfold skeleton. rewrite map_map. reflexivity. Qed.

Lemma calcQuota_value (E : @Election (FixedArith p)) :
  0 <= nBallots E -> 0 <= nSeats E ->
  exists q, Wigm.calcQuota E = Ok q /\
            nBallots E * 10 ^ p < q * (nSeats E + 1) /\ 0 < q.
Proof.
  intros HB HS. pose proof scale_pos as Hp. unfold Wigm.calcQuota, over.
  cbn [is_zero of_int quot add epsilon FixedArith].
  destruct (Z.eqb_spec ((nSeats E + 1) * 10 ^ p) 0) as [Hz|_]; [nia|].
  cbn [bind]. eexists. split; [reflexivity|]. unfold fixed_quot.
  set (a := nBallots E * 10 ^ p * 10 ^ p).
  set (b := (nSeats E + 1) * 10 ^ p).
  assert (Ha : 0 <= a) by (unfold a; nia).
  assert (Hb : 0 < b) by (unfold b; nia).
  pose proof (Z.mul_succ_quot_gt a b Ha Hb) as H1.
  pose proof (Z.quot_pos a b Ha Hb) as H2.
  split; [|lia]. unfold a, b in *. nia.
Qed.

(** A. The count starts in a state of the invariant. *)
Lemma wigm_init_inv (E E0 : @Election (FixedArith p)) :
  wigm_start E -> Wigm.init E = Ok E0 ->
  wigm_inv E0 /\ nSeats E0 = nSeats E /\
  nElected (C (R E0)) = 0 /\ nPending (C (R E0)) = 0 /\
  nHopeful (C (R E0)) = nHopeful (C (R E)).
Proof.
  intros (Hnd & Hf & Hv & Hb & HB & HS). unfold Wigm.init.
  destruct (@ballots_value_count _ Hb) as [Hval Hcount].
  destruct (@calcQuota_value E) as (q & -> & Hq & Hq0); [lia|exact HS|].
  cbn [bind].
  destruct (Wigm.first_preferences _ _) as [cs| |] eqn:Hfp; try discriminate.
  cbn [bind]. intros [= <-].
  apply first_preferences_votes in Hfp. subst cs.
  cbn [with_R R C set_C set_quota nSeats].
  destruct (@skeleton_counts _ _ _ (skeleton_credited (C (R E)) (ballots E)))
    as (H1 & H2 & H3).
  destruct (@fresh_counts _ Hf) as [H4 H5].
  assert (Hbok : ballots_ok (ballots E)).
  { intros b Hb'. destruct (Hb b Hb') as [-> Hm]. pose proof scale_pos. lia. }
  split; [|repeat split; congruence].
  unfold wigm_inv, inv_of.
  cbn [with_R R C set_C set_quota nSeats nBallots ballots quota].
  split; [unfold credited; rewrite map_map; exact Hnd|].
  split; [exact Hbok|]. split.
  - apply Forall_forall. intros c' Hc'. apply in_map_iff in Hc'.
    destruct Hc' as (c & <- & Hc). unfold cand_ok, credited.
    cbn [cstatus set_vote vote cid]. rewrite (Hv c Hc).
    destruct (Hf c Hc) as [Hs|Hs]; rewrite Hs;
      (split; [intros _; lia|split; discriminate]).
  - split; [|auto].
    rewrite (@total_vote_credited _ (ballots E) Hv).
    pose proof (@tally_sum_le _ _ Hnd Hbok). lia.
Qed.

Lemma first_preferences_ok (bs : list (@Ballot (FixedArith p))) :
  (forall b, In b bs -> Wigm.topRank b <> None) ->
  forall cs : list (@Candidate (FixedArith p)), exists cs', Wigm.first_preferences cs bs = Ok cs'.
Proof.
  unfold Wigm.first_preferences.
  induction bs as [|b bs IH]; intros H cs; cbn [foldM]; [eexists; reflexivity|].
  destruct (Wigm.topRank b) as [k|] eqn:Hk;
    [|now contradiction (H b (or_introl eq_refl))].
  cbn [bind]. apply IH. intros x Hx. apply H. now right.
Qed.

Lemma wigm_init_ok (E : @Election (FixedArith p)) :
  wigm_start E -> (forall b, In b (ballots E) -> Wigm.topRank b <> None) ->
  exists E0, Wigm.init E = Ok E0.
Proof.
  intros (Hnd & Hf & Hv & Hb & HB & HS) Htop. unfold Wigm.init.
  destruct (@ballots_value_count _ Hb) as [Hval Hcount].
  destruct (@calcQuota_value E) as (q & -> & _); [lia|exact HS|].
  cbn [bind].
  destruct (@first_preferences_ok _ Htop (C (R E))) as [cs ->].
  cbn [bind]. eexists. reflexivity.
Qed.

End WigmSeats.

(** X10. The WIGM counter with fixed-point arithmetic creates no votes: the
  initialization gives, and every round keeps, a state in which the votes
  of the candidates sum to no more than the number of ballots, an elected
  candidate holds the quota, another candidate the votes of the ballots
  topped at it, and the elected and pending candidates are no more than
  the seats. *)
Theorem wigm_votes_conserved (p : Z) (defeatBatch : bool) :
0 <= p ->
(forall E E0 : @Election (FixedArith p),
    wigm_start E -> Wigm.init E = Ok E0 -> wigm_inv E0) /\
(forall (E E' : @Election (FixedArith p)) (stop : bool),
    wigm_inv E -> Wigm.round defeatBatch E = Ok (E', stop) -> wigm_inv E') /\
(forall E : @Election (FixedArith p),
    wigm_inv E ->
    total_vote (C (R E)) <= nBallots E * 10 ^ p /\
    (forall c, In c (C (R E)) -> cstatus c = Elected -> vote c = quota (R E)) /\
    (forall c, In c (C (R E)) -> cstatus c <> Elected ->
               vote c = topped_tally (cid c) (ballots E)) /\
    nElected (C (R E)) + nPending (C (R E)) <= nSeats E).
Proof.
intros Hp. split; [|split].
- intros E E0 Hs Hi. eapply wigm_init_inv; eassumption.
- intros E E' stop Hinv Hr. eapply wigm_round_inv; eassumption.
- intros E Hinv.
  assert (Hseats : nElected (C (R E)) + nPending (C (R E)) <= nSeats E)
    by (eapply inv_seats_bound; eassumption).
  destruct Hinv as (Hnd & Hb & Hc & Ht & _). rewrite Forall_forall in Hc.
  split; [exact Ht|]. split; [|split; [|exact Hseats]].
  + intros c Hin Hs. now apply (Hc c Hin).
  + intros c Hin Hs. now apply (Hc c Hin).
Qed.

(** X11. A WIGM count with fixed-point arithmetic that returns fills the
  seats: no candidate is left hopeful or pending, and the number elected is
  the number of seats, or the number of hopefuls at the start when they
  are fewer. *)
Theorem wigm_fills_the_seats (p : Z) (defeatBatch : bool) (nrounds : nat)
      (E E' : @Election (FixedArith p)) :
0 <= p -> wigm_start E ->
Wigm.count defeatBatch nrounds E = Ok E' ->
hopeful (C (R E')) = [] /\ pending (C (R E')) = [] /\
nElected (C (R E')) = Z.min (nSeats E) (nHopeful (C (R E))).
Proof.
intros Hp Hs. unfold Wigm.count.
destruct (Wigm.init E) as [E0| |] eqn:Hi; try discriminate. cbn [bind].
destruct (Wigm.rounds_loop defeatBatch nrounds E0) as [E1| |] eqn:Hl;
  try discriminate.
cbn [bind]. intros [= <-].
assert (H0 : wigm_inv E0 /\ nSeats E0 = nSeats E /\
             nElected (C (R E0)) = 0 /\ nPending (C (R E0)) = 0 /\
             nHopeful (C (R E0)) = nHopeful (C (R E)))
  by (eapply wigm_init_inv; eassumption).
destruct H0 as (Hinv0 & HS0 & He0 & Hp0 & Hh0).
pose proof Hinv0 as (Hnd0 & _).
assert (Hinv1 : wigm_inv E1) by (eapply rounds_loop_inv; eassumption).
pose proof Hinv1 as (Hnd1 & _).
destruct (@rounds_loop_live _ defeatBatch nrounds E0 E1 Hnd0 Hl) as (Hm & Hle & HS1).
destruct (@rounds_loop_rounds _ defeatBatch nrounds E0 E1 Hnd0 Hl) as (_ & _ & Hexit).
assert (Hseats : nElected (C (R E1)) + nPending (C (R E1)) <= nSeats E1)
  by (eapply inv_seats_bound; eassumption).
destruct (@finish_counts _ E1 Hnd1) as (H1 & H2 & H3).
split; [exact H1|]. split; [exact H2|]. rewrite H3.
specialize (Hm (Z.min (nSeats E) (nHopeful (C (R E))))).
unfold nLive in *.
unfold Wigm.loop_test, seatsLeftToFill in Hexit.
fold (nHopeful (C (R E1))) in Hexit.
apply andb_false_iff in Hexit.
destruct Hexit as [Hexit|Hexit]; apply Z.ltb_ge in Hexit; lia.
Qed.

(** X12. A WIGM count with fixed-point arithmetic returns: on an election as
  it is before the count, each ballot ranking a candidate, it raises no
  exception, and twice as many turns of the round loop as there are
  hopefuls are enough. *)
Theorem wigm_count_returns (p : Z) (defeatBatch : bool) (nrounds : nat)
      (E : @Election (FixedArith p)) :
0 <= p -> wigm_start E ->
(forall b, In b (ballots E) -> Wigm.topRank b <> None) ->
(2 * length (hopeful (C (R E))) <= nrounds)%nat ->
exists E', Wigm.count defeatBatch nrounds E = Ok E'.
Proof.
intros Hp Hs Htop Hn. unfold Wigm.count.
assert (Hi : exists E0, Wigm.init E = Ok E0) by (eapply wigm_init_ok; eassumption).
destruct Hi as [E0 Hi]. rewrite Hi. cbn [bind].
assert (H0 : wigm_inv E0 /\ nSeats E0 = nSeats E /\
             nElected (C (R E0)) = 0 /\ nPending (C (R E0)) = 0 /\
             nHopeful (C (R E0)) = nHopeful (C (R E)))
  by (eapply wigm_init_inv; eassumption).
destruct H0 as (Hinv0 & HS0 & He0 & Hp0 & Hh0).
assert (Hl : exists E1, Wigm.rounds_loop defeatBatch nrounds E0 = Ok E1).
{ eapply rounds_loop_ok; [exact Hp|exact Hinv0|].
  rewrite mu_counts. unfold nHopeful, nPending in *. lia. }
destruct Hl as [E1 ->]. cbn [bind]. eexists. reflexivity.
Qed.

(* ===================================================================== *)
(** * The rounds of the Meek/Warren counter                               *)
(* ===================================================================== *)

(** ** What a round does to the number of hopefuls *)

Section MeekRoundCounts.
Context {A : Arith}.
Variable rule : Meek.Rule.
Variable omega_ : V.

Lemma wsum_statuses (w : status -> nat) (cs : list Candidate) :
  forall cs', map cstatus cs' = map cstatus cs -> wsum w cs' = wsum w cs.
Proof.
  induction cs as [|c cs IH]; intros [|c' cs'] H; try discriminate;
    [reflexivity|].
  injection H as Hs H. cbn [wsum]. rewrite Hs. f_equal. now apply IH.
Qed.

Lemma statuses_counts (cs cs' : list Candidate) :
  map cstatus cs' = map cstatus cs ->
  nHopeful cs' = nHopeful cs /\ nPending cs' = nPending cs /\
  nElected cs' = nElected cs.
Proof.
  intros H. unfold nHopeful, nPending, nElected, hopeful, pending, elected.
  rewrite <- !wsum_indicator. now rewrite !(@wsum_statuses _ _ _ H).
Qed.

(** A hopeful is given the status [s]. *)
Lemma status_change_counts (s : status) (cs cs' : list Candidate) (c : Candidate) :
  NoDup (map cid cs) -> In c (hopeful cs) ->
  map cstatus cs' = map cstatus (update (cid c) (set_status s) cs) ->
  nHopeful cs' = nHopeful cs - 1 + Z.of_nat (indicator Hopeful s) /\
  nPending cs' = nPending cs + Z.of_nat (indicator Pending s) /\
  nElected cs' = nElected cs + Z.of_nat (indicator Elected s).
Proof.
  intros Hnd Hc Hs. apply filter_In in Hc. destruct Hc as [Hin Hh].
  apply has_status_iff in Hh.
  destruct (statuses_counts _ _ Hs) as (-> & -> & ->).
  pose proof (fun w => @wsum_update _ w s cs (cid c) c Hnd
                         (@lookup_NoDup _ _ _ Hnd Hin)) as Hw.
  pose proof (Hw (indicator Hopeful)) as H1.
  pose proof (Hw (indicator Pending)) as H2.
  pose proof (Hw (indicator Elected)) as H3.
  rewrite Hh in H1, H2, H3.
  change (indicator Hopeful Hopeful) with 1%nat in H1.
  change (indicator Pending Hopeful) with 0%nat in H2.
  change (indicator Elected Hopeful) with 0%nat in H3.
  unfold nHopeful, nPending, nElected, hopeful, pending, elected.
  rewrite <- !wsum_indicator. lia.
Qed.

Lemma defeat_zero_counts (msg : string) (r : Round) (c : Candidate) :
  NoDup (map cid (C r)) -> In c (hopeful (C r)) ->
  nHopeful (C (Meek.defeat_zero msg r c)) = nHopeful (C r) - 1 /\
  nPending (C (Meek.defeat_zero msg r c)) = nPending (C r) /\
  nElected (C (Meek.defeat_zero msg r c)) = nElected (C r) /\
  map cid (C (Meek.defeat_zero msg r c)) = map cid (C r).
Proof.
  intros Hnd Hc.
  destruct (@status_change_counts Defeated (C r) (C (Meek.defeat_zero msg r c)) c
              Hnd Hc) as (H1 & H2 & H3).
  - rewrite (defeat_zero_candidates msg r c). unfold update.
    rewrite !map_map. apply map_ext. intros d.
    destruct (Nat.eqb (cid d) (cid c)); reflexivity.
  - change (indicator Hopeful Defeated) with 0%nat in H1.
    change (indicator Pending Defeated) with 0%nat in H2.
    change (indicator Elected Defeated) with 0%nat in H3.
    repeat split; try lia.
    rewrite (defeat_zero_candidates msg r c). rewrite map_map.
    apply map_ext. intros d. destruct (Nat.eqb (cid d) (cid c)); reflexivity.
Qed.

Lemma defeat_batch_counts (batch : list Candidate) :
  forall r, NoDup (map cid (C r)) -> NoDup batch ->
            (forall c, In c batch -> In c (hopeful (C r))) ->
            nHopeful (C (Meek.defeat_batch_of batch r)) =
            nHopeful (C r) - Z.of_nat (length batch) /\
            nPending (C (Meek.defeat_batch_of batch r)) = nPending (C r) /\
            nElected (C (Meek.defeat_batch_of batch r)) = nElected (C r).
Proof.
  unfold Meek.defeat_batch_of.
  induction batch as [|c batch IH]; intros r Hnd Hb Hin; cbn [fold_left length].
  - repeat split; lia.
  - inversion Hb as [|? ? Hn Hb']; subst.
    assert (Hc : In c (hopeful (C r))) by (apply Hin; now left).
    destruct (@defeat_zero_counts "Defeat certain loser" r c Hnd Hc)
      as (H1 & H2 & H3 & H4).
    destruct (IH (Meek.defeat_zero "Defeat certain loser" r c)) as (H5 & H6 & H7).
    + now rewrite H4.
    + exact Hb'.
    + intros d Hd.
      pose proof (@defeat_remains_hopeful _
                    (mkElection 0 0 [] r []) c d "Defeat certain loser") as Hrem.
      cbn [R with_R C] in Hrem. apply Hrem; auto.
      * apply Hin. now right.
      * intros ->. contradiction.
    + rewrite H5, H6, H7, H1, H2, H3. repeat split; lia.
Qed.

(** The hopefuls that satisfy [P] are elected. *)
Lemma elect_map_counts (P : Candidate -> bool) (cs : list Candidate) :
  let F := fun d => if has_status Hopeful d && P d then set_status Elected d else d in
  nHopeful (map F cs) = nHopeful cs - Z.of_nat (length (filter P (hopeful cs))) /\
  nPending (map F cs) = nPending cs /\
  nElected (map F cs) = nElected cs + Z.of_nat (length (filter P (hopeful cs))).
Proof.
  cbv zeta. unfold nHopeful, nPending, nElected, hopeful, pending, elected.
  induction cs as [|c cs IH]; cbn [map filter length]; [repeat split; lia|].
  destruct IH as (IH1 & IH2 & IH3). unfold has_status in *.
  destruct (cstatus c) eqn:Hs; cbn [status_eqb andb filter];
    try (rewrite Hs; cbn [status_eqb length];
         repeat split; first [exact IH1|exact IH2|exact IH3|lia]).
  destruct (P c) eqn:HP; cbn [cstatus set_status status_eqb length filter];
    try rewrite Hs; cbn [status_eqb length]; repeat split; lia.
Qed.

(** The last pass of an iteration: with [IS_elected] a hopeful was
    elected; otherwise no status has changed, and with [IS_batch] the batch
    to defeat is not empty. *)
Lemma pass_final_counts (last : V) (E E2 : Election) (s : Meek.iterateStatus)
      (batch : list Candidate) :
  NoDup (map cid (C (R E))) ->
  Meek.pass rule omega_ last E = Ok (Meek.Finished s batch E2) ->
  match s with
  | Meek.IS_elected =>
      nHopeful (C (R E2)) < nHopeful (C (R E)) /\
      nElected (C (R E2)) + nHopeful (C (R E2)) =
      nElected (C (R E)) + nHopeful (C (R E)) /\
      nPending (C (R E2)) = nPending (C (R E))
  | Meek.IS_batch =>
      map cstatus (C (R E2)) = map cstatus (C (R E)) /\ batch <> [] /\
      batch = Meek.batchDefeat rule E2 (surplus (R E2))
  | _ => map cstatus (C (R E2)) = map cstatus (C (R E))
  end.
Proof.
  intros Hnd Hp.
  assert (Hst : s <> Meek.IS_elected ->
                map cstatus (C (R E2)) = map cstatus (C (R E))).
  { intros Hs. apply (@pass_statuses _ rule omega_ last E _ Hp).
    destruct s; auto. }
  revert Hp. unfold Meek.pass, Meek.tally.
  destruct (Meek.calcQuota _) as [q| |]; try discriminate.
  cbn [bind fst snd]. unfold Meek.test_complete.
  set (E1 := with_R (set_quota q) (Meek.distribute rule E)).
  assert (Hnd1 : NoDup (map cid (C (R E1)))).
  { unfold E1. cbn [R with_R C set_quota].
    now rewrite (evolves_cids (distribute_evolves rule E)). }
  destruct (nonempty (Meek.winners E1)) eqn:Hw.
  - intros [= <- <- <-]. cbn [R with_R C set_surplus].
    rewrite (@elect_winners_frame _ E1 Hnd1).
    destruct (@elect_map_counts (Meek.hasQuota E1) (C (R E1))) as (H1 & H2 & H3).
    cbv zeta in H1, H2, H3. rewrite H1, H2, H3.
    destruct (@statuses_counts (C (R E)) (C (R E1))) as (H4 & H5 & H6).
    { unfold E1. cbn [R with_R C set_quota].
      apply vote_changed_statuses. apply distribute_frame. }
    rewrite H4, H5, H6. fold (Meek.winners E1).
    destruct (Meek.winners E1); [discriminate|]. cbn [length]. lia.
  - destruct (leb _ _); [intros [= <- <- <-]; apply Hst; discriminate|].
    destruct (geb _ _); [intros [= <- <- <-]; apply Hst; discriminate|].
    destruct (nonempty (Meek.batchDefeat _ _ _)) eqn:Hb.
    + intros [= <- <- <-].
      split; [apply Hst; discriminate|]. split; [|reflexivity].
      intros Hnil. apply (f_equal nonempty) in Hnil. cbn [nonempty] in Hnil.
      pose proof (eq_trans (eq_sym Hb) Hnil) as Habs. discriminate.
    + destruct (Meek.update_keep_factors _); discriminate.
Qed.

(** The passes of an iteration before the last one change no status and
    file no round. *)
Lemma iterate_from_final (Inv : Election -> Prop) (fuel : nat) :
  (forall E last p, Inv E -> Meek.pass rule omega_ last E = Ok p ->
                    Inv (state_of p)) ->
  (forall E, Inv E -> NoDup (map cid (C (R E)))) ->
  forall (last : V) (E E2 : Election) (s : Meek.iterateStatus)
         (batch : list Candidate),
    Inv E ->
    Meek.iterate_from rule fuel omega_ last E = Ok (s, batch, E2) ->
    exists last' Ep,
      Inv Ep /\ map cstatus (C (R Ep)) = map cstatus (C (R E)) /\
      rounds Ep = rounds E /\ nSeats Ep = nSeats E /\
      Meek.pass rule omega_ last' Ep = Ok (Meek.Finished s batch E2).
Proof.
  intros Hpass Hnd.
  induction fuel as [|fuel IH]; intros last E E2 s batch HI;
    cbn [Meek.iterate_from]; [discriminate|].
  destruct (Meek.pass rule omega_ last E) as [p| |] eqn:Hp; try discriminate.
  cbn [bind]. destruct p as [s1 b1 E1|last1 E1].
  - intros [= <- <- <-]. exists last, E. auto.
  - intros Hit.
    assert (HI1 : Inv E1) by exact (Hpass E last _ HI Hp).
    destruct (IH _ _ _ _ _ HI1 Hit) as (last' & Ep & H1 & H2 & H3 & H4 & H5).
    exists last', Ep. split; [exact H1|].
    pose proof (@pass_statuses _ rule omega_ last E _ Hp I) as Hs.
    destruct (@pass_evolves _ rule omega_ last E _ (Hnd E HI) Hp)
      as [_ (F1 & _ & F3 & _)].
    cbn [state_of] in Hs, F1, F3.
    split; [congruence|]. split; [congruence|]. split; [congruence|exact H5].
Qed.

Lemma pass_final_frame (last : V) (E E2 : Election) (s : Meek.iterateStatus)
      (batch : list Candidate) :
  NoDup (map cid (C (R E))) ->
  Meek.pass rule omega_ last E = Ok (Meek.Finished s batch E2) ->
  rounds E2 = rounds E /\ nSeats E2 = nSeats E /\ NoDup (map cid (C (R E2))).
Proof.
  intros Hnd Hp.
  destruct (@pass_evolves _ rule omega_ last E _ Hnd Hp) as [Hev (F1 & _ & F3 & _)].
  cbn [state_of] in Hev, F1, F3. split; [exact F3|]. split; [exact F1|].
  now rewrite (evolves_cids Hev).
Qed.

(** The defeat of lines 385-397 when the tie set is not empty. *)
Lemma defeat_low_counts (s : Meek.iterateStatus) (r r' : Round)
      (low : list Candidate) :
  NoDup (map cid (C r)) -> Meek.low_candidates r = Ok low -> low <> [] ->
  Meek.defeat_low s r = Ok r' ->
  nHopeful (C r') = nHopeful (C r) - 1 /\ nPending (C r') = nPending (C r) /\
  nElected (C r') = nElected (C r).
Proof.
  intros Hnd Hlow Hne. unfold Meek.defeat_low. rewrite Hlow. cbn [bind].
  assert (Hsub : forall c, In c low -> In c (hopeful (C r))).
  { unfold Meek.low_candidates in Hlow.
    destruct (vmin _); try discriminate. cbn [bind] in Hlow.
    injection Hlow as <-. intros c Hc. apply filter_In in Hc. tauto. }
  destruct (@breakTie_some _ r low "defeat" Hne) as [c Hc].
  pose proof (@breakTie_candidates _ r low "defeat") as HC.
  destruct (@breakTie_first _ r low "defeat" c Hc) as [Hin _].
  destruct (Meek.breakTie r low "defeat") as [o r1]. cbn [fst snd] in Hc, HC.
  subst o. intros [= <-].
  assert (Hnd1 : NoDup (map cid (C r1))) by now rewrite HC.
  assert (Hc1 : In c (hopeful (C r1))) by (rewrite HC; now apply Hsub).
  destruct (@defeat_zero_counts
              (match s with
               | Meek.IS_omega => "Defeat (surplus < omega)"
               | _ => "Defeat (stable surplus)"
               end) r1 c Hnd1 Hc1) as (H1 & H2 & H3 & _).
  rewrite HC in H1, H2, H3. auto.
Qed.

End MeekRoundCounts.

(** ** The rounds of a Meek count with exact arithmetic *)

Section MeekRationalRounds.
#[local] Existing Instance RationalArith.
Open Scope Qc_scope.
Variable rule : Meek.Rule.
Hypothesis meek_variant : Meek.warren rule = false.
Variable omega_ : V.

Lemma sum_nonneg (l : list Qc) : (forall x, In x l -> 0 <= x) -> 0 <= sum l.
Proof.
  induction l as [|x l IH]; intros H.
  - apply Qcle_refl.
  - assert (Hc : sum (x :: l) = x + sum l) by exact (@sum_cons _ RationalLaws x l).
    rewrite Hc. apply Qc_add_nonneg; [apply H; now left|].
    apply IH. intros y Hy. apply H. now right.
Qed.

(** After D.6 the surplus is not negative. *)
Lemma tallied_surplus_nonneg (E : Election) :
  kf_inv rule E -> 0 <= surplus (R (tallied rule E (quota_of rule E))).
Proof.
  intros HI. pose proof HI as ((Hnd & _) & _ & HS & _ & Hgood).
  destruct (@tallied_candidates rule E (quota_of rule E) Hnd) as (HC & Hq & _).
  unfold tallied in *. cbn [R with_R surplus set_surplus C quota] in *.
  unfold Meek.total_surplus. rewrite HC, Hq.
  apply sum_nonneg. intros x Hx. apply in_map_iff in Hx.
  destruct Hx as (c' & <- & Hc'). apply filter_In in Hc'.
  destruct Hc' as [Hin Hel]. apply has_status_iff in Hel.
  apply in_map_iff in Hin. destruct Hin as (a & <- & Ha).
  unfold elect_over in *.
  destruct (has_status Hopeful a) eqn:Hh; cbn [andb] in *.
  - destruct (@ltb RationalArith (quota_of rule E) (vote a)) eqn:Hlt.
    + apply rat_ltb in Hlt. cbn [vote set_status].
      change (sub (vote a) (quota_of rule E)) with (vote a - quota_of rule E).
      revert Hlt. generalize (vote a) (quota_of rule E). intros u v Hlt.
      qc_to_q. lra.
    + apply has_status_iff in Hh. congruence.
  - destruct (Hgood a Ha Hel) as [_ Hle].
    change (sub (vote a) (quota_of rule E)) with (vote a - quota_of rule E).
    revert Hle. generalize (vote a) (quota_of rule E). intros u v Hle.
    qc_to_q. lra.
Qed.

Lemma pass_surplus_nonneg (last : V) (E E2 : Election) (s : Meek.iterateStatus)
      (batch : list Candidate) :
  kf_inv rule E ->
  Meek.pass rule omega_ last E = Ok (Meek.Finished s batch E2) ->
  0 <= surplus (R E2).
Proof.
  intros HI. pose proof HI as (_ & _ & HS & _).
  pose proof (tallied_surplus_nonneg HI) as Hs.
  unfold Meek.pass. rewrite (tally_eq rule E (calcQuota_rat rule E HS)).
  cbn [bind fst snd]. unfold Meek.test_complete.
  destruct (nonempty _); [intros [= <- <- <-]; exact Hs|].
  destruct (@leb RationalArith _ _); [intros [= <- <- <-]; exact Hs|].
  destruct (@geb RationalArith _ _); [intros [= <- <- <-]; exact Hs|].
  destruct (nonempty _); [intros [= <- <- <-]; exact Hs|].
  destruct (Meek.update_keep_factors _); discriminate.
Qed.

(** With a surplus that is not negative the hopeful with the lowest vote
    is in the tie set. *)
Lemma low_candidates_nonempty (r : Round) :
  hopeful (C r) <> [] -> 0 <= surplus r ->
  exists low, Meek.low_candidates r = Ok low /\ low <> [].
Proof.
  intros Hne Hs. unfold Meek.low_candidates.
  destruct (vmin (map vote (hopeful (C r)))) as [lv| |] eqn:Hmin.
  - cbn [bind]. eexists. split; [reflexivity|].
    pose proof (vmin_In _ Hmin) as Hin. apply in_map_iff in Hin.
    destruct Hin as (c & Hv & Hc). intros Hnil.
    assert (Hc' : In c (filter (fun c0 => geb (add lv (surplus r)) (vote c0))
                               (hopeful (C r)))).
    { apply filter_In. split; [exact Hc|]. rewrite Hv. unfold geb.
      apply rat_leb. now apply Qc_le_add_r. }
    rewrite Hnil in Hc'. contradiction.
  - exfalso. destruct (hopeful (C r)); [congruence|discriminate].
  - exfalso. destruct (hopeful (C r)); discriminate.
Qed.

Lemma meek_batchDefeat_size (E : Election) (s : V) :
  Meek.batchDefeat rule E s <> [] ->
  (Z.of_nat (length (Meek.batchDefeat rule E s)) <=
   nHopeful (C (R E)) - seatsLeftToFill E)%Z.
Proof.
  unfold Meek.batchDefeat. destruct (Meek.defeatBatch rule); [congruence|].
  intros Hne.
  destruct (sure_losers_properties s
              (nHopeful (C (R E)) - seatsLeftToFill E)
              (sortByVote (hopeful (C (R E)))))
    as (_ & _ & _ & _ & H & _).
  apply H. exact Hne.
Qed.

Lemma nonneg_length_nil (T : Type) (l : list T) :
  (0 < Z.of_nat (length l))%Z -> l <> [].
Proof. destruct l; cbn [length]; [lia|discriminate]. Qed.

(** A round elects or defeats a candidate. *)
Lemma meek_round_counts (fuel : nat) (E E' : Election) :
  meek_inv rule E -> Meek.countComplete E = false ->
  Meek.round rule fuel omega_ E = Ok E' ->
  (nHopeful (C (R E')) < nHopeful (C (R E)))%Z /\
  nPending (C (R E')) = nPending (C (R E)) /\
  (nElected (C (R E')) + nHopeful (C (R E')) <=
   nElected (C (R E)) + nHopeful (C (R E)))%Z /\
  (nSeats E <= nElected (C (R E')) + nPending (C (R E')) + nHopeful (C (R E')))%Z /\
  rounds E' = R E :: rounds E /\ nSeats E' = nSeats E.
Proof.
  intros HM Hc.
  assert (Hpos : (0 < nHopeful (C (R E)))%Z)
    by (eapply not_complete_hopeful; eassumption).
  assert (Hleft : (seatsLeftToFill E < nHopeful (C (R E)))%Z).
  { unfold Meek.countComplete in Hc. apply orb_false_iff in Hc.
    destruct Hc as [H1 _]. now apply Z.leb_gt in H1. }
  unfold seatsLeftToFill in Hleft.
  assert (HM1 : meek_inv rule (newRound E))
    by (eapply meek_inv_newRound; eassumption).
  unfold Meek.round, Meek.iterate.
  destruct (Meek.iterate_from _ _ _ _ _) as [[[s batch] E2]| |] eqn:Hit;
    try discriminate.
  cbn [bind].
  assert (Hfin : exists last' Ep,
             meek_inv rule Ep /\
             map cstatus (C (R Ep)) = map cstatus (C (R (newRound E))) /\
             rounds Ep = rounds (newRound E) /\ nSeats Ep = nSeats (newRound E) /\
             Meek.pass rule omega_ last' Ep = Ok (Meek.Finished s batch E2)).
  { eapply (@iterate_from_final _ rule omega_ (meek_inv rule) fuel).
    - intros E1 last1 p1 H1 H2. eapply meek_inv_pass; eassumption.
    - intros E1 H1. destruct H1 as (((Hx & _) & _) & _). exact Hx.
    - exact HM1.
    - exact Hit. }
  destruct Hfin as (last' & Ep & HMp & Hst & Hr & HS & Hp).
  cbn [newRound R C rounds nSeats] in Hst, Hr, HS.
  pose proof HMp as (((Hndp & _) & _) & _).
  destruct (@pass_final_frame _ rule omega_ last' Ep E2 s batch Hndp Hp)
    as (Hr2 & HS2 & Hnd2).
  pose proof (@pass_final_counts _ rule omega_ last' Ep E2 s batch Hndp Hp) as Hcnt.
  destruct (@statuses_counts _ _ _ Hst) as (Hh & Hpe & He).
  pose proof (@pass_surplus_nonneg last' Ep E2 s batch (proj1 HMp) Hp) as Hsur.
  assert (Hlow : s <> Meek.IS_elected ->
                 map cstatus (C (R E2)) = map cstatus (C (R Ep)) ->
                 forall r, Meek.defeat_low s (R E2) = Ok r ->
                           nHopeful (C r) = (nHopeful (C (R E)) - 1)%Z /\
                           nPending (C r) = nPending (C (R E)) /\
                           nElected (C r) = nElected (C (R E))).
  { intros _ Hst2 r Hd.
    destruct (@statuses_counts _ _ _ Hst2) as (Hh2 & Hp2 & He2).
    destruct (@low_candidates_nonempty (R E2)) as (low & Hl & Hne);
      [apply nonneg_length_nil; fold (nHopeful (C (R E2))); lia|exact Hsur|].
    destruct (@defeat_low_counts _ s (R E2) r low Hnd2 Hl Hne Hd) as (H1 & H2 & H3).
    repeat split; congruence. }
  destruct s.
  - destruct (Meek.defeat_low _ _) as [r| |] eqn:Hd; try discriminate.
    cbn [bind]. intros [= <-]. cbn [R with_R rounds nSeats].
    destruct (Hlow ltac:(discriminate) Hcnt r eq_refl) as (H1 & H2 & H3).
    repeat split; try congruence; lia.
  - intros [= <-]. cbn [R with_R rounds nSeats].
    destruct Hcnt as (Hst2 & Hne & Hb).
    destruct (@statuses_counts _ _ _ Hst2) as (Hh2 & Hp2 & He2).
    destruct (@defeat_batch_counts _ batch (R E2) Hnd2) as (H1 & H2 & H3).
    + rewrite Hb. now apply batchDefeat_NoDup.
    + intros c Hc'. rewrite Hb in Hc'. eapply batchDefeat_hopeful. exact Hc'.
    + pose proof (@meek_batchDefeat_size E2 (surplus (R E2))) as Hsize.
      rewrite <- Hb in Hsize. specialize (Hsize Hne).
      unfold seatsLeftToFill in Hsize.
      assert (0 < Z.of_nat (length batch))%Z
        by (destruct batch; [congruence|cbn [length]; lia]).
      repeat split; try congruence; lia.
  - intros [= <-]. destruct Hcnt as (H1 & H2 & H3).
    repeat split; try congruence; lia.
  - destruct (Meek.defeat_low _ _) as [r| |] eqn:Hd; try discriminate.
    cbn [bind]. intros [= <-]. cbn [R with_R rounds nSeats].
    destruct (Hlow ltac:(discriminate) Hcnt r eq_refl) as (H1 & H2 & H3).
    repeat split; try congruence; lia.
Qed.

End MeekRationalRounds.

Section MeekRationalCount.
#[local] Existing Instance RationalArith.
Variable rule : Meek.Rule.
Hypothesis meek_variant : Meek.warren rule = false.
Variable omega_ : V.
Variable E0 : Election.
Hypothesis E0_well_formed : well_formed E0.

Lemma fresh_no_seats (cs : list Candidate) :
  fresh cs -> nElected cs = 0 /\ nPending cs = 0.
Proof.
  unfold fresh, nElected, nPending, elected, pending, has_status.
  induction cs as [|c cs IH]; intros H; cbn [filter length]; [auto|].
  destruct IH as [IH1 IH2]; [intros x Hx; apply H; now right|].
  destruct (H c (or_introl eq_refl)) as [->| ->]; cbn [status_eqb]; auto.
Qed.

Lemma init_statuses (E : Election) :
  Meek.init E0 = Ok E -> map cstatus (C (R E)) = map cstatus (C (R E0)).
Proof.
  intros Hi. destruct (@init_candidates _ E0 E Hi) as (HC & _).
  rewrite HC.
  rewrite (vote_changed_statuses
             (first_preferences_frame (ballots E0) (Meek.init_kf (C (R E0))))).
  unfold Meek.init_kf. rewrite !map_map. apply map_ext. intros c.
  destruct (has_status Withdrawn c); cbn;
    destruct (has_status Hopeful _); reflexivity.
Qed.

(** The states of the round loop: a round is filed for each candidate
    that has left the hopefuls, at most, and the candidates elected or
    hopeful are enough for the seats. *)
Lemma head_counts (E : Election) :
  at_head rule omega_ E0 E ->
  nPending (C (R E)) = 0 /\ nSeats E = nSeats E0 /\
  Z.of_nat (length (rounds E)) + nHopeful (C (R E)) <= nHopeful (C (R E0)) /\
  nElected (C (R E)) + nHopeful (C (R E)) <= nHopeful (C (R E0)) /\
  Z.min (nSeats E0) (nHopeful (C (R E0))) <=
  nElected (C (R E)) + nHopeful (C (R E)).
Proof.
  intros Hh. induction Hh as [E Hi|E E' fuel Hh IH Hc Hr].
  - destruct E0_well_formed as (Hnd & Hf & Hr & _).
    destruct (statuses_counts _ _ (init_statuses Hi)) as (H1 & H2 & H3).
    destruct (fresh_no_seats Hf) as [H4 H5].
    destruct (@init_candidates _ E0 E Hi) as (_ & HR & HS & _).
    rewrite HR, Hr, H1, H2, H3, H4, H5, HS. cbn [length]. repeat split; lia.
  - destruct IH as (I1 & I2 & I3 & I4 & I5).
    assert (HM : meek_inv rule E)
      by (eapply well_formed_head; eassumption).
    destruct (@meek_round_counts rule meek_variant omega_ fuel E E' HM Hc Hr)
      as (H1 & H2 & H3 & H4 & H5 & H6).
    rewrite H5. cbn [length]. repeat split; try congruence; lia.
Qed.

End MeekRationalCount.

(** X13. In a Meek count with exact arithmetic every round elects or defeats
  a candidate: a round leaves fewer hopefuls than it found and files one
  round, so the rounds on record and the hopefuls left are together no
  more than the hopefuls at the start. *)
Theorem meek_rational_rounds_progress (rule : Meek.Rule) (omega_ : @V RationalArith)
      (E0 : @Election RationalArith) :
Meek.warren rule = false -> well_formed E0 ->
(forall fuel E E',
    at_head rule omega_ E0 E -> Meek.countComplete E = false ->
    Meek.round rule fuel omega_ E = Ok E' ->
    nHopeful (C (R E')) < nHopeful (C (R E)) /\ rounds E' = R E :: rounds E) /\
(forall E, at_head rule omega_ E0 E ->
           Z.of_nat (length (rounds E)) + nHopeful (C (R E)) <=
           nHopeful (C (R E0))).
Proof.
intros Hw Hwf. split.
- intros fuel E E' Hh Hc Hr.
  assert (HM : meek_inv rule E) by (eapply well_formed_head; eassumption).
  destruct (@meek_round_counts rule Hw omega_ fuel E E' HM Hc Hr)
    as (H1 & _ & _ & _ & H5 & _).
  split; assumption.
- intros E Hh. now destruct (@head_counts rule Hw omega_ E0 Hwf E Hh) as (_ & _ & H & _).
Qed.

(** X14. A Meek count with exact arithmetic that returns has elected as many
  candidates as there are seats, or all the hopefuls of the start when
  they are fewer. *)
Theorem meek_rational_fills_the_seats (rule : Meek.Rule) (nrounds fuel : nat)
      (E0 E' : @Election RationalArith) :
Meek.warren rule = false -> well_formed E0 ->
Meek.count rule nrounds fuel E0 = Ok E' ->
nElected (C (R E')) = Z.min (nSeats E0) (nHopeful (C (R E0))).
Proof.
intros Hw Hwf Hcount.
destruct (@count_head _ rule nrounds fuel E0 E' Hcount)
  as (omega_ & E & _ & Hh & Hc & ->).
assert (HM : meek_inv rule E) by (eapply well_formed_head; eassumption).
pose proof HM as (((Hnd & _) & _) & He & _).
destruct (@head_counts rule Hw omega_ E0 Hwf E Hh) as (I1 & I2 & _ & I4 & I5).
rewrite (@finish_elected _ E Hnd).
unfold Meek.countComplete, seatsLeftToFill in Hc. rewrite I1 in Hc.
pose proof (Zle_0_nat (length (hopeful (C (R E))))) as Hh0.
fold (nHopeful (C (R E))) in Hh0.
apply orb_true_iff in Hc. destruct Hc as [Hc|Hc]; apply Z.leb_le in Hc; lia.
Qed.

(* ===================================================================== *)
(** * The options of the rules and the command line                       *)
(* ===================================================================== *)

Section OptionFacts.
Import RuleOptions.
Open Scope string_scope.

Lemma dict_get_set_same (d : dict) (k : string) (v : pyval) :
  dict_get (dict_set d k v) k = Some v.
Proof.
  induction d as [|[k' v'] d IH]; cbn [dict_set dict_get].
  - now rewrite String.eqb_refl.
  - destruct (String.eqb k' k) eqn:Hk; cbn [dict_get].
    + now rewrite String.eqb_refl.
    + now rewrite Hk.
Qed.

Lemma dict_get_set_other (d : dict) (k j : string) (v : pyval) :
  j <> k -> dict_get (dict_set d k v) j = dict_get d j.
Proof.
  intros Hne. induction d as [|[k' v'] d IH]; cbn [dict_set dict_get].
  - destruct (String.eqb_spec k j); [congruence|reflexivity].
  - destruct (String.eqb_spec k' k) as [->|Hk]; cbn [dict_get].
    + destruct (String.eqb_spec k j); [congruence|reflexivity].
    + now rewrite IH.
Qed.

(** A dict whose entry at [k] is already [v] is not changed by
    [d[k] = v]. *)
Lemma dict_set_same (d : dict) (k : string) (v : pyval) :
  dict_get d k = Some v -> dict_set d k v = d.
Proof.
  induction d as [|[k' v'] d IH]; cbn [dict_set dict_get]; [discriminate|].
  destruct (String.eqb_spec k' k) as [->|Hk].
  - now intros [= ->].
  - intros H. now rewrite IH.
Qed.

Lemma get_default_set_other (d : dict) (k j : string) (v dflt : pyval) :
  j <> k -> get_default (dict_set d k v) j dflt = get_default d j dflt.
Proof. intros H. unfold get_default. now rewrite dict_get_set_other. Qed.

Lemma get_default_set_same (d : dict) (k : string) (v dflt : pyval) :
  get_default (dict_set d k v) k dflt = v.
Proof. unfold get_default. now rewrite dict_get_set_same. Qed.

Lemma set_add_In (x k : string) (s : list string) :
  In k (set_add x s) <-> k = x \/ In k s.
Proof.
  induction s as [|y s IH]; cbn [set_add In].
  - intuition congruence.
  - destruct (String.eqb_spec y x) as [->|Hne]; cbn [In].
    + intuition congruence.
    + rewrite IH. intuition congruence.
Qed.

Lemma get_default_idem (d : dict) (k : string) (dflt : pyval) :
  get_default d k (get_default d k dflt) = get_default d k dflt.
Proof. unfold get_default. destruct (dict_get d k); reflexivity. Qed.

(** The dict the call leaves: as it was, or with [arithmetic] set. *)
Definition with_arithmetic (d : dict) : dict :=
  if truthy (get_default d "arithmetic" PNone) then d
  else dict_set d "arithmetic" (PStr "guarded").

Lemma with_arithmetic_get (d : dict) (k : string) :
  k <> "arithmetic" -> dict_get (with_arithmetic d) k = dict_get d k.
Proof.
  intros H. unfold with_arithmetic.
  destruct (truthy (get_default d "arithmetic" PNone)); [reflexivity|].
  now apply dict_get_set_other.
Qed.

Lemma with_arithmetic_truthy (d : dict) :
  truthy (get_default (with_arithmetic d) "arithmetic" PNone) = true.
Proof.
  unfold with_arithmetic.
  destruct (truthy (get_default d "arithmetic" PNone)) eqn:H; [exact H|].
  now rewrite get_default_set_same.
Qed.

Lemma with_arithmetic_idem (d : dict) :
  with_arithmetic (with_arithmetic d) = with_arithmetic d.
Proof.
  unfold with_arithmetic at 1. now rewrite with_arithmetic_truthy.
Qed.

Lemma variant_of_with_arithmetic (d : dict) :
  variant_of (with_arithmetic d) = variant_of d.
Proof.
  unfold variant_of, get_default.
  rewrite !with_arithmetic_get by discriminate. reflexivity.
Qed.

Lemma meek_options_eq (c : meek_class) (d : dict) (v : string) :
  variant_of d = inr v ->
  meek_options c d =
  let db := get_default (with_arithmetic d) "defeat_batch" (m_defeatBatch c) in
  (mkMeekClass (Some (String.eqb v "warren"))
               (get_default (with_arithmetic d) "omega" PNone) db,
   with_arithmetic d,
   if is_str db "none" || is_str db "safe" then None else Some OptUsageError).
Proof.
  intros Hv. unfold meek_options. rewrite Hv. fold (with_arithmetic d). cbv zeta.
  destruct (is_str _ "none" || is_str _ "safe"); reflexivity.
Qed.

End OptionFacts.

(** X15. [options] of the Meek rule stores the [defeat_batch] it is given
  before it tests it: a call with a [defeat_batch] that is neither [none]
  nor [safe] raises [UsageError] and leaves that value in the class, and
  then every call whose options give no [defeat_batch] raises too,
  whatever else they give. *)
Theorem meek_options_bad_defeat_batch_sticks
      (c : RuleOptions.meek_class) (d : RuleOptions.dict) (v : RuleOptions.pyval)
      (variant : string) :
RuleOptions.variant_of d = inr variant ->
RuleOptions.dict_get d "defeat_batch"%string = Some v ->
(RuleOptions.is_str v "none" || RuleOptions.is_str v "safe")%bool = false ->
snd (RuleOptions.meek_options c d) = Some RuleOptions.OptUsageError /\
RuleOptions.m_defeatBatch (fst (fst (RuleOptions.meek_options c d))) = v /\
forall d2, RuleOptions.dict_get d2 "defeat_batch"%string = None ->
           snd (RuleOptions.meek_options
                  (fst (fst (RuleOptions.meek_options c d))) d2) <> None.
Proof.
intros Hv Hd Hbad. rewrite (meek_options_eq c d Hv). cbv zeta.
assert (Hdb : RuleOptions.get_default (with_arithmetic d) "defeat_batch"
                                      (RuleOptions.m_defeatBatch c) = v).
{ unfold RuleOptions.get_default.
  rewrite with_arithmetic_get by discriminate. now rewrite Hd. }
rewrite Hdb, Hbad. cbn [fst snd RuleOptions.m_defeatBatch].
split; [reflexivity|]. split; [reflexivity|].
intros d2 Hd2.
destruct (RuleOptions.variant_of d2) as [e|v2] eqn:Hv2.
- unfold RuleOptions.meek_options. rewrite Hv2. discriminate.
- rewrite (meek_options_eq _ d2 Hv2). cbv zeta. cbn [snd RuleOptions.m_defeatBatch].
  unfold RuleOptions.get_default at 1 2.
  rewrite with_arithmetic_get by discriminate. rewrite Hd2, Hbad. discriminate.
Qed.

(** X16. A call of [options] of the Meek rule that returns leaves the class
  with [defeatBatch] equal to [none] or [safe] and [warren] set, the dict
  with a true [arithmetic] and every other key as it was, and a second
  call with the dict and the class it has left changes nothing. *)
Theorem meek_options_returns
      (c c' : RuleOptions.meek_class) (d d' : RuleOptions.dict) :
RuleOptions.meek_options c d = (c', d', None) ->
(RuleOptions.m_defeatBatch c' = RuleOptions.PStr "none" \/
 RuleOptions.m_defeatBatch c' = RuleOptions.PStr "safe") /\
(exists variant, RuleOptions.variant_of d = inr variant /\
                 RuleOptions.m_warren c' = Some (String.eqb variant "warren")) /\
RuleOptions.truthy (RuleOptions.get_default d' "arithmetic" RuleOptions.PNone) = true /\
(forall k, k <> "arithmetic"%string ->
           RuleOptions.dict_get d' k = RuleOptions.dict_get d k) /\
RuleOptions.meek_options c' d' = (c', d', None).
Proof.
intros H. destruct (RuleOptions.variant_of d) as [e|v] eqn:Hv.
{ unfold RuleOptions.meek_options in H. rewrite Hv in H. discriminate. }
rewrite (meek_options_eq c d Hv) in H. cbv zeta in H.
set (db := RuleOptions.get_default (with_arithmetic d) "defeat_batch"
                                   (RuleOptions.m_defeatBatch c)) in *.
destruct (RuleOptions.is_str db "none" || RuleOptions.is_str db "safe")%bool eqn:Hok;
  [|discriminate].
injection H as <- <-. cbn [RuleOptions.m_defeatBatch RuleOptions.m_warren].
split.
{ apply orb_true_iff in Hok. unfold RuleOptions.is_str in Hok.
  destruct db as [| | |s]; try (destruct Hok; discriminate).
  destruct Hok as [Hok|Hok]; apply String.eqb_eq in Hok; subst; auto. }
split; [exists v; auto|].
split; [apply with_arithmetic_truthy|].
split; [intros k Hk; now apply with_arithmetic_get|].
rewrite (@meek_options_eq _ (with_arithmetic d) v)
  by (now rewrite variant_of_with_arithmetic).
cbv zeta. cbn [RuleOptions.m_defeatBatch]. rewrite with_arithmetic_idem.
assert (Hdb : RuleOptions.get_default (with_arithmetic d) "defeat_batch" db = db).
{ apply get_default_idem. }
rewrite Hdb, Hok. reflexivity.
Qed.

(** X17. [options] of the WIGM rule with a rule name that is a string: it
  returns, with [arithmetic] set to [fixed], [precision] to [4] and
  [display] to [None] whatever the caller gave, every other key as it was;
  [defeatBatch] is set when, and only when, the name ends in [batch]; the
  four names [arithmetic], [precision], [display] and [defeat_batch] are
  added to the set [ignored], which loses nothing; the name is kept in the class, so that a call that gives no [rule] counts
  as the call before it did; and a second call with the dict and the
  class it has left changes the class and the dict no more. *)
Theorem wigm_options_forces_arithmetic
      (c : RuleOptions.wigm_class) (d : RuleOptions.dict) (ignored : list string)
      (name : string) :
RuleOptions.get_default d "rule" (RuleOptions.w_name c) = RuleOptions.PStr name ->
let '(c', d', ignored', raised) := RuleOptions.wigm_options c d ignored in
raised = None /\
c' = RuleOptions.mkWigmClass (RuleOptions.PStr name)
                             (RuleOptions.ends_with name "batch") /\
RuleOptions.dict_get d' "arithmetic" = Some (RuleOptions.PStr "fixed") /\
RuleOptions.dict_get d' "precision" = Some (RuleOptions.PInt 4) /\
RuleOptions.dict_get d' "display" = Some RuleOptions.PNone /\
(forall k, k <> "arithmetic"%string -> k <> "precision"%string ->
           k <> "display"%string ->
           RuleOptions.dict_get d' k = RuleOptions.dict_get d k) /\
(forall k, In k ignored' <->
           In k ignored \/
           In k ["arithmetic"; "precision"; "display"; "defeat_batch"]%string) /\
(forall d2 ignored2,
    RuleOptions.dict_get d2 "rule" = None ->
    fst (fst (fst (RuleOptions.wigm_options c' d2 ignored2))) = c') /\
fst (fst (RuleOptions.wigm_options c' d' ignored')) = (c', d').
Proof.
intros Hn. unfold RuleOptions.wigm_options at 1. rewrite Hn.
split; [reflexivity|]. split; [reflexivity|].
split.
{ rewrite !dict_get_set_other by discriminate. apply dict_get_set_same. }
split.
{ rewrite dict_get_set_other by discriminate. apply dict_get_set_same. }
split; [apply dict_get_set_same|].
split.
{ intros k H1 H2 H3. now rewrite !dict_get_set_other. }
split.
{ intros k. unfold RuleOptions.wigm_ignored. rewrite !set_add_In. cbn [In].
  intuition congruence. }
split.
{ intros d2 ignored2 Hd2. unfold RuleOptions.wigm_options, RuleOptions.get_default.
  rewrite Hd2. reflexivity. }
unfold RuleOptions.wigm_options.
assert (Hr : RuleOptions.get_default
               (RuleOptions.dict_set
                  (RuleOptions.dict_set
                     (RuleOptions.dict_set d "arithmetic" (RuleOptions.PStr "fixed"))
                     "precision" (RuleOptions.PInt RuleOptions.wigm_precision))
                  "display" RuleOptions.PNone)
               "rule" (RuleOptions.PStr name) = RuleOptions.PStr name).
{ rewrite !get_default_set_other by discriminate.
  unfold RuleOptions.get_default in *.
  destruct (RuleOptions.dict_get d "rule"); [exact Hn|reflexivity]. }
cbn [RuleOptions.w_name]. rewrite Hr. cbn [fst]. f_equal.
set (d1 := RuleOptions.dict_set
             (RuleOptions.dict_set
                (RuleOptions.dict_set d "arithmetic" (RuleOptions.PStr "fixed"))
                "precision" (RuleOptions.PInt RuleOptions.wigm_precision))
             "display" RuleOptions.PNone).
assert (H1 : RuleOptions.dict_set d1 "arithmetic" (RuleOptions.PStr "fixed") = d1).
{ apply dict_set_same. unfold d1.
  rewrite !dict_get_set_other by discriminate. apply dict_get_set_same. }
rewrite H1.
assert (H2 : RuleOptions.dict_set d1 "precision"
                                  (RuleOptions.PInt RuleOptions.wigm_precision) = d1).
{ apply dict_set_same. unfold d1.
  rewrite dict_get_set_other by discriminate. apply dict_get_set_same. }
rewrite H2. apply dict_set_same. apply dict_get_set_same.
Qed.

Section CliFacts.
Import RuleOptions Cli.
Open Scope string_scope.
Open Scope list_scope.

Variable arithmeticNames : list string.
Variable electionRuleNames : list string.

(** The string has an [=]. *)
Fixpoint has_eq (s : string) : bool :=
  match s with
  | EmptyString => false
  | String c s' => Ascii.eqb c "="%char || has_eq s'
  end.

(** An argument taken for the ballot file: no [=] in it, and not the
    name of an arithmetic or of a rule, nor [dump]. *)
Definition file_word (a : string) : bool :=
  negb (has_eq a) && negb (mem a arithmeticNames) &&
  negb (mem a electionRuleNames) && negb (String.eqb a "dump").

Lemma split_eq_nonempty (s : string) : split_eq s <> [].
Proof.
  induction s as [|c s IH]; cbn [split_eq]; [discriminate|].
  destruct (Ascii.eqb c "="%char); [discriminate|].
  destruct (split_eq s); [congruence|discriminate].
Qed.

Lemma split_eq_no_eq (s : string) : has_eq s = false -> split_eq s = [s].
Proof.
  induction s as [|c s IH]; cbn [split_eq has_eq]; [reflexivity|].
  destruct (Ascii.eqb c "="%char); cbn [orb]; [discriminate|].
  intros H. now rewrite IH.
Qed.

Lemma split_eq_has_eq (s : string) :
  has_eq s = true -> exists k v rest, split_eq s = k :: v :: rest.
Proof.
  induction s as [|c s IH]; cbn [split_eq has_eq]; [discriminate|].
  destruct (Ascii.eqb c "="%char); cbn [orb].
  - intros _. destruct (split_eq s) as [|v rest] eqn:Hs.
    + now apply split_eq_nonempty in Hs.
    + now exists "", v, rest.
  - intros H. destruct (IH H) as (k & v & rest & ->). now exists (String c k), v, rest.
Qed.

(** [k=v] with no [=] in [k] nor in [v] splits into [k] and [v]. *)
Lemma split_eq_pair (k v : string) :
  has_eq k = false -> has_eq v = false ->
  split_eq (k ++ String "="%char v)%string = [k; v].
Proof.
  intros Hk Hv. induction k as [|c k IH]; cbn [append split_eq has_eq] in *.
  - now rewrite split_eq_no_eq.
  - destruct (Ascii.eqb c "="%char); cbn [orb] in Hk; [discriminate|].
    now rewrite IH.
Qed.

(** What an argument does to the local [path]. *)
Lemma cli_arg_path (st : cli_state) (a : string) :
  if file_word a then
    cli_arg arithmeticNames electionRuleNames st a =
    if path_set (cli_path st) then None
    else Some (mkCliState (Some a) (dict_set (cli_options st) "path" (PStr a)))
  else exists st', cli_arg arithmeticNames electionRuleNames st a = Some st' /\
                   cli_path st' = cli_path st.
Proof.
  unfold file_word, cli_arg. destruct (has_eq a) eqn:He; cbn [negb andb].
  - destruct (split_eq_has_eq a He) as (k & v & rest & ->). eexists; split; reflexivity.
  - rewrite (split_eq_no_eq a He).
    destruct (mem a arithmeticNames); cbn [negb andb]; [eexists; split; reflexivity|].
    destruct (mem a electionRuleNames); cbn [negb andb]; [eexists; split; reflexivity|].
    destruct (String.eqb a "dump"); cbn [negb]; [eexists; split; reflexivity|].
    reflexivity.
Qed.

Lemma cli_args_app (st : cli_state) (l1 l2 : list string) :
  cli_args arithmeticNames electionRuleNames st (l1 ++ l2) =
  match cli_args arithmeticNames electionRuleNames st l1 with
  | Some st' => cli_args arithmeticNames electionRuleNames st' l2
  | None => None
  end.
Proof.
  revert st. induction l1 as [|a l1 IH]; intros st; cbn [app cli_args]; [reflexivity|].
  destruct (cli_arg arithmeticNames electionRuleNames st a); [apply IH|reflexivity].
Qed.

(** Some argument is taken for the ballot file. *)
Definition names_file (argv : list string) : Prop :=
  exists a, In a argv /\ file_word a = true.

(** Two arguments are taken for the ballot file, and the earlier one is
    not the empty string. *)
Definition names_two_files (argv : list string) : Prop :=
  exists l1 a l2, argv = l1 ++ a :: l2 /\ file_word a = true /\ a <> "" /\
                  names_file l2.

Lemma cli_args_raises (argv : list string) : forall st,
  cli_args arithmeticNames electionRuleNames st argv = None <->
  (path_set (cli_path st) = true /\ names_file argv) \/ names_two_files argv.
Proof.
  induction argv as [|a argv IH]; intros st; cbn [cli_args].
  - split; [discriminate|].
    intros [[_ (a & [] & _)]|(l1 & a & l2 & H & _)]. now destruct l1.
  - pose proof (cli_arg_path st a) as Ha.
    destruct (file_word a) eqn:Hf.
    + rewrite Ha. destruct (path_set (cli_path st)) eqn:Hp.
      * split; [intros _|reflexivity]. left. split; [reflexivity|].
        exists a. split; [now left|exact Hf].
      * rewrite IH. cbn [cli_path path_set]. split.
        -- intros [[Hne (b & Hb & Hfb)]|(l1 & b & l2 & -> & Hfb & Hne & H2)].
           ++ right. exists [], a, argv. repeat split; auto.
              ** intros ->. discriminate.
              ** now exists b.
           ++ right. exists (a :: l1), b, l2. repeat split; auto.
        -- intros [[Hne _]|(l1 & b & l2 & Heq & Hfb & Hne & H2)]; [discriminate|].
           destruct l1 as [|a' l1]; cbn [app] in Heq; injection Heq as -> ->.
           ++ left. split; [|exact H2].
              destruct b; [congruence|reflexivity].
           ++ right. exists l1, b, l2. repeat split; auto.
    + destruct Ha as (st' & -> & Hp). rewrite IH, Hp. split.
      * intros [[Hne (b & Hb & Hfb)]|(l1 & b & l2 & -> & Hfb & Hne & H2)].
        -- left. split; [exact Hne|]. exists b. split; [now right|exact Hfb].
        -- right. exists (a :: l1), b, l2. repeat split; auto.
      * intros [[Hne (b & [->|Hb] & Hfb)]|(l1 & b & l2 & Heq & Hfb & Hne & H2)].
        -- congruence.
        -- left. split; [exact Hne|]. now exists b.
        -- destruct l1 as [|a' l1]; cbn [app] in Heq; injection Heq as -> ->.
           ++ congruence.
           ++ right. exists l1, b, l2. repeat split; auto.
Qed.

Lemma cli_args_path (argv : list string) : forall st st',
  cli_args arithmeticNames electionRuleNames st argv = Some st' ->
  (cli_path st' = None <-> cli_path st = None /\ ~ names_file argv).
Proof.
  induction argv as [|a argv IH]; intros st st'; cbn [cli_args].
  - intros [= <-]. split; [intros H; split; [exact H|]|tauto].
    intros (a & [] & _).
  - pose proof (cli_arg_path st a) as Ha.
    destruct (file_word a) eqn:Hf.
    + rewrite Ha. destruct (path_set (cli_path st)); [discriminate|].
      intros H. rewrite (IH _ _ H). cbn [cli_path]. split.
      * intros [H0 _]. discriminate.
      * intros [_ Hn]. exfalso. apply Hn. exists a. split; [now left|exact Hf].
    + destruct Ha as (st1 & -> & Hp). intros H. rewrite (IH _ _ H), Hp.
      split; intros [H0 Hn]; (split; [exact H0|]); intros (b & Hb & Hfb); apply Hn.
      * destruct Hb as [->|Hb]; [congruence|]. now exists b.
      * exists b. split; [now right|exact Hfb].
Qed.

End CliFacts.

(** X18. The command line of [Droop.py], for arguments that do not start
  with [help]: the run stops with [must specify ballot file] exactly when
  no argument is taken for the ballot file, and an argument [path=...] is
  not; it stops with [UsageError] exactly when two arguments are taken
  for the ballot file and the earlier one is not empty; and an argument
  [k=v] added to a command line that reaches [main] sets [k] in the
  options, [path] too, with [true] and [false] in any case turned into
  booleans. *)
Theorem cli_ballot_file (arithmeticNames electionRuleNames : list string)
      (a : string) (rest : list string) :
a <> "help"%string ->
let run := Cli.cli arithmeticNames electionRuleNames in
let file := file_word arithmeticNames electionRuleNames in
(run (a :: rest) = Cli.ExitNoBallotFile <->
   forall x, In x (a :: rest) -> file x = false) /\
(run (a :: rest) = Cli.ExitUsageError <->
   exists l1 x l2 y, a :: rest = (l1 ++ x :: l2)%list /\ file x = true /\
                     x <> ""%string /\ In y l2 /\ file y = true) /\
(forall d k v, run (a :: rest) = Cli.CallMain d ->
   has_eq k = false -> has_eq v = false ->
   run ((a :: rest) ++ [(k ++ String "="%char v)%string])%list =
   Cli.CallMain (RuleOptions.dict_set d k
                   (if String.eqb (RuleOptions.lower v) "false"
                    then RuleOptions.PBool false
                    else if String.eqb (RuleOptions.lower v) "true"
                         then RuleOptions.PBool true
                         else RuleOptions.PStr v))).
Proof.
intros Hhelp run file. subst run file.
assert (Hh : String.eqb a "help" = false) by now apply String.eqb_neq.
pose proof (cli_args_raises arithmeticNames electionRuleNames (a :: rest)
                            Cli.cli_state0) as Hr.
pose proof (@cli_args_path arithmeticNames electionRuleNames (a :: rest)
                           Cli.cli_state0) as Hp.
pose proof (cli_args_app arithmeticNames electionRuleNames Cli.cli_state0
                         (a :: rest)) as Happ.
unfold Cli.cli. cbn [app] in *. rewrite Hh.
destruct (Cli.cli_args arithmeticNames electionRuleNames Cli.cli_state0 (a :: rest))
  as [st|] eqn:Hrun.
- specialize (Hp st eq_refl). cbn [Cli.cli_state0 Cli.cli_path] in Hp.
  assert (Hnr : ~ names_two_files arithmeticNames electionRuleNames (a :: rest)).
  { intros H. destruct Hr as [_ Hr]. discriminate Hr. now right. }
  split; [|split].
  + destruct (Cli.cli_path st) as [p|].
    * split; [discriminate|]. intros Hall. exfalso.
      assert (H : @None string = None /\
                  ~ names_file arithmeticNames electionRuleNames (a :: rest)).
      { split; [reflexivity|]. intros (x & Hx & Hfx). rewrite (Hall x Hx) in Hfx.
        discriminate. }
      apply Hp in H. discriminate.
    * split; [intros _|reflexivity]. intros x Hx.
      destruct (file_word arithmeticNames electionRuleNames x) eqn:Hfx; [|reflexivity].
      exfalso. destruct Hp as [Hp _]. destruct (Hp eq_refl) as [_ Hn].
      apply Hn. now exists x.
  + split.
    * destruct (Cli.cli_path st); discriminate.
    * intros (l1 & x & l2 & y & Heq & Hfx & Hne & Hy & Hfy). exfalso. apply Hnr.
      exists l1, x, l2. repeat split; auto. now exists y.
  + intros d k v Hd Hk Hv. rewrite Happ.
    cbn [Cli.cli_args]. unfold Cli.cli_arg. rewrite (split_eq_pair k v Hk Hv).
    cbn [Cli.cli_path]. destruct (Cli.cli_path st); [|discriminate].
    injection Hd as <-. reflexivity.
- split; [|split].
  + split; [discriminate|]. intros Hall. exfalso.
    destruct Hr as [Hr _]. destruct (Hr eq_refl) as [[H _]|(l1 & x & l2 & Heq & Hfx & _)].
    * discriminate.
    * rewrite (Hall x) in Hfx; [discriminate|]. rewrite Heq. apply in_elt.
  + split; [intros _|reflexivity].
    destruct Hr as [Hr _]. destruct (Hr eq_refl) as [[H _]|(l1 & x & l2 & Heq & Hfx & Hne & y & Hy & Hfy)].
    * discriminate.
    * now exists l1, x, l2, y.
  + discriminate.
Qed.

(* ===================================================================== *)
(** * Concrete counts                                                     *)
(* ===================================================================== *)

Section Profiles.
Context {A : Arith}.

(** A candidate of a profile: hopeful, ballot order [k]. *)
Definition candidate (k : nat) (nm : string) : Candidate :=
  mkCandidate k nm k Hopeful V0 V0.

Definition ballot (b : Z * list nat) : Ballot :=
  mkBallot (fst b) (snd b) V1 V0 0.

(** The election a profile starts: [S] seats, the candidates [cs] and the
    ballot lines [bs]. *)
Definition profile (S : Z) (cs : list Candidate) (bs : list (Z * list nat))
  : Election :=
  mkElection S (fold_right Z.add 0 (map fst bs)) (map ballot bs)
             (mkRound 0 V0 V0 V0 V0 cs []) [].
End Profiles.

Definition meek_safe : Meek.Rule := Meek.mkRule false Meek.BatchSafe None.
Definition meek_none : Meek.Rule := Meek.mkRule false Meek.BatchNone None.
Definition warren_safe : Meek.Rule := Meek.mkRule true Meek.BatchSafe None.

(** The profile of [test_count.py]: two seats, Castor, Pollux and Helen,
  four ballots "Castor, Pollux" and two ballots "Helen". *)
Definition castor_pollux_helen {A : Arith} : Election :=
profile 2 [candidate 1 "Castor"; candidate 2 "Pollux"; candidate 3 "Helen"]
        [(4, [1; 2]%nat); (2, [3]%nat)].

(** The count with four digits: after the initialization, and in the first
  round at the top of the first pass. *)
Definition cph_start : @Election (FixedArith 4) :=
match Meek.init castor_pollux_helen with
| Ok E => E
| _ => castor_pollux_helen
end.

Definition cph_round1 : @Election (FixedArith 4) := newRound cph_start.

Definition cph_omega : @V (FixedArith 4) :=
Eval vm_compute in
  match @Meek.omega_value (FixedArith 4) meek_safe with Ok w => w | _ => 0 end.

Lemma iterate_priority_order_witness :
exists q : Z,
  Meek.calcQuota (Meek.distribute meek_safe cph_round1) = Ok q /\
  @priority_order (FixedArith 4) meek_safe cph_omega 60000 cph_round1 q.
Proof.
exists 20001. split; [reflexivity|].
apply iterate_priority_order. reflexivity.
Defined.

Lemma quota_and_hasQuota_witness :
exists q : Z,
  Meek.calcQuota (Meek.distribute meek_safe cph_round1) = Ok q /\
  @quota_rule (FixedArith 4) meek_safe cph_round1 q.
Proof.
exists 20001. split; [reflexivity|].
apply quota_and_hasQuota. reflexivity.
Defined.

(** Three sure-loser groups with a viable cut after the first, and the
  switch [defeat_batch = none]. *)
Definition three_hopefuls : @Election (FixedArith 4) :=
@mkElection (FixedArith 4) 1 12 []
           (@mkRound (FixedArith 4) 1 60001 120000 0 0
                    [@mkCandidate (FixedArith 4) 1 "A" 1 Hopeful 10000 10000;
                     @mkCandidate (FixedArith 4) 2 "B" 2 Hopeful 50000 10000;
                     @mkCandidate (FixedArith 4) 3 "C" 3 Hopeful 60000 10000] [])
           [].

(** C3 fails as it is stated: with [defeat_batch = none] there is a viable
  cut (after group 0) and yet [batchDefeat] returns nothing. *)
Lemma batchDefeat_none_counterexample :
let gs := @sortedGroups (FixedArith 4) 0
                         (sortByVote (hopeful (C (R three_hopefuls)))) in
@find_maxg (FixedArith 4) 0
           (nHopeful (C (R three_hopefuls)) - seatsLeftToFill three_hopefuls) gs
= Some 0%nat /\
length (concat (firstn 1 gs)) = 1%nat /\
@Meek.batchDefeat (FixedArith 4) meek_none three_hopefuls 0 = [].
Proof. repeat split; reflexivity. Qed.

(** The state after D.6 of the first pass of the first round. *)
Definition cph_tallied : @Election (FixedArith 4) :=
match Meek.tally meek_safe cph_round1 with
| Ok (_, E) => E
| _ => cph_round1
end.

Lemma cph_after_tally :
@after_tally (FixedArith 4) meek_safe cph_omega castor_pollux_helen cph_tallied.
Proof.
exists (60000 : @V (FixedArith 4)), cph_round1, true. split.
- apply (@iterate_start _ meek_safe cph_omega castor_pollux_helen cph_start).
  + apply head_init. reflexivity.
  + reflexivity.
- reflexivity.
Defined.

Lemma cph_NoDup : NoDup (map cid (C (R (@castor_pollux_helen (FixedArith 4))))).
Proof.
simpl. repeat constructor; simpl; intuition discriminate.
Defined.

Lemma cph_fresh : fresh (C (R (@castor_pollux_helen (FixedArith 4)))).
Proof.
intros c [<-|[<-|[<-|[]]]]; now left.
Defined.

Lemma meek_vote_conservation_witness : vote_conserved cph_tallied.
Proof.
apply (@meek_vote_conservation (FixedArith 4) (FixedLaws 4) meek_safe cph_omega
         eq_refl castor_pollux_helen cph_tallied cph_NoDup cph_fresh eq_refl
         cph_after_tally).
Defined.

Lemma hopeful_keep_factor_is_one_witness :
hopeful_inv cph_tallied.
Proof.
apply (proj1 (proj2 (proj2 (@hopeful_keep_factor_is_one (FixedArith 4) meek_safe
                              cph_omega castor_pollux_helen cph_NoDup eq_refl)))).
exact cph_after_tally.
Defined.

(* ===================================================================== *)
(** * The Warren branch with ballot lines of several ballots             *)
(* ===================================================================== *)

(** The Warren branch compares the keep factor, a weight, with
    [b.residual], the value of the whole ballot line, which starts at the
    multiplier.  A line of several ballots can so give more votes than it
    holds.  The two counts below use the rational kernel. *)

Definition get_or {T : Type} (d : T) (r : result T) : T :=
match r with
| Ok x => x
| _ => d
end.

Definition is_ok {T : Type} (r : result T) : bool :=
match r with
| Ok _ => true
| _ => false
end.

Lemma is_ok_get (T : Type) (d : T) (r : result T) :
  is_ok r = true -> r = Ok (get_or d r).
Proof. destruct r; simpl; congruence. Qed.




(** Two seats, three candidates, eleven ballots in five lines. *)
Definition warren_overfull : @Election RationalArith :=
profile 2 [candidate 0 "A"; candidate 1 "B"; candidate 2 "C"]
        [(1, [2; 0]%nat); (2, [0; 2; 1]%nat); (2, [2]%nat);
         (3, [1; 2]%nat); (3, [1; 0]%nat)].

(** C9, at a concrete count: the Warren count of [warren_overfull] returns
    with three candidates elected, for two seats and three candidates. *)
Theorem warren_elects_three_for_two_seats :
  is_ok (Meek.count warren_safe 20 20 warren_overfull) = true /\
  length (elected (C (R (get_or warren_overfull
                                (Meek.count warren_safe 20 20 warren_overfull)))))
  = 3%nat /\
  nSeats warren_overfull = 2 /\
  length (C (R warren_overfull)) = 3%nat /\
  withdrawn (C (R warren_overfull)) = [].
Proof. repeat split; vm_compute; reflexivity. Qed.

(** ** A Warren count that never returns *)

(** Two seats, four candidates, six ballots in five lines. *)
Definition warren_loop : @Election RationalArith :=
profile 2 [candidate 0 "A"; candidate 1 "B"; candidate 2 "C"; candidate 3 "D"]
        [(1, [2; 1; 3]%nat); (1, [0]%nat); (1, [1]%nat); (1, [0]%nat);
         (2, [2; 3; 0; 1]%nat)].

Definition wl_omega : @V RationalArith :=
get_or (Q2Qc 0) (@Meek.omega_value RationalArith warren_safe).

(** The states after the initialization, after round 1 (C is elected) and
    after round 2 (the surplus is negative, nobody is defeated). *)
Definition wl_start : @Election RationalArith :=
get_or warren_loop (Meek.init warren_loop).

Definition wl_round1 : @Election RationalArith :=
get_or wl_start (Meek.round warren_safe 1 wl_omega wl_start).

Definition wl_round2 : @Election RationalArith :=
get_or wl_round1 (Meek.round warren_safe 2 wl_omega wl_round1).

(** *** Equality of rational states, decided *)

Definition qc_eqb (a b : Qc) : bool := Qeq_bool a b.

Lemma qc_eqb_eq (a b : Qc) : qc_eqb a b = true -> a = b.
Proof. intros H. apply Qc_is_canon. now apply Qeq_bool_eq. Qed.

Fixpoint list_eqb {T : Type} (e : T -> T -> bool) (l l' : list T) : bool :=
match l, l' with
| [], [] => true
| x :: l1, y :: l2 => e x y && list_eqb e l1 l2
| _, _ => false
end.

Lemma list_eqb_eq (T : Type) (e : T -> T -> bool) :
  (forall x y, e x y = true -> x = y) ->
  forall l l', list_eqb e l l' = true -> l = l'.
Proof.
intros He. induction l as [|x l IH]; intros [|y l']; simpl; try discriminate; auto.
intros H. apply andb_prop in H. destruct H as [H1 H2].
f_equal; auto.
Qed.

Definition cand_eqb (c d : @Candidate RationalArith) : bool :=
Nat.eqb (cid c) (cid d) && String.eqb (cname c) (cname d)
&& Nat.eqb (order c) (order d) && status_eqb (cstatus c) (cstatus d)
&& qc_eqb (vote c) (vote d) && qc_eqb (kf c) (kf d).

Lemma cand_eqb_eq (c d : @Candidate RationalArith) : cand_eqb c d = true -> c = d.
Proof.
unfold cand_eqb. destruct c, d. simpl. intros H.
repeat (apply andb_prop in H; destruct H as [H ?]).
f_equal.
- now apply Nat.eqb_eq.
- now apply String.eqb_eq.
- now apply Nat.eqb_eq.
- now apply status_eqb_eq.
- now apply qc_eqb_eq.
- now apply qc_eqb_eq.
Qed.

Definition ballot_eqb (b d : @Ballot RationalArith) : bool :=
Z.eqb (multiplier b) (multiplier d) && list_eqb Nat.eqb (ranking b) (ranking d)
&& qc_eqb (weight b) (weight d) && qc_eqb (bresidual b) (bresidual d)
&& Nat.eqb (index b) (index d).

Lemma ballot_eqb_eq (b d : @Ballot RationalArith) : ballot_eqb b d = true -> b = d.
Proof.
unfold ballot_eqb. destruct b, d. simpl. intros H.
repeat (apply andb_prop in H; destruct H as [H ?]).
f_equal.
- now apply Z.eqb_eq.
- apply (list_eqb_eq Nat.eqb); [|assumption]. intros x y. apply Nat.eqb_eq.
- now apply qc_eqb_eq.
- now apply qc_eqb_eq.
- now apply Nat.eqb_eq.
Qed.

(** Seats, ballots and candidates are those of [E2]; the round number, the
    log, the figures of the round and the earlier rounds may differ. *)
Definition same_core (E E2 : @Election RationalArith) : bool :=
Z.eqb (nSeats E) (nSeats E2) && Z.eqb (nBallots E) (nBallots E2)
&& list_eqb ballot_eqb (ballots E) (ballots E2)
&& list_eqb cand_eqb (C (R E)) (C (R E2)).

Definition rebuild (E2 : @Election RationalArith) (r : @Round RationalArith)
           (hist : list (@Round RationalArith)) : @Election RationalArith :=
mkElection (nSeats E2) (nBallots E2) (ballots E2)
           (mkRound (n r) (quota r) (votes r) (surplus r) (residual r)
                    (C (R E2)) (log r))
           hist.

Lemma same_core_rebuild (E E2 : @Election RationalArith) :
  same_core E E2 = true -> E = rebuild E2 (R E) (rounds E).
Proof.
unfold same_core, rebuild. intros H.
repeat (apply andb_prop in H; destruct H as [H ?]).
apply Z.eqb_eq in H.
match goal with Hn : (nBallots _ =? _) = true |- _ => apply Z.eqb_eq in Hn end.
match goal with Hb : list_eqb ballot_eqb _ _ = true |- _ =>
  apply (list_eqb_eq ballot_eqb ballot_eqb_eq) in Hb end.
match goal with Hc : list_eqb cand_eqb _ _ = true |- _ =>
  apply (list_eqb_eq cand_eqb cand_eqb_eq) in Hc end.
destruct E as [s nb bs r hist]. destruct r as [k q v su re cs lg].
simpl in *. congruence.
Qed.

(** *** The rounds *)

Definition finishes (p : result (@Meek.pass_result RationalArith)) : bool :=
match p with
| Ok (Meek.Finished _ _ _) => true
| _ => false
end.

Definition goes_on (p : result (@Meek.pass_result RationalArith)) : bool :=
match p with
| Ok (Meek.Again _ _) => true
| _ => false
end.

(** A round whose first pass ends the iteration needs one unit of fuel. *)
Lemma round_first_pass (rule : Meek.Rule) (fuel : nat) (omega_ : @V RationalArith)
      (E : @Election RationalArith) :
  finishes (Meek.pass rule omega_ (of_int (nBallots (newRound E))) (newRound E)) = true ->
  Meek.round rule (S fuel) omega_ E = Meek.round rule 1 omega_ E.
Proof.
unfold Meek.round, Meek.iterate. cbn [Meek.iterate_from].
destruct (Meek.pass _ _ _ _) as [[s b E'|l E']| |]; simpl; try discriminate.
reflexivity.
Qed.

Lemma round_no_fuel (rule : Meek.Rule) (omega_ : @V RationalArith)
      (E : @Election RationalArith) :
  Meek.round rule 0 omega_ E = Timeout.
Proof. reflexivity. Qed.

(** From the state after round 2 on, a round changes nothing but the round
    number and the log. *)
Lemma wl_round_repeats (r : @Round RationalArith) (hist : list (@Round RationalArith)) :
  let E := rebuild wl_round2 r hist in
  Meek.countComplete E = false /\
  finishes (Meek.pass warren_safe wl_omega (of_int (nBallots (newRound E)))
                      (newRound E)) = true /\
  is_ok (Meek.round warren_safe 1 wl_omega E) = true /\
  same_core (get_or E (Meek.round warren_safe 1 wl_omega E)) wl_round2 = true.
Proof.
destruct r as [k q v su re cs lg]. cbv zeta. unfold rebuild. cbn [n quota votes surplus residual log].
repeat split; vm_compute; reflexivity.
Qed.

Lemma wl_loops (nrounds : nat) :
  forall (fuel : nat) (E : @Election RationalArith),
    same_core E wl_round2 = true ->
    Meek.rounds_loop warren_safe nrounds fuel wl_omega E = Timeout.
Proof.
induction nrounds as [|nrounds IH]; intros fuel E H;
  rewrite (same_core_rebuild E wl_round2 H);
  destruct (wl_round_repeats (R E) (rounds E)) as (Hcc & Hfin & Hok & Hcore);
  cbn [Meek.rounds_loop]; rewrite Hcc; [reflexivity|].
destruct fuel as [|fuel]; [reflexivity|].
rewrite (round_first_pass _ fuel _ _ Hfin).
rewrite (is_ok_get (rebuild wl_round2 (R E) (rounds E)) _ Hok). cbn [bind].
apply IH. exact Hcore.
Qed.

(** A round whose first pass goes on and whose second pass ends the
    iteration needs two units of fuel. *)
Lemma round_second_pass (rule : Meek.Rule) (fuel : nat) (omega_ : @V RationalArith)
      (E : @Election RationalArith) :
  match Meek.pass rule omega_ (of_int (nBallots (newRound E))) (newRound E) with
  | Ok (Meek.Again l E1) => finishes (Meek.pass rule omega_ l E1)
  | _ => false
  end = true ->
  Meek.round rule (S (S fuel)) omega_ E = Meek.round rule 2 omega_ E.
Proof.
unfold Meek.round, Meek.iterate. cbn [Meek.iterate_from].
destruct (Meek.pass _ _ _ _) as [[s b E'|l E']| |]; simpl; try discriminate.
destruct (Meek.pass _ _ _ _) as [[s b E''|l' E'']| |]; simpl; try discriminate.
reflexivity.
Qed.

Lemma wl_facts :
  is_ok (@Meek.omega_value RationalArith warren_safe) = true /\
  is_ok (Meek.init warren_loop) = true /\
  Meek.countComplete wl_start = false /\
  finishes (Meek.pass warren_safe wl_omega (of_int (nBallots (newRound wl_start)))
                      (newRound wl_start)) = true /\
  is_ok (Meek.round warren_safe 1 wl_omega wl_start) = true /\
  Meek.countComplete wl_round1 = false /\
  is_ok (Meek.round warren_safe 1 wl_omega wl_round1) = false /\
  match Meek.pass warren_safe wl_omega (of_int (nBallots (newRound wl_round1)))
                  (newRound wl_round1) with
  | Ok (Meek.Again l E1) => finishes (Meek.pass warren_safe wl_omega l E1)
  | _ => false
  end = true /\
  is_ok (Meek.round warren_safe 2 wl_omega wl_round1) = true /\
  same_core wl_round2 wl_round2 = true.
Proof. repeat split; vm_compute; reflexivity. Qed.

(** A count whose first round returns with any fuel, whose second round
    needs two passes, and which is stuck from there on, does not return. *)
Lemma count_stuck (rule : Meek.Rule) (omega_ : @V RationalArith)
      (E E0 E1 E2 : @Election RationalArith) :
  @Meek.omega_value RationalArith rule = Ok omega_ ->
  Meek.init E = Ok E0 ->
  Meek.countComplete E0 = false ->
  (forall fuel, Meek.round rule (S fuel) omega_ E0 = Ok E1) ->
  Meek.countComplete E1 = false ->
  Meek.round rule 1 omega_ E1 = Timeout ->
  (forall fuel, Meek.round rule (S (S fuel)) omega_ E1 = Ok E2) ->
  (forall nrounds fuel, Meek.rounds_loop rule nrounds fuel omega_ E2 = Timeout) ->
  forall nrounds fuel, Meek.count rule nrounds fuel E = Timeout.
Proof.
intros Hom Hinit Hcc0 Hr0 Hcc1 Hr1 Hr1' Hloop nrounds fuel.
unfold Meek.count. rewrite Hom. cbn [bind]. rewrite Hinit. cbn [bind].
destruct nrounds as [|n1]; cbn [Meek.rounds_loop]; rewrite Hcc0; [reflexivity|].
destruct fuel as [|fuel]; [reflexivity|].
rewrite Hr0. cbn [bind].
destruct n1 as [|n2]; cbn [Meek.rounds_loop]; rewrite Hcc1; [reflexivity|].
destruct fuel as [|fuel].
- rewrite Hr1. reflexivity.
- rewrite Hr1'. cbn [bind]. rewrite Hloop. reflexivity.
Qed.

Lemma wl_omega_value : @Meek.omega_value RationalArith warren_safe = Ok wl_omega.
Proof. unfold wl_omega. apply is_ok_get. apply wl_facts. Qed.

Lemma wl_init : Meek.init warren_loop = Ok wl_start.
Proof. unfold wl_start. apply is_ok_get. apply wl_facts. Qed.

Lemma wl_first_round (fuel : nat) :
  Meek.round warren_safe (S fuel) wl_omega wl_start = Ok wl_round1.
Proof.
rewrite round_first_pass by apply wl_facts.
unfold wl_round1. apply is_ok_get. apply wl_facts.
Qed.

Lemma wl_second_round_one_pass :
  Meek.round warren_safe 1 wl_omega wl_round1 = Timeout.
Proof.
destruct wl_facts as (_ & _ & _ & _ & _ & _ & _ & H & _).
unfold Meek.round, Meek.iterate. cbn [Meek.iterate_from].
destruct (Meek.pass _ _ _ _) as [[s b E'|l E']| |]; try discriminate.
reflexivity.
Qed.

Lemma wl_second_round (fuel : nat) :
  Meek.round warren_safe (S (S fuel)) wl_omega wl_round1 = Ok wl_round2.
Proof.
rewrite round_second_pass by apply wl_facts.
unfold wl_round2. apply is_ok_get. apply wl_facts.
Qed.

(** C8, at a concrete count: the Warren count of [warren_loop] does not
    return, whatever the number of rounds and of passes it is allowed.  From
    round 2 on the surplus is negative, the iteration ends with status Omega,
    no hopeful is within the surplus of the lowest vote, nobody is defeated
    and the next round finds the same state. *)
Theorem warren_count_never_returns (nrounds fuel : nat) :
  Meek.count warren_safe nrounds fuel warren_loop = Timeout.
Proof.
apply (@count_stuck warren_safe wl_omega warren_loop wl_start wl_round1 wl_round2).
- exact wl_omega_value.
- exact wl_init.
- apply wl_facts.
- exact wl_first_round.
- apply wl_facts.
- exact wl_second_round_one_pass.
- exact wl_second_round.
- intros n f. apply wl_loops. apply wl_facts.
Qed.

(** ** Counts with exact arithmetic *)

(** A count with exact arithmetic. *)
Definition cphq : @Election RationalArith := castor_pollux_helen.

Definition cphq_omega : @V RationalArith := get_or (Q2Qc 0) (@Meek.omega_value RationalArith meek_safe).

Definition cphq_start : @Election RationalArith := get_or cphq (Meek.init cphq).

Definition cphq_round1 : @Election RationalArith :=
get_or cphq_start (Meek.round meek_safe 50 cphq_omega cphq_start).

Lemma cphq_well_formed : well_formed cphq.
Proof.
split; [|split; [|split; [|split; [|split]]]].
- simpl. repeat constructor; simpl; intuition discriminate.
- intros c [<-|[<-|[<-|[]]]]; now left.
- reflexivity.
- reflexivity.
- simpl. lia.
- intros b [<-|[<-|[]]]; simpl; lia.
Defined.

Lemma cphq_head : at_head meek_safe cphq_omega cphq cphq_round1.
Proof.
apply (@head_round _ meek_safe cphq_omega cphq cphq_start cphq_round1 50%nat).
- apply head_init. unfold cphq_start. apply is_ok_get. vm_compute. reflexivity.
- vm_compute. reflexivity.
- unfold cphq_round1. apply is_ok_get. vm_compute. reflexivity.
Defined.

Lemma meek_rational_keep_factors_witness : keep_factors_ok cphq_round1.
Proof.
apply (proj1 (@meek_rational_keep_factors meek_safe cphq_omega cphq eq_refl
                cphq_well_formed)).
exact cphq_head.
Defined.

Lemma meek_rational_never_raises_witness :
raises (Meek.rounds_loop meek_safe 20 50 cphq_omega cphq_round1) = false.
Proof.
apply (proj1 (proj2 (@meek_rational_never_raises meek_safe cphq eq_refl
                       cphq_well_formed))).
exact cphq_head.
Defined.

Lemma meek_rational_quota_never_grows_witness :
ForallOrdPairs (fun later earlier : @Round RationalArith =>
                  (quota later <= quota earlier)%Qc)
               (R cphq_round1 :: rounds cphq_round1).
Proof.
apply (proj1 (@meek_rational_quota_never_grows meek_safe cphq_omega cphq eq_refl
                cphq_well_formed)).
exact cphq_head.
Defined.

Lemma meek_rational_seats_witness :
nElected (C (R cphq_round1)) <= nSeats cphq_round1.
Proof.
apply (proj1 (@meek_rational_seats meek_safe cphq eq_refl cphq_well_formed)
         cphq_omega).
exact cphq_head.
Defined.

Lemma meek_finish_outcome_witness :
hopeful (C (R (Meek.finish cphq_round1))) = [] /\
nElected (C (R (Meek.finish cphq_round1))) =
nElected (C (R cphq_round1)) +
Z.min (nHopeful (C (R cphq_round1)))
      (Z.max 0 (nSeats cphq_round1 - nElected (C (R cphq_round1)))).
Proof.
apply meek_finish_outcome.
vm_compute. repeat constructor; simpl; intuition discriminate.
Defined.

Definition cph_counted : @Election (FixedArith 4) :=
get_or castor_pollux_helen (Meek.count meek_safe 20 200 castor_pollux_helen).

Lemma meek_count_returns_complete_witness :
hopeful (C (R cph_counted)) = [] /\
exists omega_ E,
  Meek.omega_value meek_safe = Ok omega_ /\
  at_head meek_safe omega_ castor_pollux_helen E /\
  Meek.countComplete E = true /\ cph_counted = Meek.finish E.
Proof.
apply (@meek_count_returns_complete (FixedArith 4) meek_safe 20 200).
unfold cph_counted. apply is_ok_get. vm_compute. reflexivity.
Defined.

(** ** The record of the statuses, and counts of the WIGM counter *)

(** The count of [test_count.py] with four digits, after its first round. *)
Definition cph_round1_end : @Election (FixedArith 4) :=
get_or cph_start (Meek.round meek_safe 200 cph_omega cph_start).

Lemma cph_head : at_head meek_safe cph_omega castor_pollux_helen cph_round1_end.
Proof.
apply (@head_round _ meek_safe cph_omega castor_pollux_helen cph_start
                   cph_round1_end 200%nat).
- apply head_init. reflexivity.
- vm_compute. reflexivity.
- unfold cph_round1_end. apply is_ok_get. vm_compute. reflexivity.
Defined.

Lemma meek_statuses_settle_witness :
ForallOrdPairs (fun later earlier : @Round (FixedArith 4) =>
                  Forall2 settled (C earlier) (C later))
               (R cph_round1_end :: rounds cph_round1_end).
Proof.
apply (proj1 (@meek_statuses_settle (FixedArith 4) meek_safe cph_omega
                castor_pollux_helen cph_NoDup eq_refl)).
exact cph_head.
Defined.

(** The same profile in the WIGM counter: after step A, and counted. *)
Definition cph_wigm_init : @Election (FixedArith 4) :=
get_or castor_pollux_helen (Wigm.init castor_pollux_helen).

Definition cph_wigm_counted : @Election (FixedArith 4) :=
get_or castor_pollux_helen (Wigm.count false 6 castor_pollux_helen).

Lemma cph_wigm_start : @wigm_start 4 castor_pollux_helen.
Proof.
split; [exact cph_NoDup|]. split; [exact cph_fresh|]. split; [|split; [|split]].
- intros c [<-|[<-|[<-|[]]]]; reflexivity.
- intros b [<-|[<-|[]]]; split; simpl; try reflexivity; lia.
- reflexivity.
- simpl. lia.
Defined.

Lemma cph_wigm_NoDup : NoDup (map cid (C (R cph_wigm_init))).
Proof.
vm_compute. repeat constructor; simpl; intuition discriminate.
Defined.

Lemma wigm_rounds_bounded_witness :
Wigm.rounds_loop false 6 cph_wigm_init <> Timeout.
Proof.
apply (proj1 (@wigm_rounds_bounded (FixedArith 4) false cph_wigm_init
                cph_wigm_NoDup) 6%nat).
vm_compute. apply le_n.
Defined.

Lemma wigm_finish_outcome_witness :
hopeful (C (R (Wigm.finish cph_wigm_init))) = [] /\
pending (C (R (Wigm.finish cph_wigm_init))) = [] /\
nElected (C (R (Wigm.finish cph_wigm_init))) =
nElected (C (R cph_wigm_init)) + nPending (C (R cph_wigm_init)) +
Z.min (nHopeful (C (R cph_wigm_init)))
      (Z.max 0 (nSeats cph_wigm_init - nElected (C (R cph_wigm_init))
                - nPending (C (R cph_wigm_init)))).
Proof.
apply wigm_finish_outcome. exact cph_wigm_NoDup.
Defined.

Lemma wigm_votes_conserved_witness : wigm_inv cph_wigm_init.
Proof.
apply (proj1 (@wigm_votes_conserved 4 false ltac:(lia)) castor_pollux_helen).
- exact cph_wigm_start.
- unfold cph_wigm_init. apply is_ok_get. vm_compute. reflexivity.
Defined.

Lemma wigm_fills_the_seats_witness :
hopeful (C (R cph_wigm_counted)) = [] /\
pending (C (R cph_wigm_counted)) = [] /\
nElected (C (R cph_wigm_counted)) =
Z.min (nSeats (@castor_pollux_helen (FixedArith 4)))
      (nHopeful (C (R (@castor_pollux_helen (FixedArith 4))))).
Proof.
apply (@wigm_fills_the_seats 4 false 6 castor_pollux_helen).
- lia.
- exact cph_wigm_start.
- unfold cph_wigm_counted. apply is_ok_get. vm_compute. reflexivity.
Defined.

Lemma wigm_count_returns_witness :
exists E', Wigm.count false 6 (@castor_pollux_helen (FixedArith 4)) = Ok E'.
Proof.
apply wigm_count_returns.
- lia.
- exact cph_wigm_start.
- intros b [<-|[<-|[]]]; discriminate.
- vm_compute. apply le_n.
Defined.

(** The count of [test_count.py] with exact arithmetic, counted. *)
Definition cphq_counted : @Election RationalArith :=
get_or cphq (Meek.count meek_safe 20 50 cphq).

Lemma meek_rational_rounds_progress_witness :
Z.of_nat (length (rounds cphq_round1)) + nHopeful (C (R cphq_round1)) <=
nHopeful (C (R cphq)).
Proof.
apply (proj2 (@meek_rational_rounds_progress meek_safe cphq_omega cphq eq_refl
                cphq_well_formed)).
exact cphq_head.
Defined.

Lemma meek_rational_fills_the_seats_witness :
nElected (C (R cphq_counted)) = Z.min (nSeats cphq) (nHopeful (C (R cphq))).
Proof.
apply (@meek_rational_fills_the_seats meek_safe 20 50 cphq).
- reflexivity.
- exact cphq_well_formed.
- unfold cphq_counted. apply is_ok_get. vm_compute. reflexivity.
Defined.

(** ** The keep factors with fixed-point arithmetic *)

(** Three seats and four candidates; nineteen ballots "C, B" and five
  ballots "D". *)
Definition kf_rise : @Election (FixedArith 4) :=
profile 3 [candidate 0 "A"; candidate 1 "B"; candidate 2 "C"; candidate 3 "D"]
        [(19, [2; 1]%nat); (5, [3]%nat)].

Definition kf_rise_counted : @Election (FixedArith 4) :=
get_or kf_rise (Meek.count meek_safe 20 200 kf_rise).

(** Some candidate is elected in both rounds, with a larger keep factor in
  the later one. *)
Definition kf_rises {A : Arith} (earlier later : Round) : bool :=
existsb (fun c =>
           existsb (fun c' => Nat.eqb (cid c) (cid c') &&
                              has_status Elected c && has_status Elected c' &&
                              ltb (kf c) (kf c'))
                   (C later))
        (C earlier).

Lemma kf_rises_sound {A : Arith} (earlier later : Round) :
kf_rises earlier later = true ->
exists c c', In c (C earlier) /\ In c' (C later) /\ cid c = cid c' /\
             cstatus c = Elected /\ cstatus c' = Elected /\
             ltb (kf c) (kf c') = true.
Proof.
unfold kf_rises. intros H. apply existsb_exists in H. destruct H as (c & Hc & H).
apply existsb_exists in H. destruct H as (c' & Hc' & H).
apply andb_true_iff in H. destruct H as [H H4].
apply andb_true_iff in H. destruct H as [H H3].
apply andb_true_iff in H. destruct H as [H1 H2].
exists c, c'. repeat split; auto.
- now apply Nat.eqb_eq.
- now apply has_status_iff.
- now apply has_status_iff.
Qed.

(** C6 fails as it is stated: with four digits the count returns; C is
  elected in the first round; at the end of the second round its keep
  factor is 0.3158 and in the third, the last, it is 0.3159: D.8 rounds
  the product 0.3158 * 6.0001 up to 1.8949 and the quotient by the vote
  6.0002 up to 0.3159. *)
Lemma keep_factor_rises_counterexample :
Meek.count meek_safe 20 200 kf_rise = Ok kf_rise_counted /\
map (fun r => option_map (fun c => (cstatus c, kf c)) (lookup 2 (C r)))
    (R kf_rise_counted :: rounds kf_rise_counted) =
[Some (Elected, 3159); Some (Elected, 3158); Some (Elected, 10000);
 Some (Hopeful, 10000)] /\
exists earlier c c',
  In earlier (rounds kf_rise_counted) /\
  In c (C earlier) /\ In c' (C (R kf_rise_counted)) /\ cid c = cid c' /\
  cstatus c = Elected /\ cstatus c' = Elected /\ ltb (kf c) (kf c') = true.
Proof.
split; [|split].
- unfold kf_rise_counted. apply is_ok_get. vm_compute. reflexivity.
- vm_compute. reflexivity.
- exists (nth 0 (rounds kf_rise_counted) (R kf_rise_counted)).
  destruct (@kf_rises_sound (FixedArith 4)
              (nth 0 (rounds kf_rise_counted) (R kf_rise_counted))
              (R kf_rise_counted)) as (c & c' & H).
  + vm_compute. reflexivity.
  + exists c, c'. split; [|exact H].
    apply nth_In. apply Nat.ltb_lt. vm_compute. reflexivity.
Qed.

Lemma meek_keep_factors_bounded_monotone_witness : keep_factors_ok cphq_counted.
Proof.
apply (proj2 (@meek_keep_factors_bounded_monotone meek_safe cphq eq_refl
                cphq_well_formed) 20%nat 50%nat).
unfold cphq_counted. apply is_ok_get. vm_compute. reflexivity.
Defined.

(** ** The options and the command line *)

Lemma meek_options_bad_defeat_batch_sticks_witness :
  snd (RuleOptions.meek_options RuleOptions.meek_class0
         [("defeat_batch", RuleOptions.PStr "all")]%string) =
  Some RuleOptions.OptUsageError /\
  snd (RuleOptions.meek_options
         (fst (fst (RuleOptions.meek_options RuleOptions.meek_class0
                      [("defeat_batch", RuleOptions.PStr "all")]%string)))
         [("rule", RuleOptions.PStr "meek")]%string) <> None.
Proof.
  destruct (@meek_options_bad_defeat_batch_sticks RuleOptions.meek_class0
              [("defeat_batch", RuleOptions.PStr "all")]%string
              (RuleOptions.PStr "all") "meek"%string
              eq_refl eq_refl eq_refl) as (H1 & _ & H3).
  split; [exact H1|]. apply H3. reflexivity.
Defined.

Lemma meek_options_returns_witness :
  RuleOptions.meek_options RuleOptions.meek_class0
    [("rule", RuleOptions.PStr "warren"); ("variant", RuleOptions.PStr "stv");
     ("defeat_batch", RuleOptions.PStr "none")]%string =
  (RuleOptions.mkMeekClass (Some true) RuleOptions.PNone (RuleOptions.PStr "none"),
   [("rule", RuleOptions.PStr "warren"); ("variant", RuleOptions.PStr "stv");
    ("defeat_batch", RuleOptions.PStr "none");
    ("arithmetic", RuleOptions.PStr "guarded")]%string, None) /\
  RuleOptions.meek_options
    (RuleOptions.mkMeekClass (Some true) RuleOptions.PNone (RuleOptions.PStr "none"))
    [("rule", RuleOptions.PStr "warren"); ("variant", RuleOptions.PStr "stv");
     ("defeat_batch", RuleOptions.PStr "none");
     ("arithmetic", RuleOptions.PStr "guarded")]%string =
  (RuleOptions.mkMeekClass (Some true) RuleOptions.PNone (RuleOptions.PStr "none"),
   [("rule", RuleOptions.PStr "warren"); ("variant", RuleOptions.PStr "stv");
    ("defeat_batch", RuleOptions.PStr "none");
    ("arithmetic", RuleOptions.PStr "guarded")]%string, None).
Proof.
  split; [reflexivity|].
  apply (@meek_options_returns RuleOptions.meek_class0 _
           [("rule", RuleOptions.PStr "warren"); ("variant", RuleOptions.PStr "stv");
            ("defeat_batch", RuleOptions.PStr "none")]%string _ eq_refl).
Defined.

Lemma wigm_options_forces_arithmetic_witness :
  RuleOptions.get_default
    [("rule", RuleOptions.PStr "wigm-prf-batch");
     ("arithmetic", RuleOptions.PStr "rational")]%string
    "rule" (RuleOptions.w_name RuleOptions.wigm_class0) =
  RuleOptions.PStr "wigm-prf-batch" /\
  RuleOptions.w_defeatBatch
    (fst (fst (fst (RuleOptions.wigm_options RuleOptions.wigm_class0
                      [("rule", RuleOptions.PStr "wigm-prf-batch");
                       ("arithmetic", RuleOptions.PStr "rational")]%string []))))
  = true /\
  RuleOptions.dict_get
    (snd (fst (fst (RuleOptions.wigm_options RuleOptions.wigm_class0
                      [("rule", RuleOptions.PStr "wigm-prf-batch");
                       ("arithmetic", RuleOptions.PStr "rational")]%string []))))
    "arithmetic" = Some (RuleOptions.PStr "fixed").
Proof.
  split; [reflexivity|].
  pose proof (@wigm_options_forces_arithmetic RuleOptions.wigm_class0
                [("rule", RuleOptions.PStr "wigm-prf-batch");
                 ("arithmetic", RuleOptions.PStr "rational")]%string []
                "wigm-prf-batch"%string eq_refl) as H.
  destruct (RuleOptions.wigm_options RuleOptions.wigm_class0
              [("rule", RuleOptions.PStr "wigm-prf-batch");
               ("arithmetic", RuleOptions.PStr "rational")]%string [])
    as [[[c' d'] ignored'] raised].
  destruct H as (_ & Hc & Ha & _). cbn [fst snd].
  split; [rewrite Hc; reflexivity|exact Ha].
Defined.

Definition cli_arith : list string := ["fixed"; "integer"; "rational"; "guarded"]%string.
Definition cli_rules : list string := ["meek"; "warren"; "wigm-prf"; "wigm-prf-batch"]%string.

Lemma cli_ballot_file_witness :
  "meek"%string <> "help"%string /\
  Cli.cli cli_arith cli_rules ["meek"; "dump"; "path=x.blt"]%string =
  Cli.ExitNoBallotFile.
Proof.
  split; [discriminate|].
  apply (@cli_ballot_file cli_arith cli_rules "meek" ["dump"; "path=x.blt"]%string);
    [discriminate|].
  intros x [<-|[<-|[<-|[]]]]; reflexivity.
Defined.
